(** * ECARE entity resolution and merge engine: a shallow embedding

    The development follows [src/resolve/resolve_persons.py] (name
    normalizer, noise classifier, resolver) and
    [src/resolve/merge_entities.py] (metadata merge, relationship
    consolidation, noise disposition, duplicate clustering), with the
    table access of [src/utils/common.py].

    Part I gives the definitions, in the order of the Python modules.
    Part II states and proves the properties. *)

From Stdlib Require Import List Ascii String ZArith QArith Lqa Lia Bool Arith.
From stdpp Require Import gmap strings list.

Close Scope Q_scope.
Set Warnings "-register-all".

(* ===================================================================== *)
(** * Part I: definitions *)
(* ===================================================================== *)

(** ** Python strings

    A [str] is a sequence of characters.  The character tables are
    Python's for code points below 128, which is where the names of the
    corpus live; the remaining 8-bit characters are carried along as
    characters without case that are neither letters, digits nor blanks. *)

Abbreviation str := (list ascii).
Coercion list_ascii_of_string : string >-> list.

Definition strs (l : list string) : list str := map list_ascii_of_string l.

Module PyStr.

Definition code (c : ascii) : nat := nat_of_ascii c.

Definition between (lo hi : nat) (c : ascii) : bool :=
  (lo <=? code c) && (code c <=? hi).

(** [str.isspace] on one character: TAB..CR, FS..US and the blank. *)
Definition isspace (c : ascii) : bool := between 9 13 c || between 28 32 c.
Definition isupper (c : ascii) : bool := between 65 90 c.
Definition islower (c : ascii) : bool := between 97 122 c.
Definition isalpha (c : ascii) : bool := isupper c || islower c.
Definition isdigit (c : ascii) : bool := between 48 57 c.
(** The class [\w] of the [re] module. *)
Definition isword (c : ascii) : bool :=
  isalpha c || isdigit c || bool_decide (c = "_"%char).

Definition lower_c (c : ascii) : ascii :=
  if isupper c then ascii_of_nat (code c + 32) else c.
Definition upper_c (c : ascii) : ascii :=
  if islower c then ascii_of_nat (code c - 32) else c.

Definition lower (s : str) : str := map lower_c s.
Definition upper (s : str) : str := map upper_c s.

Definition str_eqb (a b : str) : bool := bool_decide (a = b).

(** [s.capitalize()] *)
Definition capitalize (s : str) : str :=
  match s with
  | [] => []
  | c :: r => upper_c c :: lower r
  end.

Fixpoint lstrip (s : str) : str :=
  match s with
  | c :: r => if isspace c then lstrip r else s
  | [] => []
  end.
Definition rstrip (s : str) : str := rev (lstrip (rev s)).
Definition strip (s : str) : str := rstrip (lstrip s).

Fixpoint startswith (s p : str) : bool :=
  match p, s with
  | [], _ => true
  | a :: p', b :: s' => bool_decide (a = b) && startswith s' p'
  | _ :: _, [] => false
  end.
Definition endswith (s p : str) : bool := startswith (rev s) (rev p).

(** [s[:-n]] for [n > 0], and [s[n:]]. *)
Definition drop_end (n : nat) (s : str) : str := take (length s - n) s.

(** [sub in s] *)
Fixpoint contains (sub s : str) : bool :=
  startswith s sub ||
  match s with
  | [] => false
  | _ :: r => contains sub r
  end.

Definition has_char (c : ascii) (s : str) : bool :=
  existsb (fun x => bool_decide (x = c)) s.

(** [s.split(c, 1)] when [c] occurs in [s]: the text before the first
    [c] and the text after it. *)
Fixpoint split_once (c : ascii) (s : str) : str * str :=
  match s with
  | [] => ([], [])
  | x :: r =>
      if bool_decide (x = c) then ([], r)
      else let '(a, b) := split_once c r in (x :: a, b)
  end.

(** [s.split()]: the maximal runs of non-blank characters.  [cur] holds
    the run being read, last character first. *)
Definition flush (cur : str) (k : list str) : list str :=
  match cur with
  | [] => k
  | _ :: _ => rev cur :: k
  end.

Fixpoint split_from (cur : str) (s : str) : list str :=
  match s with
  | [] => flush cur []
  | c :: r =>
      if isspace c then flush cur (split_from [] r)
      else split_from (c :: cur) r
  end.
Definition split (s : str) : list str := split_from [] s.

(** [sep.join(l)] *)
Fixpoint join (sep : str) (l : list str) : str :=
  match l with
  | [] => []
  | [w] => w
  | w :: ws => w ++ sep ++ join sep ws
  end.

(** [s.split(c)] for a one-character separator: empty pieces are kept. *)
Fixpoint split_on (c : ascii) (s : str) : list str :=
  match s with
  | [] => [[]]
  | x :: r =>
      if bool_decide (x = c) then [] :: split_on c r
      else match split_on c r with
           | w :: ws => (x :: w) :: ws
           | [] => [[x]]
           end
  end.

(** [s.replace(a, b)] for one-character [a] and [b]. *)
Definition replace_c (a b : ascii) (s : str) : str :=
  map (fun x => if bool_decide (x = a) then b else x) s.

Definition nonempty (s : str) : bool :=
  match s with [] => false | _ :: _ => true end.

End PyStr.

(** ** The fragment of the [re] module the program uses

    A backtracking matcher in continuation style: alternatives are tried
    left to right and a star takes as many rounds as it can before it
    gives one back, which is the order of Python's engine.  A position
    records the character before it (for [\b] and [^]) and the text that
    remains. *)

Module Re.
Import PyStr.

Inductive re : Type :=
| Eps
| Cls (p : ascii → bool)
| Cat (r1 r2 : re)
| Alt (r1 r2 : re)
| Star (r : re)
| Bol
| Eol
| Wb.

Record pos := Pos { prev : option ascii; rest : str }.

Definition start (s : str) : pos := Pos None s.

Definition advance (c : pos) : option pos :=
  match rest c with
  | [] => None
  | x :: xs => Some (Pos (Some x) xs)
  end.

Definition shorter (e c : pos) : bool := length (rest e) <? length (rest c).

Definition word_at (o : option ascii) : bool :=
  match o with
  | Some x => isword x
  | None => false
  end.

Fixpoint run (r : re) (k : pos → option pos) (c : pos) : option pos :=
  match r with
  | Eps => k c
  | Cls p =>
      match rest c with
      | x :: xs => if p x then k (Pos (Some x) xs) else None
      | [] => None
      end
  | Cat r1 r2 => run r1 (run r2 k) c
  | Alt r1 r2 =>
      match run r1 k c with
      | Some e => Some e
      | None => run r2 k c
      end
  | Star r' =>
      (fix rounds (n : nat) (c : pos) {struct n} : option pos :=
         match n with
         | 0 => k c
         | S n' =>
             match run r' (fun e => if shorter e c then rounds n' e else None) c with
             | Some e => Some e
             | None => k c
             end
         end) (length (rest c)) c
  | Bol => match prev c with None => k c | Some _ => None end
  | Eol =>
      match rest c with
      | [] => k c
      | [x] => if bool_decide (x = "010"%char) then k c else None
      | _ => None
      end
  | Wb => if xorb (word_at (prev c)) (word_at (head (rest c))) then k c else None
  end.

(** [pattern.match(s)]: a match at the start of [s]. *)
Definition matches (r : re) (s : str) : bool :=
  match run r Some (start s) with Some _ => true | None => false end.

(** [pattern.search(s)]: a match at some position of [s]. *)
Fixpoint search_from (r : re) (c : pos) (todo : str) : bool :=
  match run r Some c with
  | Some _ => true
  | None =>
      match todo with
      | [] => false
      | x :: xs => search_from r (Pos (Some x) xs) xs
      end
  end.
Definition search (r : re) (s : str) : bool := search_from r (start s) s.

(** [re.sub(pattern, repl, s)] with a literal replacement.  After an
    empty match the next attempt at the same position has to consume
    something ([must_advance] in the C source of the engine). *)
Fixpoint sub_go (fuel : nat) (r : re) (repl : str) (must : bool) (c : pos) : str :=
  match fuel with
  | 0 => rest c
  | S fuel' =>
      let k := fun e => if must then (if shorter e c then Some e else None) else Some e in
      match run r k c with
      | Some e =>
          if shorter e c then repl ++ sub_go fuel' r repl false e
          else repl ++ sub_go fuel' r repl true c
      | None =>
          match rest c with
          | [] => []
          | x :: xs => x :: sub_go fuel' r repl false (Pos (Some x) xs)
          end
      end
  end.
Definition sub (r : re) (repl : str) (s : str) : str :=
  sub_go (2 * length s + 2) r repl false (start s).

(** Pattern syntax. *)
Definition chr (a : ascii) : re := Cls (fun x => bool_decide (x = a)).
(** A letter under [re.IGNORECASE]. *)
Definition chri (a : ascii) : re := Cls (fun x => bool_decide (lower_c x = lower_c a)).
Definition lit (s : str) : re := fold_right (fun a r => Cat (chr a) r) Eps s.
Definition liti (s : str) : re := fold_right (fun a r => Cat (chri a) r) Eps s.
Definition plus (r : re) : re := Cat r (Star r).
Definition opt (r : re) : re := Alt r Eps.
Definition alts (l : list re) : re :=
  match l with
  | [] => Cls (fun _ => false)
  | r :: rs => fold_left Alt rs r
  end.
Definition seq (l : list re) : re := fold_right Cat Eps l.
Definition space : re := Cls isspace.
Definition digit : re := Cls isdigit.
Definition word : re := Cls isword.

End Re.

(** ** [resolve_persons.py]: normalizer and noise classifier *)

Module Names.
Import PyStr Re.

Definition NUMBERED_PATTERN : re :=
  alts [ seq [alts [liti "Jane"; liti "John"]; plus space; liti "Doe";
              Star space; opt (chr "#"); digit];
         seq [liti "Employee"; opt (Cls (fun x => bool_decide (x = "-"%char) || bool_decide (x = " "%char))); digit];
         seq [liti "Detective"; Star space; digit];
         seq [liti "Victim"; Star space; opt (chr "#"); digit] ].

Definition NOISE_SUBSTRINGS : list str := strs
  [ "unknown person"; "unknown company"; "unknown organization";
    "unidentified"; "unnamed"; "redacted"; "sealed";
    "various "; "multiple "; "participants"; "attendees";
    "author"; "narrator"; "reporter";
    "plaintiff"; "defendant"; "witness"; "victim"; "employee";
    "the government"; "the court"; "prosecution"; "defense counsel";
    "security clearance"; "technology industry" ].

Definition NOISE_REGEX : list re :=
  [ seq [Bol; liti "unknown";
         opt (seq [plus space;
                   alts [liti "person"; liti "individual"; liti "man"; liti "woman";
                         liti "company"; liti "organization"]]);
         Eol];
    seq [Bol; alts [liti "unidentified"; liti "unnamed"]; Wb];
    seq [Bol; alts [liti "various"; liti "multiple"]; Wb];
    seq [Bol; alts [liti "employee"; liti "victim"; liti "witness"];
         Star space; opt (chr "#"); plus digit; Wb];
    seq [Bol; alts [liti "john"; liti "jane"]; plus space; liti "doe";
         Star space; opt (chr "#"); plus digit; Wb];
    seq [Bol; chr "("; liti "b"; chr ")"; chr "("; plus digit; chr ")"] ].

Definition SUFFIXES : list str := strs
  [ ", Esq."; " Esq."; ", Jr."; " Jr."; ", Sr."; " Sr.";
    ", III"; " III"; ", II"; " II"; ", IV"; " IV";
    ", M.D."; " M.D."; ", Ph.D."; " Ph.D."; ", J.D."; " J.D." ].

(** The body of the loop over the suffixes. *)
Definition drop_suffix (s suffix : str) : str :=
  if endswith s suffix then strip (drop_end (length suffix) s) else s.

(** [\s*\([^)]*\)\s*] *)
Definition PAREN_NOTE : re :=
  seq [Star space; chr "("; Star (Cls (fun x => negb (bool_decide (x = ")"%char))));
       chr ")"; Star space].

(** The rewrite of ["LAST, FIRST"] into ["FIRST LAST"]. *)
Definition swap_comma (s : str) : str :=
  if has_char "," s then
    let '(a, b) := split_once "," s in
    let last := strip a in
    let first_middle := strip b in
    if nonempty first_middle && nonempty last
    then first_middle ++ " " ++ last
    else s
  else s.

Definition normalize_name (name : str) : str :=
  match name with
  | [] => []
  | _ :: _ =>
      let s := strip name in
      let s := fold_left drop_suffix SUFFIXES s in
      let s := swap_comma s in
      let s := sub PAREN_NOTE " " s in
      join " " (split s)
  end.

Definition get_short_name (name : str) : str :=
  let normalized := normalize_name name in
  let parts := split normalized in
  if length parts <=? 2 then normalized
  else default [] (head parts) ++ " " ++ default [] (last parts).

Definition is_numbered_reference (name : str) : bool :=
  search NUMBERED_PATTERN name.

Definition count_alpha (s : str) : nat := length (filter (fun c => isalpha c = true) s).

(** The last test compares the float [alpha / len(s)] with [0.35]; for
    lengths up to 90 (longer names are rejected above) the quotient is
    either [7/20] itself or further from it than any rounding, so the
    test is the comparison of [20 * alpha] with [7 * len(s)]. *)
Definition looks_like_non_entity (name : str) : bool :=
  match name with
  | [] => true
  | _ :: _ =>
      let s := strip name in
      if negb (nonempty s) then true
      else if has_char "010" s || has_char "009" s then true
      else if contains "http://" (lower s) || contains "https://" (lower s) then true
      else if has_char "@" s && has_char "." s then true
      else if (90 <? length s) || (7 <? length (split s)) then true
      else
        let alpha := count_alpha s in
        if alpha =? 0 then true
        else if (25 <=? length s) && (20 * alpha <? 7 * length s) then true
        else false
  end.

Definition is_noise_entity_name (name : str) : bool :=
  if looks_like_non_entity name then true
  else
    let lowered := strip (lower (normalize_name name)) in
    if negb (nonempty lowered) then true
    else if existsb (fun sub => contains sub lowered) NOISE_SUBSTRINGS then true
    else existsb (fun rx => search rx lowered) NOISE_REGEX.

Definition REDACTION_WORDS : list str := strs
  [ "unknown"; "unidentified"; "n/a"; "redacted"; "sealed" ].

Definition is_redaction_marker (name : str) : bool :=
  if negb (nonempty name) then true
  else
    let cleaned := lower (strip name) in
    if startswith cleaned "(b)" || startswith cleaned "(b)(" then true
    else if contains "[redacted]" cleaned || contains "[sealed]" cleaned then true
    else if bool_decide (cleaned ∈ REDACTION_WORDS) then true
    else if length cleaned <=? 1 then true
    else false.

End Names.

(** ** Ordering of strings and a stable sort

    Python compares strings by code point, and [list.sort] and [sorted]
    are stable. *)

Module PySort.
Import PyStr.

Fixpoint str_ltb (a b : str) : bool :=
  match a, b with
  | _, [] => false
  | [], _ :: _ => true
  | x :: a', y :: b' =>
      if code x <? code y then true
      else if code y <? code x then false
      else str_ltb a' b'
  end.

Section Sort.
Context {A : Type}.
(** [lt x y]: the key of [x] is strictly below the key of [y]. *)
Variable lt : A → A → bool.

(** [x] came before every element of [l] in the input, so it goes in
    front of the first element whose key is not below its own. *)
Fixpoint insert_sorted (x : A) (l : list A) : list A :=
  match l with
  | [] => [x]
  | y :: ys => if lt y x then y :: insert_sorted x ys else x :: y :: ys
  end.

Definition stable_sort (l : list A) : list A := fold_right insert_sorted [] l.
End Sort.

End PySort.

(** ** Python floats

    A Python [float] is an IEEE 754 binary64 number.  A finite float is
    written here as the rational it denotes, so that comparing two
    floats is comparing two rationals.  [round64 x] is the float
    nearest to [x], ties going to the even significand: the result of
    [int / int], of [float * float] and of reading a decimal literal
    applied to the exact value.  Subnormal results are rounded on the
    grid of [2^-1074]; the floats of this development are at most 3/2,
    so overflow does not arise and is not modelled. *)

Module Float.

(** [2^k] *)
Definition pow2 (k : Z) : Q :=
  match k with
  | Z0 => 1%Q
  | Zpos p => (Zpos (2 ^ p) # 1)%Q
  | Zneg p => (1 # (2 ^ p))%Q
  end.

(** [floor (log2 x)] for [0 < x] *)
Definition ilog2 (x : Q) : Z :=
  let k := (Z.log2 (Qnum x) - Z.log2 (Zpos (Qden x)))%Z in
  if Qle_bool (pow2 k) x then k else (k - 1)%Z.

(** The integer nearest to [0 <= x], ties to even. *)
Definition rne (x : Q) : Z :=
  let f := (Qnum x / Zpos (Qden x))%Z in
  match Qcompare (x - inject_Z f) (1 # 2) with
  | Lt => f
  | Gt => (f + 1)%Z
  | Eq => if Z.even f then f else (f + 1)%Z
  end.

(** [0 < x]: 53 significant bits, or the subnormal grid. *)
Definition round_pos (x : Q) : Q :=
  let e := Z.max (ilog2 x - 52) (-1074) in
  (inject_Z (rne (x / pow2 e)) * pow2 e)%Q.

Definition round64 (x : Q) : Q :=
  let x := Qred x in
  match Qnum x with
  | Z0 => 0%Q
  | Zpos _ => Qred (round_pos x)
  | Zneg _ => Qred (- round_pos (- x))
  end.

End Float.

(** ** The two functions of the [rapidfuzz] package

    [rapidfuzz] is a dependency, not part of the repository; the
    definitions follow its documentation.  [process.extractOne] returns
    the first choice of highest score among those that reach
    [score_cutoff], with its score and index, and stops at a score of
    100.  [fuzz.token_sort_ratio] sorts the words of both strings and
    returns the normalized Indel similarity of the results, scaled to
    [0, 100].  Scores are floats in Python and rationals here. *)

Module Rapidfuzz.
Import PyStr PySort.

Definition Qltb (a b : Q) : bool := negb (Qle_bool b a).

Fixpoint extract_from (scorer : str → str → Q) (query : str) (score_cutoff : Q)
    (best : option (str * Q * nat)) (i : nat) (choices : list str)
    : option (str * Q * nat) :=
  match choices with
  | [] => best
  | c :: cs =>
      let score := scorer query c in
      let better :=
        match best with
        | None => true
        | Some (_, b, _) => Qltb b score
        end in
      let best' := if Qle_bool score_cutoff score && better then Some (c, score, i) else best in
      if Qeq_bool score 100%Q then best'
      else extract_from scorer query score_cutoff best' (S i) cs
  end.

Definition extractOne (scorer : str → str → Q) (query : str) (choices : list str)
    (score_cutoff : Q) : option (str * Q * nat) :=
  extract_from scorer query score_cutoff None 0 choices.

(** Length of a longest common subsequence, row by row. *)
Fixpoint lcs_row (x : ascii) (b : str) (prev_row : list nat) (diag left : nat) : list nat :=
  match b, prev_row with
  | y :: b', up :: prev_row' =>
      let v := if bool_decide (x = y) then S diag else Nat.max up left in
      v :: lcs_row x b' prev_row' up v
  | _, _ => []
  end.

Definition lcs (a b : str) : nat :=
  let row := fold_left (fun row x => lcs_row x b row 0 0) a (map (fun _ => 0) b) in
  default 0 (last row).

Definition indel_distance (a b : str) : nat := length a + length b - 2 * lcs a b.

Definition ratio (a b : str) : Q :=
  match (length a + length b)%nat with
  | 0%nat => 100%Q
  | S n => (100 * (1 - (Z.of_nat (indel_distance a b) # Pos.of_succ_nat n)))%Q
  end.

Definition sorted_words (s : str) : str := join " " (stable_sort str_ltb (split s)).

Definition token_sort_ratio (a b : str) : Q := ratio (sorted_words a) (sorted_words b).

End Rapidfuzz.

(** ** JSON values

    The [aliases] and [metadata] columns hold JSON text; the embedding
    works on the parsed values.  A metadata object is a finite map from
    field names to values. *)

Inductive json : Type :=
| JNull
| JBool (b : bool)
| JInt (z : Z)
| JFloat (q : Q)
| JStr (s : str)
| JList (l : list json)
| JDict (d : list (str * json)).

Abbreviation meta := (gmap str json).

Module Json.

(** Truth value of a Python object, as [if x:] sees it. *)
Definition truthy (v : json) : bool :=
  match v with
  | JNull => false
  | JBool b => b
  | JInt z => negb (z =? 0)%Z
  | JFloat q => negb (Qeq_bool q 0%Q)
  | JStr s => PyStr.nonempty s
  | JList l => match l with [] => false | _ :: _ => true end
  | JDict d => match d with [] => false | _ :: _ => true end
  end.

(** [isinstance(v, (int, float))]: [bool] is a subclass of [int]. *)
Definition as_number (v : json) : option Q :=
  match v with
  | JBool b => Some (if b then 1%Q else 0%Q)
  | JInt z => Some (inject_Z z)
  | JFloat q => Some q
  | _ => None
  end.

End Json.

(** ** [resolve_persons.py]: the resolver *)

Record entity := Entity {
  canonical_name : str;
  aliases : list str;
  entity_type : str;
  metadata : meta
}.

(** A Python dict from canonical id to entity, in insertion order. *)
Definition registry := list (str * entity).

Definition registry_get (reg : registry) (cid : str) : option entity :=
  snd <$> find (fun p => bool_decide (fst p = cid)) reg.

Module Resolver.
Import PyStr Names Rapidfuzz.

Record EntityResolver := {
  reg : registry;
  fuzzy_threshold : Q;
  exact_lookup : gmap str str;
  all_names : list (str * str);
  _name_strings : list str
}.

(** The tables that [_index_name] updates. *)
Definition index : Type := gmap str str * list (str * str).

Definition _index_name (ix : index) (name canonical_id : str) : index :=
  let '(exact, names) := ix in
  (* raw form *)
  let exact := <[lower name := canonical_id]> exact in
  let names := names ++ [(name, canonical_id)] in
  (* normalized form *)
  let norm := lower (normalize_name name) in
  let '(exact, names) :=
    if nonempty norm && negb (str_eqb norm (lower name))
    then (<[norm := canonical_id]> exact, names ++ [(normalize_name name, canonical_id)])
    else (exact, names) in
  (* short form *)
  let short := lower (get_short_name name) in
  if nonempty short && negb (str_eqb short (lower name)) && negb (str_eqb short norm)
  then (<[short := canonical_id]> exact, names ++ [(get_short_name name, canonical_id)])
  else (exact, names).

Definition index_entity (ix : index) (p : str * entity) : index :=
  let '(cid, e) := p in
  let ix := _index_name ix (canonical_name e) cid in
  fold_left (fun ix alias => if nonempty alias then _index_name ix alias cid else ix)
            (aliases e) ix.

(** [EntityResolver.__init__] *)
Definition init (r : registry) (threshold : Q) : EntityResolver :=
  let '(exact, names) := fold_left index_entity r (∅, []) in
  {| reg := r; fuzzy_threshold := threshold; exact_lookup := exact;
     all_names := names; _name_strings := map fst names |}.

(** What a call of [resolve] produces: the returned triple, or the
    [KeyError] or [IndexError] of a failed lookup. *)
Inductive outcome : Type :=
| Ret (canonical_id : option str) (match_method : str) (confidence : Q)
| Raises.

(** Tier 1 for one form of the name; [None] when the form is not in
    [exact_lookup]. *)
Definition exact_tier (self : EntityResolver) (form : str) : option outcome :=
  match exact_lookup self !! form with
  | None => None
  | Some cid =>
      match registry_get (reg self) cid with
      | None => Some Raises
      | Some e =>
          if str_eqb form (lower (canonical_name e))
          then Some (Ret (Some cid) "exact" 1%Q)
          else Some (Ret (Some cid) "alias" (95 # 100)%Q)
      end
  end.

Fixpoint first_some {A B} (f : A → option B) (l : list A) : option B :=
  match l with
  | [] => None
  | x :: xs => match f x with Some y => Some y | None => first_some f xs end
  end.

Section Resolve.
(** [fuzz.token_sort_ratio] *)
Variable scorer : str → str → Q.

Definition fuzzy_tier (self : EntityResolver) (cleaned : str) : outcome :=
  if is_numbered_reference cleaned then Ret None "no_match" 0%Q
  else if negb (match _name_strings self with [] => false | _ :: _ => true end)
  then Ret None "no_match" 0%Q
  else
    let normalized := normalize_name cleaned in
    match extractOne scorer normalized (_name_strings self) (fuzzy_threshold self) with
    | Some (matched_name, score, idx) =>
        match all_names self !! idx with
        | None => Raises
        | Some (_, matched_cid) =>
            if (length normalized <=? 10) && Qltb score 95%Q
            then Ret None "no_match" 0%Q
            else Ret (Some matched_cid) "fuzzy" (score / 100)%Q
        end
    | None => Ret None "no_match" 0%Q
    end.

Definition resolve (self : EntityResolver) (source_name : str) : outcome :=
  if negb (nonempty source_name) || negb (nonempty (strip source_name))
  then Ret None "no_match" 0%Q
  else
    let cleaned := strip source_name in
    if is_noise_entity_name cleaned then Ret None "noise" 0%Q
    else
      match first_some (exact_tier self)
              [lower cleaned; lower (normalize_name cleaned); lower (get_short_name cleaned)] with
      | Some out => out
      | None => fuzzy_tier self cleaned
      end.
End Resolve.

(** [self.registry[canonical_id] = e]: an existing key keeps its place. *)
Definition registry_set (r : registry) (cid : str) (e : entity) : registry :=
  if bool_decide (cid ∈ map fst r)
  then map (fun p => if bool_decide (fst p = cid) then (cid, e) else p) r
  else r ++ [(cid, e)].

(** [aliases] and [metadata] are [None] when the caller leaves them out. *)
Definition add_to_registry (self : EntityResolver) (canonical_id canonical_name : str)
    (aliases : option (list str)) (entity_type : str) (metadata : option meta)
    : EntityResolver :=
  let e := Entity canonical_name (default [] aliases) entity_type (default ∅ metadata) in
  let ix := _index_name (exact_lookup self, all_names self) canonical_name canonical_id in
  let ix := fold_left (fun ix alias =>
                         if nonempty alias then _index_name ix alias canonical_id else ix)
                      (default [] aliases) ix in
  {| reg := registry_set (reg self) canonical_id e;
     fuzzy_threshold := fuzzy_threshold self;
     exact_lookup := fst ix;
     all_names := snd ix;
     _name_strings := map fst (snd ix) |}.

(** The state of the loop of [merge_aliases]: [existing],
    [existing_lower], the two lookup tables and [_name_strings]. *)
Definition alias_state : Type := list str * gset str * index * list str.

Definition merge_alias (canonical_id : str) (st : alias_state) (alias : str) : alias_state :=
  let '(existing, existing_lower, (exact, names), name_strings) := st in
  if nonempty alias && bool_decide (lower alias ∉ existing_lower)
  then (existing ++ [alias], existing_lower ∪ {[lower alias]},
        (<[lower alias := canonical_id]> exact, names ++ [(alias, canonical_id)]),
        name_strings ++ [alias])
  else st.

(** Returns the merged list and the resolver as the call leaves it. *)
Definition merge_aliases (self : EntityResolver) (canonical_id : str)
    (new_aliases : list str) : list str * EntityResolver :=
  match registry_get (reg self) canonical_id with
  | None => (new_aliases, self)
  | Some e =>
      let existing_lower : gset str :=
        list_to_set (map lower (aliases e)) ∪ {[lower (canonical_name e)]} in
      let '(existing, _, (exact, names), name_strings) :=
        fold_left (merge_alias canonical_id) new_aliases
                  (aliases e, existing_lower, (exact_lookup self, all_names self),
                   _name_strings self) in
      (existing,
       {| reg := registry_set (reg self) canonical_id
                   (Entity (canonical_name e) existing (entity_type e) (metadata e));
          fuzzy_threshold := fuzzy_threshold self;
          exact_lookup := exact;
          all_names := names;
          _name_strings := name_strings |})
  end.

End Resolver.

(** ** [merge_entities.py]: name heuristics of the cleanup pass *)

Module Cleanup.
Import PyStr Re Names.

Definition TITLE_PREFIXES : list str := strs
  [ "president "; "professor "; "prof. "; "senator "; "rep. ";
    "judge "; "justice "; "attorney "; "agent ";
    "dr. "; "mr. "; "mrs. "; "ms. "; "miss ";
    "sir "; "lord "; "lady "; "prince "; "princess ";
    "king "; "queen "; "sheikh "; "imam ";
    "general "; "colonel "; "captain "; "detective ";
    "governor "; "mayor "; "ambassador " ].

Definition EXPANDED_NOISE_EXACT : list str := strs
  [ "president"; "attorney"; "judge"; "senator"; "detective";
    "agent"; "officer"; "prosecutor"; "prosecutors"; "counsel";
    "public"; "communication"; "journalist"; "journalists";
    "applicant"; "appellant"; "respondent";
    "government"; "state"; "country";
    "federal prosecutors"; "federal agents"; "federal government";
    "law enforcement"; "defense counsel"; "legal counsel";
    "epstein case"; "jeffrey epstein appellate case" ].

Definition upper_AZ : re := Cls isupper.

(** Each pattern with its source text ([pat.pattern]). *)
Definition EXPANDED_NOISE_PATTERNS : list (str * re) :=
  [ ("^\w+\s+\?$" : str, seq [Bol; plus word; plus space; chr "?"; Eol]);
    ("^(Jeffrey\s+)?Epstein\s+(case|appellate|investigation|matter)" : str,
     seq [Bol; opt (seq [liti "Jeffrey"; plus space]); liti "Epstein"; plus space;
          alts [liti "case"; liti "appellate"; liti "investigation"; liti "matter"]]);
    ("^\w{1,2}$" : str, seq [Bol; word; opt word; Eol]);
    ("^[A-Z]\.[A-Z]\.$" : str, seq [Bol; upper_AZ; chr "."; upper_AZ; chr "."; Eol]) ].

Definition NOISE_FIRST_NAMES : list str := strs
  [ "mary"; "david"; "sarah"; "john"; "james"; "michael"; "robert";
    "tony"; "leon"; "eva"; "rebecca"; "bruce"; "roger"; "ralph";
    "warren"; "mark"; "steve"; "chris"; "peter"; "paul"; "george";
    "jane"; "tom"; "joe" ].

Definition PROTECTED_SINGLE_WORDS : list str := strs
  [ "hamas"; "isis"; "hezbollah"; "mossad"; "interpol";
    "libya"; "iraq"; "iran"; "syria"; "yemen"; "qatar"; "dubai";
    "harvard"; "yale"; "princeton"; "stanford"; "columbia"; "mit";
    "citibank"; "barclays"; "jpmorgan"; "wexner"; "victoria" ].

Definition mem (x : str) (l : list str) : bool := bool_decide (x ∈ l).

Definition is_expanded_noise (name : str) : bool :=
  if negb (nonempty name) || negb (nonempty (strip name)) then true
  else
    let s := strip name in
    if is_noise_entity_name s then true
    else
      let lowered := strip (lower s) in
      if mem lowered PROTECTED_SINGLE_WORDS then false
      else if mem lowered EXPANDED_NOISE_EXACT then true
      else if negb (has_char " " (strip s)) && mem lowered NOISE_FIRST_NAMES then true
      else if endswith s " ?" || (endswith s "?" && (length s <=? 15)) then true
      else existsb (fun pat => matches (snd pat) s) EXPANDED_NOISE_PATTERNS.

(** One pass of the [for] loop inside [strip_titles]. *)
Definition strip_pass (s : str) : str * bool :=
  fold_left
    (fun '(s, changed) prefix =>
       if startswith (lower s) prefix
       then (strip (drop (length prefix) s), true)
       else (s, changed))
    TITLE_PREFIXES (s, false).

(** The [while changed] loop; a pass that changes [s] shortens it, so
    [length s] rounds and one more are enough. *)
Fixpoint strip_loop (fuel : nat) (s : str) : str :=
  match fuel with
  | 0 => s
  | S fuel' =>
      let '(s', changed) := strip_pass s in
      if changed then strip_loop fuel' s' else s'
  end.

Definition strip_titles (name : str) : str :=
  let s := strip name in
  strip_loop (S (length s)) s.

Definition has_title (name : str) : bool :=
  existsb (fun p => startswith (lower name) p) TITLE_PREFIXES.

Definition title_part (part : str) : str :=
  if has_char "-" part then join "-" (map capitalize (split_on "-" part))
  else if str_eqb (upper part) part && (length part <=? 3) && has_char "." part then part
  else capitalize part.

(** [upper_ratio < 0.7] is decided on the integers, as for the noise
    filter above. *)
Definition to_title_case (name : str) : str :=
  let alpha_chars := filter (fun c => isalpha c = true) name in
  match alpha_chars with
  | [] => name
  | _ :: _ =>
      let uppers := length (filter (fun c => isupper c = true) alpha_chars) in
      if 10 * uppers <? 7 * length alpha_chars then name
      else join " " (map title_part (split name))
  end.

(** [[w for i, w in enumerate(words) if not (0 < i < len(words) - 1 and len(w) == 1)]] *)
Definition drop_middle_initials (words : list str) : list str :=
  let n := length words in
  map snd
    (filter (fun iw => negb ((0 <? fst iw) && (fst iw <? n - 1) && (length (snd iw) =? 1)) = true)
            (imap (fun i w => (i, w)) words)).

Definition clean_name_for_matching (name : str) : str :=
  let s := strip name in
  let s := strip_titles s in
  let s := to_title_case s in
  let s := normalize_name s in
  let s := strip (lower s) in
  let s := sub (Cls (fun x => bool_decide (x = "."%char) || bool_decide (x = ","%char))) [] s in
  let s := replace_c "-" " " s in
  let words := split s in
  let words :=
    match words with
    | w0 :: w1 :: _ :: _ => if str_eqb w0 w1 then tail words else words
    | _ => words
    end in
  let words := if 3 <=? length words then drop_middle_initials words else words in
  let s := join " " words in
  join " " (split s).

Definition _classify_noise (name : str) : str :=
  let lowered := lower (strip name) in
  if mem lowered EXPANDED_NOISE_EXACT then "generic_word:" ++ lowered
  else if negb (has_char " " (strip name)) && mem lowered NOISE_FIRST_NAMES
  then "standalone_first_name:" ++ lowered
  else if endswith name " ?" || endswith name "?" then "question_mark_placeholder"
  else if is_noise_entity_name name then "base_noise_filter"
  else
    match find (fun pat => matches (snd pat) name) EXPANDED_NOISE_PATTERNS with
    | Some pat => "pattern_match:" ++ fst pat
    | None => "expanded_noise"
    end.

(** The key [score] of [pick_survivor_name]; [upper_ratio > 0.7] is
    decided on the integers. *)
Definition score (n : str) : nat * nat * nat :=
  let alpha := filter (fun c => isalpha c = true) n in
  let uppers := length (filter (fun c => isupper c = true) alpha) in
  ((if has_title n then 0 else 1),
   (if 7 * length alpha <? 10 * uppers then 0 else 1),
   length n).

(** Python's order on tuples of integers. *)
Definition triple_ltb (a b : nat * nat * nat) : bool :=
  let '(a1, a2, a3) := a in
  let '(b1, b2, b3) := b in
  if a1 <? b1 then true
  else if b1 <? a1 then false
  else if a2 <? b2 then true
  else if b2 <? a2 then false
  else a3 <? b3.

Definition pick_survivor_name (name_a name_b : str) : str :=
  if negb (triple_ltb (score name_a) (score name_b)) then name_a else name_b.

(** The body of the loop of [find_name_cleanups]: the new name of an
    entity called [name]. *)
Definition new_name_of (name : str) : str :=
  let new_name := name in
  let stripped := strip_titles new_name in
  let new_name :=
    if nonempty stripped && negb (str_eqb stripped new_name) then stripped else new_name in
  let new_name := to_title_case new_name in
  let words := split new_name in
  let new_name :=
    match words with
    | w0 :: w1 :: _ :: _ =>
        if str_eqb (lower w0) (lower w1) then join " " (tail words) else new_name
    | _ => new_name
    end in
  join " " (split new_name).

End Cleanup.

(** ** The persisted store

    The five tables of [create_db.py] and [ensure_merges_table], each a
    list of rows in rowid order, with the columns the cleanup pass reads
    or writes.  JSON columns hold their parsed value, [None] for NULL.
    Weights are evidence counts, kept as integers. *)

Module Store.

Record entity_row := EntityRow {
  canonical_id : str;
  row_type : str;
  row_name : str;
  row_aliases : option (list str);
  row_metadata : option meta;
  last_updated : str
}.

Record relationship := Rel {
  relationship_id : Z;
  source_entity_id : str;
  target_entity_id : str;
  relationship_type : str;
  weight : option Z;
  source_documents : option (list str)
}.

Record relationship_source := Src {
  source_row_id : Z;
  of_relationship : Z;
  source_system : str
}.

Record resolution_log := Log {
  resolution_id : Z;
  resolved_to : str;
  source_entity_name : str
}.

Record merge_stats := Stats {
  relationships_repointed : nat;
  resolution_logs_repointed : nat;
  duplicate_rels_consolidated : nat
}.

Record entity_merge := MergeRow {
  survivor_id : str;
  absorbed_id : str;
  survivor_name : str;
  absorbed_name : str;
  merge_reason : str;
  match_key : str;
  counts : merge_stats;
  merged_at : str
}.

Record db := Db {
  canonical_entities : list entity_row;
  relationships : list relationship;
  relationship_sources : list relationship_source;
  entity_resolution_log : list resolution_log;
  entity_merges : list entity_merge
}.

Definition with_entities (f : list entity_row → list entity_row) (d : db) : db :=
  Db (f (canonical_entities d)) (relationships d) (relationship_sources d)
     (entity_resolution_log d) (entity_merges d).
Definition with_relationships (f : list relationship → list relationship) (d : db) : db :=
  Db (canonical_entities d) (f (relationships d)) (relationship_sources d)
     (entity_resolution_log d) (entity_merges d).
Definition with_sources (f : list relationship_source → list relationship_source) (d : db) : db :=
  Db (canonical_entities d) (relationships d) (f (relationship_sources d))
     (entity_resolution_log d) (entity_merges d).
Definition with_log (f : list resolution_log → list resolution_log) (d : db) : db :=
  Db (canonical_entities d) (relationships d) (relationship_sources d)
     (f (entity_resolution_log d)) (entity_merges d).
Definition with_merges (f : list entity_merge → list entity_merge) (d : db) : db :=
  Db (canonical_entities d) (relationships d) (relationship_sources d)
     (entity_resolution_log d) (f (entity_merges d)).

(** [UPDATE t SET ... WHERE p] and [DELETE FROM t WHERE p]. *)
Definition update_where {A} (p : A → bool) (f : A → A) (t : list A) : list A :=
  map (fun r => if p r then f r else r) t.
Definition delete_where {A} (p : A → bool) (t : list A) : list A :=
  filter (fun r => p r = false) t.
(** [cursor.rowcount] of an [UPDATE]. *)
Definition rowcount {A} (p : A → bool) (t : list A) : nat :=
  length (filter (fun r => p r = true) t).

Definition has_id (cid : str) (e : entity_row) : bool := bool_decide (canonical_id e = cid).

(** [SELECT ... FROM canonical_entities WHERE canonical_id = ?] with
    [fetchone()]. *)
Definition fetch_entity (d : db) (cid : str) : option entity_row :=
  find (has_id cid) (canonical_entities d).

(** [WHERE source_entity_id = ? OR target_entity_id = ?] *)
Definition touches (cid : str) (r : relationship) : bool :=
  bool_decide (source_entity_id r = cid) || bool_decide (target_entity_id r = cid).

Definition edges_of (d : db) (cid : str) : list relationship :=
  filter (fun r => touches cid r = true) (relationships d).

Definition rel_is (rid : Z) (r : relationship) : bool := bool_decide (relationship_id r = rid).
Definition src_of (rid : Z) (s : relationship_source) : bool := bool_decide (of_relationship s = rid).

(** [load_canonical_registry] of [common.py] *)
Definition load_canonical_registry (d : db) : registry :=
  map (fun row =>
         (canonical_id row,
          {| canonical_name := row_name row;
             aliases := default [] (row_aliases row);
             entity_type := row_type row;
             metadata := default ∅ (row_metadata row) |}))
      (canonical_entities d).

End Store.

(** ** [common.py] and [validate.py]: further queries on the store *)

Module Common.
Import PyStr PySort Json Store.

(** [fetchone()] takes the first matching row in table order. *)
Definition find_existing_relationship (d : db) (source_id target_id rel_type : str)
    : option Z :=
  relationship_id <$>
    find (fun r =>
            ((bool_decide (source_entity_id r = source_id)
              && bool_decide (target_entity_id r = target_id))
             || (bool_decide (source_entity_id r = target_id)
                 && bool_decide (target_entity_id r = source_id)))
            && bool_decide (relationship_type r = rel_type))
         (relationships d).

Definition excluded (m : meta) : bool :=
  match m !! ("exclude_from_analysis" : str) with
  | Some v => truthy v
  | None => false
  end.

Definition is_excluded_from_analysis (d : db) (canonical_id : str) : bool :=
  match fetch_entity d canonical_id with
  | Some row =>
      match row_metadata row with
      | Some m => excluded m
      | None => false
      end
  | None => false
  end.

(** The [LIKE '%exclude_from_analysis%'] filter reads the JSON text; it
    lets through every row whose object has the key, and the loop keeps
    only those. *)
Definition load_excluded_ids (d : db) : gset str :=
  fold_left
    (fun (ids : gset str) row =>
       if excluded (default ∅ (row_metadata row)) then ids ∪ {[Store.canonical_id row]}
       else ids)
    (canonical_entities d) ∅.

(** [sort_key] inside [append_relationship_documents]. *)
Definition sort_key (x : str) : nat * str :=
  let ux := upper x in
  if startswith ux "EFTA" then (0, ux)
  else if startswith ux "DOJ-OGR" then (1, ux)
  else (2, ux).

Definition key_ltb (a b : nat * str) : bool :=
  if fst a <? fst b then true
  else if fst b <? fst a then false
  else str_ltb (snd a) (snd b).

Section Documents.
(** The order in which Python enumerates a set of strings. *)
Variable set_order : list str → list str.

(** [cap] is a count, as in every call of the repository. *)
Definition append_relationship_documents (d : db) (relationship_id : Z)
    (doc_keys : list str) (cap : nat) : db :=
  let keys := filter (fun k => nonempty k = true) doc_keys in
  match keys with
  | [] => d
  | _ :: _ =>
      let loaded :=
        match find (rel_is relationship_id) (relationships d) with
        | Some row => default [] (source_documents row)
        | None => []
        end in
      let existing := filter (fun x => nonempty x = true) loaded ++ keys in
      let merged :=
        take cap (stable_sort (fun x y => key_ltb (sort_key x) (sort_key y))
                              (set_order existing)) in
      with_relationships
        (update_where (rel_is relationship_id)
           (fun r => Rel (Store.relationship_id r) (source_entity_id r) (target_entity_id r)
                         (relationship_type r) (weight r) (Some merged))) d
  end.
End Documents.

(** The integrity counts of [validate.py]. *)
Definition exists_id (d : db) (cid : str) : bool :=
  existsb (has_id cid) (canonical_entities d).

(** Orphaned relationships: an endpoint is not a canonical entity. *)
Definition orphaned (d : db) : nat :=
  length (filter (fun r => (negb (exists_id d (source_entity_id r))
                            || negb (exists_id d (target_entity_id r))) = true)
                 (relationships d)).

(** Entities with no resolution-log entry. *)
Definition no_log (d : db) : nat :=
  length (filter (fun e => negb (existsb (fun l => bool_decide (resolved_to l = Store.canonical_id e))
                                         (entity_resolution_log d)) = true)
                 (canonical_entities d)).

End Common.

(** ** [merge_entities.py]: the merge and cleanup engine *)

Module Merge.
Import PyStr PySort Float Names Cleanup Rapidfuzz Json Store.

(** *** [_merge_metadata] *)

(** The key under which the list union remembers an item.  Numbers
    (booleans included) hash and compare by value; a list or an object
    cannot be put in a set. *)
Inductive hkey : Type :=
| KNone
| KNum (q : Q)
| KStr (s : str).

Definition hkey_eqb (a b : hkey) : bool :=
  match a, b with
  | KNone, KNone => true
  | KNum p, KNum q => Qeq_bool p q
  | KStr s, KStr t => str_eqb s t
  | _, _ => false
  end.

Definition item_key (item : json) : option hkey :=
  match item with
  | JStr s => Some (KStr (lower s))
  | JNull => Some KNone
  | JBool _ | JInt _ | JFloat _ => KNum <$> as_number item
  | JList _ | JDict _ => None
  end.

(** The loop over [surv_val + abs_val]; [None] is the [TypeError] of an
    unhashable item. *)
Fixpoint union_items (seen : list hkey) (items : list json) : option (list json) :=
  match items with
  | [] => Some []
  | item :: rest =>
      match item_key item with
      | None => None
      | Some k =>
          if existsb (hkey_eqb k) seen then union_items seen rest
          else cons item <$> union_items (k :: seen) rest
      end
  end.

Inductive update : Type :=
| Keep
| Assign (v : json)
| TypeError.

(** The body of the loop over [absorbed_meta.items()], given
    [merged.get(key)]. *)
Definition merge_field (surv_val : option json) (abs_val : json) : update :=
  match surv_val with
  | None | Some JNull => Assign abs_val
  | Some sv =>
      match as_number sv, as_number abs_val with
      | Some a, Some b => Assign (if Qltb a b then abs_val else sv)
      | _, _ =>
          match sv, abs_val with
          | JList l1, JList l2 =>
              match union_items [] (l1 ++ l2) with
              | Some result => Assign (JList result)
              | None => TypeError
              end
          | JBool b1, JBool b2 => Assign (JBool (b1 || b2))
          | _, _ => Keep
          end
      end
  end.

Definition merge_step (merged : option meta) (kv : str * json) : option meta :=
  match merged with
  | None => None
  | Some m =>
      match merge_field (m !! kv.1) kv.2 with
      | Keep => Some m
      | Assign v => Some (<[kv.1 := v]> m)
      | TypeError => None
      end
  end.

(** [None] when the merge raises. *)
Definition _merge_metadata (survivor_meta absorbed_meta : meta) : option meta :=
  fold_left merge_step (map_to_list absorbed_meta) (Some survivor_meta).

(** *** Graph queries *)

Definition _get_prominence (d : db) (cid : str) : nat := length (edges_of d cid).

Definition _get_neighbors (d : db) (cid : str) : gset str :=
  fold_left
    (fun (neighbors : gset str) r =>
       let neighbors :=
         if bool_decide (source_entity_id r ≠ cid) then neighbors ∪ {[source_entity_id r]}
         else neighbors in
       if bool_decide (target_entity_id r ≠ cid) then neighbors ∪ {[target_entity_id r]}
       else neighbors)
    (edges_of d cid) ∅.

(** Jaccard overlap of two neighbor sets: [intersection / union] on two
    integers is the float nearest to the quotient. *)
Definition jaccard (a b : gset str) : Q :=
  round64 (Z.of_nat (size (a ∩ b)) # Pos.of_nat (size (a ∪ b)))%Q.

Record overlap_state := Overlap {
  best_overlap : Q;
  best_candidate : option (str * str);
  second_best : Q
}.

Definition overlap_step (d : db) (absorbed_neighbors : gset str)
    (st : overlap_state) (cand : str * str) : overlap_state :=
  let cand_neighbors := _get_neighbors d cand.1 in
  if bool_decide (size cand_neighbors = 0) then st
  else if bool_decide (size (absorbed_neighbors ∪ cand_neighbors) = 0) then st
  else
    let j := jaccard absorbed_neighbors cand_neighbors in
    if Qltb (best_overlap st) j then Overlap j (Some cand) (best_overlap st)
    else if Qltb (second_best st) j then Overlap (best_overlap st) (best_candidate st) j
    else st.

Definition _disambiguate_by_graph (d : db) (absorbed_cid : str)
    (candidates : list (str * str)) : option (str * str) :=
  let absorbed_neighbors := _get_neighbors d absorbed_cid in
  if bool_decide (size absorbed_neighbors = 0) then None
  else
    let st := fold_left (overlap_step d absorbed_neighbors) candidates
                        (Overlap 0%Q None 0%Q) in
    match best_candidate st with
    | Some cand =>
        if Qle_bool (round64 (5 # 100)) (best_overlap st)
           && Qltb (round64 (second_best st * (3 # 2))) (best_overlap st)
        then Some cand
        else None
    | None => None
    end.

(** *** Operations on the store

    [set_order] is the order in which Python enumerates a set of
    strings built from a list (it depends on the hash seed of the
    process); [now_iso] is the reading of the clock. *)

Section Engine.
Variable set_order : list str → list str.
Variable now_iso : str.

(** A [defaultdict(list)]: keys in order of first insertion. *)
Fixpoint dd_append {K V} `{EqDecision K} (k : K) (v : V) (dd : list (K * list V))
    : list (K * list V) :=
  match dd with
  | [] => [(k, [v])]
  | (k', vs) :: dd' =>
      if decide (k = k') then (k', vs ++ [v]) :: dd'
      else (k', vs) :: dd_append k v dd'
  end.

Definition dd_get {K V} `{EqDecision K} (k : K) (dd : list (K * list V)) : list V :=
  match find (fun p => bool_decide (p.1 = k)) dd with
  | Some p => p.2
  | None => []
  end.

(** [tuple(sorted([source, target]))] with the relationship type. *)
Definition group_key (r : relationship) : str * str * str :=
  if str_ltb (target_entity_id r) (source_entity_id r)
  then (target_entity_id r, source_entity_id r, relationship_type r)
  else (source_entity_id r, target_entity_id r, relationship_type r).

Definition group_edges (rels : list relationship)
    : list (str * str * str * list relationship) :=
  fold_left (fun groups r => dd_append (group_key r) r groups) rels [].

Definition weight_or_0 (r : relationship) : Z := default 0%Z (weight r).

(** [group.sort(key=lambda r: -(r["weight"] or 0))] *)
Definition by_weight_desc (x y : relationship) : bool :=
  (- weight_or_0 x <? - weight_or_0 y)%Z.

(** The body of the loop over [group[1:]].  [survivor_rel] and [loser]
    are the rows as they were fetched at the start of the routine. *)
Definition absorb_edge (survivor_rel : relationship) (d : db) (loser : relationship) : db :=
  let survivor_rid := relationship_id survivor_rel in
  let loser_rid := relationship_id loser in
  let surv_docs := default [] (source_documents survivor_rel) in
  let loser_docs := default [] (source_documents loser) in
  let merged_docs := take 200 (set_order (surv_docs ++ loser_docs)) in
  let new_weight := (weight_or_0 survivor_rel + weight_or_0 loser)%Z in
  let d := with_relationships
             (update_where (rel_is survivor_rid)
                (fun r => Rel (relationship_id r) (source_entity_id r) (target_entity_id r)
                              (relationship_type r) (Some new_weight) (Some merged_docs))) d in
  let d := with_sources
             (update_where (src_of loser_rid)
                (fun s => Src (source_row_id s) survivor_rid (source_system s))) d in
  with_relationships (delete_where (rel_is loser_rid)) d.

Definition consolidate_group (acc : nat * db) (kg : str * str * str * list relationship)
    : nat * db :=
  let '(consolidated, d) := acc in
  let group := kg.2 in
  if length group <? 2 then acc
  else
    match stable_sort by_weight_desc group with
    | [] => acc
    | survivor_rel :: losers =>
        (consolidated + length losers, fold_left (absorb_edge survivor_rel) losers d)
    end.

Definition _consolidate_duplicate_relationships (d : db) (entity_id : str) : nat * db :=
  let rels := edges_of d entity_id in
  fold_left consolidate_group (group_edges rels) (0, d).

(** *** [merge_entity_pair] *)

Definition zero_stats : merge_stats := Stats 0 0 0.

(** Steps 1 of the merge: the alias list of the survivor. *)
Definition add_alias (acc : list str * gset str) (alias : str) : list str * gset str :=
  let '(surv_aliases, existing_lower) := acc in
  if nonempty alias && bool_decide (lower alias ∉ existing_lower)
  then (surv_aliases ++ [alias], existing_lower ∪ {[lower alias]})
  else acc.

Definition merged_aliases (survivor absorbed : entity_row) : list str :=
  let surv_aliases := default [] (row_aliases survivor) in
  let abs_aliases := default [] (row_aliases absorbed) in
  let existing_lower : gset str :=
    list_to_set (map lower surv_aliases) ∪ {[lower (row_name survivor)]} in
  let acc :=
    if bool_decide (lower (row_name absorbed) ∉ existing_lower)
    then (surv_aliases ++ [row_name absorbed],
          existing_lower ∪ {[lower (row_name absorbed)]})
    else (surv_aliases, existing_lower) in
  (fold_left add_alias abs_aliases acc).1.

Definition repoint_source (survivor_id : str) (r : relationship) : relationship :=
  Rel (relationship_id r) survivor_id (target_entity_id r)
      (relationship_type r) (weight r) (source_documents r).
Definition repoint_target (survivor_id : str) (r : relationship) : relationship :=
  Rel (relationship_id r) (source_entity_id r) survivor_id
      (relationship_type r) (weight r) (source_documents r).

Definition is_self_ref (cid : str) (r : relationship) : bool :=
  bool_decide (source_entity_id r = cid) && bool_decide (target_entity_id r = cid).

Definition delete_edge (d : db) (rid : Z) : db :=
  let d := with_sources (delete_where (src_of rid)) d in
  with_relationships (delete_where (rel_is rid)) d.

(** The result is [None] when [_merge_metadata] raises. *)
Definition merge_entity_pair (d : db) (survivor_id absorbed_id reason match_key : str)
    (dry_run : bool) : option (merge_stats * db) :=
  match fetch_entity d survivor_id, fetch_entity d absorbed_id with
  | Some survivor, Some absorbed =>
      if dry_run then Some (zero_stats, d)
      else
        (* 1. aliases *)
        let surv_aliases := merged_aliases survivor absorbed in
        let d := with_entities
                   (update_where (has_id survivor_id)
                      (fun e => EntityRow (canonical_id e) (row_type e) (row_name e)
                                          (Some surv_aliases) (row_metadata e) now_iso)) d in
        (* 1b. metadata *)
        let surv_meta := default ∅ (row_metadata survivor) in
        let abs_meta := default ∅ (row_metadata absorbed) in
        match _merge_metadata surv_meta abs_meta with
        | None => None
        | Some merged_meta =>
            let d := with_entities
                       (update_where (has_id survivor_id)
                          (fun e => EntityRow (canonical_id e) (row_type e) (row_name e)
                                              (row_aliases e) (Some merged_meta)
                                              (last_updated e))) d in
            (* 2. repoint relationships, one column after the other *)
            let from_absorbed := fun r => bool_decide (source_entity_id r = absorbed_id) in
            let n_source := rowcount from_absorbed (relationships d) in
            let d := with_relationships
                       (update_where from_absorbed (repoint_source survivor_id)) d in
            let to_absorbed := fun r => bool_decide (target_entity_id r = absorbed_id) in
            let n_target := rowcount to_absorbed (relationships d) in
            let d := with_relationships
                       (update_where to_absorbed (repoint_target survivor_id)) d in
            (* 3. repoint entity_resolution_log *)
            let logged := fun l => bool_decide (resolved_to l = absorbed_id) in
            let n_logs := rowcount logged (entity_resolution_log d) in
            let d := with_log
                       (update_where logged
                          (fun l => Log (resolution_id l) survivor_id (source_entity_name l))) d in
            (* 4. consolidate duplicate relationships *)
            let '(n_dups, d) := _consolidate_duplicate_relationships d survivor_id in
            (* 5. self-referential relationships *)
            let self_refs := map relationship_id
                               (filter (fun r => is_self_ref survivor_id r = true)
                                       (relationships d)) in
            let d := fold_left delete_edge self_refs d in
            (* 6. the absorbed entity *)
            let d := with_entities (delete_where (has_id absorbed_id)) d in
            (* 7. audit row *)
            let stats := Stats (n_source + n_target) n_logs n_dups in
            let d := with_merges
                       (fun t => t ++ [MergeRow survivor_id absorbed_id (row_name survivor)
                                                (row_name absorbed) reason match_key
                                                stats now_iso]) d in
            Some (stats, d)
        end
  | _, _ => Some (zero_stats, d)
  end.

(** *** Noise disposition *)

Record noise_stats := NoiseStats { relationships_deleted : nat; sources_deleted : nat }.

Definition delete_noise_entity (d : db) (cid name reason : str) (dry_run : bool)
    : noise_stats * db :=
  if dry_run then (NoiseStats 0 0, d)
  else
    let rel_ids := map relationship_id (edges_of d cid) in
    let d := fold_left delete_edge rel_ids d in
    let d := with_log (delete_where (fun l => bool_decide (resolved_to l = cid))) d in
    let d := with_entities (delete_where (has_id cid)) d in
    let d := with_merges
               (fun t => t ++ [MergeRow "NOISE_DELETED" cid "N/A" name
                                        ("noise_removal: " ++ reason) (lower name)
                                        zero_stats now_iso]) d in
    (NoiseStats (length rel_ids) (length rel_ids), d).

Definition flag_noise_entity (d : db) (cid name reason : str) (dry_run : bool) : db :=
  if dry_run then d
  else
    let meta0 : meta :=
      match fetch_entity d cid with
      | Some row => default ∅ (row_metadata row)
      | None => ∅
      end in
    let meta1 := <[("exclude_reason" : str) := JStr reason]>
                   (<[("exclude_from_analysis" : str) := JBool true]> meta0) in
    with_entities
      (update_where (has_id cid)
         (fun e => EntityRow (canonical_id e) (row_type e) (row_name e)
                             (row_aliases e) (Some meta1) now_iso)) d.

Definition already_flagged (e : entity) : bool :=
  match metadata e !! ("exclude_from_analysis" : str) with
  | Some v => truthy v
  | None => false
  end.

Definition noise_step (d : db)
    (acc : list (str * str * str) * list (str * str * str)) (ce : str * entity)
    : list (str * str * str) * list (str * str * str) :=
  let '(deletable, flaggable) := acc in
  let '(cid, e) := ce in
  let name := canonical_name e in
  if negb (is_expanded_noise name) then acc
  else if already_flagged e then acc
  else
    let prom := _get_prominence d cid in
    let reason := _classify_noise name in
    if 50 <? prom then (deletable, flaggable ++ [(cid, name, reason)])
    else (deletable ++ [(cid, name, reason)], flaggable).

(** Returns [(deletable, flaggable)]. *)
Definition find_noise_entities (d : db)
    : list (str * str * str) * list (str * str * str) :=
  fold_left (noise_step d) (load_canonical_registry d) ([], []).

(** Phase 1 of [main]. *)
Definition phase_noise (d : db) (dry_run : bool) : db :=
  let '(deletable, flaggable) := find_noise_entities d in
  let d := fold_left (fun d '(cid, name, reason) =>
                        (delete_noise_entity d cid name reason dry_run).2) deletable d in
  fold_left (fun d '(cid, name, reason) => flag_noise_entity d cid name reason dry_run)
            flaggable d.

  (** *** [find_merge_candidates] *)

(** A candidate is [(survivor_id, absorbed_id, reason, match_key)]. *)
Definition candidate : Type := str * str * str * str.
Definition cand_survivor (c : candidate) : str := c.1.1.1.
Definition cand_absorbed (c : candidate) : str := c.1.1.2.
Definition cand_reason (c : candidate) : str := c.1.2.

Definition persons_of (r : registry) : registry :=
  filter (fun ce => entity_type ce.2 = ("person" : str)) r.

(** Pass 1, first loop: every person under its cleaned name and under
    the cleaned form of each alias that differs from it. *)
Definition index_alias (cid cname cleaned : str)
    (groups : list (str * list (str * str))) (alias : str)
    : list (str * list (str * str)) :=
  if nonempty alias then
    let alias_cleaned := clean_name_for_matching alias in
    if nonempty alias_cleaned && negb (str_eqb alias_cleaned cleaned)
    then dd_append alias_cleaned (cid, cname) groups
    else groups
  else groups.

Definition index_person (groups : list (str * list (str * str))) (ce : str * entity)
    : list (str * list (str * str)) :=
  let '(cid, e) := ce in
  let cname := canonical_name e in
  let cleaned := clean_name_for_matching cname in
  let groups := if nonempty cleaned then dd_append cleaned (cid, cname) groups else groups in
  fold_left (index_alias cid cname cleaned) (aliases e) groups.

(** The dict [unique]: the first name seen for each id. *)
Fixpoint unique_by_cid (seen : list str) (entities : list (str * str)) : list (str * str) :=
  match entities with
  | [] => []
  | (cid, name) :: rest =>
      if mem cid seen then unique_by_cid seen rest
      else (cid, name) :: unique_by_cid (cid :: seen) rest
  end.

(** The sort key [(-prominence, has title, is all caps)], compared as
    Python compares tuples. *)
Definition rank (d : db) (x : str * str) : Z * bool * bool :=
  ((- Z.of_nat (_get_prominence d x.1))%Z, has_title x.2, str_eqb x.2 (upper x.2)).

Definition bool_ltb (a b : bool) : bool := negb a && b.

Definition rank_ltb (a b : Z * bool * bool) : bool :=
  let '(p1, t1, u1) := a in
  let '(p2, t2, u2) := b in
  if (p1 <? p2)%Z then true
  else if (p2 <? p1)%Z then false
  else if bool_ltb t1 t2 then true
  else if bool_ltb t2 t1 then false
  else bool_ltb u1 u2.

Definition merge_reasons (survivor_name absorbed_name : str) : str :=
  let reasons :=
    (if has_title absorbed_name then strs ["title_prefix"] else [])
    ++ (if str_eqb absorbed_name (upper absorbed_name) && (3 <? length absorbed_name)
        then strs ["all_caps_variant"] else [])
    ++ (if has_char "-" absorbed_name && has_char " " survivor_name
        then strs ["hyphen_normalization"] else []) in
  let reasons :=
    match reasons with
    | [] => strs ["cleaned_name_match"]
    | _ :: _ => reasons
    end in
  join "; " reasons.

(** The state of the scan: the candidates so far and [seen_absorbed]. *)
Definition scan : Type := list candidate * gset str.

Definition absorb_member (cleaned survivor_id survivor_name : str)
    (st : scan) (m : str * str) : scan :=
  let '(candidates, seen_absorbed) := st in
  let '(absorbed_id, absorbed_name) := m in
  if bool_decide (absorbed_id = survivor_id) || bool_decide (absorbed_id ∈ seen_absorbed)
  then st
  else (candidates ++ [(survivor_id, absorbed_id,
                        merge_reasons survivor_name absorbed_name, cleaned)],
        seen_absorbed ∪ {[absorbed_id]}).

Definition pass1_group (d : db) (st : scan) (g : str * list (str * str)) : scan :=
  let '(cleaned, entities) := g in
  let unique := unique_by_cid [] entities in
  if length unique <? 2 then st
  else
    match stable_sort (fun x y => rank_ltb (rank d x) (rank d y)) unique with
    | [] => st
    | (survivor_id, survivor_name) :: others =>
        fold_left (absorb_member cleaned survivor_id survivor_name) others st
    end.

Definition pass1 (d : db) (persons : registry) : scan :=
  let clean_to_entities := fold_left index_person persons [] in
  fold_left (pass1_group d) clean_to_entities ([], ∅).

(** Pass 2, first loop: full-name persons under their last word. *)
Definition index_lastname (seen_absorbed : gset str)
    (table : list (str * list (str * str))) (ce : str * entity)
    : list (str * list (str * str)) :=
  let '(cid, e) := ce in
  if bool_decide (cid ∈ seen_absorbed) then table
  else
    let cname := canonical_name e in
    let words := split (clean_name_for_matching cname) in
    if 2 <=? length words
    then dd_append (default [] (last words)) (cid, cname) table
    else table.

Definition quote : str := ["034"%char].

Definition lastname_key (last_name cname : str) : str :=
  last_name ++ " (from " ++ quote ++ cname ++ quote ++ ")".

Definition pass2_person (d : db) (lastname_to_full : list (str * list (str * str)))
    (st : scan) (ce : str * entity) : scan :=
  let '(candidates, seen_absorbed) := st in
  let '(cid, e) := ce in
  if bool_decide (cid ∈ seen_absorbed) then st
  else
    let cname := canonical_name e in
    match split (clean_name_for_matching cname) with
    | [last_name] =>
        let full_name_matches :=
          filter (fun f => f.1 ≠ cid ∧ f.1 ∉ seen_absorbed)
                 (dd_get last_name lastname_to_full) in
        match full_name_matches with
        | [] => st
        | [(survivor_id, survivor_name)] =>
            (candidates ++ [(survivor_id, cid, "lastname_only_unambiguous" : str,
                             lastname_key last_name cname)],
             seen_absorbed ∪ {[cid]})
        | _ =>
            match _disambiguate_by_graph d cid full_name_matches with
            | Some (survivor_id, survivor_name) =>
                (candidates ++ [(survivor_id, cid,
                                 "lastname_only_graph_disambiguated" : str,
                                 lastname_key last_name cname)],
                 seen_absorbed ∪ {[cid]})
            | None => st
            end
        end
    | _ => st
    end.

Definition pass2 (d : db) (persons : registry) (st : scan) : scan :=
  let lastname_to_full := fold_left (index_lastname st.2) persons [] in
  fold_left (pass2_person d lastname_to_full) persons st.

Definition find_merge_candidates (d : db) : list candidate :=
  let persons := persons_of (load_canonical_registry d) in
  (pass2 d persons (pass1 d persons)).1.

(** *** Phase 2 of [main] *)

Record totals := Totals {
  entities_merged : nat;
  merge_rels_repointed : nat;
  merge_rels_consolidated : nat;
  merge_logs_repointed : nat
}.

Definition exists_entity (d : db) (cid : str) : bool :=
  match fetch_entity d cid with Some _ => true | None => false end.

(** One round of the loop over the candidates; [None] once a merge
    has raised. *)
Definition merge_round (dry_run : bool) (acc : option (totals * db)) (c : candidate)
    : option (totals * db) :=
  match acc with
  | None => None
  | Some (t, d) =>
      let '(survivor_id, absorbed_id, reason, match_key) := c in
      if negb (exists_entity d survivor_id) || negb (exists_entity d absorbed_id)
      then Some (t, d)
      else
        match merge_entity_pair d survivor_id absorbed_id reason match_key dry_run with
        | None => None
        | Some (stats, d') =>
            Some (Totals (entities_merged t + 1)
                         (merge_rels_repointed t + relationships_repointed stats)
                         (merge_rels_consolidated t + duplicate_rels_consolidated stats)
                         (merge_logs_repointed t + resolution_logs_repointed stats),
                  d')
        end
  end.

Definition run_merges (dry_run : bool) (candidates : list candidate) (d : db)
    : option (totals * db) :=
  fold_left (merge_round dry_run) candidates (Some (Totals 0 0 0 0, d)).

Definition phase_merge (d : db) (dry_run : bool) : option (totals * db) :=
  run_merges dry_run (find_merge_candidates d) d.

(** *** Phase 3 of [main] *)

Definition cleanup_step (cleanups : list (str * str * str)) (ce : str * entity)
    : list (str * str * str) :=
  let '(cid, e) := ce in
  let name := canonical_name e in
  let new_name := new_name_of name in
  if negb (str_eqb new_name name) then cleanups ++ [(cid, name, new_name)] else cleanups.

(** Returns the triples [(canonical_id, old_name, new_name)]. *)
Definition find_name_cleanups (d : db) : list (str * str * str) :=
  fold_left cleanup_step (load_canonical_registry d) [].

(** The body of the loop over the cleanups when [dry_run] is off. *)
Definition rename_entity (d : db) (c : str * str * str) : db :=
  let '(cid, old_name, new_name) := c in
  let aliases :=
    match fetch_entity d cid with
    | Some row => default [] (row_aliases row)
    | None => []
    end in
  let existing_lower : gset str := list_to_set (map lower aliases) ∪ {[lower new_name]} in
  let aliases :=
    if bool_decide (lower old_name ∉ existing_lower) then aliases ++ [old_name] else aliases in
  with_entities
    (update_where (has_id cid)
       (fun e => EntityRow (canonical_id e) (row_type e) new_name (Some aliases)
                           (row_metadata e) now_iso)) d.

Definition phase_cleanup (d : db) (dry_run : bool) : db :=
  if dry_run then d else fold_left rename_entity (find_name_cleanups d) d.

(** [main] on the five tables: the three phases in turn; [None] when a
    merge raises.  The counters of [total_stats] go to the printed
    summary and to [pipeline_runs] only. *)
Definition main (d : db) (dry_run : bool) : option db :=
  let d := phase_noise d dry_run in
  match phase_merge d dry_run with
  | None => None
  | Some (_, d) => Some (phase_cleanup d dry_run)
  end.

End Engine.

End Merge.

(* ===================================================================== *)
(** * Part II: properties *)
(* ===================================================================== *)

(** ** Facts about strings *)

Module PyStrFacts.
Import PyStr.

(** A word: non-empty and free of blanks. *)
Definition solid (w : str) : Prop := Forall (fun c => isspace c = false) w.
Definition is_word (w : str) : Prop := w ≠ [] ∧ solid w.

Lemma lstrip_head c r : isspace c = false → lstrip (c :: r) = c :: r.
Proof. intros H. simpl. by rewrite H. Qed.

Lemma lstrip_app_solid w r : w ≠ [] → solid w → lstrip (w ++ r) = w ++ r.
Proof.
  destruct w as [|c w]; [done|]. intros _ Hs.
  apply Forall_cons in Hs as [Hc _]. by apply lstrip_head.
Qed.

Lemma lstrip_idem s : lstrip (lstrip s) = lstrip s.
Proof.
  induction s as [|c r IH]; [done|]. simpl.
  destruct (isspace c) eqn:E; [done|]. simpl. by rewrite E.
Qed.

(** [lstrip] on a text that ends with a character. *)
Lemma lstrip_snoc a c :
  lstrip (a ++ [c]) =
    if forallb isspace a then (if isspace c then [] else [c]) else lstrip a ++ [c].
Proof.
  induction a as [|x a IH]; simpl.
  - by destruct (isspace c).
  - destruct (isspace x); simpl; [done|done].
Qed.

Lemma lstrip_blank a : forallb isspace a = true → lstrip a = [].
Proof.
  induction a as [|x a IH]; [done|]. simpl.
  intros [Hx Ha]%andb_true_iff. rewrite Hx. auto.
Qed.

Lemma forallb_rev {A} (p : A → bool) l : forallb p (rev l) = forallb p l.
Proof.
  induction l as [|x l IH]; [done|]. simpl.
  rewrite forallb_app, IH. simpl. rewrite andb_true_r. apply andb_comm.
Qed.

Lemma rstrip_cons c r :
  rstrip (c :: r) = if forallb isspace (c :: r) then [] else c :: rstrip r.
Proof.
  unfold rstrip. cbn [rev forallb]. rewrite lstrip_snoc, forallb_rev.
  destruct (forallb isspace r) eqn:Er.
  - rewrite andb_true_r. destruct (isspace c); [done|].
    rewrite lstrip_blank by (by rewrite forallb_rev). done.
  - rewrite andb_false_r. by rewrite rev_app_distr.
Qed.

Lemma rstrip_nil : rstrip [] = [].
Proof. done. Qed.

Lemma rstrip_idem s : rstrip (rstrip s) = rstrip s.
Proof.
  unfold rstrip. by rewrite rev_involutive, lstrip_idem.
Qed.

Lemma lstrip_rstrip_head s :
  match s with [] => True | c :: _ => isspace c = false end →
  lstrip (rstrip s) = rstrip s.
Proof.
  destruct s as [|c r]; [done|]. intros Hc.
  rewrite rstrip_cons. cbn [forallb]. rewrite Hc. cbn. by rewrite Hc.
Qed.

Lemma lstrip_starts s : match lstrip s with [] => True | c :: _ => isspace c = false end.
Proof.
  induction s as [|c r IH]; [done|]. simpl. destruct (isspace c) eqn:E; [done|]. done.
Qed.

Lemma strip_idem s : strip (strip s) = strip s.
Proof.
  unfold strip. rewrite lstrip_rstrip_head by apply lstrip_starts.
  apply rstrip_idem.
Qed.

Lemma rstrip_app_solid r w : w ≠ [] → solid w → rstrip (r ++ w) = r ++ w.
Proof.
  intros Hne Hs. unfold rstrip. rewrite rev_app_distr.
  rewrite lstrip_app_solid.
  - by rewrite <- rev_app_distr, rev_involutive.
  - intros E. apply Hne. by rewrite <- (rev_involutive w), E.
  - unfold solid. apply Forall_rev. exact Hs.
Qed.

(** *** [split] and [join] *)

Lemma split_from_solid w cur rest :
  solid w → split_from cur (w ++ rest) = split_from (rev w ++ cur) rest.
Proof.
  revert cur. induction w as [|c w IH]; intros cur Hs; [done|].
  apply Forall_cons in Hs as [Hc Hs]. simpl. rewrite Hc.
  rewrite IH by done. by rewrite <- app_assoc.
Qed.

Lemma split_from_words cur s :
  solid cur → Forall is_word (split_from cur s).
Proof.
  revert cur. induction s as [|c r IH]; intros cur Hcur; simpl.
  - destruct cur as [|x cur]; simpl; [constructor|].
    constructor; [|constructor]. split.
    + intros E. apply (f_equal (@length _)) in E. simpl in E. rewrite length_app in E. simpl in E. lia.
    + apply Forall_rev in Hcur. exact Hcur.
  - destruct (isspace c) eqn:E.
    + destruct cur as [|x cur]; simpl; [apply IH; constructor|].
      constructor; [|apply IH; constructor]. split.
      * intros E'. apply (f_equal (@length _)) in E'. simpl in E'. rewrite length_app in E'. simpl in E'. lia.
      * apply Forall_rev in Hcur. exact Hcur.
    + apply IH. by constructor.
Qed.

Lemma split_words s : Forall is_word (split s).
Proof. apply split_from_words. constructor. Qed.

Lemma flush_rev w k : w ≠ [] → flush (rev w) k = w :: k.
Proof.
  intros Hne. destruct (rev w) eqn:E.
  - exfalso. apply Hne. by rewrite <- (rev_involutive w), E.
  - unfold flush. by rewrite <- E, rev_involutive.
Qed.

Lemma split_join ws : Forall is_word ws → split (join " " ws) = ws.
Proof.
  unfold split. induction 1 as [|w ws [Hne Hs] Hws IH]; [done|].
  destruct ws as [|w' ws].
  - cbn [join]. rewrite <- (app_nil_r w) at 1. rewrite split_from_solid by done.
    rewrite app_nil_r. cbn [split_from]. by apply flush_rev.
  - change (join " " (w :: w' :: ws)) with (w ++ " " ++ join " " (w' :: ws)).
    rewrite split_from_solid by done. rewrite app_nil_r.
    change (list_ascii_of_string " " ++ ?x) with (" "%char :: x).
    cbn [split_from]. change (isspace " ") with true. cbv iota.
    rewrite IH. by apply flush_rev.
Qed.

Lemma join_ends ws :
  Forall is_word ws → ws ≠ [] →
  ∃ pre w, join " " ws = pre ++ w ∧ is_word w.
Proof.
  induction 1 as [|w ws Hw Hws IH]; [done|]. intros _.
  destruct ws as [|w' ws].
  - exists [], w. done.
  - destruct IH as (pre & v & E & Hv); [done|].
    exists (w ++ " " ++ pre), v. split; [|done].
    change (join " " (w :: w' :: ws)) with (w ++ " " ++ join " " (w' :: ws)).
    rewrite E. by rewrite <- !app_assoc.
Qed.

Lemma strip_join ws : Forall is_word ws → strip (join " " ws) = join " " ws.
Proof.
  intros H. destruct ws as [|w ws]; [done|].
  unfold strip.
  assert (lstrip (join " " (w :: ws)) = join " " (w :: ws)) as ->.
  { apply Forall_cons in H as [[Hne Hs] _].
    destruct ws; simpl.
    - rewrite <- (app_nil_r w). by apply lstrip_app_solid.
    - by apply lstrip_app_solid. }
  destruct (join_ends (w :: ws)) as (pre & v & -> & [Hne Hs]); [done|done|].
  by apply rstrip_app_solid.
Qed.

(** The last step of the normalizer is stable. *)
Lemma join_split_idem s :
  join " " (split (join " " (split s))) = join " " (split s).
Proof. by rewrite split_join by apply split_words. Qed.

Lemma strip_join_split s : strip (join " " (split s)) = join " " (split s).
Proof. apply strip_join, split_words. Qed.

End PyStrFacts.

(** ** Facts about the matcher *)

Module ReFacts.
Import PyStr Re Names PyStrFacts.

(** The rounds of a star, as [run] unfolds them. *)
Definition rounds (r : re) (k : pos → option pos) : nat → pos → option pos :=
  fix rounds (n : nat) (c : pos) {struct n} : option pos :=
    match n with
    | 0 => k c
    | S n' =>
        match run r (fun e => if shorter e c then rounds n' e else None) c with
        | Some e => Some e
        | None => k c
        end
    end.

Lemma run_star r k c : run (Star r) k c = rounds r k (length (rest c)) c.
Proof. done. Qed.

(** A match ends where its continuation accepted, at a suffix of the
    text it started from. *)
Lemma run_suffix r : ∀ k c e,
  run r k c = Some e →
  ∃ c', k c' = Some e ∧ rest c' `suffix_of` rest c.
Proof.
  induction r as [|p|r1 IH1 r2 IH2|r1 IH1 r2 IH2|r IH| | |]; intros k c e H.
  - by exists c.
  - simpl in H. destruct c as [pv [|x xs]]; simpl in *; [done|].
    destruct (p x); [|done]. eexists; split; [exact H|]. simpl. by apply suffix_cons_r.
  - simpl in H. apply IH1 in H as (c1 & H & S1). apply IH2 in H as (c2 & H & S2).
    exists c2. split; [done|]. by etrans.
  - simpl in H. destruct (run r1 k c) eqn:E1.
    + inversion H; subst. by apply IH1 in E1.
    + by apply IH2 in H.
  - rewrite run_star in H. revert H. generalize (length (rest c)). intros n.
    revert c. induction n as [|n IHn]; intros c H.
    + by exists c.
    + simpl in H.
      destruct (run r (λ e0, if shorter e0 c then rounds r k n e0 else None) c) eqn:E1.
      * inversion H; subst. apply IH in E1 as (c1 & H1 & S1).
        destruct (shorter c1 c); [|done].
        apply IHn in H1 as (c2 & H2 & S2). exists c2. split; [done|]. by etrans.
      * by exists c.
  - simpl in H. destruct (prev c); [done|]. by exists c.
  - simpl in H. exists c. split; [|done].
    destruct (rest c) as [|x [|y l]]; [done| |done].
    by destruct (bool_decide (x = "010"%char)).
  - simpl in H. exists c. split; [|done].
    by destruct (xorb (word_at (prev c)) (word_at (head (rest c)))).
Qed.

(** A star over a character class, by recursion on the text. *)
Fixpoint star_cls (p : ascii → bool) (k : pos → option pos)
    (pv : option ascii) (s : str) : option pos :=
  match s with
  | [] => k (Pos pv [])
  | x :: xs =>
      if p x then
        match star_cls p k (Some x) xs with
        | Some e => Some e
        | None => k (Pos pv s)
        end
      else k (Pos pv s)
  end.

Lemma rounds_cls p k n : ∀ pv s,
  length s ≤ n → rounds (Cls p) k n (Pos pv s) = star_cls p k pv s.
Proof.
  induction n as [|n IH]; intros pv s Hn.
  - destruct s; [done|simpl in Hn; lia].
  - destruct s as [|x xs]; [done|]. simpl in Hn.
    cbn [rounds run rest star_cls]. destruct (p x); [|done].
    unfold shorter. cbn [rest]. rewrite (proj2 (Nat.ltb_lt _ _)) by (simpl; lia).
    rewrite IH by lia. done.
Qed.

Lemma run_star_cls p k c : run (Star (Cls p)) k c = star_cls p k (prev c) (rest c).
Proof. rewrite run_star. destruct c as [pv s]. by apply rounds_cls. Qed.

Lemma star_cls_total p k pv s : (∀ c, k c ≠ None) → star_cls p k pv s ≠ None.
Proof.
  intros Hk. revert pv. induction s as [|x xs IH]; intros pv; simpl; [done|].
  destruct (p x); [|done]. destruct (star_cls p k (Some x) xs); [done|apply Hk].
Qed.

(** *** The parenthetical note *)

(** An opening parenthesis with a closing one somewhere after it. *)
Fixpoint has_note (s : str) : bool :=
  match s with
  | [] => false
  | x :: r => (bool_decide (x = "("%char) && has_char ")" r) || has_note r
  end.

Definition not_close : ascii → bool := fun x => negb (bool_decide (x = ")"%char)).

(** The continuations of [PAREN_NOTE], outermost first. *)
Definition after_close (k : pos → option pos) : pos → option pos :=
  run (Cat (Star space) Eps) k.
Definition at_close (k : pos → option pos) : pos → option pos :=
  run (chr ")") (after_close k).
Definition in_note (k : pos → option pos) : pos → option pos :=
  run (Star (Cls not_close)) (at_close k).
Definition at_open (k : pos → option pos) : pos → option pos :=
  run (chr "(") (in_note k).

Lemma run_paren k c : run PAREN_NOTE k c = star_cls isspace (at_open k) (prev c) (rest c).
Proof. unfold PAREN_NOTE, seq. cbn [fold_right]. cbn [run]. by rewrite <- run_star_cls. Qed.

Lemma in_note_none k pv s : has_char ")" s = false → in_note k (Pos pv s) = None.
Proof.
  unfold in_note. rewrite run_star_cls. cbn [prev rest].
  revert pv. induction s as [|x xs IH]; intros pv H; [done|].
  simpl in H. apply orb_false_iff in H as [Hx Hxs].
  cbn [star_cls]. unfold not_close at 1. rewrite Hx. cbn [negb].
  rewrite IH by done. unfold at_close, chr. cbn [run rest]. by rewrite Hx.
Qed.

Lemma after_close_total k c : (∀ c, k c ≠ None) → after_close k c ≠ None.
Proof.
  intros Hk. unfold after_close.
  change (run (Cat (Star space) Eps) k c) with (run (Star (Cls isspace)) (run Eps k) c).
  rewrite run_star_cls. apply star_cls_total. intros c'. apply Hk.
Qed.

Lemma in_note_some pv s : has_char ")" s = true → in_note Some (Pos pv s) ≠ None.
Proof.
  unfold in_note. rewrite run_star_cls. cbn [prev rest].
  revert pv. induction s as [|x xs IH]; intros pv H; [done|].
  simpl in H. cbn [star_cls]. unfold not_close at 1.
  destruct (bool_decide (x = ")"%char)) eqn:Hx; cbn [negb].
  - unfold at_close, chr. cbn [run rest]. rewrite Hx. by apply after_close_total.
  - simpl in H. specialize (IH (Some x) H).
    by destruct (star_cls not_close (at_close Some) (Some x) xs).
Qed.

Lemma at_open_none k pv s : has_note s = false → at_open k (Pos pv s) = None.
Proof.
  destruct s as [|x xs]; [done|]. simpl. intros [H _]%orb_false_iff.
  unfold at_open, chr. cbn [run rest].
  destruct (bool_decide (x = "("%char)); [|done].
  simpl in H. by apply in_note_none.
Qed.

Lemma has_note_tail x s : has_note (x :: s) = false → has_note s = false.
Proof. simpl. by intros [_ H]%orb_false_iff. Qed.

(** No match where no note is left. *)
Lemma paren_no_match k c : has_note (rest c) = false → run PAREN_NOTE k c = None.
Proof.
  rewrite run_paren. destruct c as [pv s]. cbn [prev rest]. revert pv.
  induction s as [|x xs IH]; intros pv H.
  - done.
  - cbn [star_cls]. rewrite (at_open_none k pv (x :: xs) H).
    destruct (isspace x); [|done]. by rewrite IH by (by eapply has_note_tail).
Qed.

(** A match where a note starts. *)
Lemma paren_match_open pv xs :
  has_char ")" xs = true → run PAREN_NOTE Some (Pos pv ("("%char :: xs)) ≠ None.
Proof.
  intros H. rewrite run_paren. cbn [prev rest star_cls].
  change (isspace "(") with false. cbv iota.
  unfold at_open, chr. cbn [run rest]. rewrite bool_decide_eq_true_2 by done.
  by apply in_note_some.
Qed.

(** A match consumes at least its opening parenthesis. *)
Lemma run_paren_open k c : run PAREN_NOTE k c = run (Star space) (at_open k) c.
Proof. done. Qed.

Lemma run_chr a k c :
  run (chr a) k c =
    match rest c with
    | x :: xs => if bool_decide (x = a) then k (Pos (Some x) xs) else None
    | [] => None
    end.
Proof. done. Qed.

Lemma paren_match_shorter c e :
  run PAREN_NOTE Some c = Some e →
  rest e `suffix_of` rest c ∧ length (rest e) < length (rest c).
Proof.
  rewrite run_paren_open.
  intros (c1 & H & S1)%run_suffix.
  unfold at_open in H. rewrite run_chr in H.
  destruct (rest c1) as [|x xs] eqn:E1; [done|].
  destruct (bool_decide (x = "("%char)); [|done].
  unfold in_note in H. apply run_suffix in H as (c2 & H & S2). cbn [rest] in S2.
  unfold at_close in H. rewrite run_chr in H.
  destruct (rest c2) as [|y ys] eqn:E2; [done|].
  destruct (bool_decide (y = ")"%char)); [|done].
  unfold after_close in H. apply run_suffix in H as (c3 & H & S3). cbn [rest] in S3.
  inversion H; subst.
  assert (rest e `suffix_of` xs) as S.
  { etrans; [exact S3|]. etrans; [|exact S2]. by apply suffix_cons_r. }
  split.
  - etrans; [exact S|]. etrans; [|exact S1]. by apply suffix_cons_r.
  - apply suffix_length in S, S1. rewrite length_cons in S1. lia.
Qed.

Lemma has_char_suffix a s t : t `suffix_of` s → has_char a s = false → has_char a t = false.
Proof.
  intros [p ->]. unfold has_char. rewrite existsb_app. by intros [_ H]%orb_false_iff.
Qed.

(** [re.sub] of the note pattern: no closing parenthesis appears, and
    no note is left. *)
Lemma sub_paren_clean fuel : ∀ c,
  length (rest c) < fuel →
  let out := sub_go fuel PAREN_NOTE " " false c in
  has_note out = false ∧ (has_char ")" (rest c) = false → has_char ")" out = false).
Proof.
  induction fuel as [|fuel IH]; intros c Hlen; [lia|].
  cbn [sub_go]. cbv zeta.
  destruct (run PAREN_NOTE (λ e, Some e) c) as [e|] eqn:E.
  - apply paren_match_shorter in E as [S L].
    unfold shorter. rewrite (proj2 (Nat.ltb_lt _ _) L).
    destruct (IH e) as [N C]; [lia|]. cbv zeta in N, C.
    change (list_ascii_of_string " " ++ ?w) with (" "%char :: w).
    split.
    + cbn [has_note]. by rewrite N.
    + intros Hc. cbn [has_char existsb]. apply orb_false_iff. split; [done|].
      apply C. by eapply has_char_suffix.
  - destruct c as [pv [|x xs]]; cbn [rest] in *; [done|].
    destruct (IH (Pos (Some x) xs)) as [N C]; [simpl in *; lia|]. cbv zeta in N, C.
    cbn [rest] in C. split.
    + cbn [has_note]. rewrite N, orb_false_r.
      destruct (bool_decide (x = "("%char)) eqn:Hx; [|done].
      apply bool_decide_eq_true in Hx as ->. cbn [andb].
      apply C. destruct (has_char ")" xs) eqn:Hc; [|done].
      exfalso. by eapply paren_match_open.
    + intros Hc. simpl in Hc. apply orb_false_iff in Hc as [Hx Hc].
      cbn [has_char existsb]. rewrite Hx. by apply C.
Qed.

Lemma sub_paren_no_note s : has_note (sub PAREN_NOTE " " s) = false.
Proof. unfold sub. apply sub_paren_clean. unfold start. simpl. lia. Qed.

(** Where no note is left the substitution changes nothing. *)
Lemma sub_paren_fixed fuel : ∀ c,
  length (rest c) < fuel → has_note (rest c) = false →
  sub_go fuel PAREN_NOTE " " false c = rest c.
Proof.
  induction fuel as [|fuel IH]; intros c Hlen N; [lia|].
  cbn [sub_go]. cbv zeta. rewrite paren_no_match by done.
  destruct c as [pv [|x xs]]; cbn [rest] in *; [done|].
  rewrite IH; [done|simpl in *; lia|by eapply has_note_tail].
Qed.

Lemma sub_paren_id s : has_note s = false → sub PAREN_NOTE " " s = s.
Proof. intros N. unfold sub. apply (sub_paren_fixed _ (start s)); [simpl; lia|done]. Qed.

(** *** Notes and blanks *)

Definition ink (s : str) : str := filter (fun c => isspace c = false) s.

Lemma ink_app a b : ink (a ++ b) = ink a ++ ink b.
Proof. apply filter_app. Qed.

Lemma ink_solid w : solid w → ink w = w.
Proof.
  induction 1 as [|c w Hc Hw IH]; [done|].
  unfold ink in *. rewrite filter_cons_True by done. by rewrite IH.
Qed.

Lemma has_char_ink a s : isspace a = false → has_char a (ink s) = has_char a s.
Proof.
  intros Ha. induction s as [|x s IH]; [done|]. unfold ink in *.
  destruct (isspace x) eqn:Ex.
  - rewrite filter_cons_False by (by rewrite Ex). rewrite IH. simpl.
    rewrite bool_decide_eq_false_2; [done|]. intros ->. congruence.
  - rewrite filter_cons_True by done. simpl. by rewrite IH.
Qed.

Lemma has_note_ink s : has_note (ink s) = has_note s.
Proof.
  induction s as [|x s IH]; [done|]. unfold ink in *.
  destruct (isspace x) eqn:Ex.
  - rewrite filter_cons_False by (by rewrite Ex). rewrite IH. simpl.
    rewrite bool_decide_eq_false_2; [done|]. intros ->. done.
  - rewrite filter_cons_True by done. simpl. rewrite IH.
    fold (ink s). by rewrite has_char_ink.
Qed.

Lemma ink_join_cons w ws : ink (join " " (w :: ws)) = ink w ++ ink (join " " ws).
Proof.
  destruct ws as [|w' ws]; [by rewrite app_nil_r|].
  change (join " " (w :: w' :: ws)) with (w ++ " " ++ join " " (w' :: ws)).
  by rewrite !ink_app.
Qed.

Lemma ink_split_from s : ∀ cur,
  solid cur → ink (join " " (split_from cur s)) = rev cur ++ ink s.
Proof.
  induction s as [|c r IH]; intros cur Hcur.
  - cbn [split_from]. destruct cur as [|x cur]; [done|].
    cbn [flush join]. rewrite app_nil_r. apply ink_solid. by apply Forall_rev.
  - cbn [split_from]. destruct (isspace c) eqn:Ec.
    + unfold ink at 2. rewrite filter_cons_False by (by rewrite Ec). fold (ink r).
      destruct cur as [|x cur]; cbn [flush].
      * by rewrite IH by constructor.
      * rewrite ink_join_cons, IH by constructor.
        rewrite ink_solid by (by apply Forall_rev). done.
    + unfold ink at 2. rewrite filter_cons_True by done. fold (ink r).
      rewrite IH by (by constructor). cbn [rev]. by rewrite <- app_assoc.
Qed.

Lemma ink_join_split s : ink (join " " (split s)) = ink s.
Proof. unfold split. by rewrite ink_split_from by constructor. Qed.

Lemma has_note_join_split s : has_note (join " " (split s)) = has_note s.
Proof. by rewrite <- has_note_ink, ink_join_split, has_note_ink. Qed.

End ReFacts.

(** ** The name normalizer *)

Module NamesFacts.
Import PyStr Re Names PyStrFacts ReFacts.

Example normalize_comma : normalize_name "Epstein, Jeffrey E." = "Jeffrey E. Epstein".
Proof. vm_compute. reflexivity. Qed.

Example normalize_note : normalize_name "  Larry  Visoski (Pilot) Jr." = "Larry Visoski".
Proof. vm_compute. reflexivity. Qed.

Example short_name : get_short_name "Ghislaine Noelle Marion Maxwell" = "Ghislaine Maxwell".
Proof. vm_compute. reflexivity. Qed.

(** The suffix loop makes one pass: a suffix that a later one hid is
    still there after the first call. *)
Example normalize_suffix_twice :
  normalize_name "John Smith Esq. Jr." = "John Smith Esq."
  ∧ normalize_name "John Smith Esq." = "John Smith".
Proof. vm_compute. done. Qed.

(** The shape of a result: words joined by single blanks, with no
    parenthetical note left in it. *)
Lemma normalize_name_shape x :
  ∃ z, normalize_name x = join " " (split z) ∧ has_note z = false.
Proof.
  destruct x as [|c r].
  - by exists [].
  - eexists. split; [reflexivity|]. apply sub_paren_no_note.
Qed.

Lemma keep_suffixes (l : list str) y :
  Forall (fun suffix => endswith y suffix = false) l → fold_left drop_suffix l y = y.
Proof.
  induction 1 as [|suffix l H _ IH]; [done|].
  cbn [fold_left]. unfold drop_suffix at 2. by rewrite H.
Qed.

Lemma keep_comma y : has_char "," y = false → swap_comma y = y.
Proof. intros H. unfold swap_comma. by rewrite H. Qed.

Lemma normalize_name_steps name :
  name ≠ [] →
  normalize_name name =
    join " " (split (sub PAREN_NOTE " "
                       (swap_comma (fold_left drop_suffix SUFFIXES (strip name))))).
Proof. by destruct name. Qed.

(** A name that is already normalized, has no comma and does not end
    in a suffix is left as it is. *)
Lemma normalize_name_settled z :
  has_note z = false →
  let y := join " " (split z) in
  has_char "," y = false →
  Forall (fun suffix => endswith y suffix = false) SUFFIXES →
  normalize_name y = y.
Proof.
  intros N y Hc Hs.
  destruct (decide (y = [])) as [->|Hne]; [done|].
  rewrite normalize_name_steps by done.
  subst y. rewrite strip_join_split, keep_suffixes, keep_comma by done.
  rewrite sub_paren_id by (by rewrite has_note_join_split).
  apply join_split_idem.
Qed.

End NamesFacts.

Import PyStr Re Names PyStrFacts ReFacts NamesFacts.

(** C3, as stated: the normalizer is idempotent on every input.  It is
    not: the comma rewrite moves one comma-separated part at a time, so a
    name with two commas is rewritten again by a second pass. *)
Lemma C3_normalize_name_not_idempotent :
  normalize_name (normalize_name "Black, Leon, Jr") ≠ normalize_name "Black, Leon, Jr".
Proof. vm_compute. discriminate. Qed.

(** C3, amended: [normalize_name (normalize_name x) = normalize_name x]
    for every [x] whose normalized form contains no comma and does not
    end in one of the listed suffixes. *)
Theorem C3_normalize_name_idempotent (x : str) :
  has_char "," (normalize_name x) = false →
  Forall (fun suffix => endswith (normalize_name x) suffix = false) SUFFIXES →
  normalize_name (normalize_name x) = normalize_name x.
Proof.
  destruct (normalize_name_shape x) as (z & -> & N).
  by apply normalize_name_settled.
Qed.

Lemma C3_normalize_name_idempotent_witness :
  normalize_name (normalize_name "  Visoski,  Larry (Pilot) Jr.")
  = normalize_name "  Visoski,  Larry (Pilot) Jr.".
Proof.
  apply C3_normalize_name_idempotent.
  - vm_compute. reflexivity.
  - vm_compute. repeat constructor.
Defined.

(** ** The resolver *)

Module ResolverFacts.
Import PyStr Names Rapidfuzz Resolver PyStrFacts.

Lemma nonempty_true s : nonempty s = true ↔ s ≠ [].
Proof. by destruct s. Qed.

Lemma nonempty_false s : nonempty s = false ↔ s = [].
Proof. by destruct s. Qed.

Lemma strip_nil_inv name : strip name ≠ [] → name ≠ [].
Proof. by intros H ->. Qed.

(** The classifier trims its argument itself. *)
Lemma looks_like_non_entity_strip name :
  strip name ≠ [] → looks_like_non_entity (strip name) = looks_like_non_entity name.
Proof.
  intros H. destruct name as [|c r]; [done|].
  unfold looks_like_non_entity.
  destruct (strip (c :: r)) as [|c' r'] eqn:E; [done|].
  rewrite <- E, strip_idem. done.
Qed.

Lemma normalize_name_strip name :
  strip name ≠ [] → normalize_name (strip name) = normalize_name name.
Proof.
  intros H. destruct name as [|c r]; [done|].
  unfold normalize_name.
  destruct (strip (c :: r)) as [|c' r'] eqn:E; [done|].
  rewrite <- E, strip_idem. done.
Qed.

Lemma is_noise_entity_name_strip name :
  strip name ≠ [] → is_noise_entity_name (strip name) = is_noise_entity_name name.
Proof.
  intros H. unfold is_noise_entity_name.
  by rewrite looks_like_non_entity_strip, normalize_name_strip.
Qed.

(** What [extractOne] returns is one of the choices, with its score. *)
Lemma extract_from_choice scorer query cutoff choices : ∀ best i m score idx,
  extract_from scorer query cutoff best i choices = Some (m, score, idx) →
  best = Some (m, score, idx) ∨
  ∃ j, choices !! j = Some m ∧ idx = i + j ∧ score = scorer query m.
Proof.
  induction choices as [|c cs IH]; intros best i m score idx H; [by left|].
  cbn [extract_from] in H. cbv zeta in H.
  set (best' := if Qle_bool cutoff (scorer query c) &&
                   match best with Some (_, b, _) => Qltb b (scorer query c) | None => true end
                then Some (c, scorer query c, i) else best) in H.
  assert (best' = Some (m, score, idx) →
          best = Some (m, score, idx) ∨
          ∃ j, (c :: cs) !! j = Some m ∧ idx = i + j ∧ score = scorer query m) as Hb.
  { subst best'. destruct (_ && _).
    - intros [= <- <- <-]. right. exists 0. split; [done|]. split; [lia|done].
    - by left. }
  destruct (Qeq_bool (scorer query c) 100); [by apply Hb|].
  apply IH in H as [H|(j & Hj & -> & ->)]; [by apply Hb|].
  right. exists (S j). split; [done|]. split; [lia|done].
Qed.

Lemma extractOne_choice scorer query choices cutoff m score idx :
  extractOne scorer query choices cutoff = Some (m, score, idx) →
  choices !! idx = Some m ∧ score = scorer query m.
Proof.
  intros [H|(j & Hj & -> & ->)]%extract_from_choice; [done|]. done.
Qed.

Lemma exact_tier_method self form cid method conf :
  exact_tier self form = Some (Ret cid method conf) →
  method = ("exact" : str) ∨ method = ("alias" : str).
Proof.
  unfold exact_tier. destruct (exact_lookup self !! form) as [id|]; [|done].
  destruct (registry_get (reg self) id); [|done].
  destruct (str_eqb _ _); intros [= <- <- <-]; auto.
Qed.

Lemma first_exact_method self forms cid method conf :
  first_some (exact_tier self) forms = Some (Ret cid method conf) →
  method = ("exact" : str) ∨ method = ("alias" : str).
Proof.
  induction forms as [|f fs IH]; [done|]. cbn [first_some].
  destruct (exact_tier self f) eqn:E; [|done].
  intros [= ->]. by eapply exact_tier_method.
Qed.

(** A fuzzy answer of the second tier names an indexed string, and on
    a short name its score is at least 95. *)
Lemma fuzzy_tier_guard scorer self cleaned cid conf :
  fuzzy_tier scorer self cleaned = Ret (Some cid) "fuzzy" conf →
  ∃ matched score idx,
    _name_strings self !! idx = Some matched
    ∧ score = scorer (normalize_name cleaned) matched
    ∧ conf = (score / 100)%Q
    ∧ (length (normalize_name cleaned) ≤ 10 → (95 <= score)%Q).
Proof.
  unfold fuzzy_tier.
  destruct (is_numbered_reference cleaned); [done|].
  destruct (negb _); [done|].
  destruct (extractOne _ _ _ _) as [[[m score] idx]|] eqn:E; [|done].
  destruct (all_names self !! idx) as [[? matched_cid]|]; [|done].
  destruct (_ && _) eqn:G; [done|].
  intros [= -> <-]. apply extractOne_choice in E as [E ->].
  exists m, (scorer (normalize_name cleaned) m), idx. repeat split; [done|].
  intros Hlen. apply andb_false_iff in G as [G|G].
  - apply Nat.leb_gt in G. lia.
  - unfold Qltb in G. apply negb_false_iff in G. by apply Qle_bool_iff.
Qed.

Definition kerry : registry := [("PER-00001" : str, Entity "John Kerry" [] "person" ∅)].

Example resolve_exact :
  resolve token_sort_ratio (init kerry 90%Q) " john kerry " = Ret (Some ("PER-00001" : str)) "exact" 1%Q.
Proof. vm_compute. reflexivity. Qed.

Example perry_kerry_score : (token_sort_ratio "John Perry" "John Kerry" == 90)%Q.
Proof. vm_compute. reflexivity. Qed.

End ResolverFacts.

Import PyStr Names Rapidfuzz Resolver PyStrFacts ResolverFacts.

(** C4, as stated: every name the noise classifier rejects, the names
    that are empty after trimming included, resolves to
    [(None, "noise", 0.0)].  A blank name is rejected by the classifier
    but [resolve] answers it with ["no_match"] before it asks. *)
Lemma C4_blank_name_is_no_match :
  is_noise_entity_name "   " = true
  ∧ resolve token_sort_ratio (init kerry 90%Q) "   " = Ret None "no_match" 0%Q
  ∧ resolve token_sort_ratio (init kerry 90%Q) "   " ≠ Ret None "noise" 0%Q.
Proof. vm_compute. repeat split; discriminate. Qed.

(** C4, amended: a raw name that is empty after trimming resolves to
    [(None, "no_match", 0.0)]; every other raw name that the noise
    classifier rejects resolves to [(None, "noise", 0.0)]. *)
Theorem C4_noise_names_rejected (scorer : str → str → Q) (self : EntityResolver) (name : str) :
  (strip name = [] → resolve scorer self name = Ret None "no_match" 0%Q)
  ∧ (strip name ≠ [] → is_noise_entity_name name = true →
     resolve scorer self name = Ret None "noise" 0%Q).
Proof.
  unfold resolve. split.
  - intros ->. cbn [nonempty negb]. by rewrite orb_true_r.
  - intros Hs Hn.
    rewrite (proj2 (nonempty_true _) (strip_nil_inv _ Hs)).
    rewrite (proj2 (nonempty_true _) Hs). cbn [negb orb].
    by rewrite is_noise_entity_name_strip, Hn.
Qed.

Lemma C4_noise_names_rejected_witness :
  resolve token_sort_ratio (init kerry 90%Q) " Unknown Person " = Ret None "noise" 0%Q.
Proof.
  apply (proj2 (C4_noise_names_rejected token_sort_ratio (init kerry 90%Q) " Unknown Person ")).
  - vm_compute. discriminate.
  - vm_compute. reflexivity.
Defined.

(** C7: when the normalized input has at most 10 characters, [resolve]
    returns a fuzzy match only for a score of at least 95, whatever the
    configured cutoff is; and "John Perry" does not resolve against a
    registry that holds "John Kerry", with any cutoff. *)
Theorem C7_short_name_guard :
  (∀ (scorer : str → str → Q) (self : EntityResolver) (name cid : str) (conf : Q),
     resolve scorer self name = Ret (Some cid) "fuzzy" conf →
     length (normalize_name (strip name)) ≤ 10 →
     ∃ matched score idx,
       _name_strings self !! idx = Some matched
       ∧ score = scorer (normalize_name (strip name)) matched
       ∧ conf = (score / 100)%Q
       ∧ (95 <= score)%Q)
  ∧ (∀ threshold : Q,
       resolve token_sort_ratio (init kerry threshold) "John Perry" = Ret None "no_match" 0%Q).
Proof.
  split.
  - intros scorer self name cid conf H Hlen. unfold resolve in H.
    destruct (_ || _); [done|].
    destruct (is_noise_entity_name _); [done|].
    destruct (first_some _ _) as [out|] eqn:E.
    + subst out. apply first_exact_method in E as [E|E]; discriminate E.
    + apply fuzzy_tier_guard in H as (m & score & idx & H1 & H2 & H3 & H4).
      exists m, score, idx. repeat split; try done. by apply H4.
  - intros threshold.
    assert (resolve token_sort_ratio (init kerry threshold) "John Perry"
            = fuzzy_tier token_sort_ratio (init kerry threshold) "John Perry") as ->.
    { vm_compute. reflexivity. }
    unfold fuzzy_tier.
    replace (is_numbered_reference "John Perry") with false by (vm_compute; reflexivity).
    replace (_name_strings (init kerry threshold)) with [("John Kerry" : str)]
      by (vm_compute; reflexivity).
    replace (all_names (init kerry threshold)) with [("John Kerry" : str, "PER-00001" : str)]
      by (vm_compute; reflexivity).
    cbn [negb]. unfold extractOne. cbn [extract_from]. cbv zeta.
    replace (token_sort_ratio (normalize_name "John Perry") "John Kerry") with (1800 # 20)%Q
      by (vm_compute; reflexivity).
    replace (normalize_name "John Perry") with ("John Perry" : str) by (vm_compute; reflexivity).
    replace (fuzzy_threshold (init kerry threshold)) with threshold by (vm_compute; reflexivity).
    destruct (Qle_bool threshold (1800 # 20)); vm_compute; reflexivity.
Qed.

Lemma C7_short_name_guard_witness :
  ∃ matched score idx,
    _name_strings (init kerry 90%Q) !! idx = Some matched
    ∧ score = token_sort_ratio (normalize_name (strip "Kerry John")) matched
    ∧ (token_sort_ratio "Kerry John" "John Kerry" / 100)%Q = (score / 100)%Q
    ∧ (95 <= score)%Q.
Proof.
  apply (proj1 C7_short_name_guard token_sort_ratio (init kerry 90%Q) "Kerry John" "PER-00001").
  - vm_compute. reflexivity.
  - vm_compute. lia.
Defined.

(** ** Metadata merge *)

Module MetadataFacts.
Import PyStr Json Rapidfuzz Store Merge.

(** What one round of the loop leaves under its key: [None] when it
    raises. *)
Definition field_result (surv_val : option json) (abs_val : json) : option (option json) :=
  match merge_field surv_val abs_val with
  | Keep => Some surv_val
  | Assign v => Some (Some v)
  | TypeError => None
  end.

Lemma merge_step_None l : fold_left merge_step l None = None.
Proof. by induction l. Qed.

Lemma merge_step_lookup (m m' : meta) kv :
  merge_step (Some m) kv = Some m' →
  field_result (m !! kv.1) kv.2 = Some (m' !! kv.1)
  ∧ ∀ k, k ≠ kv.1 → m' !! k = m !! k.
Proof.
  unfold merge_step, field_result.
  destruct (merge_field (m !! kv.1) kv.2).
  - intros [= <-]. done.
  - intros [= <-]. rewrite lookup_insert_eq. split; [done|].
    intros k Hk. by rewrite lookup_insert_ne.
  - done.
Qed.

Lemma merge_fold_lookup (l : list (str * json)) : ∀ (m m' : meta),
  NoDup l.*1 →
  fold_left merge_step l (Some m) = Some m' →
  ∀ k, (k ∉ l.*1 → m' !! k = m !! k)
       ∧ (∀ av, (k, av) ∈ l → field_result (m !! k) av = Some (m' !! k)).
Proof.
  induction l as [|[k0 v0] l IH]; intros m m' Hnd H k.
  - simpl in H. injection H as <-. split; [done|]. by intros av ?%elem_of_nil.
  - apply NoDup_cons in Hnd as [Hk0 Hnd]. cbn [fold_left] in H.
    destruct (merge_step (Some m) (k0, v0)) as [m1|] eqn:E;
      [|by rewrite merge_step_None in H].
    apply merge_step_lookup in E as [E1 E2]. cbn [fst snd] in E1, E2.
    destruct (IH m1 m' Hnd H k) as [I1 I2]. split.
    + intros Hk. apply not_elem_of_cons in Hk as [Hne Hk].
      rewrite I1 by done. by apply E2.
    + intros av [[= -> ->]|Hin]%elem_of_cons.
      * destruct (IH m1 m' Hnd H k0) as [J1 _]. rewrite J1 by done. done.
      * assert (k ≠ k0) as Hne.
        { intros ->. apply Hk0. apply list_elem_of_fmap. by exists (k0, av). }
        rewrite <- (E2 k Hne). by apply I2.
Qed.

Lemma merge_fold_total (l : list (str * json)) : ∀ (m : meta),
  NoDup l.*1 →
  (∀ k av, (k, av) ∈ l → merge_field (m !! k) av ≠ TypeError) →
  is_Some (fold_left merge_step l (Some m)).
Proof.
  induction l as [|[k0 v0] l IH]; intros m Hnd Hok; [by eexists|].
  apply NoDup_cons in Hnd as [Hk0 Hnd]. cbn [fold_left].
  destruct (merge_step (Some m) (k0, v0)) as [m1|] eqn:E.
  - apply IH; [done|]. intros k av Hin.
    apply merge_step_lookup in E as [_ E2]. cbn [fst] in E2.
    rewrite E2; [apply Hok; by right|].
    intros ->. apply Hk0. apply list_elem_of_fmap. by exists (k0, av).
  - exfalso. unfold merge_step in E. cbn [fst snd] in E.
    specialize (Hok k0 v0 ltac:(by left)).
    by destruct (merge_field (m !! k0) v0).
Qed.

(** The merge, key by key. *)
Lemma merge_metadata_lookup (survivor_meta absorbed_meta merged : meta) key :
  _merge_metadata survivor_meta absorbed_meta = Some merged →
  match absorbed_meta !! key with
  | None => merged !! key = survivor_meta !! key
  | Some av => field_result (survivor_meta !! key) av = Some (merged !! key)
  end.
Proof.
  intros H. unfold _merge_metadata in H.
  destruct (merge_fold_lookup _ _ _ (NoDup_fst_map_to_list _) H key) as [H1 H2].
  destruct (absorbed_meta !! key) as [av|] eqn:E.
  - apply H2. by apply elem_of_map_to_list.
  - apply H1. intros ((k & v) & -> & Hin%elem_of_map_to_list)%list_elem_of_fmap.
    simpl in E. congruence.
Qed.

(** *** The list union *)

(** An item that can be put in a set. *)
Definition hashable (item : json) : Prop := is_Some (item_key item).

Lemma union_items_total items : ∀ seen,
  Forall hashable items → is_Some (union_items seen items).
Proof.
  induction items as [|x items IH]; intros seen H; [by eexists|].
  apply Forall_cons in H as [[k Hk] H]. cbn [union_items]. rewrite Hk.
  destruct (existsb _ _); [by apply IH|].
  destruct (IH (k :: seen) H) as [r ->]. by eexists.
Qed.

Lemma union_items_hashable items : ∀ seen result,
  union_items seen items = Some result → Forall hashable items.
Proof.
  induction items as [|x items IH]; intros seen result H; [constructor|].
  cbn [union_items] in H. destruct (item_key x) as [k|] eqn:Hk; [|done].
  constructor; [by eexists|].
  destruct (existsb _ _); [by eapply IH|].
  destruct (union_items (k :: seen) items) eqn:E; [|done]. by eapply IH.
Qed.

(** [y] stands for [x]: both have the same key. *)
Definition same_key (x y : json) : Prop :=
  ∃ kx ky, item_key x = Some kx ∧ item_key y = Some ky ∧ hkey_eqb kx ky = true.

Definition known (seen : list hkey) (x : json) : Prop :=
  ∃ kx, item_key x = Some kx ∧ existsb (hkey_eqb kx) seen = true.

Lemma hkey_eqb_refl k : hkey_eqb k k = true.
Proof.
  destruct k; simpl; [done| |by apply bool_decide_eq_true].
  by apply Qeq_bool_iff.
Qed.

(** The result keeps the order of the items, holds a representative of
    every item, and no two of its items have the same key. *)
Lemma union_items_spec items : ∀ seen result,
  union_items seen items = Some result →
  result `sublist_of` items
  ∧ (∀ x, x ∈ items → known seen x ∨ ∃ y, y ∈ result ∧ same_key x y)
  ∧ (∀ y, y ∈ result → ¬ known seen y)
  ∧ (∀ i j x y, i < j → result !! i = Some x → result !! j = Some y → ¬ same_key y x).
Proof.
  induction items as [|a items IH]; intros seen result H.
  - injection H as <-. split; [done|]. split; [|split].
    + by intros x ?%elem_of_nil.
    + by intros y ?%elem_of_nil.
    + intros i j x y _ Hx. by rewrite lookup_nil in Hx.
  - cbn [union_items] in H. destruct (item_key a) as [k|] eqn:Hk; [|done].
    destruct (existsb (hkey_eqb k) seen) eqn:Hseen.
    + destruct (IH _ _ H) as (S & C & F & D). split; [|split; [|split]]; [| |done|done].
      * by apply sublist_cons.
      * intros x [->|Hin]%elem_of_cons; [|by apply C]. left. by exists k.
    + destruct (union_items (k :: seen) items) as [r|] eqn:E; [|done].
      injection H as <-. destruct (IH _ _ E) as (S & C & F & D). split; [|split; [|split]].
      * by apply sublist_skip.
      * intros x [->|Hin]%elem_of_cons.
        { right. exists a. split; [by left|]. exists k, k. by rewrite hkey_eqb_refl. }
        destruct (C x Hin) as [(kx & Hx & Hs)|(y & Hy & Hxy)].
        -- cbn [existsb] in Hs. apply orb_true_iff in Hs as [Hs|Hs].
           ++ right. exists a. split; [by left|]. by exists kx, k.
           ++ left. by exists kx.
        -- right. exists y. split; [by right|done].
      * intros y [->|Hin]%elem_of_cons.
        -- intros (ky & Hy & Hs). congruence.
        -- intros (ky & Hy & Hs). apply (F y Hin). exists ky. split; [done|].
           cbn [existsb]. by rewrite Hs, orb_true_r.
      * intros i j x y Hij Hx Hy.
        destruct j as [|j]; [lia|]. cbn in Hy.
        destruct i as [|i].
        -- cbn in Hx. injection Hx as <-.
           intros (ky & ka & Hky & Hka & Heq). rewrite Hk in Hka. injection Hka as <-.
           apply (F y); [by eapply list_elem_of_lookup_2|].
           exists ky. split; [done|]. cbn [existsb]. by rewrite Heq.
        -- cbn in Hx. apply (D i j); [lia|done|done].
Qed.

End MetadataFacts.

Import PyStr Json Rapidfuzz Store Merge MetadataFacts.

(** A boolean against a number is a comparison of numbers, and the
    union of two lists compares strings without case. *)
Example merge_bool_with_number :
  merge_field (Some (JBool true)) (JInt 5) = Assign (JInt 5)
  ∧ merge_field (Some (JInt 0)) (JBool false) = Assign (JInt 0)
  ∧ merge_field (Some (JBool false)) (JBool true) = Assign (JBool true).
Proof. vm_compute. done. Qed.

Example merge_lists_without_case :
  merge_field (Some (JList [JStr "Pilot"; JInt 1])) (JList [JStr "pilot"; JBool true; JStr "Lawyer"])
  = Assign (JList [JStr "Pilot"; JInt 1; JStr "Lawyer"])
  ∧ merge_field (Some (JList [JStr "a"])) (JList [JList []]) = TypeError
  ∧ merge_field (Some (JStr "staff")) (JStr "other") = Keep.
Proof. vm_compute. done. Qed.

(** C8, as stated: for a key present in both maps, any value that is
    not numeric, a list or a boolean keeps the survivor's value.  A
    survivor value of [null] does not: [merged.get(key)] is [None] for
    it, and the absorbed value takes its place. *)
Lemma C8_null_value_is_replaced :
  let survivor_meta : meta := {[ ("category" : str) := JNull ]} in
  let absorbed_meta : meta := {[ ("category" : str) := JStr "pilot" ]} in
  survivor_meta !! ("category" : str) = Some JNull
  ∧ absorbed_meta !! ("category" : str) = Some (JStr "pilot")
  ∧ (_merge_metadata survivor_meta absorbed_meta ≫= (.!! ("category" : str)))
    = Some (JStr "pilot").
Proof. vm_compute. done. Qed.

(** C8, amended: unless two list values hold an item that is itself a
    list or an object (the merge then raises [TypeError]), the merge
    returns a map in which no key of the survivor is missing, a key the
    survivor lacks has the absorbed value, a key the absorbed entity
    lacks keeps the survivor's value, and for a key present in both: a
    survivor value of [null] is replaced by the absorbed value; two
    numbers, booleans counting as 0 and 1, give the larger one (the
    survivor's on a tie), so that two booleans give their logical OR; two
    lists give their union in order, with one item per key, strings
    being compared without case and numbers by value; any other pair
    keeps the survivor's value. *)
Theorem C8_merge_metadata (survivor_meta absorbed_meta : meta) :
  (∀ key l1 l2,
     survivor_meta !! key = Some (JList l1) → absorbed_meta !! key = Some (JList l2) →
     Forall hashable (l1 ++ l2)) →
  ∃ merged,
    _merge_metadata survivor_meta absorbed_meta = Some merged
    ∧ (∀ key, is_Some (survivor_meta !! key) → is_Some (merged !! key))
    ∧ (∀ key, survivor_meta !! key = None → merged !! key = absorbed_meta !! key)
    ∧ (∀ key, absorbed_meta !! key = None → merged !! key = survivor_meta !! key)
    ∧ (∀ key b1 b2,
         survivor_meta !! key = Some (JBool b1) → absorbed_meta !! key = Some (JBool b2) →
         merged !! key = Some (JBool (b1 || b2)))
    ∧ (∀ key sv av,
         survivor_meta !! key = Some sv → absorbed_meta !! key = Some av →
         match sv, av with
         | JNull, _ => merged !! key = Some av
         | JList l1, JList l2 =>
             ∃ result,
               merged !! key = Some (JList result)
               ∧ result `sublist_of` (l1 ++ l2)
               ∧ (∀ x, x ∈ l1 ++ l2 → ∃ y, y ∈ result ∧ same_key x y)
               ∧ (∀ i j x y, i < j → result !! i = Some x → result !! j = Some y →
                             ¬ same_key y x)
         | _, _ =>
             match as_number sv, as_number av with
             | Some a, Some b => merged !! key = Some (if Qltb a b then av else sv)
             | _, _ => merged !! key = Some sv
             end
         end).
Proof.
  intros Hlists.
  destruct (merge_fold_total (map_to_list absorbed_meta) survivor_meta) as [merged Hm].
  { apply NoDup_fst_map_to_list. }
  { intros k av Hin%elem_of_map_to_list. unfold merge_field.
    destruct (survivor_meta !! k) as [sv|] eqn:Es; [|done].
    destruct sv; try done; destruct av; try done; cbn [as_number];
      try (by destruct (Qltb _ _)).
    destruct (union_items_total (l ++ l0) []) as [r ->]; [by eapply Hlists|done]. }
  exists merged. split; [exact Hm|].
  pose proof (λ key, merge_metadata_lookup _ _ _ key Hm) as L.
  assert (∀ key sv av,
            survivor_meta !! key = Some sv → absorbed_meta !! key = Some av →
            field_result (Some sv) av = Some (merged !! key)) as B.
  { intros key sv av Hs Ha. specialize (L key). by rewrite Ha, Hs in L. }
  split; [|split; [|split; [|split]]].
  - intros key [sv Hs]. specialize (L key). rewrite Hs in L.
    destruct (absorbed_meta !! key) as [av|]; [|by rewrite L].
    unfold field_result in L. destruct (merge_field (Some sv) av); [| |done].
    + injection L as <-. by eexists.
    + injection L as <-. by eexists.
  - intros key Hs. specialize (L key). rewrite Hs in L.
    destruct (absorbed_meta !! key) as [av|]; [|done].
    by injection L as <-.
  - intros key Ha. specialize (L key). by rewrite Ha in L.
  - intros key b1 b2 Hs Ha. specialize (B _ _ _ Hs Ha).
    injection B as <-. by destruct b1, b2.
  - intros key sv av Hs Ha. specialize (B _ _ _ Hs Ha).
    unfold field_result, merge_field in B.
    destruct sv; try (by injection B as <-);
      try (destruct av; cbn [as_number] in *; by injection B as <-).
    destruct av; try (by injection B as <-).
    cbn [as_number] in B.
    destruct (union_items [] (l ++ l0)) as [r|] eqn:E; [|done].
    injection B as <-. exists r. split; [done|].
    apply union_items_spec in E as (S & C & _ & D). split; [done|]. split; [|done].
    intros x Hx. destruct (C x Hx) as [(kx & _ & ?)|?]; [done|done].
Qed.

Lemma C8_merge_metadata_witness :
  let survivor_meta : meta := {[ ("roles" : str) := JList [JStr "Pilot"] ]} in
  let absorbed_meta : meta := {[ ("roles" : str) := JList [JStr "pilot"; JStr "Lawyer"] ]} in
  ∃ merged,
    _merge_metadata survivor_meta absorbed_meta = Some merged
    ∧ merged !! ("roles" : str) = Some (JList [JStr "Pilot"; JStr "Lawyer"]).
Proof.
  intros survivor_meta absorbed_meta.
  destruct (C8_merge_metadata survivor_meta absorbed_meta) as (merged & Hm & _).
  - intros key l1 l2 [_ [= <-]]%lookup_singleton_Some [_ [= <-]]%lookup_singleton_Some.
    repeat constructor; by eexists.
  - exists merged. split; [exact Hm|].
    vm_compute in Hm. injection Hm as <-. vm_compute. reflexivity.
Defined.

(** ** Rounding to a float *)

Module FloatFacts.
Import Float.

Lemma pow2_pos k : (0 < pow2 k)%Q.
Proof. destruct k; unfold pow2, Qlt; simpl; lia. Qed.

Lemma rne_nonneg x : (0 <= x)%Q → (0 <= rne x)%Z.
Proof.
  intros Hx. unfold rne.
  assert (0 <= Qnum x / Z.pos (Qden x))%Z as Hf.
  { apply Z.div_pos; [|lia]. unfold Qle in Hx. simpl in Hx. lia. }
  destruct (Qcompare _ _); [destruct (Z.even _)| |]; lia.
Qed.

Lemma round_pos_nonneg x : (0 <= x)%Q → (0 <= round_pos x)%Q.
Proof.
  intros Hx. unfold round_pos. set (e := Z.max _ _).
  pose proof (pow2_pos e) as He.
  apply Qmult_le_0_compat; [|by apply Qlt_le_weak].
  assert (0 <= rne (x / pow2 e))%Z as Hr.
  { apply rne_nonneg. apply Qle_shift_div_l; [done|]. by rewrite Qmult_0_l. }
  unfold Qle. simpl. lia.
Qed.

(** The float nearest to a rational does not depend on how the
    rational is written. *)
Lemma round64_proper x y : (x == y)%Q → round64 x = round64 y.
Proof. intros E. unfold round64. by rewrite (Qred_complete x y E). Qed.

Lemma round64_zero x : (x == 0)%Q → round64 x = 0%Q.
Proof. intros E. by rewrite (round64_proper x 0 E). Qed.

Lemma round64_nonneg x : (0 <= x)%Q → (0 <= round64 x)%Q.
Proof.
  intros Hx. unfold round64.
  assert (0 <= Qred x)%Q as Hr by (by rewrite Qred_correct).
  destruct (Qnum (Qred x)) eqn:E.
  - done.
  - rewrite Qred_correct. by apply round_pos_nonneg.
  - exfalso. unfold Qle in Hr. simpl in Hr. lia.
Qed.

(** The literal [0.05]. *)
Lemma float_0_05_pos : (0 < round64 (5 # 100))%Q.
Proof. vm_compute. reflexivity. Qed.

(** Some floats of Python: [0.1], [0.05] and [0.9] with their exact
    values, a quotient that is a float already, [2^53 + 1] and half of
    the least subnormal, which are ties and go to the even neighbour, and
    the product [0.6 * 1.5]. *)
Example round64_known_values :
  round64 (1 # 10) = (3602879701896397 # 36028797018963968)%Q
  ∧ round64 (5 # 100) = (3602879701896397 # 72057594037927936)%Q
  ∧ round64 (9 # 10) = (8106479329266893 # 9007199254740992)%Q
  ∧ round64 (3 # 4) = (3 # 4)%Q
  ∧ round64 (9007199254740993 # 1) = (9007199254740992 # 1)%Q
  ∧ round64 ((1 # 2) * pow2 (-1074)) = 0%Q
  ∧ round64 (round64 (6 # 10) * (3 # 2)) = (2026619832316723 # 2251799813685248)%Q.
Proof. vm_compute. repeat split. Qed.

End FloatFacts.

(** ** Surname disambiguation *)

Module GraphFacts.
Import PyStr Float Rapidfuzz Store Merge FloatFacts.

Lemma Qltb_lt a b : Qltb a b = true ↔ (a < b)%Q.
Proof.
  unfold Qltb. rewrite negb_true_iff, <- not_true_iff_false, Qle_bool_iff.
  split; [apply Qnot_le_lt|apply Qlt_not_le].
Qed.

Lemma Qltb_ge a b : Qltb a b = false ↔ (b <= a)%Q.
Proof. unfold Qltb. by rewrite negb_false_iff, Qle_bool_iff. Qed.

Lemma jaccard_nonneg a b : (0 <= jaccard a b)%Q.
Proof. unfold jaccard. apply round64_nonneg. unfold Qle. simpl. lia. Qed.

Lemma jaccard_empty a : (jaccard a ∅ == 0)%Q.
Proof.
  unfold jaccard. rewrite (right_absorb_L ∅ (∩)).
  rewrite size_empty. by rewrite round64_zero.
Qed.

Lemma jaccard_of_empty b : (jaccard ∅ b == 0)%Q.
Proof.
  unfold jaccard. rewrite (left_absorb_L ∅ (∩)).
  rewrite size_empty. by rewrite round64_zero.
Qed.

Section Overlap.
Variable d : db.
Variable absorbed_neighbors : gset str.

(** The overlap of one candidate with the absorbed entity. *)
Definition score (cand : str * str) : Q :=
  jaccard absorbed_neighbors (_get_neighbors d cand.1).

Lemma score_nonneg c : (0 <= score c)%Q.
Proof. apply jaccard_nonneg. Qed.

(** What the loop knows after the candidates [l]. *)
Definition tracks (l : list (str * str)) (st : overlap_state) : Prop :=
  (0 <= second_best st)%Q ∧ (second_best st <= best_overlap st)%Q
  ∧ (∀ j c, l !! j = Some c → (score c <= best_overlap st)%Q)
  ∧ match best_candidate st with
    | None => (best_overlap st == 0)%Q
    | Some b =>
        ∃ i, l !! i = Some b
             ∧ (score b == best_overlap st)%Q
             ∧ (0 < best_overlap st)%Q
             ∧ (∀ j c, j < i → l !! j = Some c → (score c < best_overlap st)%Q)
             ∧ (∀ j c, j ≠ i → l !! j = Some c → (score c <= second_best st)%Q)
             ∧ ((second_best st == 0)%Q
                ∨ ∃ j c, j ≠ i ∧ l !! j = Some c ∧ (score c == second_best st)%Q)
    end.

Lemma tracks_start : tracks [] (Overlap 0%Q None 0%Q).
Proof.
  unfold tracks. cbn. repeat split; try lra.
  intros j c H. by rewrite lookup_nil in H.
Qed.

Lemma lookup_snoc_inv {A} (l : list A) (x y : A) j :
  (l ++ [x]) !! j = Some y → (j < length l ∧ l !! j = Some y) ∨ (j = length l ∧ y = x).
Proof.
  intros H. apply lookup_app_Some in H as [H|[H1 H2]].
  - left. split; [by eapply lookup_lt_Some|done].
  - right. apply list_lookup_singleton_Some in H2 as [H2 ->]. split; [lia|done].
Qed.

(** A candidate whose overlap does not exceed the runner-up's leaves
    the state as it is. *)
Lemma tracks_keep l st c :
  tracks l st → (score c <= second_best st)%Q → tracks (l ++ [c]) st.
Proof.
  intros (A1 & A2 & B & C) Hs. split; [done|]. split; [done|]. split.
  - intros j x [[_ H]|[_ ->]]%lookup_snoc_inv; [by eapply B|lra].
  - destruct (best_candidate st) as [b|]; [|done].
    destruct C as (i & Hi & E & P & L & O & T). exists i.
    split; [by apply lookup_app_l_Some|]. split; [done|]. split; [done|]. split; [|split].
    + intros j x Hj [[_ H]|[-> ->]]%lookup_snoc_inv; [by eapply L|].
      apply lookup_lt_Some in Hi. lia.
    + intros j x Hj [[_ H]|[_ ->]]%lookup_snoc_inv; [by eapply O|done].
    + destruct T as [T|(j & x & Hj & Hx & Ex)]; [by left|].
      right. exists j, x. split; [done|]. split; [by apply lookup_app_l_Some|done].
Qed.

Lemma tracks_step l st c :
  tracks l st → tracks (l ++ [c]) (overlap_step d absorbed_neighbors st c).
Proof.
  intros T. pose proof T as (A1 & A2 & B & C). unfold overlap_step.
  case_bool_decide as Hn.
  { apply tracks_keep; [done|]. unfold score.
    apply size_empty_inv in Hn. apply leibniz_equiv in Hn. rewrite Hn, jaccard_empty. done. }
  case_bool_decide as Hu.
  { apply tracks_keep; [done|]. exfalso. apply Hn.
    apply size_empty_inv in Hu. apply leibniz_equiv in Hu.
    assert (_get_neighbors d c.1 = ∅) as -> by set_solver. apply size_empty. }
  fold (score c).
  destruct (Qltb (best_overlap st) (score c)) eqn:G1.
  - apply Qltb_lt in G1. split; [cbn; lra|]. split; [cbn; lra|]. split.
    + cbn. intros j x [[_ H]|[_ ->]]%lookup_snoc_inv; [|lra].
      specialize (B _ _ H). lra.
    + cbn. exists (length l). split; [by apply list_lookup_middle|].
      split; [lra|]. split; [lra|]. split; [|split].
      * intros j x Hj [[_ H]|[-> _]]%lookup_snoc_inv; [|lia].
        specialize (B _ _ H). lra.
      * intros j x Hj [[_ H]|[-> _]]%lookup_snoc_inv; [by eapply B|lia].
      * destruct (best_candidate st) as [b|]; [|by left].
        destruct C as (i & Hi & E & _). right. exists i, b.
        split; [apply lookup_lt_Some in Hi; lia|].
        split; [by apply lookup_app_l_Some|done].
  - apply Qltb_ge in G1.
    destruct (Qltb (second_best st) (score c)) eqn:G2.
    + apply Qltb_lt in G2. split; [cbn; lra|]. split; [cbn; lra|]. split.
      * cbn. intros j x [[_ H]|[_ ->]]%lookup_snoc_inv; [by eapply B|lra].
      * cbn. destruct (best_candidate st) as [b|]; [|lra].
        destruct C as (i & Hi & E & P & L & O & _). exists i.
        split; [by apply lookup_app_l_Some|]. split; [done|]. split; [done|].
        split; [|split].
        -- intros j x Hj [[_ H]|[-> ->]]%lookup_snoc_inv; [by eapply L|].
           apply lookup_lt_Some in Hi. lia.
        -- intros j x Hj [[_ H]|[_ ->]]%lookup_snoc_inv; [|lra].
           specialize (O _ _ Hj H). lra.
        -- right. exists (length l), c.
           split; [apply lookup_lt_Some in Hi; lia|].
           split; [by apply list_lookup_middle|done].
    + apply Qltb_ge in G2. by apply tracks_keep.
Qed.

Lemma tracks_fold l : ∀ l0 st,
  tracks l0 st → tracks (l0 ++ l) (fold_left (overlap_step d absorbed_neighbors) l st).
Proof.
  induction l as [|c l IH]; intros l0 st T; [by rewrite app_nil_r|].
  cbn [fold_left]. rewrite cons_middle, app_assoc. apply IH. by apply tracks_step.
Qed.

End Overlap.

(** An accepted candidate is one of the candidates. *)
Lemma disambiguate_elem d absorbed_cid candidates best :
  _disambiguate_by_graph d absorbed_cid candidates = Some best → best ∈ candidates.
Proof.
  unfold _disambiguate_by_graph. case_bool_decide; [done|].
  pose proof (tracks_fold d (_get_neighbors d absorbed_cid) candidates [] _
                (tracks_start d _)) as (_ & _ & _ & C).
  rewrite app_nil_l in C.
  destruct (best_candidate _) as [b|]; [|done].
  destruct C as (i & Hi & _). destruct (_ && _); [|done].
  intros [= <-]. by eapply list_elem_of_lookup_2.
Qed.

End GraphFacts.

Import PyStr Float Rapidfuzz Store Merge FloatFacts GraphFacts.

(** C5, as stated: the best candidate is accepted if and only if its
    overlap is at least 0.05 and at least 1.5 times the runner-up's.
    With overlaps 3/4 and 1/2, both exact as floats, the best is exactly
    1.5 times the runner-up, and no candidate is returned. *)
Lemma C5_exactly_one_and_a_half_is_rejected :
  let edge (k : nat) (a b : string) : relationship :=
    Rel (Z.of_nat k) a b "associate" (Some 1%Z) None in
  let d : db :=
    Db [] [ edge 1 "cassell" "n1"; edge 2 "cassell" "n2"; edge 3 "cassell" "n3";
            edge 4 "paul" "n1"; edge 5 "paul" "n2"; edge 6 "paul" "n3"; edge 7 "paul" "n4";
            edge 8 "dan" "n1"; edge 9 "dan" "n2"; edge 10 "dan" "n5" ] [] [] [] in
  let paul : str * str := ("paul" : str, "Paul Cassell" : str) in
  let dan : str * str := ("dan" : str, "Dan Cassell" : str) in
  let score (c : str * str) := jaccard (_get_neighbors d "cassell") (_get_neighbors d c.1) in
  (score paul == 3 # 4)%Q ∧ (score dan == 1 # 2)%Q
  ∧ (5 # 100 <= score paul)%Q ∧ (score dan * (3 # 2) <= score paul)%Q
  ∧ _disambiguate_by_graph d "cassell" [paul; dan] = None.
Proof. vm_compute. repeat split; discriminate. Qed.

(** The test is made on floats.  With 9 of 10 neighbours shared by one
    candidate and 6 of 10 by the other, the first quotient is exactly 1.5
    times the second; the floats are 0.9 and 0.6, the product
    [0.6 * 1.5] is rounded to 0.8999999999999999, and the candidate is
    returned. *)
Example rounded_product_lets_an_exact_ratio_pass :
  let edges (k : nat) (a : string) (l : list string) : list relationship :=
    imap (fun i (b : str) => Rel (Z.of_nat (k + i)) a b "associate" (Some 1%Z) None)
         (strs l) in
  let shared : list string := ["n1"; "n2"; "n3"; "n4"; "n5"; "n6"]%string in
  let more : list string := ["n7"; "n8"; "n9"]%string in
  let d : db :=
    Db [] (edges 0 "cassell" (shared ++ more)
           ++ edges 100 "paul" (shared ++ more ++ ["m1"]%string)
           ++ edges 200 "dan" (shared ++ ["m2"]%string)) [] [] [] in
  let paul : str * str := ("paul" : str, "Paul Cassell" : str) in
  let dan : str * str := ("dan" : str, "Dan Cassell" : str) in
  let score (c : str * str) := jaccard (_get_neighbors d "cassell") (_get_neighbors d c.1) in
  score paul = round64 (9 # 10) ∧ score dan = round64 (6 # 10)
  ∧ ((6 # 10) * (3 # 2) == 9 # 10)%Q
  ∧ (round64 (score dan * (3 # 2)) < score paul)%Q
  ∧ _disambiguate_by_graph d "cassell" [paul; dan] = Some paul.
Proof. vm_compute. repeat split; discriminate. Qed.

(** C5, amended: [_disambiguate_by_graph] returns the first candidate
    of highest Jaccard overlap if and only if that overlap is at least
    the float 0.05 and strictly above the float product of the
    runner-up's overlap and 1.5; otherwise it returns no candidate.  The
    overlaps are floats, the runner-up's overlap is the highest overlap
    among the other candidates, and 0 when there is none. *)
Theorem C5_disambiguate_by_graph (d : db) (absorbed_cid : str) (candidates : list (str * str)) :
  let score (c : str * str) :=
    jaccard (_get_neighbors d absorbed_cid) (_get_neighbors d c.1) in
  let runner_up (i : nat) (s : Q) :=
    (∀ j c, j ≠ i → candidates !! j = Some c → (score c <= s)%Q)
    ∧ ((s == 0)%Q ∨ ∃ j c, j ≠ i ∧ candidates !! j = Some c ∧ (score c == s)%Q) in
  match _disambiguate_by_graph d absorbed_cid candidates with
  | Some best =>
      ∃ i s, candidates !! i = Some best
             ∧ (∀ j c, candidates !! j = Some c → (score c <= score best)%Q)
             ∧ (∀ j c, j < i → candidates !! j = Some c → (score c < score best)%Q)
             ∧ runner_up i s
             ∧ (round64 (5 # 100) <= score best)%Q
             ∧ (round64 (s * (3 # 2)) < score best)%Q
  | None =>
      ∀ i best s, candidates !! i = Some best →
        (∀ j c, candidates !! j = Some c → (score c <= score best)%Q) →
        runner_up i s →
        ¬ ((round64 (5 # 100) <= score best)%Q ∧ (round64 (s * (3 # 2)) < score best)%Q)
  end.
Proof.
  intros score0 runner_up. unfold _disambiguate_by_graph.
  pose proof float_0_05_pos as F5.
  case_bool_decide as Hn.
  { intros i best s Hi _ _ [H _]. revert H. unfold score0.
    apply size_empty_inv in Hn. apply leibniz_equiv in Hn.
    rewrite Hn, jaccard_of_empty. lra. }
  pose proof (tracks_fold d (_get_neighbors d absorbed_cid) candidates [] _
                (tracks_start d _)) as T.
  rewrite app_nil_l in T.
  set (st := fold_left _ candidates _) in *.
  destruct T as (A1 & A2 & B & C).
  change (GraphFacts.score d (_get_neighbors d absorbed_cid)) with score0 in *.
  assert (∀ c, (0 <= score0 c)%Q) as Hpos by (intros c; apply jaccard_nonneg).
  destruct (best_candidate st) as [b|].
  - destruct C as (i & Hi & E & P & L & O & T).
    assert (∀ i' best' s, candidates !! i' = Some best' →
              (∀ j c, candidates !! j = Some c → (score0 c <= score0 best')%Q) →
              runner_up i' s →
              (score0 best' == best_overlap st)%Q
              ∧ round64 (s * (3 # 2)) = round64 (second_best st * (3 # 2))) as Same.
    { intros i' best' s Hi' Hmax [R1 R2].
      pose proof (B _ _ Hi') as Hb'. pose proof (Hmax _ _ Hi) as Hb.
      assert (score0 best' == best_overlap st)%Q as Eb by lra.
      split; [done|]. apply round64_proper.
      assert (0 <= s)%Q as Hs.
      { destruct R2 as [R2|(j1 & c1 & _ & _ & R2)]; [lra|].
        specialize (Hpos c1). lra. }
      assert (s == second_best st)%Q as ->; [|done].
      destruct (decide (i' = i)) as [->|Hne].
      - assert (s <= second_best st)%Q.
        { destruct R2 as [R2|(j1 & c1 & Hj1 & Hc1 & R2)]; [lra|].
          specialize (O _ _ Hj1 Hc1). lra. }
        assert (second_best st <= s)%Q.
        { destruct T as [T|(j0 & c0 & Hj0 & Hc0 & E0)]; [lra|].
          specialize (R1 _ _ Hj0 Hc0). lra. }
        lra.
      - specialize (O _ _ Hne Hi').
        assert (i ≠ i') as Hne' by done. specialize (R1 _ _ Hne' Hi).
        assert (s <= best_overlap st)%Q.
        { destruct R2 as [R2|(j1 & c1 & Hj1 & Hc1 & R2)]; [lra|].
          specialize (B _ _ Hc1). lra. }
        lra. }
    destruct (Qle_bool (round64 (5 # 100)) (best_overlap st)) eqn:G1; cbn [andb].
    + apply Qle_bool_iff in G1.
      destruct (Qltb (round64 (second_best st * (3 # 2))) (best_overlap st)) eqn:G2.
      * apply Qltb_lt in G2. exists i, (second_best st).
        split; [done|]. split; [|split; [|split; [|split]]].
        -- intros j c Hj. specialize (B _ _ Hj). lra.
        -- intros j c Hj Hc. specialize (L _ _ Hj Hc). lra.
        -- split; [done|]. destruct T as [T|T]; [by left|by right].
        -- lra.
        -- lra.
      * apply Qltb_ge in G2. intros i' best' s Hi' Hmax Hr [_ Hacc].
        destruct (Same i' best' s Hi' Hmax Hr) as [Eb Es]. rewrite Es in Hacc. lra.
    + intros i' best' s Hi' Hmax Hr [H _].
      destruct (Same i' best' s Hi' Hmax Hr) as [Eb _].
      assert (¬ (round64 (5 # 100) <= best_overlap st)%Q) as G.
      { intros G. apply Qle_bool_iff in G. congruence. }
      lra.
  - intros i' best' s Hi' _ _ [H _]. specialize (B _ _ Hi'). lra.
Qed.

Lemma C5_disambiguate_by_graph_witness :
  let edge (k : nat) (a b : string) : relationship :=
    Rel (Z.of_nat k) a b "associate" (Some 1%Z) None in
  let d : db :=
    Db [] [ edge 1 "cassell" "n1"; edge 2 "cassell" "n2"; edge 3 "cassell" "n3";
            edge 4 "paul" "n1"; edge 5 "paul" "n2"; edge 6 "paul" "n3";
            edge 8 "dan" "n1"; edge 10 "dan" "n5" ] [] [] [] in
  let paul : str * str := ("paul" : str, "Paul Cassell" : str) in
  let dan : str * str := ("dan" : str, "Dan Cassell" : str) in
  let score (c : str * str) := jaccard (_get_neighbors d "cassell") (_get_neighbors d c.1) in
  ∃ i s, [dan; paul] !! i = Some paul
         ∧ (∀ j c, [dan; paul] !! j = Some c → (score c <= score paul)%Q)
         ∧ (∀ j c, j < i → [dan; paul] !! j = Some c → (score c < score paul)%Q)
         ∧ ((∀ j c, j ≠ i → [dan; paul] !! j = Some c → (score c <= s)%Q)
            ∧ ((s == 0)%Q ∨ ∃ j c, j ≠ i ∧ [dan; paul] !! j = Some c ∧ (score c == s)%Q))
         ∧ (round64 (5 # 100) <= score paul)%Q
         ∧ (round64 (s * (3 # 2)) < score paul)%Q.
Proof.
  intros edge d paul dan score.
  pose proof (C5_disambiguate_by_graph d "cassell" [dan; paul]) as H.
  cbv zeta in H.
  replace (_disambiguate_by_graph d "cassell" [dan; paul]) with (Some paul) in H
    by (vm_compute; reflexivity).
  exact H.
Defined.

(** ** Relationship consolidation *)

Module ConsolidateFacts.
Import PyStr PySort Store Merge.

(** *** Sorting and grouping *)

Lemma insert_sorted_perm {A} (lt : A → A → bool) x l : insert_sorted lt x l ≡ₚ x :: l.
Proof.
induction l as [|y l IH]; [done|]. simpl. destruct (lt y x); [|done].
rewrite IH. apply Permutation_swap.
Qed.

Lemma stable_sort_perm {A} (lt : A → A → bool) l : stable_sort lt l ≡ₚ l.
Proof.
induction l as [|x l IH]; [done|]. unfold stable_sort in *. cbn [fold_right].
by rewrite insert_sorted_perm, IH.
Qed.

Section Groups.
Context {K V : Type} `{EqDecision K}.
Variable key : V → K.

Definition grouped (l : list V) : list (K * list V) :=
fold_left (fun groups v => dd_append (key v) v groups) l [].

Definition with_key (k : K) (l : list V) : list V := filter (fun v => (key v = k)) l.

Lemma dd_append_keys k v (gs : list (K * list V)) :
(dd_append k v gs).*1 = (if decide (k ∈ gs.*1) then gs.*1 else gs.*1 ++ [k]).
Proof.
induction gs as [|[k' vs] gs IH]; [done|]. cbn [dd_append].
destruct (decide (k = k')) as [->|Hne].
- cbn. rewrite decide_True by left. done.
- cbn. rewrite IH. destruct (decide (k ∈ gs.*1)).
+ rewrite decide_True by (by right). done.
+ rewrite decide_False; [done|]. by intros [?|?]%elem_of_cons.
Qed.

Lemma dd_append_elem k v (gs : list (K * list V)) k' g' :
NoDup gs.*1 →
(k', g') ∈ dd_append k v gs →
(k' ≠ k ∧ (k', g') ∈ gs)
∨ (k' = k ∧ ((∃ g, (k, g) ∈ gs ∧ g' = g ++ [v]) ∨ ((k ∉ gs.*1) ∧ g' = [v]))).
Proof.
induction gs as [|[k0 vs] gs IH]; cbn [dd_append]; intros Hnd.
- intros [= -> ->]%list_elem_of_singleton. right. split; [done|]. right.
split; [|done]. by intros ?%elem_of_nil.
- apply NoDup_cons in Hnd as [Hk0 Hnd]. destruct (decide (k = k0)) as [<-|Hne].
+ intros [[= -> ->]|Hin]%elem_of_cons.
  * right. split; [done|]. left. exists vs. split; [by left|done].
  * left. split; [|by right]. intros ->. apply Hk0.
    apply list_elem_of_fmap. by exists (k, g').
+ intros [[= -> ->]|Hin]%elem_of_cons.
  * left. split; [done|]. by left.
  * destruct (IH Hnd Hin) as [[H1 H2]|[-> [[g [Hg ->]]|[Hk ->]]]].
    -- left. split; [done|]. by right.
    -- right. split; [done|]. left. exists g. split; [by right|done].
    -- right. split; [done|]. right. split; [|done].
       by intros [?|?]%elem_of_cons.
Qed.

(** The groups of [l]: one per key, each holding the elements of [l]
with that key, in order. *)
Definition groups_of (l : list V) (gs : list (K * list V)) : Prop :=
NoDup gs.*1
∧ (∀ k g, (k, g) ∈ gs → g = with_key k l ∧ g ≠ [])
∧ (∀ v, v ∈ l → key v ∈ gs.*1).

Lemma with_key_snoc k l v :
with_key k (l ++ [v]) = with_key k l ++ (if decide (key v = k) then [v] else []).
Proof. unfold with_key. by rewrite filter_app. Qed.

Lemma grouped_spec l : groups_of l (grouped l).
Proof.
induction l as [|v l IH] using rev_ind.
- split; [constructor|]. split; [by intros k g ?%elem_of_nil|by intros v ?%elem_of_nil].
- unfold grouped. rewrite fold_left_app. cbn [fold_left]. fold (grouped l).
destruct IH as (G2 & G1 & G3). split; [|split].
+ rewrite dd_append_keys. destruct (decide (key v ∈ (grouped l).*1)); [done|].
  apply NoDup_app. split; [done|]. split; [|apply NoDup_singleton].
  intros x Hx ->%list_elem_of_singleton. done.
+ intros k g Hin. apply dd_append_elem in Hin; [|done].
  rewrite with_key_snoc.
  destruct Hin as [[Hne Hin]|[-> [[g0 [Hg0 ->]]|[Hk ->]]]].
  * destruct (G1 _ _ Hin) as [-> Hn]. rewrite decide_False by done.
    by rewrite app_nil_r.
  * destruct (G1 _ _ Hg0) as [-> Hn]. rewrite decide_True by done.
    split; [done|]. by destruct (with_key (key v) l).
  * rewrite decide_True by done. split; [|done].
    assert (with_key (key v) l = []) as ->; [|done].
    destruct (with_key (key v) l) as [|x xs] eqn:E; [done|]. exfalso.
    assert (x ∈ with_key (key v) l) as Hx by (rewrite E; by left).
    apply list_elem_of_filter in Hx as [Hx1 Hx2]. apply Hk. rewrite <- Hx1. by apply G3.
+ intros x Hx. rewrite dd_append_keys.
  apply elem_of_app in Hx as [Hx|Hx]; [|apply list_elem_of_singleton in Hx as ->].
  * destruct (decide _); [by apply G3|]. apply elem_of_app. left. by apply G3.
  * destruct (decide _); [done|]. apply elem_of_app. right. by left.
Qed.

(** With pairwise distinct keys every group is a singleton. *)
Lemma with_key_unique k l : NoDup (key <$> l) → length (with_key k l) ≤ 1.
Proof.
induction l as [|v l IH]; [simpl; lia|]. intros [Hv Hnd]%NoDup_cons.
unfold with_key in *. destruct (decide (key v = k)) as [E|E].
- rewrite filter_cons_True by done. cbn [length].
assert (filter (λ v0, key v0 = k) l = []) as ->; [|simpl; lia].
destruct (filter _ l) as [|x xs] eqn:F; [done|]. exfalso.
assert (x ∈ filter (λ v0, key v0 = k) l) as Hx by (rewrite F; by left).
apply list_elem_of_filter in Hx as [Hx1 Hx2]. apply Hv.
rewrite E, <- Hx1. by apply list_elem_of_fmap_2.
- rewrite filter_cons_False by done. by apply IH.
Qed.

End Groups.

(** *** The relationships table through a consolidation *)

(** What a consolidation never changes in a row. *)
Definition sk (r : relationship) : Z * str * str * str :=
(relationship_id r, source_entity_id r, target_entity_id r, relationship_type r).

#[local] Instance relationship_eq_dec : EqDecision relationship.
Proof. solve_decision. Defined.

Lemma sk_id r r' : sk r = sk r' → relationship_id r = relationship_id r'.
Proof. by intros [= ? ? ? ?]. Qed.

Lemma sk_touches cid r r' : sk r = sk r' → touches cid r = touches cid r'.
Proof. unfold touches. by intros [= _ -> -> _]. Qed.

Definition keeps (L : list Z) (r : relationship) : Prop := relationship_id r ∉ L.

(** [t1] is [t] without the rows whose id is in [L], the other rows
  being rewritten in place. *)
Definition reshaped (L : list Z) (t t1 : list relationship) : Prop :=
∃ g, (∀ r, sk (g r) = sk r) ∧ t1 = g <$> filter (keeps L) t.

Lemma filter_all {A} (P : A → Prop) `{∀ x, Decision (P x)} (l : list A) :
(∀ x, P x) → filter P l = l.
Proof.
intros HP. induction l as [|x l IH]; [done|]. by rewrite filter_cons_True, IH.
Qed.

Lemma filter_fmap {A B} (f : A → B) (P : B → Prop) `{∀ x, Decision (P x)} (l : list A) :
filter P (f <$> l) = f <$> filter (P ∘ f) l.
Proof.
induction l as [|x l IH]; [done|]. cbn [fmap list_fmap].
destruct (decide (P (f x))).
- rewrite !filter_cons_True by done. cbn. by rewrite IH.
- rewrite !filter_cons_False by done. done.
Qed.

Lemma reshaped_refl t : reshaped [] t t.
Proof.
exists id. split; [done|]. rewrite filter_all; [by rewrite list_fmap_id|].
intros r. unfold keeps. by intros ?%elem_of_nil.
Qed.

Lemma reshaped_equiv L L' t t1 :
(∀ x, x ∈ L ↔ x ∈ L') → reshaped L t t1 → reshaped L' t t1.
Proof.
intros E (g & Hg & ->). exists g. split; [done|]. f_equal.
apply list_filter_iff. intros r. unfold keeps. by rewrite E.
Qed.

Lemma reshaped_update L t t1 p f :
(∀ r, sk (f r) = sk r) → reshaped L t t1 → reshaped L t (update_where p f t1).
Proof.
intros Hf (g & Hg & ->). exists (λ r, if p (g r) then f (g r) else g r). split.
- intros r. destruct (p (g r)); [by rewrite Hf|done].
- unfold update_where. change (map ?h ?l) with (h <$> l).
  by rewrite <- list_fmap_compose.
Qed.

Lemma reshaped_delete L t t1 rid :
reshaped L t t1 → reshaped (rid :: L) t (delete_where (rel_is rid) t1).
Proof.
intros (g & Hg & ->). exists g. split; [done|]. unfold delete_where.
rewrite filter_fmap. f_equal. rewrite list_filter_filter.
apply list_filter_iff. intros r. unfold keeps, rel_is. cbn.
rewrite (sk_id _ _ (Hg r)), bool_decide_eq_false, not_elem_of_cons. tauto.
Qed.

Section Consolidate.
Variable set_order : list str → list str.

Lemma absorb_edge_reshaped L t survivor_rel d loser :
reshaped L t (relationships d) →
reshaped (relationship_id loser :: L) t
       (relationships (absorb_edge set_order survivor_rel d loser)).
Proof.
intros H. unfold absorb_edge. cbn. apply reshaped_delete.
apply reshaped_update; [done|done].
Qed.

Lemma absorb_edges_reshaped survivor_rel losers : ∀ L t d,
reshaped L t (relationships d) →
reshaped ((relationship_id <$> losers) ++ L) t
       (relationships (fold_left (absorb_edge set_order survivor_rel) losers d)).
Proof.
induction losers as [|l ls IH]; intros L t d H; [done|].
cbn [fold_left]. eapply reshaped_equiv; [|apply IH, absorb_edge_reshaped, H].
intros x. cbn. rewrite !elem_of_app, !elem_of_cons, !elem_of_app. tauto.
Qed.

(** The rows that a group loses. *)
Definition losers_of (group : list relationship) : list relationship :=
if length group <? 2 then [] else tail (stable_sort by_weight_desc group).

Lemma consolidate_group_reshaped L t n d kg :
reshaped L t (relationships d) →
reshaped ((relationship_id <$> losers_of kg.2) ++ L) t
       (relationships (consolidate_group set_order (n, d) kg).2).
Proof.
intros H. unfold consolidate_group, losers_of.
destruct (length kg.2 <? 2); [done|].
destruct (stable_sort by_weight_desc kg.2) as [|s ls]; [done|].
cbn [tail snd]. by apply absorb_edges_reshaped.
Qed.

Definition all_losers (groups : list (str * str * str * list relationship)) : list relationship :=
mjoin (losers_of <$> groups.*2).

Lemma consolidate_groups_reshaped groups : ∀ L t acc,
reshaped L t (relationships acc.2) →
reshaped ((relationship_id <$> all_losers groups) ++ L) t
       (relationships (fold_left (consolidate_group set_order) groups acc).2).
Proof.
induction groups as [|kg groups IH]; intros L t [n d] H; [done|].
cbn [fold_left]. eapply reshaped_equiv; [|apply IH].
2:{ destruct (consolidate_group set_order (n, d) kg) as [n' d'] eqn:E.
  pose proof (consolidate_group_reshaped L t n d kg H) as H'. rewrite E in H'. exact H'. }
intros x. unfold all_losers. cbn. rewrite !fmap_app, !elem_of_app. tauto.
Qed.

(** Groups of fewer than two rows are skipped. *)
Lemma consolidate_groups_skip groups acc :
(∀ kg, kg ∈ groups → length kg.2 < 2) →
fold_left (consolidate_group set_order) groups acc = acc.
Proof.
revert acc. induction groups as [|kg groups IH]; intros acc H; [done|].
cbn [fold_left].
assert (consolidate_group set_order acc kg = acc) as ->.
{ unfold consolidate_group. destruct acc as [n d].
rewrite (proj2 (Nat.ltb_lt _ _)); [done|]. apply H. by left. }
apply IH. intros kg' Hin. apply H. by right.
Qed.

Lemma sk_key r r' : sk r = sk r' → group_key r = group_key r'.
Proof. unfold group_key. by intros [= _ -> -> ->]. Qed.

Lemma two_elements {A} (l : list A) x y : x ∈ l → y ∈ l → x ≠ y → 2 ≤ length l.
Proof.
destruct l as [|a [|b l]]; simpl; [by intros ?%elem_of_nil| |lia].
intros ->%list_elem_of_singleton ->%list_elem_of_singleton. done.
Qed.

(** The edges of [entity_id] that a consolidation leaves. *)
Definition left_over (d : db) (entity_id : str) : list relationship :=
filter (fun r => touches entity_id r = true)
     (filter (keeps (relationship_id <$> all_losers (group_edges (edges_of d entity_id))))
             (relationships d)).

Lemma left_over_edges d entity_id r :
r ∈ left_over d entity_id →
r ∈ edges_of d entity_id
∧ r ∉ all_losers (group_edges (edges_of d entity_id)).
Proof.
unfold left_over, edges_of.
intros [Ht [Hk Hr]%list_elem_of_filter]%list_elem_of_filter. split.
- by apply list_elem_of_filter.
- intros Hl. apply Hk. by apply list_elem_of_fmap_2.
Qed.

(** After a consolidation the edges of the entity are the rows left
over, rewritten in place. *)
Lemma consolidate_edges d entity_id :
∃ g, (∀ r, sk (g r) = sk r)
   ∧ edges_of (_consolidate_duplicate_relationships set_order d entity_id).2 entity_id
     = g <$> left_over d entity_id.
Proof.
unfold _consolidate_duplicate_relationships.
destruct (consolidate_groups_reshaped (group_edges (edges_of d entity_id)) []
          (relationships d) (0, d) (reshaped_refl _)) as (g & Hg & E).
rewrite app_nil_r in E. exists g. split; [done|].
unfold edges_of at 1. rewrite E, filter_fmap. f_equal.
apply list_filter_iff. intros r. cbn. by rewrite (sk_touches _ _ _ (Hg r)).
Qed.

(** No two rows left over have the same pair and type. *)
Lemma left_over_keys d entity_id :
NoDup (relationship_id <$> relationships d) →
NoDup (group_key <$> left_over d entity_id).
Proof.
intros Hnd. apply NoDup_fmap_2_strong.
2:{ unfold left_over. do 2 apply NoDup_filter. by eapply NoDup_fmap_1. }
intros x y Hx Hy Hk.
apply left_over_edges in Hx as [Hx Hxl], Hy as [Hy Hyl].
destruct (decide (x = y)) as [|Hne]; [done|]. exfalso.
set (rels := edges_of d entity_id) in *.
destruct (grouped_spec group_key rels) as (_ & G1 & G3).
change (grouped group_key rels) with (group_edges rels) in *.
apply G3 in Hx as Hkx. apply list_elem_of_fmap in Hkx as ([k grp] & Ek & Hg).
cbn in Ek. destruct (G1 _ _ Hg) as [Egrp _].
assert (x ∈ grp) as Hxg by (rewrite Egrp; by apply list_elem_of_filter).
assert (y ∈ grp) as Hyg by (rewrite Egrp; apply list_elem_of_filter; split; [congruence|done]).
pose proof (two_elements _ _ _ Hxg Hyg Hne) as Hlen.
assert (∀ z, z ∈ tail (stable_sort by_weight_desc grp) → z ∈ all_losers (group_edges rels)) as Hlose.
{ intros z Hz. unfold all_losers. apply list_elem_of_join.
exists (losers_of grp). split.
- unfold losers_of. by rewrite (proj2 (Nat.ltb_ge _ _) Hlen).
- apply list_elem_of_fmap. exists grp. split; [done|].
  apply list_elem_of_fmap. by exists (k, grp). }
pose proof (stable_sort_perm by_weight_desc grp) as Hp.
destruct (stable_sort by_weight_desc grp) as [|s ls].
{ apply Permutation_length in Hp. simpl in Hp. lia. }
cbn [tail] in Hlose.
rewrite <- Hp in Hxg, Hyg.
apply elem_of_cons in Hxg as [->|Hxg]; [|by apply Hxl, Hlose].
apply elem_of_cons in Hyg as [->|Hyg]; [done|by apply Hyl, Hlose].
Qed.

Lemma consolidate_keys d entity_id :
NoDup (relationship_id <$> relationships d) →
NoDup (group_key <$>
       edges_of (_consolidate_duplicate_relationships set_order d entity_id).2 entity_id).
Proof.
intros Hnd. destruct (consolidate_edges d entity_id) as (g & Hg & ->).
rewrite <- list_fmap_compose.
erewrite list_fmap_ext; [by apply left_over_keys|].
intros i r _. cbn. by apply sk_key.
Qed.

(** A table whose edges of [entity_id] have distinct keys is left as it
is. *)
Lemma consolidate_nothing d entity_id :
NoDup (group_key <$> edges_of d entity_id) →
_consolidate_duplicate_relationships set_order d entity_id = (0, d).
Proof.
intros Hnd. unfold _consolidate_duplicate_relationships.
apply consolidate_groups_skip. intros [k grp] Hin.
destruct (grouped_spec group_key (edges_of d entity_id)) as (_ & G1 & _).
destruct (G1 _ _ Hin) as [-> _]. cbn.
pose proof (with_key_unique group_key k _ Hnd). lia.
Qed.

End Consolidate.

End ConsolidateFacts.

Import PyStr PySort Store Merge ConsolidateFacts.

(** C9: run a second time right after a first run, on a table whose
    relationship ids are distinct (the primary key),
    [_consolidate_duplicate_relationships] changes no row of any table
    and reports zero consolidations. *)
Theorem C9_consolidation_idempotent (set_order : list str → list str) (d : db)
    (entity_id : str) :
  NoDup (map relationship_id (relationships d)) →
  let first := _consolidate_duplicate_relationships set_order d entity_id in
  _consolidate_duplicate_relationships set_order first.2 entity_id = (0, first.2).
Proof.
  intros Hnd first. apply consolidate_nothing. by apply consolidate_keys.
Qed.

(** An enumeration order for sets of strings: first occurrences, in
    order. *)
Definition first_seen_order (l : list str) : list str := remove_dups l.

Lemma C9_consolidation_idempotent_witness :
  let e (k : nat) (a b : string) (w : Z) : relationship :=
    Rel (Z.of_nat k) a b "traveled_with" (Some w) None in
  let d : db := Db [] [e 1 "PER-1" "PER-2" 2%Z; e 2 "PER-2" "PER-1" 1%Z; e 3 "PER-1" "PER-3" 1%Z]
                   [Src 1 1 "docs"; Src 2 2 "graph"] [] [] in
  let first := _consolidate_duplicate_relationships first_seen_order d "PER-1" in
  first.1 = 1
  ∧ _consolidate_duplicate_relationships first_seen_order first.2 "PER-1" = (0, first.2).
Proof.
  intros e d first. split; [vm_compute; reflexivity|].
  apply (C9_consolidation_idempotent first_seen_order d "PER-1").
  vm_compute. repeat constructor; intros H; inversion H; subst;
    repeat match goal with
           | H : In _ _ |- _ => inversion H; clear H; try discriminate
           | H : _ ∈ _ |- _ => inversion H; clear H; subst; try discriminate
           end.
Defined.

(** C1, at a group of three edges over the same pair and type, with
    weights 5, 3 and 2: one edge remains, but its weight is 7, the
    survivor's own weight plus that of the last loser, and not the sum 10;
    its documents are drawn from the first and the last edge only.  The
    loop over the losers reads the survivor row as it was fetched and
    overwrites what the previous round stored. *)
Theorem C1_three_edges_lose_weight (set_order : list str → list str) :
  let e (k : nat) (a b : string) (w : Z) (doc : string) : relationship :=
    Rel (Z.of_nat k) a b "traveled_with" (Some w) (Some (strs [doc])) in
  let d : db :=
    Db [] [e 1 "PER-1" "PER-2" 5%Z "EFTA-1"; e 2 "PER-2" "PER-1" 3%Z "EFTA-2";
           e 3 "PER-1" "PER-2" 2%Z "EFTA-3"] [] [] [] in
  map group_key (edges_of d "PER-1")
  = [("PER-1" : str, "PER-2" : str, "traveled_with" : str);
     ("PER-1" : str, "PER-2" : str, "traveled_with" : str);
     ("PER-1" : str, "PER-2" : str, "traveled_with" : str)]
  ∧ map weight_or_0 (edges_of d "PER-1") = [5; 3; 2]%Z
  ∧ relationships (_consolidate_duplicate_relationships set_order d "PER-1").2
    = [Rel 1 "PER-1" "PER-2" "traveled_with" (Some 7%Z)
           (Some (take 200 (set_order (strs ["EFTA-1"; "EFTA-3"]))))].
Proof. intros e d. repeat split; vm_compute; reflexivity. Qed.

(** ** Merging a pair, deleting and flagging noise *)

Module EngineFacts.
Import PyStr PySort Json Cleanup Store Merge ConsolidateFacts.

Lemma fetch_entity_None d cid :
cid ∉ map canonical_id (canonical_entities d) → fetch_entity d cid = None.
Proof.
unfold fetch_entity. induction (canonical_entities d) as [|e t IH]; [done|].
intros H. cbn [map] in H. apply not_elem_of_cons in H as [Hne H].
cbn [find]. unfold has_id at 1. rewrite bool_decide_eq_false_2 by done. by apply IH.
Qed.

Lemma fetch_entity_Some d cid row :
fetch_entity d cid = Some row → row ∈ canonical_entities d ∧ canonical_id row = cid.
Proof.
unfold fetch_entity. induction (canonical_entities d) as [|e t IH]; [done|].
cbn [find]. unfold has_id at 1. case_bool_decide as E.
- intros [= <-]. split; [by left|done].
- intros [H1 H2]%IH. split; [by right|done].
Qed.

(** *** [delete_edge] *)

Lemma delete_edges_tables ids : ∀ d,
let d' := fold_left delete_edge ids d in
canonical_entities d' = canonical_entities d
∧ entity_resolution_log d' = entity_resolution_log d
∧ entity_merges d' = entity_merges d
∧ relationships d' = filter (fun r => relationship_id r ∉ ids) (relationships d)
∧ relationship_sources d' = filter (fun s => of_relationship s ∉ ids) (relationship_sources d).
Proof.
induction ids as [|rid ids IH]; intros d d'.
- subst d'. cbn. repeat split; symmetry; apply filter_all; intros x; by intros ?%elem_of_nil.
- subst d'. cbn [fold_left]. destruct (IH (delete_edge d rid)) as (E1 & E2 & E3 & E4 & E5).
  rewrite E1, E2, E3, E4, E5. unfold delete_edge, delete_where. cbn.
  repeat split; rewrite list_filter_filter; apply list_filter_iff; intros x;
    unfold rel_is, src_of; rewrite bool_decide_eq_false, not_elem_of_cons; tauto.
Qed.

Section Noise.
Variable set_order : list str → list str.
Variable now_iso : str.

(** *** [find_noise_entities] *)

(** An entity that the scan puts on one of its two lists. *)
Definition is_noise_row (d : db) (ce : str * entity) (x : str * str * str) : Prop :=
is_expanded_noise (canonical_name ce.2) = true
∧ already_flagged ce.2 = false
∧ x = (ce.1, canonical_name ce.2, _classify_noise (canonical_name ce.2)).

Lemma noise_step_spec d acc ce :
let res := noise_step d acc ce in
(∀ x, x ∈ res.1 ↔ x ∈ acc.1 ∨ (is_noise_row d ce x ∧ _get_prominence d ce.1 ≤ 50))
∧ (∀ x, x ∈ res.2 ↔ x ∈ acc.2 ∨ (is_noise_row d ce x ∧ 50 < _get_prominence d ce.1)).
Proof.
destruct acc as [dl fl], ce as [cid e]. unfold noise_step, is_noise_row. cbn [fst snd].
destruct (is_expanded_noise (canonical_name e)); cbn [negb].
2:{ cbn. split; intros x; split; [tauto|intros [?|[[? _] _]]; [done|done]
                               |tauto|intros [?|[[? _] _]]; [done|done]]. }
destruct (already_flagged e).
{ cbn. split; intros x; split; [tauto|intros [?|[[_ [? _]] _]]; [done|done]
                             |tauto|intros [?|[[_ [? _]] _]]; [done|done]]. }
destruct (50 <? _get_prominence d cid) eqn:E3;
[apply Nat.ltb_lt in E3|apply Nat.ltb_ge in E3]; cbn [fst snd].
- split; intros x.
+ split; [tauto|]. intros [?|[_ ?]]; [done|lia].
+ rewrite elem_of_app, list_elem_of_singleton. split.
  * intros [?| ->]; [by left|]. right. done.
  * intros [?|[(_ & _ & ->) _]]; [by left|by right].
- split; intros x.
+ rewrite elem_of_app, list_elem_of_singleton. split.
  * intros [?| ->]; [by left|]. right. done.
  * intros [?|[(_ & _ & ->) _]]; [by left|by right].
+ split; [tauto|]. intros [?|[_ ?]]; [done|lia].
Qed.

Lemma noise_fold d reg : ∀ acc,
let res := fold_left (noise_step d) reg acc in
(∀ x, x ∈ res.1 ↔
    x ∈ acc.1 ∨ ∃ ce, ce ∈ reg ∧ is_noise_row d ce x ∧ _get_prominence d ce.1 ≤ 50)
∧ (∀ x, x ∈ res.2 ↔
      x ∈ acc.2 ∨ ∃ ce, ce ∈ reg ∧ is_noise_row d ce x ∧ 50 < _get_prominence d ce.1).
Proof.
induction reg as [|ce reg IH]; intros acc res.
- subst res. cbn. split; intros x; (split; [tauto|]);
  intros [H|(ce & H & _)]; try done; by apply elem_of_nil in H.
- subst res. cbn [fold_left]. destruct (IH (noise_step d acc ce)) as [I1 I2].
destruct (noise_step_spec d acc ce) as [S1 S2].
split; intros x; [rewrite I1, S1|rewrite I2, S2]; clear.
+ split.
  * intros [[?|[? ?]]|(ce' & ? & ? & ?)]; [by left| |].
    -- right. exists ce. split; [by left|done].
    -- right. exists ce'. split; [by right|done].
  * intros [?|(ce' & [->|?]%elem_of_cons & ? & ?)]; [by left; left|by left; right|].
    right. by exists ce'.
+ split.
  * intros [[?|[? ?]]|(ce' & ? & ? & ?)]; [by left| |].
    -- right. exists ce. split; [by left|done].
    -- right. exists ce'. split; [by right|done].
  * intros [?|(ce' & [->|?]%elem_of_cons & ? & ?)]; [by left; left|by left; right|].
    right. by exists ce'.
Qed.

Lemma find_noise_entities_spec d x :
(x ∈ (find_noise_entities d).1 ↔
 ∃ ce, ce ∈ load_canonical_registry d ∧ is_noise_row d ce x ∧ _get_prominence d ce.1 ≤ 50)
∧ (x ∈ (find_noise_entities d).2 ↔
   ∃ ce, ce ∈ load_canonical_registry d ∧ is_noise_row d ce x ∧ 50 < _get_prominence d ce.1).
Proof.
unfold find_noise_entities.
destruct (noise_fold d (load_canonical_registry d) ([], [])) as [H1 H2].
split; [rewrite H1|rewrite H2]; cbn; split; try tauto;
intros [H|H]; [by apply elem_of_nil in H|done| by apply elem_of_nil in H|done].
Qed.

(** *** [delete_noise_entity] and [flag_noise_entity] *)

Lemma delete_noise_entity_effect d0 cid name reason :
let d1 := (delete_noise_entity now_iso d0 cid name reason false).2 in
canonical_entities d1 = delete_where (has_id cid) (canonical_entities d0)
∧ relationships d1
= filter (fun r => relationship_id r ∉ map relationship_id (edges_of d0 cid))
         (relationships d0)
∧ relationship_sources d1
= filter (fun s => of_relationship s ∉ map relationship_id (edges_of d0 cid))
         (relationship_sources d0)
∧ entity_resolution_log d1
= delete_where (fun l => bool_decide (resolved_to l = cid)) (entity_resolution_log d0).
Proof.
unfold delete_noise_entity. cbn.
destruct (delete_edges_tables (map relationship_id (edges_of d0 cid)) d0)
as (E1 & E2 & _ & E4 & E5).
cbv zeta in E1, E2, E4, E5. by rewrite E1, E2, E4, E5.
Qed.

Definition flag_key : str := "exclude_from_analysis".
Definition reason_key : str := "exclude_reason".

Lemma flag_noise_entity_effect d0 cid name reason :
let d1 := flag_noise_entity now_iso d0 cid name reason false in
relationships d1 = relationships d0
∧ relationship_sources d1 = relationship_sources d0
∧ entity_resolution_log d1 = entity_resolution_log d0
∧ entity_merges d1 = entity_merges d0
∧ map canonical_id (canonical_entities d1) = map canonical_id (canonical_entities d0)
∧ (∀ row, row ∈ canonical_entities d1 → canonical_id row = cid →
   ∃ m, row_metadata row = Some m
        ∧ m !! flag_key = Some (JBool true)
        ∧ m !! reason_key = Some (JStr reason)).
Proof.
unfold flag_noise_entity. cbn. repeat split.
- unfold update_where. rewrite map_map. apply map_ext. intros row.
by destruct (has_id cid row).
- intros row Hin Hid. unfold update_where in Hin. change (map ?f ?l) with (f <$> l) in Hin.
apply list_elem_of_fmap in Hin as (row0 & -> & _).
destruct (has_id cid row0) eqn:E.
+ eexists. split; [reflexivity|]. split.
  * rewrite lookup_insert_ne by done. apply lookup_insert_eq.
  * apply lookup_insert_eq.
+ unfold has_id in E. by apply bool_decide_eq_false in E.
Qed.

End Noise.

End EngineFacts.

Import PyStr PySort Json Cleanup Store Merge ConsolidateFacts EngineFacts.

(** C10: when the survivor id or the absorbed id is not in
    [canonical_entities], [merge_entity_pair] returns all-zero statistics
    and the store it was given, with every table as it was. *)
Theorem C10_merge_of_missing_entity (set_order : list str → list str) (now_iso : str)
    (d : db) (survivor_id absorbed_id reason match_key : str) (dry_run : bool) :
  survivor_id ∉ map canonical_id (canonical_entities d)
  ∨ absorbed_id ∉ map canonical_id (canonical_entities d) →
  merge_entity_pair set_order now_iso d survivor_id absorbed_id reason match_key dry_run
  = Some (Stats 0 0 0, d).
Proof.
  unfold merge_entity_pair. intros [H|H]; apply fetch_entity_None in H; rewrite H.
  - done.
  - by destruct (fetch_entity d survivor_id).
Qed.

Lemma C10_merge_of_missing_entity_witness :
  let d : db :=
    Db [EntityRow "PER-00001" "person" "Larry Visoski" None None "2024-01-01"]
       [Rel 1 "PER-00001" "PER-00002" "pilot_of" (Some 1%Z) None] [] [] [] in
  merge_entity_pair first_seen_order "2024-02-02" d "PER-00001" "PER-00002"
                    "title_prefix" "larry visoski" false
  = Some (Stats 0 0 0, d).
Proof.
  intros d. apply C10_merge_of_missing_entity. right.
  vm_compute. intros H. inversion H as [|? ? ? H']; subst. inversion H'.
Defined.

(** The two cases of the specification: no connection, and 80 of them. *)
Example noise_entity_without_edges_is_deleted :
  let d : db := Db [EntityRow "PER-00007" "person" "Unknown Person" None None "t"] [] [] [] [] in
  find_noise_entities d
  = ([("PER-00007" : str, "Unknown Person" : str, "base_noise_filter" : str)], [])
  ∧ canonical_entities (phase_noise "now" d false) = [].
Proof. vm_compute. done. Qed.

Example noise_entity_with_80_edges_is_flagged :
  let edges := map (fun k => Rel (Z.of_nat k) "PER-00007" "PER-00008" "associate" None None)
                   (List.seq 1 80) in
  let d : db := Db [EntityRow "PER-00007" "person" "Unknown Person" None None "t"]
                   edges [] [] [] in
  find_noise_entities d
  = ([], [("PER-00007" : str, "Unknown Person" : str, "base_noise_filter" : str)])
  ∧ relationships (phase_noise "now" d false) = edges
  ∧ map canonical_id (canonical_entities (phase_noise "now" d false)) = [("PER-00007" : str)].
Proof. vm_compute. done. Qed.

(** ** The noise phase as a whole *)

Module NoisePhaseFacts.
Import PyStr PySort Json Cleanup Store Merge ConsolidateFacts EngineFacts.

Lemma filter_ext_in {A} (P Q : A → Prop) `{∀ x, Decision (P x)} `{∀ x, Decision (Q x)}
  (l : list A) :
(∀ x, x ∈ l → (P x ↔ Q x)) → filter P l = filter Q l.
Proof.
induction l as [|x l IH]; intros HPQ; [done|].
rewrite !filter_cons. rewrite IH by (intros y Hy; apply HPQ; by right).
destruct (decide (P x)) as [HP|HP], (decide (Q x)) as [HQ|HQ]; try done.
- exfalso. apply HQ, HPQ; [by left|done].
- exfalso. apply HP, HPQ; [by left|done].
Qed.

Lemma same_id_same_row (t : list relationship) r1 r2 :
NoDup (relationship_id <$> t) → r1 ∈ t → r2 ∈ t →
relationship_id r1 = relationship_id r2 → r1 = r2.
Proof.
induction t as [|r t IH]; [by intros _ ?%elem_of_nil|].
cbn [fmap list_fmap]. intros [Hr Hnd]%NoDup_cons H1 H2 E.
apply elem_of_cons in H1 as [->|H1], H2 as [->|H2]; [done| | |by apply IH].
- exfalso. apply Hr. rewrite E. by apply list_elem_of_fmap_2.
- exfalso. apply Hr. rewrite <- E. by apply list_elem_of_fmap_2.
Qed.

(** No entity of [gone] is an endpoint of [r]. *)
Definition clear_of (gone : list str) (r : relationship) : Prop :=
Forall (fun x => touches x r = false) gone.

Section Phase.
Variable now_iso : str.
Variable d : db.
Hypothesis distinct_ids : NoDup (relationship_id <$> relationships d).

(** The store after the entities [gone] were deleted as noise. *)
Definition swept (gone : list str) (cur : db) : Prop :=
relationships cur = filter (clear_of gone) (relationships d)
∧ (∀ s, s ∈ relationship_sources cur →
   s ∈ relationship_sources d
   ∧ ∀ r, r ∈ relationships d → ¬ clear_of gone r → of_relationship s ≠ relationship_id r)
∧ entity_resolution_log cur
= filter (fun l => resolved_to l ∉ gone) (entity_resolution_log d)
∧ canonical_entities cur
= filter (fun e => canonical_id e ∉ gone) (canonical_entities d).

Lemma swept_start : swept [] d.
Proof.
split; [|split; [|split]].
- symmetry. apply filter_all. intros r. constructor.
- intros s Hs. split; [done|]. intros r _ H. exfalso. apply H. constructor.
- symmetry. apply filter_all. intros l. by intros ?%elem_of_nil.
- symmetry. apply filter_all. intros l. by intros ?%elem_of_nil.
Qed.

Lemma swept_delete gone cur cid name reason :
swept gone cur →
swept (cid :: gone) (delete_noise_entity now_iso cur cid name reason false).2.
Proof.
intros (J1 & J2 & J3 & J4).
destruct (delete_noise_entity_effect now_iso cur cid name reason) as (E1 & E2 & E3 & E4).
cbv zeta in E1, E2, E3, E4.
assert (∀ r, r ∈ relationships cur →
           (relationship_id r ∉ map relationship_id (edges_of cur cid)
            ↔ touches cid r = false)) as Hedge.
{ intros r Hr. split.
- intros Hn. destruct (touches cid r) eqn:T; [|done]. exfalso. apply Hn.
  change (map ?f ?l) with (f <$> l). apply list_elem_of_fmap_2.
  by apply list_elem_of_filter.
- intros T. change (map ?f ?l) with (f <$> l).
  intros (r2 & E & [T2 H2]%list_elem_of_filter)%list_elem_of_fmap.
  assert (r = r2) as ->; [|congruence].
  rewrite J1 in Hr, H2.
  apply list_elem_of_filter in Hr as [_ Hr], H2 as [_ H2].
  by eapply same_id_same_row. }
split; [|split; [|split]].
- rewrite E2. rewrite (filter_ext_in _ (fun r => touches cid r = false)) by exact Hedge.
rewrite J1, list_filter_filter. apply list_filter_iff. intros r.
unfold clear_of. rewrite Forall_cons. tauto.
- intros s Hs. rewrite E3 in Hs. apply list_elem_of_filter in Hs as [Hn Hs].
destruct (J2 s Hs) as [Hd Hold]. split; [done|].
intros r Hr Hc. destruct (decide (clear_of gone r)) as [Hg|Hg]; [|by apply Hold].
assert (touches cid r = true) as T.
{ destruct (touches cid r) eqn:T; [done|]. exfalso. apply Hc. by constructor. }
intros E. apply Hn. rewrite E. change (map ?f ?l) with (f <$> l).
apply list_elem_of_fmap_2. apply list_elem_of_filter. split; [done|].
rewrite J1. by apply list_elem_of_filter.
- rewrite E4, J3. unfold delete_where. rewrite list_filter_filter.
apply list_filter_iff. intros l. rewrite bool_decide_eq_false, not_elem_of_cons. tauto.
- rewrite E1, J4. unfold delete_where. rewrite list_filter_filter.
apply list_filter_iff. intros e. unfold has_id.
rewrite bool_decide_eq_false, not_elem_of_cons. tauto.
Qed.

Definition delete_all (deletable : list (str * str * str)) (cur : db) : db :=
fold_left (fun cur '(cid, name, reason) =>
           (delete_noise_entity now_iso cur cid name reason false).2) deletable cur.

Definition flag_all (flaggable : list (str * str * str)) (cur : db) : db :=
fold_left (fun cur '(cid, name, reason) =>
           flag_noise_entity now_iso cur cid name reason false) flaggable cur.

Lemma phase_noise_steps :
phase_noise now_iso d false
= flag_all (find_noise_entities d).2 (delete_all (find_noise_entities d).1 d).
Proof. unfold phase_noise. by destruct (find_noise_entities d). Qed.

Lemma swept_delete_all deletable : ∀ gone cur,
swept gone cur →
∃ gone', swept gone' (delete_all deletable cur)
       ∧ ∀ x, x ∈ gone' ↔ x ∈ gone ∨ x ∈ (fun t : str * str * str => t.1.1) <$> deletable.
Proof.
induction deletable as [|[[cid name] reason] l IH]; intros gone cur H.
- exists gone. split; [done|]. intros x. cbn. rewrite elem_of_nil. tauto.
- cbn [delete_all fold_left].
destruct (IH (cid :: gone) _ (swept_delete gone cur cid name reason H)) as (g & Hg & Hx).
exists g. split; [exact Hg|]. intros x. rewrite Hx. cbn. rewrite !elem_of_cons. tauto.
Qed.

(** The metadata of a flagged row. *)
Definition flagged (row : entity_row) : Prop :=
∃ m, row_metadata row = Some m ∧ m !! flag_key = Some (JBool true).

Lemma flag_noise_entity_rows cur cid name reason row :
row ∈ canonical_entities (flag_noise_entity now_iso cur cid name reason false) →
(canonical_id row = cid ∧ flagged row)
∨ (canonical_id row ≠ cid ∧ row ∈ canonical_entities cur).
Proof.
unfold flag_noise_entity. cbn. unfold update_where.
change (map ?f ?l) with (f <$> l).
intros (row0 & -> & Hin)%list_elem_of_fmap. unfold has_id. case_bool_decide as E.
- left. split; [done|]. eexists. split; [reflexivity|].
  rewrite lookup_insert_ne by done. apply lookup_insert_eq.
- right. done.
Qed.

Lemma flag_all_effect flaggable : ∀ cur,
let cur' := flag_all flaggable cur in
relationships cur' = relationships cur
∧ relationship_sources cur' = relationship_sources cur
∧ entity_resolution_log cur' = entity_resolution_log cur
∧ canonical_id <$> canonical_entities cur' = canonical_id <$> canonical_entities cur
∧ (∀ row, row ∈ canonical_entities cur' →
     (canonical_id row ∈ (fun t : str * str * str => t.1.1) <$> flaggable ∧ flagged row)
     ∨ ((canonical_id row ∉ (fun t : str * str * str => t.1.1) <$> flaggable)
        ∧ row ∈ canonical_entities cur)).
Proof.
induction flaggable as [|[[cid name] reason] l IH]; intros cur cur'.
- subst cur'. cbn. split; [done|]. split; [done|]. split; [done|]. split; [done|].
  intros row Hrow. right. split; [by intros ?%elem_of_nil|done].
- subst cur'. cbn [flag_all fold_left].
  destruct (IH (flag_noise_entity now_iso cur cid name reason false))
    as (E1 & E2 & E3 & E4 & E5).
  destruct (flag_noise_entity_effect now_iso cur cid name reason)
    as (F1 & F2 & F3 & _ & F4 & _).
  cbv zeta in E1, E2, E3, E4, E5, F1, F2, F3, F4. unfold flag_all in *.
  split; [congruence|]. split; [congruence|]. split; [congruence|].
  split; [by rewrite E4|].
  intros row [[Hl Hf]|[Hl Hin]]%E5.
  + left. split; [|done]. cbn. by right.
  + apply flag_noise_entity_rows in Hin as [[<- Hf]|[Hne Hin]].
    * left. split; [|done]. cbn. by left.
    * right. split; [|done]. cbn. rewrite not_elem_of_cons. done.
Qed.

(** A flagged row carries the reason of one of the flags for its id. *)
Lemma flag_all_reason flaggable : ∀ cur row,
row ∈ canonical_entities (flag_all flaggable cur) →
canonical_id row ∈ (fun t : str * str * str => t.1.1) <$> flaggable →
∃ m n q, row_metadata row = Some m
         ∧ m !! flag_key = Some (JBool true)
         ∧ m !! reason_key = Some (JStr q)
         ∧ (canonical_id row, n, q) ∈ flaggable.
Proof.
induction flaggable as [|[[cid name] reason] l IH]; intros cur row Hrow Hid.
- by apply elem_of_nil in Hid.
- cbn [flag_all fold_left] in Hrow.
  destruct (decide (canonical_id row ∈ (fun t : str * str * str => t.1.1) <$> l)) as [Hl|Hl].
  + destruct (IH _ row Hrow Hl) as (m & n & q & H1 & H2 & H3 & H4).
    exists m, n, q. split; [done|]. split; [done|]. split; [done|]. by right.
  + destruct (flag_all_effect l (flag_noise_entity now_iso cur cid name reason false))
      as (_ & _ & _ & _ & E5).
    cbv zeta in E5. apply E5 in Hrow as [[Hin _]|[_ Hrow]]; [done|].
    cbn in Hid. apply elem_of_cons in Hid as [Hid|Hid]; [|done].
    destruct (flag_noise_entity_effect now_iso cur cid name reason) as (_ & _ & _ & _ & _ & F).
    destruct (F row Hrow Hid) as (m & H1 & H2 & H3).
    exists m, name, reason. split; [done|]. split; [done|]. split; [done|].
    rewrite Hid. by left.
Qed.

(** The tables after phase 1: [gone] are the ids deleted as noise. *)
Lemma phase_noise_tables :
let d' := phase_noise now_iso d false in
∃ gone,
  (∀ x, x ∈ gone ↔ ∃ n q, (x, n, q) ∈ (find_noise_entities d).1)
  ∧ relationships d' = filter (clear_of gone) (relationships d)
  ∧ (∀ s, s ∈ relationship_sources d' →
       s ∈ relationship_sources d
       ∧ ∀ r, r ∈ relationships d → ¬ clear_of gone r →
           of_relationship s ≠ relationship_id r)
  ∧ entity_resolution_log d'
    = filter (fun l => resolved_to l ∉ gone) (entity_resolution_log d)
  ∧ canonical_id <$> canonical_entities d'
    = canonical_id <$> filter (fun e => canonical_id e ∉ gone) (canonical_entities d)
  ∧ (∀ row, row ∈ canonical_entities d' →
       canonical_id row ∈ (fun t : str * str * str => t.1.1) <$> (find_noise_entities d).2 →
       ∃ m n q, row_metadata row = Some m
                ∧ m !! flag_key = Some (JBool true)
                ∧ m !! reason_key = Some (JStr q)
                ∧ (canonical_id row, n, q) ∈ (find_noise_entities d).2).
Proof.
intros d'. subst d'. rewrite phase_noise_steps.
destruct (swept_delete_all (find_noise_entities d).1 [] d swept_start)
  as (gone & (J1 & J2 & J3 & J4) & Hgone).
destruct (flag_all_effect (find_noise_entities d).2 (delete_all (find_noise_entities d).1 d))
  as (E1 & E2 & E3 & E4 & _).
cbv zeta in E1, E2, E3, E4. exists gone.
split; [|split; [|split; [|split; [|split]]]].
- intros x. rewrite Hgone, elem_of_nil, list_elem_of_fmap. split.
  + intros [[]|([[c n] q] & -> & Hin)]. by exists n, q.
  + intros (n & q & Hin). right. by exists (x, n, q).
- by rewrite E1.
- rewrite E2. exact J2.
- by rewrite E3.
- by rewrite E4, J4.
- apply flag_all_reason.
Qed.

(** X15: after phase 1 of [main] every deletable noise entity is gone together with
    its relationships, their provenance rows and its resolution-log rows;
    every flaggable one is still there, flagged, and keeps each of its
    relationships whose other endpoint was not deleted. *)
Theorem phase_noise_outcome :
let d' := phase_noise now_iso d false in
(∀ cid name reason, (cid, name, reason) ∈ fst (find_noise_entities d) →
   (cid ∉ canonical_id <$> canonical_entities d')
   ∧ (∀ r, r ∈ relationships d' → touches cid r = false)
   ∧ (∀ s r, s ∈ relationship_sources d' → r ∈ edges_of d cid →
             of_relationship s ≠ relationship_id r)
   ∧ (∀ l, l ∈ entity_resolution_log d' → resolved_to l ≠ cid))
∧ (∀ cid name reason, (cid, name, reason) ∈ snd (find_noise_entities d) →
     cid ∈ canonical_id <$> canonical_entities d'
     ∧ (∀ row, row ∈ canonical_entities d' → canonical_id row = cid → flagged row)
     ∧ (∀ r, r ∈ edges_of d cid →
          (∀ x n q, (x, n, q) ∈ fst (find_noise_entities d) → touches x r = false) →
          r ∈ relationships d')).
Proof.
intros d'. subst d'. rewrite phase_noise_steps.
destruct (swept_delete_all (find_noise_entities d).1 [] d swept_start)
  as (gone & (J1 & J2 & J3 & J4) & Hgone).
destruct (flag_all_effect (find_noise_entities d).2 (delete_all (find_noise_entities d).1 d))
  as (E1 & E2 & E3 & E4 & E5).
cbv zeta in E1, E2, E3, E4, E5. rewrite E1, E2, E3, E4, J1, J3, J4. clear E1 E3 E4.
assert (∀ x, x ∈ gone ↔ ∃ n q, (x, n, q) ∈ (find_noise_entities d).1) as Hg.
{ intros x. rewrite Hgone, elem_of_nil, list_elem_of_fmap. split.
  - intros [[]|([[c n] q] & -> & Hin)]. by exists n, q.
  - intros (n & q & Hin). right. by exists (x, n, q). }
split.
- intros cid name reason Hin.
  assert (cid ∈ gone) as Hc by (apply Hg; eauto).
  split; [|split; [|split]].
  + intros (row & -> & [Hn _]%list_elem_of_filter)%list_elem_of_fmap. done.
  + intros r [Hr _]%list_elem_of_filter. unfold clear_of in Hr.
    rewrite Forall_forall in Hr. by apply Hr.
  + intros s r Hs [T Hr]%list_elem_of_filter.
    apply (J2 s Hs); [done|]. unfold clear_of. rewrite Forall_forall.
    intros H. specialize (H cid Hc). congruence.
  + intros l [Hl _]%list_elem_of_filter. congruence.
- intros cid name reason Hin.
  assert (cid ∉ gone) as Hc.
  { intros (n & q & Hd)%Hg.
    apply find_noise_entities_spec in Hin as (ce & _ & (_ & _ & [= -> _ _]) & Hp).
    apply find_noise_entities_spec in Hd as (ce' & _ & (_ & _ & [= E _ _]) & Hp').
    rewrite E in Hp. lia. }
  split; [|split].
  + apply find_noise_entities_spec in Hin as (ce & Hce & (_ & _ & [= -> _ _]) & _).
    unfold load_canonical_registry in Hce. change (map ?f ?l) with (f <$> l) in Hce.
    apply list_elem_of_fmap in Hce as (row & -> & Hrow). cbn in Hc |- *.
    apply list_elem_of_fmap. exists row. split; [done|]. by apply list_elem_of_filter.
  + intros row Hrow Hid. apply E5 in Hrow as [[_ Hf]|[Hn _]]; [done|].
    exfalso. apply Hn. rewrite Hid. apply list_elem_of_fmap.
    by exists (cid, name, reason).
  + intros r Hr Hclear. apply list_elem_of_filter. split.
    * unfold clear_of. rewrite Forall_forall. intros x Hx.
      apply Hg in Hx as (n & q & Hx). by eapply Hclear.
    * by apply list_elem_of_filter in Hr as [_ Hr].
Qed.

End Phase.

End NoisePhaseFacts.

Import PyStr PySort Json Cleanup Store Merge ConsolidateFacts EngineFacts NoisePhaseFacts.

(** C6, as stated: a noise entity of prominence above 50 is flagged and
    its edges are left intact.  Here "Unknown Person" has 52 edges, one of
    them to "The Court", which is noise of prominence 1.  Phase 1 of
    [main] deletes "The Court" with its edge first, and then flags
    "Unknown Person", which has lost that edge. *)
Lemma C6_flagged_entity_loses_an_edge :
  let edges := map (fun k => Rel (Z.of_nat k) "PER-00007" "PER-00008" "associate" None None)
                   (List.seq 1 51) in
  let lost := Rel 0 "PER-00009" "PER-00007" "associate" None None in
  let d : db :=
    Db [EntityRow "PER-00007" "person" "Unknown Person" None None "t";
        EntityRow "PER-00008" "person" "Larry Visoski" None None "t";
        EntityRow "PER-00009" "person" "The Court" None None "t"]
       (lost :: edges) [] [] [] in
  is_expanded_noise "Unknown Person" = true
  ∧ _get_prominence d "PER-00007" = 52
  ∧ touches "PER-00007" lost = true
  ∧ map (fun t : str * str * str => t.1.1) (snd (find_noise_entities d)) = [("PER-00007" : str)]
  ∧ map canonical_id (canonical_entities (phase_noise "now" d false))
    = [("PER-00007" : str); ("PER-00008" : str)]
  ∧ relationships (phase_noise "now" d false) = edges.
Proof. vm_compute. done. Qed.

(** C6, amended: phase 1 of [main] deals with every entity that the
    expanded predicate classifies as noise and that is not flagged yet.
    With at most 50 relationship rows touching it, the entity is deleted
    with every edge that touches it, the provenance rows of these edges
    and its resolution-log rows.  With more than 50 it stays, its
    metadata get [exclude_from_analysis] and an [exclude_reason], and it
    keeps every edge that touches no deleted noise entity; an edge to a
    deleted noise entity goes with that entity.  Relationship ids are
    distinct, as the primary key of the table makes them. *)
Theorem C6_noise_disposition (now_iso : str) (d : db) (cid : str) (e : entity) :
  NoDup (relationship_id <$> relationships d) →
  (cid, e) ∈ load_canonical_registry d →
  is_expanded_noise (canonical_name e) = true →
  already_flagged e = false →
  let d' := phase_noise now_iso d false in
  let deleted (x : str) :=
    ∃ e', (x, e') ∈ load_canonical_registry d
          ∧ is_expanded_noise (canonical_name e') = true
          ∧ already_flagged e' = false
          ∧ _get_prominence d x ≤ 50 in
  (_get_prominence d cid ≤ 50 →
     (cid ∉ canonical_id <$> canonical_entities d')
     ∧ (∀ r, r ∈ relationships d' → touches cid r = false)
     ∧ (∀ s r, s ∈ relationship_sources d' → r ∈ edges_of d cid →
               of_relationship s ≠ relationship_id r)
     ∧ (∀ l, l ∈ entity_resolution_log d' → resolved_to l ≠ cid))
  ∧ (50 < _get_prominence d cid →
     cid ∈ canonical_id <$> canonical_entities d'
     ∧ (∀ row, row ∈ canonical_entities d' → canonical_id row = cid →
          ∃ m q, row_metadata row = Some m
                 ∧ m !! ("exclude_from_analysis" : str) = Some (JBool true)
                 ∧ m !! ("exclude_reason" : str) = Some (JStr q))
     ∧ (∀ r, r ∈ edges_of d cid →
          (r ∈ relationships d' ↔ ∀ x, deleted x → touches x r = false)))
  ∧ (∀ r, r ∈ relationships d' → r ∈ relationships d)
  ∧ (∀ s, s ∈ relationship_sources d' → s ∈ relationship_sources d)
  ∧ (∀ l, l ∈ entity_resolution_log d' → l ∈ entity_resolution_log d).
Proof.
  intros Hnd Hin Hnoise Hflag d' deleted.
  destruct (phase_noise_tables now_iso d Hnd) as (gone & Hg & T1 & T2 & T3 & T4 & T5).
  cbv zeta in T1, T2, T3, T4, T5. fold d' in T1, T2, T3, T4, T5.
  assert (∀ x, x ∈ gone ↔ deleted x) as Hd.
  { intros x. rewrite Hg. split.
    - intros (n & q & (ce & Hce & (H1 & H2 & [= -> _ _]) & Hp)%find_noise_entities_spec).
      exists ce.2. by destruct ce.
    - intros (e' & He' & H1 & H2 & Hp).
      exists (canonical_name e'), (_classify_noise (canonical_name e')).
      apply find_noise_entities_spec. by exists (x, e'). }
  assert (is_noise_row d (cid, e)
            (cid, canonical_name e, _classify_noise (canonical_name e))) as Hrow by done.
  split; [|split; [|split; [|split]]].
  - intros Hprom. assert (cid ∈ gone) as Hc by (apply Hd; by exists e).
    split; [|split; [|split]].
    + rewrite T4. intros (row & -> & [Hn _]%list_elem_of_filter)%list_elem_of_fmap. done.
    + rewrite T1. intros r [Hr _]%list_elem_of_filter. unfold clear_of in Hr.
      rewrite Forall_forall in Hr. by apply Hr.
    + intros s r Hs [T Hr]%list_elem_of_filter.
      apply (T2 s Hs); [done|]. unfold clear_of. rewrite Forall_forall.
      intros H. specialize (H cid Hc). congruence.
    + rewrite T3. intros l [Hl _]%list_elem_of_filter. congruence.
  - intros Hprom.
    assert (cid ∉ gone) as Hc.
    { intros (e' & _ & _ & _ & Hp)%Hd. lia. }
    assert ((cid, canonical_name e, _classify_noise (canonical_name e))
            ∈ (find_noise_entities d).2) as Hf.
    { apply find_noise_entities_spec. by exists (cid, e). }
    split; [|split].
    + rewrite T4. unfold load_canonical_registry in Hin.
      change (map ?f ?l) with (f <$> l) in Hin.
      apply list_elem_of_fmap in Hin as (row & [= -> _] & Hrow0).
      apply list_elem_of_fmap. exists row. split; [done|]. by apply list_elem_of_filter.
    + intros row Hrow0 Hid.
      destruct (T5 row Hrow0) as (m & n & q & H1 & H2 & H3 & _).
      { rewrite Hid. apply list_elem_of_fmap.
        by exists (cid, canonical_name e, _classify_noise (canonical_name e)). }
      by exists m, q.
    + intros r Hr. rewrite T1, list_elem_of_filter. unfold clear_of. rewrite Forall_forall.
      apply list_elem_of_filter in Hr as [_ Hr]. split.
      * intros [H _] x Hx. by apply H, Hd.
      * intros H. split; [|done]. intros x Hx. by apply H, Hd.
  - rewrite T1. by intros r [_ Hr]%list_elem_of_filter.
  - intros s Hs. by apply T2.
  - rewrite T3. by intros l [_ Hl]%list_elem_of_filter.
Qed.

Lemma C6_noise_disposition_witness :
  let d : db :=
    Db [EntityRow "PER-00007" "person" "Unknown Person" None None "2024-01-01";
        EntityRow "PER-00008" "person" "Larry Visoski" None None "2024-01-01"]
       [Rel 1 "PER-00007" "PER-00008" "associate" (Some 1%Z) None]
       [Src 1 1 "docs"] [Log 1 "PER-00007" "unknown person"] [] in
  let cid : str := "PER-00007" in
  let d' := phase_noise "2024-02-02" d false in
  (cid ∉ canonical_id <$> canonical_entities d')
  ∧ (∀ r, r ∈ relationships d' → touches cid r = false)
  ∧ (∀ s r, s ∈ relationship_sources d' → r ∈ edges_of d cid →
            of_relationship s ≠ relationship_id r)
  ∧ (∀ l, l ∈ entity_resolution_log d' → resolved_to l ≠ cid).
Proof.
  intros d cid d'.
  refine (proj1 (C6_noise_disposition "2024-02-02" d cid
                   (Entity "Unknown Person" [] "person" ∅) _ _ _ _) _).
  - apply NoDup_ListNoDup. vm_compute. repeat (constructor; [cbn; intuition discriminate|]).
    constructor.
  - vm_compute. left.
  - vm_compute. reflexivity.
  - vm_compute. reflexivity.
  - vm_compute. lia.
Defined.

(** ** Merge candidates and the merges of a batch *)

Module BatchFacts.
Import PyStr PySort Json Cleanup Store Merge GraphFacts ConsolidateFacts EngineFacts.

(** *** The scan for candidates *)

Definition is_surname_reason (reason : str) : Prop :=
reason = ("lastname_only_unambiguous" : str)
∨ reason = ("lastname_only_graph_disambiguated" : str).

(** No pair of the surname pass has a survivor that an earlier pair
  absorbed. *)
Definition surname_ok (candidates : list candidate) : Prop :=
∀ i j c c', j < i → candidates !! i = Some c → candidates !! j = Some c' →
  is_surname_reason (cand_reason c) → cand_absorbed c' ≠ cand_survivor c.

(** The absorbed ids are distinct and all recorded in [seen_absorbed]. *)
Definition scan_ok (st : scan) : Prop :=
NoDup (cand_absorbed <$> st.1)
∧ (∀ x, x ∈ cand_absorbed <$> st.1 → x ∈ st.2)
∧ surname_ok st.1.

Lemma scan_ok_start : scan_ok ([], ∅).
Proof.
split; [constructor|]. split; [by intros x ?%elem_of_nil|].
intros i j c c' _ H. cbn in H. by rewrite lookup_nil in H.
Qed.

Lemma scan_ok_add (candidates : list candidate) (seen : gset str)
  (survivor_id absorbed_id reason key : str) :
scan_ok (candidates, seen) →
absorbed_id ∉ seen →
(is_surname_reason reason → survivor_id ∉ seen) →
scan_ok (candidates ++ [(survivor_id, absorbed_id, reason, key)], seen ∪ {[absorbed_id]}).
Proof.
intros (N & S & O) Ha Hs. unfold scan_ok. cbn [fst snd] in *. split; [|split].
- rewrite fmap_app. apply NoDup_app. split; [done|]. split; [|apply NoDup_singleton].
  intros x Hx ->%list_elem_of_singleton. by apply Ha, S.
- intros x. rewrite fmap_app, elem_of_app. cbn.
  intros [Hx| ->%list_elem_of_singleton]; [apply elem_of_union_l; by apply S|].
  apply elem_of_union_r. by apply elem_of_singleton.
- intros i j c c' Hij Hi Hj Hr.
  apply lookup_snoc_inv in Hi as [[Hlt Hi]|[Hi1 Hi2]].
  + rewrite lookup_app_l in Hj by lia. exact (O i j c c' Hij Hi Hj Hr).
  + subst i c. rewrite lookup_app_l in Hj by lia. cbn in *. intros E.
    apply (Hs Hr). apply S. rewrite <- E. apply list_elem_of_fmap_2.
    by eapply list_elem_of_lookup_2.
Qed.

Lemma merge_reasons_not_surname survivor_name absorbed_name :
¬ is_surname_reason (merge_reasons survivor_name absorbed_name).
Proof.
unfold merge_reasons.
destruct (has_title absorbed_name), (str_eqb _ _ && _), (has_char "-" _ && _);
  vm_compute; intros [H|H]; discriminate H.
Qed.

Lemma absorb_member_ok cleaned survivor_id survivor_name st m :
scan_ok st → scan_ok (absorb_member cleaned survivor_id survivor_name st m).
Proof.
intros H. destruct st as [candidates seen], m as [absorbed_id absorbed_name].
unfold absorb_member. destruct (bool_decide (absorbed_id = survivor_id)); [done|].
case_bool_decide as Hseen; [done|]. cbn [orb].
apply scan_ok_add; [done|done|]. intros Hr. by apply merge_reasons_not_surname in Hr.
Qed.

Lemma fold_ok {A} (f : scan → A → scan) l :
(∀ st x, scan_ok st → scan_ok (f st x)) → ∀ st, scan_ok st → scan_ok (fold_left f l st).
Proof.
intros Hf. induction l as [|x l IH]; intros st H; [done|]. cbn. by apply IH, Hf.
Qed.

Lemma pass1_group_ok d st g : scan_ok st → scan_ok (pass1_group d st g).
Proof.
intros H. destruct g as [cleaned entities]. unfold pass1_group.
destruct (_ <? 2); [done|].
destruct (stable_sort _ _) as [|[survivor_id survivor_name] others]; [done|].
apply fold_ok; [|done]. intros st' m. apply absorb_member_ok.
Qed.

Lemma pass1_ok d persons : scan_ok (pass1 d persons).
Proof.
unfold pass1. apply fold_ok; [|apply scan_ok_start].
intros st g. apply pass1_group_ok.
Qed.

Lemma pass2_person_ok d table st ce : scan_ok st → scan_ok (pass2_person d table st ce).
Proof.
intros H. destruct st as [candidates seen], ce as [cid e]. unfold pass2_person.
case_bool_decide as Hseen; [done|].
destruct (split _) as [|last_name [|? ?]]; [done| |done].
set (matches := filter _ _).
assert (∀ f, f ∈ matches → f.1 ∉ seen) as Hm.
{ intros f [[_ Hf] _]%list_elem_of_filter. done. }
destruct matches as [|[s1 n1] [|m2 rest]] eqn:E; [done| |].
- apply scan_ok_add; [done|done|]. intros _. apply (Hm (s1, n1)). by left.
- destruct (_disambiguate_by_graph _ _ _) as [[s n]|] eqn:G; [|done].
  apply scan_ok_add; [done|done|]. intros _.
  apply disambiguate_elem in G. by apply (Hm (s, n)).
Qed.

Lemma pass2_ok d persons st : scan_ok st → scan_ok (pass2 d persons st).
Proof.
intros H. unfold pass2. apply fold_ok; [|done]. intros st' ce. apply pass2_person_ok.
Qed.

Lemma find_merge_candidates_ok d :
NoDup (cand_absorbed <$> find_merge_candidates d) ∧ surname_ok (find_merge_candidates d).
Proof.
unfold find_merge_candidates.
destruct (pass2_ok d (persons_of (load_canonical_registry d)) _
            (pass1_ok d (persons_of (load_canonical_registry d)))) as (N & _ & O).
done.
Qed.

(** *** The merges that a batch executes *)

Definition ids_of (d : db) : list str := canonical_id <$> canonical_entities d.

Lemma exists_entity_ids d cid : exists_entity d cid = true ↔ cid ∈ ids_of d.
Proof.
unfold exists_entity, fetch_entity, ids_of.
induction (canonical_entities d) as [|e t IH]; cbn [find fmap list_fmap].
- split; [done|by intros ?%elem_of_nil].
- unfold has_id at 1. case_bool_decide as E.
  + split; [|done]. intros _. rewrite <- E. by left.
  + rewrite IH, elem_of_cons. split; [tauto|]. intros [->|?]; [done|done].
Qed.

Lemma ids_update p f (t : list entity_row) :
(∀ r, canonical_id (f r) = canonical_id r) →
canonical_id <$> update_where p f t = canonical_id <$> t.
Proof.
intros Hf. unfold update_where. change (map ?g ?l) with (g <$> l).
rewrite <- list_fmap_compose. apply list_fmap_ext. intros i r _. cbn.
by destruct (p r).
Qed.

Lemma ids_delete cid (t : list entity_row) x :
x ∈ canonical_id <$> delete_where (has_id cid) t ↔ x ∈ canonical_id <$> t ∧ x ≠ cid.
Proof.
unfold delete_where. rewrite !list_elem_of_fmap. split.
- intros (row & -> & [Hne Hin]%list_elem_of_filter). split; [by exists row|].
  unfold has_id in Hne. by apply bool_decide_eq_false in Hne.
- intros [(row & -> & Hin) Hne]. exists row. split; [done|].
  apply list_elem_of_filter. split; [|done]. unfold has_id. by apply bool_decide_eq_false.
Qed.

Section Batch.
Variable set_order : list str → list str.
Variable now_iso : str.

Lemma absorb_edge_tables survivor_rel d loser :
let d' := absorb_edge set_order survivor_rel d loser in
canonical_entities d' = canonical_entities d ∧ entity_merges d' = entity_merges d.
Proof. done. Qed.

Lemma consolidate_tables d entity_id :
let d' := (_consolidate_duplicate_relationships set_order d entity_id).2 in
canonical_entities d' = canonical_entities d ∧ entity_merges d' = entity_merges d.
Proof.
unfold _consolidate_duplicate_relationships.
generalize (group_edges (edges_of d entity_id)). intros groups.
generalize 0. revert d. induction groups as [|kg groups IH]; intros d n; [done|].
cbn [fold_left].
assert (canonical_entities (consolidate_group set_order (n, d) kg).2 = canonical_entities d
      ∧ entity_merges (consolidate_group set_order (n, d) kg).2 = entity_merges d) as [E1 E2].
{ unfold consolidate_group. destruct (_ <? 2); [done|].
destruct (stable_sort _ _) as [|s ls]; [done|]. cbn [snd].
clear. revert d. induction ls as [|l ls IH]; intros d; [done|].
cbn [fold_left]. destruct (IH (absorb_edge set_order s d l)) as [-> ->]. done. }
destruct (consolidate_group set_order (n, d) kg) as [n' d'].
destruct (IH d' n') as [-> ->]. done.
Qed.

(** A merge that is carried out appends one audit row and removes the
absorbed id, and no other id, from [canonical_entities]. *)
Lemma merge_entity_pair_effect d survivor_id absorbed_id reason match_key stats d' :
exists_entity d survivor_id = true → exists_entity d absorbed_id = true →
merge_entity_pair set_order now_iso d survivor_id absorbed_id reason match_key false
= Some (stats, d') →
(∃ row, entity_merges d' = entity_merges d ++ [row]
      ∧ survivor_id = Store.survivor_id row ∧ absorbed_id = Store.absorbed_id row)
∧ (∀ x, x ∈ ids_of d' ↔ x ∈ ids_of d ∧ x ≠ absorbed_id).
Proof.
unfold exists_entity, merge_entity_pair.
destruct (fetch_entity d survivor_id) as [survivor|]; [|done].
destruct (fetch_entity d absorbed_id) as [absorbed|]; [|done]. intros _ _.
destruct (_merge_metadata _ _) as [merged_meta|]; [|done].
set (d1 := with_log _ _).
destruct (_consolidate_duplicate_relationships set_order d1 survivor_id) as [n_dups d2] eqn:E.
pose proof (consolidate_tables d1 survivor_id) as [C1 C2]. rewrite E in C1, C2.
cbn [snd] in C1, C2.
set (ids := map relationship_id _).
destruct (delete_edges_tables ids d2) as (D1 & _ & D3 & _). cbv zeta in D1, D3.
intros [= <- <-]. cbn -[delete_where update_where].
rewrite D1, D3, C1, C2. subst d1. cbn -[delete_where update_where]. split.
- eexists. split; [reflexivity|]. done.
- intros x. unfold ids_of. by rewrite ids_delete, !ids_update.
Qed.

Lemma merge_entity_pair_dry_run d survivor_id absorbed_id reason match_key :
merge_entity_pair set_order now_iso d survivor_id absorbed_id reason match_key true
= Some (zero_stats, d).
Proof.
unfold merge_entity_pair.
by destruct (fetch_entity d survivor_id), (fetch_entity d absorbed_id).
Qed.

(** The audit rows of the batch so far: no id absorbed twice, no
absorbed id still in the registry, none used as a survivor later. *)
Definition audit_ok (d : db) (rows : list entity_merge) : Prop :=
NoDup (Store.absorbed_id <$> rows)
∧ (∀ a, a ∈ Store.absorbed_id <$> rows → a ∉ ids_of d)
∧ (∀ i j r r', j < i → rows !! i = Some r → rows !! j = Some r' →
   Store.absorbed_id r' ≠ Store.survivor_id r).

Lemma merge_round_audit dry_run base rows t d c t' d' :
entity_merges d = base ++ rows → audit_ok d rows →
merge_round set_order now_iso dry_run (Some (t, d)) c = Some (t', d') →
∃ rows', entity_merges d' = base ++ rows' ∧ audit_ok d' rows'.
Proof.
intros Hrows Hok. destruct c as [[[survivor_id absorbed_id] reason] match_key].
unfold merge_round.
destruct (exists_entity d survivor_id) eqn:Es; cbn [negb orb];
[|intros [= <- <-]; by exists rows].
destruct (exists_entity d absorbed_id) eqn:Ea; cbn [negb];
[|intros [= <- <-]; by exists rows].
destruct dry_run.
{ rewrite merge_entity_pair_dry_run. intros [= <- <-]. by exists rows. }
destruct (merge_entity_pair _ _ _ _ _ _ _ _) as [[stats d1]|] eqn:E; [|done].
intros [= <- <-].
destruct (merge_entity_pair_effect _ _ _ _ _ _ _ Es Ea E) as [(row & Hr & Hs & Ha) Hids].
apply exists_entity_ids in Es, Ea. destruct Hok as (N & G & O).
exists (rows ++ [row]). split; [by rewrite Hr, Hrows, app_assoc|]. split; [|split].
- rewrite fmap_app. apply NoDup_app. split; [done|]. split; [|apply NoDup_singleton].
intros a Hin ->%list_elem_of_singleton. apply (G _ Hin). by rewrite <- Ha.
- intros a. rewrite fmap_app, elem_of_app, Hids. cbn.
intros [Hin| ->%list_elem_of_singleton] [Hd Hne]; [by apply (G _ Hin)|].
by apply Hne.
- intros i j r r' Hij Hi Hj.
apply lookup_snoc_inv in Hi as [[Hlt Hi]|[Hi1 Hi2]].
+ rewrite lookup_app_l in Hj by lia. exact (O i j r r' Hij Hi Hj).
+ subst i r. rewrite lookup_app_l in Hj by lia. rewrite <- Hs. intros Eq.
  apply (G (Store.absorbed_id r')); [|by rewrite Eq].
  apply list_elem_of_fmap_2. by eapply list_elem_of_lookup_2.
Qed.

Lemma merge_round_None dry_run candidates :
fold_left (merge_round set_order now_iso dry_run) candidates None = None.
Proof. by induction candidates. Qed.

Lemma run_merges_audit dry_run candidates : ∀ base rows t d t' d',
entity_merges d = base ++ rows → audit_ok d rows →
fold_left (merge_round set_order now_iso dry_run) candidates (Some (t, d)) = Some (t', d') →
∃ rows', entity_merges d' = base ++ rows' ∧ audit_ok d' rows'.
Proof.
induction candidates as [|c cs IH]; intros base rows t d t' d' Hrows Hok H.
- injection H as <- <-. by exists rows.
- cbn [fold_left] in H.
destruct (merge_round set_order now_iso dry_run (Some (t, d)) c) as [[t1 d1]|] eqn:E;
  [|by rewrite merge_round_None in H].
destruct (merge_round_audit _ _ _ _ _ _ _ _ Hrows Hok E) as (rows1 & Hr1 & Hok1).
by eapply IH.
Qed.

End Batch.

End BatchFacts.

Import PyStr PySort Json Cleanup Store Merge GraphFacts ConsolidateFacts EngineFacts BatchFacts.

(** Two entities for one person, each with a [traveled_with] edge to
    the same third person: after the merge one edge is left, of weight
    2, with both provenance rows, and the absorbed entity is gone. *)
Example merge_two_edges_into_one :
  let d : db :=
    Db [ EntityRow "PER-00001" "person" "Jeffrey Epstein" None None "t0";
         EntityRow "PER-00002" "person" "Epstein, Jeffrey" None None "t0";
         EntityRow "PER-00003" "person" "Larry Visoski" None None "t0" ]
       [ Rel 1 "PER-00001" "PER-00003" "traveled_with" (Some 1%Z) (Some (strs ["EFTA00000001"]));
         Rel 2 "PER-00003" "PER-00002" "traveled_with" (Some 1%Z) (Some (strs ["EFTA00000002"])) ]
       [ Src 1 1 "docs"; Src 2 2 "graph" ] [ Log 1 "PER-00002" "Epstein, Jeffrey" ] [] in
  match merge_entity_pair first_seen_order "t1" d "PER-00001" "PER-00002"
                          "cleaned_name_match" "jeffrey epstein" false with
  | Some (stats, d') =>
      stats = Stats 1 1 1
      ∧ relationships d'
        = [Rel 1 "PER-00001" "PER-00003" "traveled_with" (Some 2%Z)
               (Some (strs ["EFTA00000001"; "EFTA00000002"]))]
      ∧ relationship_sources d' = [Src 1 1 "docs"; Src 2 1 "graph"]
      ∧ entity_resolution_log d' = [Log 1 "PER-00001" "Epstein, Jeffrey"]
      ∧ map canonical_id (canonical_entities d') = strs ["PER-00001"; "PER-00003"]
      ∧ map row_aliases (canonical_entities d') = [Some (strs ["Epstein, Jeffrey"]); None]
  | None => False
  end.
Proof. vm_compute. done. Qed.

(** A registry in which "Bill Clinton" carries the alias "William
    Clinton", with an all-caps duplicate of higher prominence and a
    separate entity under the alias. *)
Definition clinton_db : db :=
  Db [ EntityRow "PER-00001" "person" "Bill Clinton" (Some (strs ["William Clinton"])) None "t0";
       EntityRow "PER-00002" "person" "BILL CLINTON" None None "t0";
       EntityRow "PER-00003" "person" "William Clinton" None None "t0";
       EntityRow "PER-00004" "person" "Ghislaine Maxwell" None None "t0" ]
     [ Rel 1 "PER-00002" "PER-00004" "associate" (Some 1%Z) None;
       Rel 2 "PER-00002" "PER-00001" "associate" (Some 1%Z) None ]
     [] [] [].

(** C2, as stated: no id that appears as an absorbed id appears as the
    survivor id of a later pair.  The cleaned-name pass does not check
    its survivors: "PER-00001" is absorbed by the first pair and is the
    survivor of the second. *)
Lemma C2_absorbed_id_is_a_later_survivor :
  find_merge_candidates clinton_db
  = [ ("PER-00002" : str, "PER-00001" : str, "cleaned_name_match" : str, "bill clinton" : str);
      ("PER-00001" : str, "PER-00003" : str, "cleaned_name_match" : str, "william clinton" : str) ].
Proof. vm_compute. reflexivity. Qed.

(** C2, amended: in the list that [find_merge_candidates] produces no id
    is the absorbed id of two pairs, and no pair of the surname pass
    (reason [lastname_only_unambiguous] or
    [lastname_only_graph_disambiguated]) has as survivor an id that an
    earlier pair absorbs; a pair of the cleaned-name pass can.  [main]
    carries out a pair only while both of its ids are still in
    [canonical_entities], so among the merges it records in
    [entity_merges] no id is absorbed twice and no absorbed id is the
    survivor of a later merge. *)
Theorem C2_merge_candidates (set_order : list str → list str) (now_iso : str) (d : db) :
  let candidates := find_merge_candidates d in
  NoDup (map cand_absorbed candidates)
  ∧ (∀ i j c c', j < i → candidates !! i = Some c → candidates !! j = Some c' →
       cand_reason c = ("lastname_only_unambiguous" : str)
       ∨ cand_reason c = ("lastname_only_graph_disambiguated" : str) →
       cand_absorbed c' ≠ cand_survivor c)
  ∧ (∀ dry_run t d', phase_merge set_order now_iso d dry_run = Some (t, d') →
       ∃ rows, entity_merges d' = entity_merges d ++ rows
               ∧ NoDup (map absorbed_id rows)
               ∧ ∀ i j r r', j < i → rows !! i = Some r → rows !! j = Some r' →
                   absorbed_id r' ≠ survivor_id r).
Proof.
  intros candidates. destruct (find_merge_candidates_ok d) as [N O].
  split; [exact N|]. split; [exact O|].
  intros dry_run t d' H. unfold phase_merge, run_merges in H.
  destruct (run_merges_audit set_order now_iso dry_run (find_merge_candidates d)
              (entity_merges d) [] (Totals 0 0 0 0) d t d')
    as (rows & Hr & (N' & _ & O')); [by rewrite app_nil_r| |exact H|].
  { split; [constructor|]. split; [by intros a ?%elem_of_nil|].
    intros i j r r' _ Hi. by rewrite lookup_nil in Hi. }
  by exists rows.
Qed.

Lemma C2_merge_candidates_witness :
  ∃ t d' rows,
    phase_merge first_seen_order "t1" clinton_db false = Some (t, d')
    ∧ entity_merges d' = entity_merges clinton_db ++ rows
    ∧ map (fun r => (survivor_id r, absorbed_id r)) rows
      = [("PER-00002" : str, "PER-00001" : str)]
    ∧ NoDup (map absorbed_id rows).
Proof.
  destruct (phase_merge first_seen_order "t1" clinton_db false) as [[t d']|] eqn:E;
    [|vm_compute in E; discriminate E].
  destruct (proj2 (proj2 (C2_merge_candidates first_seen_order "t1" clinton_db)) false t d' E)
    as (rows & R1 & R2 & _).
  exists t, d', rows. split; [reflexivity|]. split; [exact R1|]. split; [|exact R2].
  vm_compute in E. injection E as _ Ed. subst d'. vm_compute in R1. subst rows.
  vm_compute. reflexivity.
Defined.

(** ** The resolver and its registry *)

Module RegistryFacts.
Import PyStr Names Rapidfuzz Resolver PyStrFacts ResolverFacts.

Lemma registry_get_Some r cid : is_Some (registry_get r cid) ↔ cid ∈ map fst r.
Proof.
unfold registry_get. induction r as [|[k e] r IH]; cbn.
- split; [by intros [? ?]|by intros ?%elem_of_nil].
- case_bool_decide as E; cbn.
  + cbn in E. subst k. split; [intros _; by left|by eexists].
  + rewrite elem_of_cons. split.
    * intros H. right. by apply IH.
    * intros [->|H]; [done|by apply IH].
Qed.

Lemma registry_get_elem r cid e : registry_get r cid = Some e → (cid, e) ∈ r.
Proof.
unfold registry_get. induction r as [|[k e'] r IH]; cbn; [done|].
case_bool_decide as E; cbn.
- intros [= <-]. cbn in E. subst. by left.
- intros H. right. by apply IH.
Qed.

Lemma registry_set_keys r cid e x :
x ∈ map fst (registry_set r cid e) ↔ x ∈ map fst r ∨ x = cid.
Proof.
unfold registry_set. case_bool_decide as E.
- rewrite map_map.
  assert (map (fun p : str * entity => fst (if bool_decide (fst p = cid) then (cid, e) else p)) r
          = map fst r) as ->.
  { apply map_ext. intros [k v]. cbn. by case_bool_decide. }
  split; [tauto|]. intros [H|H]; [done|]. subst x. exact E.
- rewrite map_app. cbn. rewrite elem_of_app, list_elem_of_singleton. tauto.
Qed.

Lemma registry_get_set r cid e : registry_get (registry_set r cid e) cid = Some e.
Proof.
unfold registry_set. case_bool_decide as E.
- unfold registry_get. induction r as [|[k v] r IH]; [by apply elem_of_nil in E|].
  cbn. destruct (decide (k = cid)) as [->|Hne].
  + rewrite (bool_decide_true (cid = cid)) by done. cbn.
    by rewrite (bool_decide_true (cid = cid)) by done.
  + rewrite (bool_decide_false (k = cid)) by done. cbn.
    rewrite (bool_decide_false (k = cid)) by done.
    cbn in E. apply elem_of_cons in E as [E|E]; [done|]. by apply IH.
- unfold registry_get. induction r as [|[k v] r IH]; cbn.
  + by rewrite bool_decide_true.
  + cbn in E. apply not_elem_of_cons in E as [E1 E2].
    rewrite bool_decide_false by done. by apply IH.
Qed.

Lemma registry_set_same r cid e :
(∀ e', (cid, e') ∈ r → e' = e) → cid ∈ map fst r → registry_set r cid e = r.
Proof.
intros Hall Hin. unfold registry_set. rewrite bool_decide_true by done.
clear Hin. induction r as [|[k v] r IH]; [done|]. cbn.
rewrite IH by (intros e' H; apply Hall; by right).
case_bool_decide as E; [|done]. cbn in E. subst k.
by rewrite (Hall v) by (by left).
Qed.

Lemma registry_set_elem r cid e e' :
(cid, e') ∈ registry_set r cid e → cid ∈ map fst r → e' = e.
Proof.
intros H Hin. unfold registry_set in H. rewrite bool_decide_true in H by done.
change (map ?f ?l) with (f <$> l) in H.
apply list_elem_of_fmap in H as ([k v] & E & _). cbn in E.
case_bool_decide as E1; [by injection E|]. injection E as -> ->. done.
Qed.

(** *** What [_index_name] does to [exact_lookup] *)

Lemma nonempty_lower s : nonempty (lower s) = nonempty s.
Proof. by destruct s. Qed.

Lemma _index_name_lookup ix name cid form c :
(_index_name ix name cid).1 !! form = Some c → c = cid ∨ ix.1 !! form = Some c.
Proof.
destruct ix as [exact names]. unfold _index_name.
destruct (nonempty (lower (normalize_name name)) && _);
  destruct (nonempty (lower (get_short_name name)) && _ && _); cbn;
  rewrite ?lookup_insert_Some; intuition congruence.
Qed.

Lemma _index_name_mono ix name cid form :
ix.1 !! form = Some cid → (_index_name ix name cid).1 !! form = Some cid.
Proof.
destruct ix as [exact names]. unfold _index_name. cbn. intros H.
assert (∀ (m : gmap str str) k, m !! form = Some cid → <[k := cid]> m !! form = Some cid) as Hins.
{ intros m k Hm. destruct (decide (k = form)) as [->|Hne].
  - by rewrite lookup_insert_eq.
  - by rewrite lookup_insert_ne. }
destruct (nonempty (lower (normalize_name name)) && _);
  destruct (nonempty (lower (get_short_name name)) && _ && _); cbn; auto.
Qed.

Lemma _index_name_dom ix name cid form :
is_Some (ix.1 !! form) → is_Some ((_index_name ix name cid).1 !! form).
Proof.
destruct ix as [exact names]. unfold _index_name. cbn. intros H.
destruct (nonempty (lower (normalize_name name)) && _);
  destruct (nonempty (lower (get_short_name name)) && _ && _); cbn;
  rewrite ?lookup_insert_is_Some'; auto.
Qed.

Lemma _index_name_raw ix name cid :
(_index_name ix name cid).1 !! lower name = Some cid.
Proof.
assert ((<[lower name := cid]> ix.1, ix.2 ++ [(name, cid)]).1 !! lower name = Some cid) as H
  by apply lookup_insert_eq.
destruct ix as [exact names]. unfold _index_name.
assert (∀ (m : gmap str str) k, m !! lower name = Some cid → <[k := cid]> m !! lower name = Some cid) as Hins.
{ intros m k Hm. destruct (decide (k = lower name)) as [->|Hne].
  - by rewrite lookup_insert_eq.
  - by rewrite lookup_insert_ne. }
cbn in H.
destruct (nonempty (lower (normalize_name name)) && _);
  destruct (nonempty (lower (get_short_name name)) && _ && _); cbn; auto.
Qed.

Lemma _index_name_norm ix name cid :
normalize_name name ≠ [] →
(_index_name ix name cid).1 !! lower (normalize_name name) = Some cid.
Proof.
intros Hn. destruct ix as [exact names]. unfold _index_name.
assert (∀ (m : gmap str str) k j, m !! j = Some cid → <[k := cid]> m !! j = Some cid) as Hins.
{ intros m k j Hm. destruct (decide (k = j)) as [->|Hne].
  - by rewrite lookup_insert_eq.
  - by rewrite lookup_insert_ne. }
rewrite nonempty_lower, (proj2 (nonempty_true _) Hn). cbn [andb].
unfold str_eqb at 1. case_bool_decide as E; cbn [negb].
- assert (<[lower name := cid]> exact !! lower (normalize_name name) = Some cid) as H
    by (rewrite E; apply lookup_insert_eq).
  destruct (nonempty (lower (get_short_name name)) && _ && _); cbn; auto.
- assert (<[lower (normalize_name name) := cid]> (<[lower name := cid]> exact)
            !! lower (normalize_name name) = Some cid) as H by apply lookup_insert_eq.
  destruct (nonempty (lower (get_short_name name)) && _ && _); cbn; auto.
Qed.

(** The loop over the aliases of one entity. *)
Definition index_aliases (ix : index) (names : list str) (cid : str) : index :=
fold_left (fun ix alias => if nonempty alias then _index_name ix alias cid else ix) names ix.

Lemma index_aliases_lookup names cid : ∀ ix form c,
(index_aliases ix names cid).1 !! form = Some c → c = cid ∨ ix.1 !! form = Some c.
Proof.
induction names as [|a names IH]; intros ix form c; cbn; [tauto|].
intros [->|H]%IH; [by left|]. destruct (nonempty a); [|by right].
by apply _index_name_lookup in H.
Qed.

Lemma index_aliases_mono names cid : ∀ ix form,
ix.1 !! form = Some cid → (index_aliases ix names cid).1 !! form = Some cid.
Proof.
induction names as [|a names IH]; intros ix form H; cbn; [done|].
apply IH. destruct (nonempty a); [|done]. by apply _index_name_mono.
Qed.

Lemma index_aliases_dom names cid : ∀ ix form,
is_Some (ix.1 !! form) → is_Some ((index_aliases ix names cid).1 !! form).
Proof.
induction names as [|a names IH]; intros ix form H; cbn; [done|].
apply IH. destruct (nonempty a); [|done]. by apply _index_name_dom.
Qed.

Lemma index_aliases_elem names cid a : ∀ ix,
a ∈ names → a ≠ [] →
(index_aliases ix names cid).1 !! lower a = Some cid
∧ (normalize_name a ≠ [] →
   (index_aliases ix names cid).1 !! lower (normalize_name a) = Some cid).
Proof.
induction names as [|b names IH]; intros ix Hin Ha; [by apply elem_of_nil in Hin|].
apply elem_of_cons in Hin as [<-|Hin]; [|by apply IH].
cbn. rewrite (proj2 (nonempty_true _) Ha). split.
- apply index_aliases_mono, _index_name_raw.
- intros Hn. by apply index_aliases_mono, _index_name_norm.
Qed.

Lemma index_entity_eq ix cid e :
index_entity ix (cid, e) = index_aliases (_index_name ix (canonical_name e) cid) (aliases e) cid.
Proof. reflexivity. Qed.

(** A name the entity is known by: its canonical name or a non-empty alias. *)
Definition known_as (e : entity) (n : str) : Prop :=
n = canonical_name e ∨ (n ∈ aliases e ∧ n ≠ []).

Lemma index_entity_known ix cid e n :
known_as e n →
(index_entity ix (cid, e)).1 !! lower n = Some cid
∧ (normalize_name n ≠ [] →
   (index_entity ix (cid, e)).1 !! lower (normalize_name n) = Some cid).
Proof.
rewrite index_entity_eq. intros [->|[Hin Hne]].
- split.
  + apply index_aliases_mono, _index_name_raw.
  + intros Hn. by apply index_aliases_mono, _index_name_norm.
- by apply index_aliases_elem.
Qed.

Lemma index_entity_lookup ix cid e form c :
(index_entity ix (cid, e)).1 !! form = Some c → c = cid ∨ ix.1 !! form = Some c.
Proof.
rewrite index_entity_eq. intros [->|H]%index_aliases_lookup; [by left|].
by apply _index_name_lookup in H.
Qed.

Lemma index_entity_dom ix cid e form :
is_Some (ix.1 !! form) → is_Some ((index_entity ix (cid, e)).1 !! form).
Proof.
rewrite index_entity_eq. intros H. by apply index_aliases_dom, _index_name_dom.
Qed.

Lemma index_all_lookup r : ∀ ix form c,
(fold_left index_entity r ix).1 !! form = Some c →
c ∈ map fst r ∨ ix.1 !! form = Some c.
Proof.
induction r as [|[cid e] r IH]; intros ix form c; cbn [fold_left]; [tauto|].
intros [H|H]%IH; [left; cbn; by right|].
apply index_entity_lookup in H as [->|H]; [left; cbn; by left|by right].
Qed.

Lemma index_all_dom r : ∀ ix form,
is_Some (ix.1 !! form) → is_Some ((fold_left index_entity r ix).1 !! form).
Proof.
induction r as [|[cid e] r IH]; intros ix form H; cbn [fold_left]; [done|].
by apply IH, index_entity_dom.
Qed.

Lemma index_all_known r cid e n : ∀ ix,
(cid, e) ∈ r → known_as e n → normalize_name n ≠ [] →
is_Some ((fold_left index_entity r ix).1 !! lower (normalize_name n)).
Proof.
induction r as [|[k v] r IH]; intros ix Hin Hk Hn; [by apply elem_of_nil in Hin|].
cbn [fold_left]. apply elem_of_cons in Hin as [[= <- <-]|Hin]; [|by apply IH].
apply index_all_dom. eexists. by apply index_entity_known.
Qed.

Lemma init_fields r t :
reg (init r t) = r
∧ fuzzy_threshold (init r t) = t
∧ exact_lookup (init r t) = (fold_left index_entity r (∅, [])).1
∧ all_names (init r t) = (fold_left index_entity r (∅, [])).2
∧ _name_strings (init r t) = map fst (all_names (init r t)).
Proof. unfold init. by destruct (fold_left index_entity r (∅, [])). Qed.

(** *** Resolvers on which [resolve] cannot fail *)

Definition consistent (self : EntityResolver) : Prop :=
(∀ form cid, exact_lookup self !! form = Some cid → cid ∈ map fst (reg self))
∧ _name_strings self = map fst (all_names self).

Lemma init_consistent r t : consistent (init r t).
Proof.
destruct (init_fields r t) as (E1 & _ & E3 & _ & E5). split; [|done].
intros form cid. rewrite E1, E3. intros [H|H]%index_all_lookup; [done|].
cbn in H. by rewrite lookup_empty in H.
Qed.

Lemma add_to_registry_fields self cid cname als etype md :
let self' := add_to_registry self cid cname als etype md in
reg self' = registry_set (reg self) cid (Entity cname (default [] als) etype (default ∅ md))
∧ fuzzy_threshold self' = fuzzy_threshold self
∧ exact_lookup self'
  = (index_entity (exact_lookup self, all_names self)
       (cid, Entity cname (default [] als) etype (default ∅ md))).1
∧ _name_strings self' = map fst (all_names self').
Proof. done. Qed.

Lemma add_to_registry_consistent self cid cname als etype md :
consistent self → consistent (add_to_registry self cid cname als etype md).
Proof.
intros [H1 H2].
destruct (add_to_registry_fields self cid cname als etype md) as (E1 & _ & E3 & E4).
split; [|done]. rewrite E1, E3.
intros form c Hc. apply registry_set_keys. rewrite index_entity_eq in Hc. cbn [canonical_name aliases] in Hc.
apply index_aliases_lookup in Hc as [->|Hc]; [by right|].
apply _index_name_lookup in Hc as [->|Hc]; [by right|]. left. by eapply H1.
Qed.

Lemma merge_alias_eq (cid : str) (existing : list str) (lowers : gset str) (exact : gmap str str)
  (names : list (str * str)) (strings : list str) (a : str) :
merge_alias cid (existing, lowers, (exact, names), strings) a
= if nonempty a && bool_decide (lower a ∉ lowers)
  then (existing ++ [a], lowers ∪ {[lower a]},
        (<[lower a := cid]> exact, names ++ [(a, cid)]), strings ++ [a])
  else (existing, lowers, (exact, names), strings).
Proof. reflexivity. Qed.

Lemma merge_alias_fold (cid : str) (l : list str) :
∀ (existing : list str) (lowers : gset str) (exact : gmap str str)
  (names : list (str * str)) (strings : list str),
let res := fold_left (merge_alias cid) l (existing, lowers, (exact, names), strings) in
(∀ form c, res.1.2.1 !! form = Some c → c = cid ∨ exact !! form = Some c)
∧ (∀ form, exact !! form = Some cid → res.1.2.1 !! form = Some cid)
∧ (strings = map fst names → res.2 = map fst res.1.2.2).
Proof.
induction l as [|a l IH]; intros existing lowers exact names strings; cbn [fold_left].
- cbn. tauto.
- rewrite merge_alias_eq. destruct (nonempty a && _); [|apply IH].
  destruct (IH (existing ++ [a]) (lowers ∪ {[lower a]}) (<[lower a := cid]> exact)
               (names ++ [(a, cid)]) (strings ++ [a])) as (I1 & I2 & I3).
  cbv zeta in I1, I2, I3 |- *. split; [|split].
  + intros form c [->|H]%I1; [by left|].
    apply lookup_insert_Some in H as [[_ <-]|[_ H]]; [by left|by right].
  + intros form H. apply I2. destruct (decide (lower a = form)) as [->|Hne].
    * by rewrite lookup_insert_eq.
    * by rewrite lookup_insert_ne.
  + intros ->. apply I3. by rewrite map_app.
Qed.

Lemma merge_aliases_consistent self cid l :
consistent self → consistent (merge_aliases self cid l).2.
Proof.
intros [H1 H2]. unfold merge_aliases.
destruct (registry_get (reg self) cid) as [e|] eqn:E; [|done].
pose proof (merge_alias_fold cid l (aliases e)
              (list_to_set (map lower (aliases e)) ∪ {[lower (canonical_name e)]})
              (exact_lookup self) (all_names self) (_name_strings self)) as (I1 & _ & I3).
destruct (fold_left _ l _) as [[[existing lowers] [exact names]] strings].
cbn in I1, I3 |- *. split; cbn.
- intros form c Hc. apply registry_set_keys.
  apply I1 in Hc as [->|Hc]; [by right|]. left. by eapply H1.
- by apply I3.
Qed.

Lemma consistent_exact_tier self form :
consistent self →
exact_tier self form = None
∨ ∃ cid, exact_lookup self !! form = Some cid
         ∧ (exact_tier self form = Some (Ret (Some cid) "exact" 1%Q)
            ∨ exact_tier self form = Some (Ret (Some cid) "alias" (95 # 100)%Q)).
Proof.
intros [H1 _]. unfold exact_tier.
destruct (exact_lookup self !! form) as [cid|] eqn:E; [|by left]. right.
exists cid. split; [done|].
destruct (proj2 (registry_get_Some (reg self) cid) (H1 _ _ E)) as [e ->].
destruct (str_eqb _ _); [by left|by right].
Qed.

Lemma consistent_first_exact self forms :
consistent self →
first_some (exact_tier self) forms = None
∨ ∃ cid, cid ∈ map fst (reg self)
         ∧ (first_some (exact_tier self) forms = Some (Ret (Some cid) "exact" 1%Q)
            ∨ first_some (exact_tier self) forms = Some (Ret (Some cid) "alias" (95 # 100)%Q)).
Proof.
intros Hc. induction forms as [|f forms IH]; [by left|]. cbn.
destruct (consistent_exact_tier self f Hc) as [->|(cid & E & [->| ->])]; [done| |].
- right. exists cid. split; [by eapply Hc|by left].
- right. exists cid. split; [by eapply Hc|by right].
Qed.

Lemma consistent_fuzzy_tier scorer self cleaned :
consistent self → fuzzy_tier scorer self cleaned ≠ Raises.
Proof.
intros [_ H2]. unfold fuzzy_tier.
destruct (is_numbered_reference cleaned); [done|].
destruct (negb _); [done|].
destruct (extractOne _ _ _ _) as [[[m score] idx]|] eqn:E; [|done].
apply extractOne_choice in E as [E _]. rewrite H2 in E.
change (map ?f ?l) with (f <$> l) in E. rewrite list_lookup_fmap in E.
destruct (all_names self !! idx) as [[? matched_cid]|]; [|done].
by destruct (_ && _).
Qed.

Lemma consistent_resolve scorer self name :
consistent self → resolve scorer self name ≠ Raises.
Proof.
intros Hc. unfold resolve. destruct (_ || _); [done|].
destruct (is_noise_entity_name _); [done|].
destruct (consistent_first_exact self
            [lower (strip name); lower (normalize_name (strip name));
             lower (get_short_name (strip name))] Hc) as [->|(cid & _ & [->| ->])]; [|done|done].
by apply consistent_fuzzy_tier.
Qed.

(** Resolvers as the ingest steps make them: built by [__init__], then
    grown by [add_to_registry] and [merge_aliases]. *)
Inductive built : EntityResolver → Prop :=
| built_init r t : built (init r t)
| built_add self cid cname als etype md :
    built self → built (add_to_registry self cid cname als etype md)
| built_merge self cid l :
    built self → built (merge_aliases self cid l).2.

Lemma built_consistent self : built self → consistent self.
Proof.
induction 1.
- apply init_consistent.
- by apply add_to_registry_consistent.
- by apply merge_aliases_consistent.
Qed.

(** *** [process.extractOne] *)

Lemma extract_from_best scorer query cutoff choices : ∀ best i m s idx,
extract_from scorer query cutoff best i choices = Some (m, s, idx) →
best = Some (m, s, idx)
∨ ∃ j, choices !! j = Some m ∧ idx = i + j ∧ s = scorer query m
       ∧ (cutoff <= s)%Q
       ∧ (∀ bm bs bi, best = Some (bm, bs, bi) → (bs < s)%Q)
       ∧ (∀ j' c, j' < j → choices !! j' = Some c →
            (cutoff <= scorer query c)%Q → (scorer query c < s)%Q).
Proof.
induction choices as [|c cs IH]; intros best i m s idx; cbn [extract_from]; [by left|].
set (score := scorer query c).
set (better := match best with None => true | Some (_, b, _) => Qltb b score end).
destruct (Qle_bool cutoff score && better) eqn:Hup.
- apply andb_true_iff in Hup as [Hcut Hbetter]. apply Qle_bool_iff in Hcut.
  assert (∀ bm bs bi, best = Some (bm, bs, bi) → (bs < score)%Q) as Hb.
  { intros bm bs bi ->. subst better. by apply GraphFacts.Qltb_lt. }
  assert (Some (c, score, i) = Some (m, s, idx) →
          ∃ j, (c :: cs) !! j = Some m ∧ idx = i + j ∧ s = scorer query m
               ∧ (cutoff <= s)%Q
               ∧ (∀ bm bs bi, best = Some (bm, bs, bi) → (bs < s)%Q)
               ∧ (∀ j' c', j' < j → (c :: cs) !! j' = Some c' →
                    (cutoff <= scorer query c')%Q → (scorer query c' < s)%Q)) as Hhere.
  { intros [= <- <- <-]. exists 0. repeat split; [lia|done|done|]. intros; lia. }
  destruct (Qeq_bool score 100); [intros H; right; by apply Hhere|].
  intros [H|(j & Hj & -> & -> & Hc & Hbest & Hearlier)]%IH; [right; by apply Hhere|].
  right. exists (S j). repeat split; [done|lia|done| |].
  + intros bm bs bi Hbs. apply Qlt_trans with score; [by eapply Hb|by eapply Hbest].
  + intros [|j'] c' Hlt Hc' Hcut'.
    * injection Hc' as <-. by eapply Hbest.
    * apply (Hearlier j' c'); [lia|done|done].
- assert (¬ ((cutoff <= score)%Q ∧ better = true)) as Hno.
  { intros [H1 H2]. apply Qle_bool_iff in H1. by rewrite H1, H2 in Hup. }
  destruct (Qeq_bool score 100); [by left|].
  intros [H|(j & Hj & -> & -> & Hc & Hbest & Hearlier)]%IH; [by left|].
  right. exists (S j). repeat split; [done|lia|done|done|].
  intros [|j'] c' Hlt Hc' Hcut'.
  + injection Hc' as <-. fold score in Hcut' |- *.
    destruct best as [[[bm bs] bi]|]; [|exfalso; apply Hno; by split].
    destruct (Qltb bs score) eqn:Hlt'; [exfalso; apply Hno; by split|].
    apply GraphFacts.Qltb_ge in Hlt'.
    apply Qle_lt_trans with bs; [done|by eapply Hbest].
  + apply (Hearlier j' c'); [lia|done|done].
Qed.

Lemma extractOne_best scorer query choices cutoff m s idx :
extractOne scorer query choices cutoff = Some (m, s, idx) →
choices !! idx = Some m ∧ s = scorer query m ∧ (cutoff <= s)%Q
∧ (∀ j c, j < idx → choices !! j = Some c →
     (cutoff <= scorer query c)%Q → (scorer query c < s)%Q).
Proof.
unfold extractOne. intros [H|(j & Hj & -> & -> & Hc & _ & He)]%extract_from_best; [done|].
done.
Qed.

Lemma not_noise_nonempty n :
is_noise_entity_name n = false → n ≠ [] ∧ strip n ≠ [] ∧ normalize_name n ≠ [].
Proof.
unfold is_noise_entity_name.
destruct (looks_like_non_entity n) eqn:L; [done|].
destruct (negb (nonempty (strip (lower (normalize_name n))))) eqn:N; [done|]. intros _.
apply negb_false_iff, nonempty_true in N.
unfold looks_like_non_entity in L. destruct n as [|c n]; [done|].
destruct (negb (nonempty (strip (c :: n)))) eqn:S; [done|].
apply negb_false_iff, nonempty_true in S.
split; [done|]. split; [done|]. intros E. rewrite E in N. by apply N.
Qed.

End RegistryFacts.

Import PyStr Names Rapidfuzz Resolver PyStrFacts ResolverFacts RegistryFacts.

(** X1: a resolver built by [__init__] and updated only through
    [add_to_registry] and [merge_aliases] never makes [resolve] fail with
    a [KeyError] or an [IndexError]: every id in [exact_lookup] is a key
    of the registry and [_name_strings] runs parallel to [all_names]. *)
Theorem resolve_never_raises (scorer : str → str → Q) (self : EntityResolver) (name : str) :
  built self → resolve scorer self name ≠ Raises.
Proof. intros H. by apply consistent_resolve, built_consistent. Qed.

Lemma resolve_never_raises_witness :
  resolve token_sort_ratio
    (merge_aliases
       (add_to_registry (init kerry 90%Q) "PER-00002" "Larry Visoski" None "person" None)
       "PER-00002" (strs ["Lawrence Visoski"])).2
    "Larry Visosky" ≠ Raises.
Proof. apply resolve_never_raises. apply built_merge, built_add, built_init. Defined.

(** X2: a fuzzy match is never below the configured cutoff.  When
    [resolve] answers "fuzzy", the id is the one stored beside the matched
    name, the score of that name reaches [fuzzy_threshold], it is at least
    95 when the normalized query has at most 10 characters, and every
    earlier name that reaches the cutoff scores strictly less. *)
Theorem fuzzy_match_reaches_cutoff (scorer : str → str → Q) (self : EntityResolver)
    (name cid : str) (conf : Q) :
  resolve scorer self name = Ret (Some cid) "fuzzy" conf →
  let query := normalize_name (strip name) in
  ∃ matched indexed idx,
    _name_strings self !! idx = Some matched
    ∧ all_names self !! idx = Some (indexed, cid)
    ∧ (fuzzy_threshold self <= scorer query matched)%Q
    ∧ (length query ≤ 10 → (95 <= scorer query matched)%Q)
    ∧ (∀ j other, j < idx → _name_strings self !! j = Some other →
         (fuzzy_threshold self <= scorer query other)%Q →
         (scorer query other < scorer query matched)%Q).
Proof.
  unfold resolve. destruct (_ || _); [done|].
  destruct (is_noise_entity_name _); [done|].
  destruct (first_some _ _) as [out|] eqn:F.
  { intros ->. by apply first_exact_method in F as [F|F]. }
  unfold fuzzy_tier.
  destruct (is_numbered_reference _); [done|].
  destruct (negb _); [done|].
  destruct (extractOne _ _ _ _) as [[[m score] idx]|] eqn:E; [|done].
  destruct (all_names self !! idx) as [[indexed matched_cid]|] eqn:A; [|done].
  destruct (_ && _) eqn:G; [done|].
  intros [= -> <-]. apply extractOne_best in E as (E1 & -> & E3 & E4).
  exists m, indexed, idx. split; [done|]. split; [done|]. split; [done|]. split; [|done].
  intros Hlen. apply andb_false_iff in G as [G|G].
  - apply Nat.leb_gt in G. cbv zeta in Hlen. lia.
  - by apply GraphFacts.Qltb_ge in G.
Qed.

Lemma fuzzy_match_reaches_cutoff_witness :
  ∃ matched indexed idx,
    _name_strings (init kerry 90%Q) !! idx = Some matched
    ∧ all_names (init kerry 90%Q) !! idx = Some (indexed, "PER-00001" : str)
    ∧ (fuzzy_threshold (init kerry 90%Q)
       <= token_sort_ratio (normalize_name (strip "Kerry John")) matched)%Q
    ∧ (length (normalize_name (strip "Kerry John")) ≤ 10 →
       (95 <= token_sort_ratio (normalize_name (strip "Kerry John")) matched)%Q)
    ∧ (∀ j other, j < idx → _name_strings (init kerry 90%Q) !! j = Some other →
         (fuzzy_threshold (init kerry 90%Q)
          <= token_sort_ratio (normalize_name (strip "Kerry John")) other)%Q →
         (token_sort_ratio (normalize_name (strip "Kerry John")) other
          < token_sort_ratio (normalize_name (strip "Kerry John")) matched)%Q).
Proof.
  apply (fuzzy_match_reaches_cutoff token_sort_ratio (init kerry 90%Q) "Kerry John"
           "PER-00001"
           (token_sort_ratio (normalize_name (strip "Kerry John")) "John Kerry" / 100)%Q).
  vm_compute. reflexivity.
Defined.

(** X3: every name under which the registry knows an entity (its
    canonical name or an alias) and that the noise filter lets through is
    matched in the exact tier of a freshly built resolver: the answer is an
    id of the registry with method "exact" or "alias", never "no_match" and
    never a fuzzy guess. *)
Theorem indexed_name_resolves_exactly (scorer : str → str → Q) (r : registry) (t : Q)
    (cid : str) (e : entity) (n : str) :
  (cid, e) ∈ r →
  n = canonical_name e ∨ n ∈ aliases e →
  is_noise_entity_name n = false →
  ∃ cid', cid' ∈ map fst r
          ∧ (resolve scorer (init r t) n = Ret (Some cid') "exact" 1%Q
             ∨ resolve scorer (init r t) n = Ret (Some cid') "alias" (95 # 100)%Q).
Proof.
  intros Hin Hn Hnoise.
  destruct (not_noise_nonempty n Hnoise) as (Hne & Hs & Hnorm).
  assert (known_as e n) as Hk by (destruct Hn as [->|H]; [by left|by right]).
  pose proof (init_consistent r t) as Hc.
  destruct (init_fields r t) as (E1 & _ & E3 & _).
  unfold resolve.
  rewrite (proj2 (nonempty_true _) Hne), (proj2 (nonempty_true _) Hs). cbn [negb orb].
  rewrite is_noise_entity_name_strip, Hnoise by done.
  rewrite normalize_name_strip by done.
  cbn [first_some].
  destruct (consistent_exact_tier (init r t) (lower (strip n)) Hc)
    as [->|(c & Ec & [->| ->])].
  - destruct (consistent_exact_tier (init r t) (lower (normalize_name n)) Hc)
      as [En|(c & Ec & [->| ->])].
    + exfalso. unfold exact_tier in En. rewrite E3 in En.
      destruct (index_all_known r cid e n (∅, []) Hin Hk Hnorm) as [c Hc'].
      rewrite Hc' in En. pose proof (index_all_lookup r (∅, []) _ _ Hc') as [Hk'|Hk'].
      * rewrite E1 in En. apply registry_get_Some in Hk' as [e' He']. rewrite He' in En.
        by destruct (str_eqb _ _).
      * cbn in Hk'. by rewrite lookup_empty in Hk'.
    + exists c. split; [rewrite <- E1; by eapply Hc|by left].
    + exists c. split; [rewrite <- E1; by eapply Hc|by right].
  - exists c. split; [rewrite <- E1; by eapply Hc|by left].
  - exists c. split; [rewrite <- E1; by eapply Hc|by right].
Qed.

Lemma indexed_name_resolves_exactly_witness :
  ∃ cid', cid' ∈ map fst kerry
          ∧ (resolve token_sort_ratio (init kerry 90%Q) "John Kerry"
             = Ret (Some cid') "exact" 1%Q
             ∨ resolve token_sort_ratio (init kerry 90%Q) "John Kerry"
               = Ret (Some cid') "alias" (95 # 100)%Q).
Proof.
  apply (indexed_name_resolves_exactly token_sort_ratio kerry 90%Q "PER-00001"
           (Entity "John Kerry" [] "person" ∅) "John Kerry").
  - by left.
  - by left.
  - vm_compute. reflexivity.
Defined.

(** X4: a numbered reference ("Detective 3", "Jane Doe #2" inside a longer
    name) is never matched by similarity: whatever the registry and the
    scorer, [resolve] does not answer "fuzzy" for it. *)
Theorem numbered_reference_never_fuzzy (scorer : str → str → Q) (self : EntityResolver)
    (name : str) (cid : option str) (conf : Q) :
  is_numbered_reference (strip name) = true →
  resolve scorer self name ≠ Ret cid "fuzzy" conf.
Proof.
  intros Hnum. unfold resolve. destruct (_ || _); [done|].
  destruct (is_noise_entity_name _); [done|].
  destruct (first_some _ _) as [out|] eqn:F.
  - intros ->. by apply first_exact_method in F as [F|F].
  - unfold fuzzy_tier. by rewrite Hnum.
Qed.

Lemma numbered_reference_never_fuzzy_witness :
  resolve token_sort_ratio
    (init [("PER-00009" : str, Entity "Detective 4" [] "person" ∅)] 90%Q) "Detective 3"
  ≠ Ret (Some ("PER-00009" : str)) "fuzzy" (token_sort_ratio "Detective 3" "Detective 4" / 100)%Q.
Proof.
  apply numbered_reference_never_fuzzy. vm_compute. reflexivity.
Defined.

(** ** Growing the registry: [add_to_registry] and [merge_aliases] *)

Module AliasFacts.
Import PyStr Names Rapidfuzz Resolver PyStrFacts ResolverFacts RegistryFacts.

(** The aliases of [l] that the loop of [merge_aliases] appends: those
    that are not empty and whose lowered form is new. *)
Lemma merge_alias_fold_spec (cid cname_lower : str) (l : list str) :
∀ (existing : list str) (lowers : gset str) (exact : gmap str str)
  (names : list (str * str)) (strings : list str),
(∀ x, x ∈ lowers ↔ x ∈ map lower existing ∨ x = cname_lower) →
let res := fold_left (merge_alias cid) l (existing, lowers, (exact, names), strings) in
∃ added,
  res.1.1.1 = existing ++ added
  ∧ sublist added l
  ∧ NoDup (map lower added)
  ∧ (∀ a, a ∈ added → a ≠ [] ∧ lower a ∉ lowers)
  ∧ (∀ a, a ∈ l → a ≠ [] →
       lower a ∈ map lower (existing ++ added) ∨ lower a = cname_lower)
  ∧ (∀ a, a ∈ added → res.1.2.1 !! lower a = Some cid).
Proof.
induction l as [|a l IH]; intros existing lowers exact names strings Hl; cbn [fold_left].
- exists []. cbn. rewrite app_nil_r.
  split; [done|]. split; [done|]. split; [constructor|].
  split; [by intros ? ?%elem_of_nil|]. split; by intros ? ?%elem_of_nil.
- rewrite merge_alias_eq. destruct (nonempty a && _) eqn:C.
  + apply andb_true_iff in C as [Ca Cl]. apply nonempty_true in Ca.
    apply bool_decide_eq_true in Cl.
    destruct (IH (existing ++ [a]) (lowers ∪ {[lower a]}) (<[lower a := cid]> exact)
                 (names ++ [(a, cid)]) (strings ++ [a])) as (added & E & Hs & Hnd & Ha & Hc & Hk).
    { intros x. rewrite elem_of_union, elem_of_singleton, Hl, map_app, elem_of_app.
      cbn. rewrite list_elem_of_singleton. tauto. }
    destruct (merge_alias_fold cid l (existing ++ [a]) (lowers ∪ {[lower a]})
                (<[lower a := cid]> exact) (names ++ [(a, cid)]) (strings ++ [a]))
      as (_ & Hmono & _).
    cbv zeta in E, Hk, Hmono |- *.
    exists (a :: added). rewrite <- app_assoc in E. cbn in E.
    split; [done|]. split; [by constructor|]. split; [|split; [|split]].
    * cbn. constructor; [|done]. change (map ?f ?l) with (f <$> l).
      intros (a' & Ea & Hin)%list_elem_of_fmap.
      destruct (Ha a' Hin) as [_ Hn]. apply Hn. rewrite Ea.
      apply elem_of_union. right. by apply elem_of_singleton.
    * intros a' [->|Hin]%elem_of_cons; [done|].
      destruct (Ha a' Hin) as [H1 H2]. split; [done|].
      intros H. apply H2, elem_of_union. by left.
    * intros a' [->|Hin]%elem_of_cons Hne.
      -- left. rewrite map_app. apply elem_of_app. right. cbn. by left.
      -- rewrite <- app_assoc in Hc. by apply Hc.
    * intros a' [->|Hin]%elem_of_cons; [|by apply Hk].
      apply Hmono, lookup_insert_eq.
  + destruct (IH existing lowers exact names strings Hl) as (added & E & Hs & Hnd & Ha & Hc & Hk).
    cbv zeta in E, Hk |- *. exists added.
    split; [done|]. split; [by constructor|]. split; [done|]. split; [done|].
    split; [|done].
    intros a' [->|Hin]%elem_of_cons Hne; [|by apply Hc].
    rewrite (proj2 (nonempty_true _) Hne) in C. cbn in C.
    apply bool_decide_eq_false in C. apply dec_stable in C.
    apply Hl in C as [C|C]; [left|by right].
    rewrite map_app. apply elem_of_app. by left.
Qed.

Lemma merge_alias_fold_skip (cid : str) (l : list str) (st : alias_state) :
(∀ a, a ∈ l → a ≠ [] → lower a ∈ st.1.1.2) →
fold_left (merge_alias cid) l st = st.
Proof.
induction l as [|a l IH]; intros Hl; cbn [fold_left]; [done|].
destruct st as [[[existing lowers] [exact names]] strings].
rewrite merge_alias_eq. destruct (nonempty a) eqn:Ha; cbn [andb].
- rewrite bool_decide_false.
  + apply IH. intros a' Hin. apply Hl. by right.
  + intros Hn. apply Hn. apply (Hl a); [by left|by apply nonempty_true].
- apply IH. intros a' Hin. apply Hl. by right.
Qed.

Lemma merge_aliases_unfold self cid l e :
registry_get (reg self) cid = Some e →
let res := fold_left (merge_alias cid) l
             (aliases e, list_to_set (map lower (aliases e)) ∪ {[lower (canonical_name e)]},
              (exact_lookup self, all_names self), _name_strings self) in
merge_aliases self cid l
= (res.1.1.1,
   {| reg := registry_set (reg self) cid
               (Entity (canonical_name e) res.1.1.1 (entity_type e) (metadata e));
      fuzzy_threshold := fuzzy_threshold self;
      exact_lookup := res.1.2.1;
      all_names := res.1.2.2;
      _name_strings := res.2 |}).
Proof.
intros E. unfold merge_aliases. rewrite E. cbv zeta.
by destruct (fold_left _ l _) as [[[existing lowers] [exact names]] strings].
Qed.

Lemma lowers_spec (existing : list str) (cname : str) (x : str) :
x ∈ (list_to_set (map lower existing) ∪ {[lower cname]} : gset str)
↔ x ∈ map lower existing ∨ x = lower cname.
Proof. rewrite elem_of_union, elem_of_list_to_set, elem_of_singleton. tauto. Qed.

Lemma resolve_trimmed scorer self a :
strip a = a → is_noise_entity_name a = false →
resolve scorer self a
= match first_some (exact_tier self)
          [lower a; lower (normalize_name a); lower (get_short_name a)] with
  | Some out => out
  | None => fuzzy_tier scorer self a
  end.
Proof.
intros Hs Hn. destruct (not_noise_nonempty a Hn) as (Hne & _ & _).
unfold resolve. rewrite Hs, (proj2 (nonempty_true _) Hne). cbn [negb orb].
by rewrite Hn.
Qed.

End AliasFacts.

Import PyStr Names Rapidfuzz Resolver PyStrFacts ResolverFacts RegistryFacts AliasFacts.

(** X5: once [add_to_registry] has stored an entity, [resolve] finds it
    under its canonical name with method "exact" and confidence 1, for
    every trimmed name the noise filter lets through; and under each such
    alias handed over with it, as an exact or an alias match. *)
Theorem added_entity_resolves (scorer : str → str → Q) (self : EntityResolver)
    (cid cname : str) (new_aliases : option (list str))
    (etype : str) (md : option meta) :
  let self' := add_to_registry self cid cname new_aliases etype md in
  (strip cname = cname →
   is_noise_entity_name cname = false →
   resolve scorer self' cname = Ret (Some cid) "exact" 1%Q)
  ∧ (∀ a, a ∈ default [] new_aliases → strip a = a → is_noise_entity_name a = false →
       resolve scorer self' a = Ret (Some cid) "exact" 1%Q
       ∨ resolve scorer self' a = Ret (Some cid) "alias" (95 # 100)%Q).
Proof.
  intros self'.
  destruct (add_to_registry_fields self cid cname new_aliases etype md) as (E1 & _ & E3 & _).
  fold self' in E1, E3.
  set (e := Entity cname (default [] new_aliases) etype (default ∅ md)) in E1, E3.
  assert (∀ n, known_as e n → exact_tier self' (lower n)
               = Some (if str_eqb (lower n) (lower cname)
                       then Ret (Some cid) "exact" 1%Q
                       else Ret (Some cid) "alias" (95 # 100)%Q)) as Htier.
  { intros n Hk. unfold exact_tier. rewrite E3.
    rewrite (proj1 (index_entity_known _ cid e n Hk)).
    rewrite E1, registry_get_set. subst e. cbn [canonical_name].
    by destruct (str_eqb _ _). }
  split.
  - intros Hs Hn. rewrite resolve_trimmed by done. cbn [first_some].
    rewrite (Htier cname) by (by left).
    unfold str_eqb. by rewrite bool_decide_true.
  - intros a Hin Hs Hn. rewrite resolve_trimmed by done. cbn [first_some].
    destruct (not_noise_nonempty a Hn) as (Hne & _ & _).
    rewrite (Htier a) by (by right).
    destruct (str_eqb _ _); [by left|by right].
Qed.

Lemma added_entity_resolves_witness :
  resolve token_sort_ratio
    (add_to_registry (init kerry 90%Q) "PER-00002" "Larry Visoski"
                     (Some (strs ["Lawrence Visoski"])) "person" None)
    "Larry Visoski"
  = Ret (Some ("PER-00002" : str)) "exact" 1%Q.
Proof.
  apply (added_entity_resolves token_sort_ratio (init kerry 90%Q) "PER-00002" "Larry Visoski"
           (Some (strs ["Lawrence Visoski"])) "person" None).
  - vm_compute. reflexivity.
  - vm_compute. reflexivity.
Defined.

(** X6: [merge_aliases] on an id the registry does not hold hands the
    new aliases back and changes nothing.  On a known id the merged list is
    the old alias list followed by aliases taken in order from the new
    ones; each appended alias is non-empty, differs, letter case aside,
    from the canonical name, from every old alias and from the other
    appended ones; every non-empty new alias is then covered, letter case
    aside, by the merged list or the canonical name; and the registry holds
    the merged list. *)
Theorem merge_aliases_result (self : EntityResolver) (canonical_id : str)
    (new_aliases : list str) :
  (registry_get (reg self) canonical_id = None →
   merge_aliases self canonical_id new_aliases = (new_aliases, self))
  ∧ (∀ e, registry_get (reg self) canonical_id = Some e →
       let merged := (merge_aliases self canonical_id new_aliases).1 in
       let self' := (merge_aliases self canonical_id new_aliases).2 in
       ∃ added,
         merged = aliases e ++ added
         ∧ sublist added new_aliases
         ∧ NoDup (map lower added)
         ∧ (∀ a, a ∈ added →
              a ≠ [] ∧ (lower a ∉ map lower (aliases e))
              ∧ lower a ≠ lower (canonical_name e))
         ∧ (∀ a, a ∈ new_aliases → a ≠ [] →
              lower a ∈ map lower merged ∨ lower a = lower (canonical_name e))
         ∧ registry_get (reg self') canonical_id
           = Some (Entity (canonical_name e) merged (entity_type e) (metadata e))).
Proof.
  split.
  - intros E. unfold merge_aliases. by rewrite E.
  - intros e E merged self'. subst merged self'.
    rewrite (merge_aliases_unfold self canonical_id new_aliases e E). cbn [fst snd reg].
    destruct (merge_alias_fold_spec canonical_id (lower (canonical_name e)) new_aliases
                (aliases e)
                (list_to_set (map lower (aliases e)) ∪ {[lower (canonical_name e)]})
                (exact_lookup self) (all_names self) (_name_strings self)
                (lowers_spec (aliases e) (canonical_name e)))
      as (added & E1 & Hs & Hnd & Ha & Hc & _).
    cbv zeta in E1. exists added. rewrite E1.
    split; [done|]. split; [done|]. split; [done|]. split; [|split; [done|]].
    + intros a Hin. destruct (Ha a Hin) as [H1 H2]. split; [done|].
      rewrite lowers_spec in H2. tauto.
    + apply registry_get_set.
Qed.

Lemma merge_aliases_result_witness :
  ∃ added,
    (merge_aliases (init kerry 90%Q) "PER-00001"
                   (strs ["JOHN KERRY"; "John F. Kerry"; ""; "john f. kerry"])).1
    = aliases (Entity "John Kerry" [] "person" ∅) ++ added
    ∧ added = strs ["John F. Kerry"].
Proof.
  assert (registry_get (reg (init kerry 90%Q)) "PER-00001"
          = Some (Entity "John Kerry" [] "person" ∅)) as Hreg by (vm_compute; reflexivity).
  destruct (proj2 (merge_aliases_result (init kerry 90%Q) "PER-00001"
                     (strs ["JOHN KERRY"; "John F. Kerry"; ""; "john f. kerry"]))
                  (Entity "John Kerry" [] "person" ∅) Hreg) as (added & E & _).
  exists added. split; [exact E|].
  apply (app_inv_head (aliases (Entity "John Kerry" [] "person" ∅))).
  rewrite <- E. vm_compute. reflexivity.
Defined.

(** X7: [merge_aliases] is idempotent: merging the same aliases into the
    same id a second time returns the same list and leaves the resolver as
    the first call left it. *)
Theorem merge_aliases_idempotent (self : EntityResolver) (canonical_id : str)
    (new_aliases : list str) :
  merge_aliases (merge_aliases self canonical_id new_aliases).2 canonical_id new_aliases
  = merge_aliases self canonical_id new_aliases.
Proof.
  destruct (registry_get (reg self) canonical_id) as [e|] eqn:E.
  2:{ assert (merge_aliases self canonical_id new_aliases = (new_aliases, self)) as N
        by (unfold merge_aliases; by rewrite E).
      rewrite N. cbn [snd]. exact N. }
  pose proof (merge_aliases_unfold self canonical_id new_aliases e E) as U.
  destruct (merge_alias_fold_spec canonical_id (lower (canonical_name e)) new_aliases
              (aliases e)
              (list_to_set (map lower (aliases e)) ∪ {[lower (canonical_name e)]})
              (exact_lookup self) (all_names self) (_name_strings self)
              (lowers_spec (aliases e) (canonical_name e)))
    as (added & E1 & _ & _ & _ & Hc & _).
  cbv zeta in U, E1.
  set (res := fold_left (merge_alias canonical_id) new_aliases _) in U, E1.
  set (e' := Entity (canonical_name e) res.1.1.1 (entity_type e) (metadata e)) in U.
  rewrite U. cbn [snd].
  assert (registry_get (registry_set (reg self) canonical_id e') canonical_id = Some e')
    as Hreg by apply registry_get_set.
  match goal with
  | |- merge_aliases ?s _ _ = _ =>
      rewrite (merge_aliases_unfold s canonical_id new_aliases e' Hreg)
  end.
  cbn [reg exact_lookup all_names _name_strings fuzzy_threshold].
  rewrite merge_alias_fold_skip.
  2:{ intros a Hin Hne. cbn [fst snd]. apply lowers_spec.
      subst e'. cbn [aliases canonical_name]. rewrite E1. by apply Hc. }
  cbn [fst snd]. subst e'. cbn [aliases canonical_name entity_type metadata].
  rewrite registry_set_same; [done| |].
  - intros e'' He''. eapply registry_set_elem; [exact He''|].
    apply registry_get_Some. by eexists.
  - apply registry_set_keys. by right.
Qed.

(** X8: an alias that [merge_aliases] was given for a known id, that is
    trimmed and passes the noise filter, and that the entity did not have
    before (letter case aside), resolves afterwards to that id with method
    "alias" and confidence 0.95. *)
Theorem merged_alias_resolves (scorer : str → str → Q) (self : EntityResolver)
    (canonical_id : str) (new_aliases : list str) (e : entity) (a : str) :
  registry_get (reg self) canonical_id = Some e →
  a ∈ new_aliases →
  strip a = a →
  is_noise_entity_name a = false →
  lower a ∉ map lower (aliases e) →
  lower a ≠ lower (canonical_name e) →
  resolve scorer (merge_aliases self canonical_id new_aliases).2 a
  = Ret (Some canonical_id) "alias" (95 # 100)%Q.
Proof.
  intros E Hin Hs Hn Hold Hname.
  destruct (not_noise_nonempty a Hn) as (Hne & _ & _).
  rewrite resolve_trimmed by done. cbn [first_some].
  rewrite (merge_aliases_unfold self canonical_id new_aliases e E).
  destruct (merge_alias_fold_spec canonical_id (lower (canonical_name e)) new_aliases
              (aliases e)
              (list_to_set (map lower (aliases e)) ∪ {[lower (canonical_name e)]})
              (exact_lookup self) (all_names self) (_name_strings self)
              (lowers_spec (aliases e) (canonical_name e)))
    as (added & E1 & _ & _ & _ & Hc & Hk).
  cbv zeta in E1, Hk.
  unfold exact_tier. cbn [snd exact_lookup reg].
  assert (∃ a', a' ∈ added ∧ lower a' = lower a) as (a' & Ha' & Ea).
  { destruct (Hc a Hin Hne) as [H|H]; [|done].
    rewrite map_app in H. apply elem_of_app in H as [H|H]; [done|].
    change (map ?f ?l) with (f <$> l) in H.
    apply list_elem_of_fmap in H as (a' & Ea & Ha'). by exists a'. }
  rewrite <- Ea, (Hk a' Ha'), registry_get_set. cbn [canonical_name].
  unfold str_eqb. rewrite bool_decide_false; [done|]. by rewrite Ea.
Qed.

Lemma merged_alias_resolves_witness :
  resolve token_sort_ratio
    (merge_aliases (init kerry 90%Q) "PER-00001" (strs ["JOHN KERRY"; "The Senator K"])).2
    "The Senator K"
  = Ret (Some ("PER-00001" : str)) "alias" (95 # 100)%Q.
Proof.
  apply (merged_alias_resolves token_sort_ratio (init kerry 90%Q) "PER-00001"
           (strs ["JOHN KERRY"; "The Senator K"]) (Entity "John Kerry" [] "person" ∅)).
  - vm_compute. reflexivity.
  - vm_compute. right. left.
  - vm_compute. reflexivity.
  - vm_compute. reflexivity.
  - vm_compute. apply not_elem_of_nil.
  - vm_compute. discriminate.
Defined.

(** ** Letter case, trimming and titles *)

Module CharFacts.
Import PyStr.

Ltac by_cases c := destruct c as [[] [] [] [] [] [] [] []]; vm_compute; try reflexivity; auto.

Lemma isspace_lower_c c : isspace (lower_c c) = isspace c.
Proof. by_cases c. Qed.
Lemma isspace_upper_c c : isspace (upper_c c) = isspace c.
Proof. by_cases c. Qed.
Lemma isupper_lower_c c : isupper (lower_c c) = false.
Proof. by_cases c. Qed.
Lemma lower_c_idem c : lower_c (lower_c c) = lower_c c.
Proof. by_cases c. Qed.
Lemma upper_c_idem c : upper_c (upper_c c) = upper_c c.
Proof. by_cases c. Qed.
Lemma lower_upper_c c : lower_c (upper_c c) = lower_c c.
Proof. by_cases c. Qed.
Lemma upper_lower_c c : upper_c (lower_c c) = upper_c c.
Proof. by_cases c. Qed.
Lemma lower_c_cases c : lower_c c = c ∨ upper_c (lower_c c) = c.
Proof. by_cases c. Qed.

Lemma lower_idem s : lower (lower s) = lower s.
Proof. unfold lower. rewrite map_map. apply map_ext, lower_c_idem. Qed.
Lemma lower_upper s : lower (upper s) = lower s.
Proof. unfold lower, upper. rewrite map_map. apply map_ext, lower_upper_c. Qed.
Lemma lower_app a b : lower (a ++ b) = lower a ++ lower b.
Proof. apply map_app. Qed.
Lemma lower_length s : length (lower s) = length s.
Proof. apply length_map. Qed.
Lemma lower_rev s : lower (rev s) = rev (lower s).
Proof. unfold lower. by rewrite map_rev. Qed.

Lemma lstrip_lower s : lstrip (lower s) = lower (lstrip s).
Proof.
induction s as [|c r IH]; [done|]. cbn. rewrite isspace_lower_c.
by destruct (isspace c).
Qed.

Lemma strip_lower s : strip (lower s) = lower (strip s).
Proof.
unfold strip, rstrip. by rewrite lstrip_lower, <- lower_rev, lstrip_lower, lower_rev.
Qed.

End CharFacts.

Module TitleFacts.
Import PyStr Names Cleanup PyStrFacts CharFacts.

Definition starts_solid (s : str) : Prop :=
match s with [] => True | c :: _ => isspace c = false end.

(** No blank at either end. *)
Definition trimmed (s : str) : Prop := starts_solid s ∧ starts_solid (rev s).

Lemma starts_solid_lstrip s : starts_solid s → lstrip s = s.
Proof. destruct s as [|c r]; [done|]. cbn. by intros ->. Qed.

Lemma ends_solid_rstrip s : starts_solid (rev s) → rstrip s = s.
Proof. intros H. unfold rstrip. by rewrite starts_solid_lstrip, rev_involutive. Qed.

Lemma strip_trimmed s : trimmed s → strip s = s.
Proof.
intros [H1 H2]. unfold strip. rewrite starts_solid_lstrip by done.
by apply ends_solid_rstrip.
Qed.

Lemma trimmed_strip x : trimmed (strip x).
Proof.
unfold strip. split.
- pose proof (lstrip_starts x) as H. destruct (lstrip x) as [|c r]; [done|].
  rewrite rstrip_cons. by destruct (forallb isspace (c :: r)).
- unfold rstrip. rewrite rev_involutive. apply lstrip_starts.
Qed.

Lemma trimmed_iff s : trimmed s ↔ strip s = s.
Proof. split; [apply strip_trimmed|]. intros <-. apply trimmed_strip. Qed.

Lemma lstrip_suffix s : lstrip s `suffix_of` s.
Proof.
induction s as [|c r IH]; [done|]. cbn. destruct (isspace c); [|done].
by apply suffix_cons_r.
Qed.

Lemma ends_solid_app a b : b ≠ [] → starts_solid (rev (a ++ b)) → starts_solid (rev b).
Proof.
intros Hb. rewrite rev_app_distr. destruct (rev b) as [|c r] eqn:E; [|done].
apply (f_equal (@rev _)) in E. rewrite rev_involutive in E. done.
Qed.

Lemma lstrip_ends_solid d :
d ≠ [] → starts_solid (rev d) → lstrip d ≠ [] ∧ starts_solid (rev (lstrip d)).
Proof.
intros Hd Hs. destruct (rev d) as [|c r] eqn:E.
{ apply (f_equal (@rev _)) in E. rewrite rev_involutive in E. done. }
apply (f_equal (@rev _)) in E. rewrite rev_involutive in E. cbn in E. subst d.
cbn in Hs. rewrite lstrip_snoc, Hs.
destruct (forallb isspace (rev r)).
- split; [done|]. done.
- split; [by destruct (lstrip (rev r))|]. by rewrite rev_app_distr.
Qed.

(** What is left of a trimmed string after its first [n] characters
    are cut and the rest is trimmed again. *)
Lemma strip_drop_trimmed s n :
trimmed s → n < length s →
strip (drop n s) ≠ [] ∧ strip (drop n s) `suffix_of` s
∧ length (strip (drop n s)) ≤ length s - n.
Proof.
intros [_ H2] Hn.
assert (drop n s ≠ []) as Hd.
{ intros E. apply (f_equal length) in E. rewrite length_drop in E. cbn in E. lia. }
assert (starts_solid (rev (drop n s))) as Hs.
{ apply (ends_solid_app (take n s)); [done|]. by rewrite take_drop. }
destruct (lstrip_ends_solid _ Hd Hs) as [Hne Hse].
assert (strip (drop n s) = lstrip (drop n s)) as ->
  by (unfold strip; by apply ends_solid_rstrip).
split; [done|].
assert (lstrip (drop n s) `suffix_of` drop n s) as Hsuf by apply lstrip_suffix.
split.
- etrans; [exact Hsuf|]. apply suffix_drop.
- apply suffix_length in Hsuf. rewrite length_drop in Hsuf. lia.
Qed.

(** A title prefix ends in a blank. *)
Definition title_like (p : str) : Prop := ∃ p0, p = p0 ++ [" "%char].

Definition ends_blank (p : str) : bool :=
match rev p with
| c :: _ => bool_decide (c = " "%char)
| [] => false
end.

Lemma ends_blank_title_like p : ends_blank p = true → title_like p.
Proof.
unfold ends_blank. destruct (rev p) as [|c r] eqn:E; [done|].
intros ->%bool_decide_eq_true. exists (rev r).
apply (f_equal (@rev _)) in E. by rewrite rev_involutive in E.
Qed.

Lemma titles_like : Forall title_like TITLE_PREFIXES.
Proof.
apply Forall_forall. intros p Hp. apply ends_blank_title_like.
assert (forallb ends_blank TITLE_PREFIXES = true) as H by (vm_compute; reflexivity).
rewrite forallb_forall in H. apply H. by apply list_elem_of_In.
Qed.

Lemma startswith_app s p : startswith s p = true → s = p ++ drop (length p) s.
Proof.
revert s. induction p as [|a p IH]; intros s; [done|]. destruct s as [|b s]; [done|].
cbn. intros [->%bool_decide_eq_true H]%andb_true_iff. f_equal. by apply IH.
Qed.

Lemma title_shorter s p :
trimmed s → title_like p → startswith (lower s) p = true → length p < length s.
Proof.
intros [_ Hs] [p0 ->] H. apply startswith_app in H.
assert (length (p0 ++ [" "%char]) ≤ length s) as Hle.
{ rewrite <- (lower_length s), H, !length_app. lia. }
destruct (decide (length (p0 ++ [" "%char]) = length s)) as [E|E]; [|lia].
exfalso. rewrite drop_ge in H by (rewrite lower_length; lia).
rewrite app_nil_r in H. apply (f_equal (@rev _)) in H.
rewrite <- lower_rev, rev_app_distr in H. cbn in H.
destruct (rev s) as [|c r]; [done|]. cbn in H, Hs. injection H as Hc _.
rewrite <- isspace_lower_c, Hc in Hs. done.
Qed.

(** The body of the [for] loop of [strip_titles]. *)
Definition title_step : str * bool → str → str * bool :=
fun '(s, changed) prefix =>
  if startswith (lower s) prefix
  then (strip (drop (length prefix) s), true)
  else (s, changed).

Lemma strip_pass_eq s : strip_pass s = fold_left title_step TITLE_PREFIXES (s, false).
Proof. reflexivity. Qed.

Lemma title_steps ps : ∀ s0 c0,
Forall title_like ps → trimmed s0 →
let res := fold_left title_step ps (s0, c0) in
trimmed res.1 ∧ res.1 `suffix_of` s0 ∧ (s0 ≠ [] → res.1 ≠ [])
∧ (res.2 = false →
   c0 = false ∧ res.1 = s0 ∧ Forall (fun p => startswith (lower s0) p = false) ps)
∧ (res.2 = true → c0 = true ∨ length res.1 < length s0).
Proof.
induction ps as [|p ps IH]; intros s0 c0 Hps Ht; cbn [fold_left].
- cbn [fst snd]. split; [done|]. split; [done|]. split; [done|].
  split; [by intros ->|]. intros ->. by left.
- apply Forall_cons in Hps as [Hp Hps]. change (title_step (s0, c0) p) with
    (if startswith (lower s0) p then (strip (drop (length p) s0), true) else (s0, c0)).
  destruct (startswith (lower s0) p) eqn:E.
  + pose proof (title_shorter s0 p Ht Hp E) as Hlen.
    destruct (strip_drop_trimmed s0 (length p) Ht Hlen) as (Hne & Hsuf & Hle).
    destruct (IH (strip (drop (length p) s0)) true Hps (trimmed_strip _))
      as (I1 & I2 & I3 & I4 & I5).
    cbv zeta in I1, I2, I3, I4, I5 |- *.
    split; [done|]. split; [by etrans|]. split; [intros _; by apply I3|].
    split; [by intros [? _]%I4|].
    intros _. right. apply suffix_length in I2.
    assert (0 < length p) by (destruct Hp as [p0 ->]; rewrite length_app; cbn; lia). lia.
  + destruct (IH s0 c0 Hps Ht) as (I1 & I2 & I3 & I4 & I5).
    cbv zeta in I1, I2, I3, I4, I5 |- *.
    split; [done|]. split; [done|]. split; [done|]. split; [|done].
    intros (-> & -> & HF)%I4. split; [done|]. split; [done|]. by constructor.
Qed.

Lemma strip_loop_spec fuel : ∀ s,
trimmed s → length s < fuel →
let r := strip_loop fuel s in
trimmed r ∧ r `suffix_of` s ∧ (s ≠ [] → r ≠ []) ∧ strip_pass r = (r, false).
Proof.
induction fuel as [|fuel IH]; intros s Ht Hlen; [lia|]. cbn [strip_loop].
destruct (title_steps TITLE_PREFIXES s false titles_like Ht) as (I1 & I2 & I3 & I4 & I5).
cbv zeta in I1, I2, I3, I4, I5. rewrite <- strip_pass_eq in I1, I2, I3, I4, I5.
destruct (strip_pass s) as [s' changed] eqn:E. cbn [fst snd] in I1, I2, I3, I4, I5.
destruct changed.
- destruct (I5 eq_refl) as [?|Hs]; [done|].
  destruct (IH s' I1 ltac:(lia)) as (J1 & J2 & J3 & J4). cbv zeta in J1, J2, J3, J4 |- *.
  split; [done|]. split; [by etrans|]. split; [|done]. intros H. by apply J3, I3.
- destruct (I4 eq_refl) as (_ & -> & _). cbv zeta. by rewrite E.
Qed.

Lemma strip_pass_no_title r : strip_pass r = (r, false) → trimmed r → has_title r = false.
Proof.
intros E Ht.
destruct (title_steps TITLE_PREFIXES r false titles_like Ht) as (_ & _ & _ & I4 & _).
cbv zeta in I4. rewrite <- strip_pass_eq, E in I4. destruct (I4 eq_refl) as (_ & _ & HF).
unfold has_title. apply not_true_is_false. intros (p & Hp & Hs)%existsb_exists.
rewrite Forall_forall in HF. rewrite HF in Hs; [done|]. by apply list_elem_of_In.
Qed.

Lemma strip_titles_spec name :
let r := strip_titles name in
trimmed r ∧ r `suffix_of` strip name ∧ (strip name ≠ [] → r ≠ [])
∧ strip_pass r = (r, false).
Proof.
unfold strip_titles. apply strip_loop_spec; [apply trimmed_strip|lia].
Qed.

Lemma strip_titles_fixed r : trimmed r → strip_pass r = (r, false) → strip_titles r = r.
Proof.
intros Ht E. unfold strip_titles. rewrite (strip_trimmed r Ht). cbn [strip_loop].
by rewrite E.
Qed.

End TitleFacts.

Import PyStr Names Cleanup PyStrFacts CharFacts TitleFacts.

(** X9: [strip_titles] leaves no title.  Its result starts with none of
    the title prefixes (letter case aside), has no blank at either end and
    is what remains at the end of the trimmed input; a name that is not
    blank never becomes empty; and stripping again changes nothing. *)
Theorem strip_titles_leaves_no_title (name : str) :
  let r := strip_titles name in
  has_title r = false
  ∧ strip r = r
  ∧ r `suffix_of` strip name
  ∧ (strip name ≠ [] → r ≠ [])
  ∧ strip_titles r = r.
Proof.
  destruct (strip_titles_spec name) as (H1 & H2 & H3 & H4). cbv zeta in *.
  split; [by apply strip_pass_no_title|]. split; [by apply strip_trimmed|].
  split; [done|]. split; [done|]. by apply strip_titles_fixed.
Qed.

(** ** The expanded noise filter *)

Module NoiseFacts.
Import PyStr Re Names Cleanup Store Merge PyStrFacts ResolverFacts RegistryFacts CharFacts
       TitleFacts EngineFacts.

(** The spellings of a lowercase word: each letter in either case. *)
Fixpoint variants (w : str) : list str :=
match w with
| [] => [[]]
| c :: r => flat_map (fun v => [c :: v; upper_c c :: v]) (variants r)
end.

Lemma lower_variants s : In s (variants (lower s)).
Proof.
induction s as [|c r IH]; [by left|]. cbn. apply in_flat_map. exists r. split; [done|].
destruct (lower_c_cases c) as [E|E]; rewrite E; [by left|right; by left].
Qed.

Lemma protected_pass_base :
forallb (fun w => forallb (fun v => negb (is_noise_entity_name v)) (variants w))
        PROTECTED_SINGLE_WORDS = true.
Proof. vm_compute. reflexivity. Qed.

Lemma protected_not_base s :
lower s ∈ PROTECTED_SINGLE_WORDS → is_noise_entity_name s = false.
Proof.
intros H%list_elem_of_In. pose proof protected_pass_base as P.
rewrite forallb_forall in P. specialize (P _ H). rewrite forallb_forall in P.
specialize (P s (lower_variants s)). by apply negb_true_iff in P.
Qed.

Lemma mem_true x l : mem x l = true ↔ x ∈ l.
Proof. unfold mem. apply bool_decide_eq_true. Qed.

Lemma lowered_trimmed name : strip (lower (strip name)) = lower (strip name).
Proof. by rewrite strip_lower, strip_idem. Qed.

End NoiseFacts.

Import PyStr Re Names Cleanup Store Merge PyStrFacts ResolverFacts RegistryFacts CharFacts
       TitleFacts EngineFacts NoiseFacts.

(** X10: a name that is one of the protected single words (Harvard,
    MIT, Iran, ...) in any letter case and with any blanks around it is
    never noise for [is_expanded_noise]; so [find_noise_entities] lists no
    entity with such a name, neither for deletion nor for flagging. *)
Theorem protected_names_are_never_noise (name : str) :
  lower (strip name) ∈ PROTECTED_SINGLE_WORDS →
  is_expanded_noise name = false
  ∧ ∀ (d : db) (cid reason : str),
      ((cid, name, reason) ∉ fst (find_noise_entities d))
      ∧ ((cid, name, reason) ∉ snd (find_noise_entities d)).
Proof.
  intros Hp.
  assert (is_expanded_noise name = false) as Hno.
  { pose proof (protected_not_base (strip name) Hp) as Hb.
    destruct (not_noise_nonempty _ Hb) as (Hs & _ & _).
    unfold is_expanded_noise.
    rewrite (proj2 (nonempty_true _) (strip_nil_inv _ Hs)), (proj2 (nonempty_true _) Hs).
    cbn [negb orb]. rewrite Hb, lowered_trimmed.
    by rewrite (proj2 (mem_true _ _) Hp). }
  split; [done|]. intros d cid reason.
  split; intros (ce & _ & (Hn & _ & [= _ -> _]) & _)%find_noise_entities_spec; congruence.
Qed.

Lemma protected_names_are_never_noise_witness :
  is_expanded_noise " MIT " = false
  ∧ ∀ (d : db) (cid reason : str),
      ((cid, " MIT " : str, reason) ∉ fst (find_noise_entities d))
      ∧ ((cid, " MIT " : str, reason) ∉ snd (find_noise_entities d)).
Proof.
  apply (protected_names_are_never_noise " MIT "). vm_compute.
  do 17 right. left.
Defined.

(** X11: every name without blanks around it that [is_expanded_noise]
    rejects gets a specific reason from [_classify_noise]; the catch-all
    "expanded_noise" is never the answer for it. *)
Theorem noise_reason_is_specific (name : str) :
  strip name = name →
  is_expanded_noise name = true →
  _classify_noise name ≠ ("expanded_noise" : str).
Proof.
  intros Hs Hn Hc. unfold _classify_noise in Hc. rewrite Hs in Hc.
  destruct (mem (lower name) EXPANDED_NOISE_EXACT) eqn:C1; [done|].
  destruct (negb (has_char " " name) && mem (lower name) NOISE_FIRST_NAMES) eqn:C2; [done|].
  destruct (endswith name " ?" || endswith name "?") eqn:C3; [done|].
  destruct (is_noise_entity_name name) eqn:C4; [done|].
  destruct (find _ EXPANDED_NOISE_PATTERNS) as [pat|] eqn:C5; [done|].
  apply orb_false_iff in C3 as [C3 C3'].
  unfold is_expanded_noise in Hn. rewrite Hs in Hn.
  destruct (not_noise_nonempty _ C4) as (Hne & _ & _).
  rewrite (proj2 (nonempty_true _) Hne) in Hn. cbn [negb orb] in Hn.
  rewrite C4, Hs, strip_lower, Hs, C1, C2, C3, C3' in Hn. cbn [andb orb] in Hn.
  destruct (mem (lower name) PROTECTED_SINGLE_WORDS); [done|].
  apply existsb_exists in Hn as (pat & Hin & Hm).
  eapply find_none in C5; [|exact Hin]. cbn in C5. congruence.
Qed.

Lemma noise_reason_is_specific_witness :
  _classify_noise "Roger ?" ≠ ("expanded_noise" : str).
Proof.
  apply noise_reason_is_specific; vm_compute; reflexivity.
Defined.

(** X12: [pick_survivor_name] returns one of its two arguments, and when
    exactly one of them starts with a title it returns the other one. *)
Theorem pick_survivor_name_prefers_untitled (name_a name_b : str) :
  (pick_survivor_name name_a name_b = name_a ∨ pick_survivor_name name_a name_b = name_b)
  ∧ (has_title name_a ≠ has_title name_b →
     has_title (pick_survivor_name name_a name_b) = false).
Proof.
  split.
  - unfold pick_survivor_name. destruct (negb _); [by left|by right].
  - intros H. unfold pick_survivor_name, score, triple_ltb.
    by destruct (has_title name_a) eqn:Ha, (has_title name_b) eqn:Hb.
Qed.

Lemma pick_survivor_name_prefers_untitled_witness :
  has_title (pick_survivor_name "MR. LARRY VISOSKI" "Larry Visoski") = false.
Proof.
  apply (proj2 (pick_survivor_name_prefers_untitled "MR. LARRY VISOSKI" "Larry Visoski")).
  vm_compute. discriminate.
Defined.

(** ** Neighbourhoods, and the noise phase run twice *)

Module GraphMoreFacts.
Import PyStr PySort Json Cleanup Store Merge ConsolidateFacts EngineFacts NoisePhaseFacts.

(** [r] joins [cid] and [x]. *)
Definition joins (cid x : str) (r : relationship) : Prop :=
(source_entity_id r = cid ∧ target_entity_id r = x)
∨ (source_entity_id r = x ∧ target_entity_id r = cid).

Definition neighbor_step (cid : str) (neighbors : gset str) (r : relationship) : gset str :=
let neighbors :=
  if bool_decide (source_entity_id r ≠ cid) then neighbors ∪ {[source_entity_id r]}
  else neighbors in
if bool_decide (target_entity_id r ≠ cid) then neighbors ∪ {[target_entity_id r]}
else neighbors.

Lemma neighbor_step_spec cid acc r x :
touches cid r = true →
x ∈ neighbor_step cid acc r ↔ x ∈ acc ∨ (x ≠ cid ∧ joins cid x r).
Proof.
unfold touches, neighbor_step, joins. intros Ht.
destruct (decide (source_entity_id r = cid)) as [Hs|Hs],
         (decide (target_entity_id r = cid)) as [Hg|Hg].
- rewrite (bool_decide_false (source_entity_id r ≠ cid)) by tauto.
  rewrite (bool_decide_false (target_entity_id r ≠ cid)) by tauto.
  split; [tauto|]. intros [?|[Hx [[_ H]|[H _]]]]; congruence.
- rewrite (bool_decide_false (source_entity_id r ≠ cid)) by tauto.
  rewrite (bool_decide_true (target_entity_id r ≠ cid)) by done.
  rewrite elem_of_union, elem_of_singleton. split.
  + intros [?|E]; [by left|]. right. subst x. split; [done|by left].
  + intros [?|[Hx [[_ H]|[H _]]]]; [by left|by right|congruence].
- rewrite (bool_decide_true (source_entity_id r ≠ cid)) by done.
  rewrite (bool_decide_false (target_entity_id r ≠ cid)) by tauto.
  rewrite elem_of_union, elem_of_singleton. split.
  + intros [?|E]; [by left|]. right. subst x. split; [done|by right].
  + intros [?|[Hx [[H _]|[H _]]]]; [by left|congruence|by right].
- rewrite (bool_decide_false (source_entity_id r = cid)) in Ht by done.
  rewrite (bool_decide_false (target_entity_id r = cid)) in Ht by done. done.
Qed.

Lemma neighbor_fold cid l : ∀ acc x,
(∀ r, r ∈ l → touches cid r = true) →
x ∈ fold_left (neighbor_step cid) l acc
↔ x ∈ acc ∨ (x ≠ cid ∧ ∃ r, r ∈ l ∧ joins cid x r).
Proof.
induction l as [|r l IH]; intros acc x Hl; cbn [fold_left].
- split; [tauto|]. intros [?|(_ & r & ?%elem_of_nil & _)]; done.
- rewrite IH by (intros r' Hr'; apply Hl; by right).
  rewrite neighbor_step_spec by (apply Hl; by left). split.
  + intros [[?|[Hx Hj]]|(Hx & r' & Hr' & Hj)]; [by left| |].
    * right. split; [done|]. exists r. split; [by left|done].
    * right. split; [done|]. exists r'. split; [by right|done].
  + intros [?|(Hx & r' & [-> |Hr']%elem_of_cons & Hj)]; [by left; left| |].
    * left. right. done.
    * right. split; [done|]. by exists r'.
Qed.

Lemma joins_touches cid x r : joins cid x r → touches cid r = true.
Proof.
unfold touches. intros [[H _]|[_ H]]; apply orb_true_iff; [left|right];
  by apply bool_decide_eq_true.
Qed.

Lemma get_neighbors_spec d cid x :
x ∈ _get_neighbors d cid ↔ x ≠ cid ∧ ∃ r, r ∈ relationships d ∧ joins cid x r.
Proof.
unfold _get_neighbors. change (fold_left _ (edges_of d cid) ∅)
  with (fold_left (neighbor_step cid) (edges_of d cid) ∅).
rewrite neighbor_fold by (by intros r [? _]%list_elem_of_filter).
rewrite elem_of_empty. split.
- intros [[]|(Hx & r & [_ Hr]%list_elem_of_filter & Hj)]. split; [done|]. by exists r.
- intros (Hx & r & Hr & Hj). right. split; [done|]. exists r. split; [|done].
  apply list_elem_of_filter. split; [by eapply joins_touches|done].
Qed.

(** *** The entities that survive the deletions of phase 1 *)

Lemma delete_all_entities now_iso l : ∀ cur,
canonical_entities (delete_all now_iso l cur)
= filter (fun e => canonical_id e ∉ (fun t : str * str * str => t.1.1) <$> l)
         (canonical_entities cur).
Proof.
induction l as [|[[cid name] reason] l IH]; intros cur.
- cbn. symmetry. apply filter_all. intros e. apply not_elem_of_nil.
- cbn [delete_all fold_left]. change (fold_left _ l ?c) with (delete_all now_iso l c).
  rewrite IH.
  destruct (delete_noise_entity_effect now_iso cur cid name reason) as (E1 & _).
  cbv zeta in E1. rewrite E1. unfold delete_where. rewrite list_filter_filter.
  apply list_filter_iff. intros e. unfold has_id. cbn [fmap list_fmap fst].
  rewrite bool_decide_eq_false, not_elem_of_cons. tauto.
Qed.

Lemma flagged_already row :
flagged row →
already_flagged {| canonical_name := row_name row;
                   aliases := default [] (row_aliases row);
                   entity_type := row_type row;
                   metadata := default ∅ (row_metadata row) |} = true.
Proof.
intros (m & Hm & Hk). unfold already_flagged. cbn [metadata]. rewrite Hm. cbn [default].
unfold flag_key in Hk. unfold id. by rewrite Hk.
Qed.

Lemma registry_rows d ce :
ce ∈ load_canonical_registry d →
∃ row, row ∈ canonical_entities d
       ∧ ce = (canonical_id row,
               {| canonical_name := row_name row;
                  aliases := default [] (row_aliases row);
                  entity_type := row_type row;
                  metadata := default ∅ (row_metadata row) |}).
Proof.
unfold load_canonical_registry. change (map ?f ?l) with (f <$> l).
intros (row & -> & Hrow)%list_elem_of_fmap. by exists row.
Qed.

Lemma noise_found_nothing now_iso d x :
(x ∉ fst (find_noise_entities (phase_noise now_iso d false)))
∧ (x ∉ snd (find_noise_entities (phase_noise now_iso d false))).
Proof.
assert (∀ ce, ce ∈ load_canonical_registry (phase_noise now_iso d false) →
              is_expanded_noise (canonical_name ce.2) = true →
              already_flagged ce.2 = false → False) as Hno.
{ intros ce (row & Hrow & ->)%registry_rows Hn Hf. cbn [fst snd canonical_name] in Hn, Hf.
  rewrite phase_noise_steps in Hrow.
  destruct (flag_all_effect now_iso (find_noise_entities d).2
              (delete_all now_iso (find_noise_entities d).1 d)) as (_ & _ & _ & _ & E5).
  cbv zeta in E5. apply E5 in Hrow as [[_ Hfl]|[Hnf Hrow]].
  { by rewrite flagged_already in Hf. }
  rewrite delete_all_entities in Hrow. apply list_elem_of_filter in Hrow as [Hnd Hrow].
  set (e := {| canonical_name := row_name row; aliases := default [] (row_aliases row);
               entity_type := row_type row; metadata := default ∅ (row_metadata row) |}) in *.
  assert ((canonical_id row, e) ∈ load_canonical_registry d) as Hce.
  { unfold load_canonical_registry. change (map ?f ?l) with (f <$> l).
    apply list_elem_of_fmap. by exists row. }
  set (x0 := (canonical_id row, canonical_name e, _classify_noise (canonical_name e))).
  destruct (le_lt_dec (_get_prominence d (canonical_id row)) 50) as [Hp|Hp].
  - apply Hnd. apply list_elem_of_fmap. exists x0. split; [done|].
    apply find_noise_entities_spec. exists (canonical_id row, e). by repeat split.
  - apply Hnf. apply list_elem_of_fmap. exists x0. split; [done|].
    apply find_noise_entities_spec. exists (canonical_id row, e). by repeat split. }
split; intros (ce & Hce & (Hn & Hf & _) & _)%find_noise_entities_spec; by eapply Hno.
Qed.

End GraphMoreFacts.

Import PyStr PySort Json Cleanup Store Merge ConsolidateFacts EngineFacts NoisePhaseFacts
       GraphMoreFacts.

(** X13: [_get_neighbors] returns exactly the other endpoints of the
    relationships of an entity: never the entity itself, and [x] is a
    neighbour of [y] precisely when [y] is a neighbour of [x]. *)
Theorem get_neighbors_symmetric (d : db) (x y : str) :
  (x ∈ _get_neighbors d y ↔
     x ≠ y ∧ ∃ r, r ∈ relationships d
                  ∧ ((source_entity_id r = y ∧ target_entity_id r = x)
                     ∨ (source_entity_id r = x ∧ target_entity_id r = y)))
  ∧ (x ∈ _get_neighbors d y ↔ y ∈ _get_neighbors d x)
  ∧ (x ∉ _get_neighbors d x).
Proof.
  split; [apply get_neighbors_spec|]. split.
  - rewrite !get_neighbors_spec. unfold joins. split.
    + intros (Hx & r & Hr & Hj). split; [done|]. exists r. tauto.
    + intros (Hx & r & Hr & Hj). split; [done|]. exists r. tauto.
  - rewrite get_neighbors_spec. tauto.
Qed.

(** X14: phase 1 of [main] reaches a fixed point in one run: after it
    [find_noise_entities] finds nothing, neither to delete nor to flag, so
    a second run of the phase leaves the store as it is. *)
Theorem noise_phase_is_a_fixpoint (now_iso later : str) (d : db) :
  find_noise_entities (phase_noise now_iso d false) = ([], [])
  ∧ phase_noise later (phase_noise now_iso d false) false = phase_noise now_iso d false.
Proof.
  assert (find_noise_entities (phase_noise now_iso d false) = ([], [])) as E.
  { destruct (find_noise_entities (phase_noise now_iso d false)) as [l1 l2] eqn:E.
    f_equal; apply elem_of_nil_inv; intros x;
      pose proof (noise_found_nothing now_iso d x) as [H1 H2]; rewrite E in H1, H2; done. }
  split; [done|]. unfold phase_noise at 1. by rewrite E.
Qed.

Lemma phase_noise_outcome_witness :
  let edges := map (fun k => Rel (Z.of_nat k) "PER-00007" "PER-00008" "associate" None None)
                   (List.seq 1 51) in
  let d : db :=
    Db [EntityRow "PER-00007" "person" "Unknown Person" None None "t";
        EntityRow "PER-00008" "person" "Larry Visoski" None None "t";
        EntityRow "PER-00009" "person" "The Court" None None "t"]
       (Rel 0 "PER-00009" "PER-00008" "associate" None None :: edges) [] [] [] in
  ("PER-00009" : str) ∉ canonical_id <$> canonical_entities (phase_noise "now" d false).
Proof.
  intros edges d.
  assert (NoDup (relationship_id <$> relationships d)) as Hnd.
  { apply NoDup_ListNoDup. vm_compute. repeat (constructor; [cbn; intuition discriminate|]).
    constructor. }
  destruct (phase_noise_outcome "now" d Hnd) as [H _].
  apply (H "PER-00009" "The Court" (_classify_noise "The Court")).
  vm_compute. left.
Defined.

(** ** Referential integrity of the store *)

Module IntegrityFacts.
Import PyStr PySort Json Cleanup Store Common Merge ConsolidateFacts EngineFacts
       NoisePhaseFacts BatchFacts.

Definition rel_ids (d : db) : list Z := relationship_id <$> relationships d.

(** Every provenance row belongs to a relationship. *)
Definition sources_ok (d : db) : Prop :=
∀ s, s ∈ relationship_sources d → of_relationship s ∈ rel_ids d.

(** The foreign keys of [create_db.py] hold, and relationship ids are
    distinct. *)
Definition intact (d : db) : Prop :=
NoDup (rel_ids d)
∧ (∀ r, r ∈ relationships d →
     source_entity_id r ∈ ids_of d ∧ target_entity_id r ∈ ids_of d)
∧ sources_ok d
∧ (∀ l, l ∈ entity_resolution_log d → resolved_to l ∈ ids_of d).

Lemma exists_id_true d x : exists_id d x = true ↔ x ∈ ids_of d.
Proof.
unfold exists_id, ids_of. rewrite existsb_exists, list_elem_of_fmap. split.
- intros (e & He & Hid). exists e. apply bool_decide_eq_true in Hid.
  split; [done|by apply list_elem_of_In].
- intros (e & -> & He). exists e. split; [by apply list_elem_of_In|].
  by apply bool_decide_eq_true.
Qed.

Lemma intact_orphaned d : intact d → orphaned d = 0.
Proof.
intros (_ & H & _). unfold orphaned.
match goal with |- length ?l = 0 => assert (l = []) as ->; [|done] end.
apply elem_of_nil_inv. intros r [E Hr]%list_elem_of_filter.
apply orb_true_iff in E as [E|E]; apply negb_true_iff in E;
  destruct (H r Hr) as [H1 H2].
- apply exists_id_true in H1. congruence.
- apply exists_id_true in H2. congruence.
Qed.

Lemma elem_of_update_where {A} (p : A → bool) (f : A → A) (t : list A) (y : A) :
y ∈ update_where p f t ↔ ∃ x, x ∈ t ∧ y = if p x then f x else x.
Proof.
unfold update_where. change (map ?g ?l) with (g <$> l). rewrite list_elem_of_fmap.
split; intros (x & H1 & H2); exists x; done.
Qed.

Lemma rel_ids_update p f (t : list relationship) :
(∀ r, relationship_id (f r) = relationship_id r) →
relationship_id <$> update_where p f t = relationship_id <$> t.
Proof.
intros Hf. unfold update_where. change (map ?g ?l) with (g <$> l).
rewrite <- list_fmap_compose. apply list_fmap_ext. intros _ r _. cbn.
destruct (p r); [apply Hf|done].
Qed.

Lemma rel_ids_delete k (t : list relationship) x :
x ∈ relationship_id <$> delete_where (rel_is k) t
↔ x ∈ relationship_id <$> t ∧ x ≠ k.
Proof.
unfold delete_where, rel_is. rewrite !list_elem_of_fmap. split.
- intros (r & -> & [Hk Hr]%list_elem_of_filter). apply bool_decide_eq_false in Hk.
  split; [by exists r|done].
- intros [(r & -> & Hr) Hk]. exists r. split; [done|].
  apply list_elem_of_filter. split; [by apply bool_decide_eq_false|done].
Qed.

Lemma rel_ids_filter (P : relationship → Prop) `{∀ r, Decision (P r)} d :
NoDup (rel_ids d) → NoDup (relationship_id <$> filter P (relationships d)).
Proof.
intros H0.
assert ((relationship_id <$> filter P (relationships d)) `sublist_of` rel_ids d) as Hsub
  by (apply fmap_sublist, sublist_filter).
eauto using sublist_NoDup.
Qed.

Section Ops.
Variable set_order : list str → list str.
Variable now_iso : str.

(** *** The noise operations *)

Lemma delete_noise_entity_intact d cid name reason dry_run :
intact d → intact (delete_noise_entity now_iso d cid name reason dry_run).2.
Proof.
intros (I1 & I2 & I3 & I4). destruct dry_run; [done|].
destruct (delete_noise_entity_effect now_iso d cid name reason) as (E1 & E2 & E3 & E4).
cbv zeta in E1, E2, E3, E4.
assert (∀ r, r ∈ relationships d →
             relationship_id r ∉ map relationship_id (edges_of d cid) →
             source_entity_id r ≠ cid ∧ target_entity_id r ≠ cid) as Hfar.
{ intros r Hr Hn. destruct (touches cid r) eqn:T.
  - exfalso. apply Hn. change (map ?f ?l) with (f <$> l). apply list_elem_of_fmap_2.
    by apply list_elem_of_filter.
  - unfold touches in T. apply orb_false_iff in T as [T1 T2].
    by apply bool_decide_eq_false in T1, T2. }
unfold intact, sources_ok, rel_ids, ids_of. rewrite E1, E2, E3, E4.
split; [by apply rel_ids_filter|]. split; [|split].
- intros r [Hn Hr]%list_elem_of_filter. destruct (Hfar r Hr Hn) as [F1 F2].
  destruct (I2 r Hr) as [J1 J2]. rewrite !ids_delete. done.
- intros s [Hn Hs]%list_elem_of_filter. specialize (I3 s Hs).
  apply list_elem_of_fmap in I3 as (r & E & Hr). apply list_elem_of_fmap. exists r.
  split; [done|]. apply list_elem_of_filter. split; [|done]. by rewrite <- E.
- intros l [Hl Hin]%list_elem_of_filter. apply bool_decide_eq_false in Hl.
  rewrite ids_delete. split; [by apply I4|done].
Qed.

Lemma flag_noise_entity_intact d cid name reason dry_run :
intact d → intact (flag_noise_entity now_iso d cid name reason dry_run).
Proof.
intros (I1 & I2 & I3 & I4). destruct dry_run; [done|].
destruct (flag_noise_entity_effect now_iso d cid name reason) as (E1 & E2 & E3 & _ & E5 & _).
cbv zeta in E1, E2, E3, E5. unfold intact, sources_ok, rel_ids, ids_of.
change (map ?f ?l) with (f <$> l) in E5. by rewrite E1, E2, E3, E5.
Qed.

Lemma fold_intact {A} (f : db → A → db) l :
(∀ d x, intact d → intact (f d x)) → ∀ d, intact d → intact (fold_left f l d).
Proof.
intros Hf. induction l as [|x l IH]; intros d Hd; [done|]. cbn. by apply IH, Hf.
Qed.

Lemma phase_noise_intact d dry_run : intact d → intact (phase_noise now_iso d dry_run).
Proof.
intros Hd. unfold phase_noise. destruct (find_noise_entities d) as [deletable flaggable].
apply fold_intact.
- intros d0 [[cid name] reason]. apply flag_noise_entity_intact.
- apply fold_intact; [|done].
  intros d0 [[cid name] reason]. apply delete_noise_entity_intact.
Qed.

(** *** Consolidation *)

Lemma absorb_edge_sources surv d loser :
sources_ok d → relationship_id surv ∈ rel_ids d →
relationship_id surv ≠ relationship_id loser →
sources_ok (absorb_edge set_order surv d loser)
∧ (∀ x, x ∈ rel_ids (absorb_edge set_order surv d loser)
        ↔ x ∈ rel_ids d ∧ x ≠ relationship_id loser)
∧ entity_resolution_log (absorb_edge set_order surv d loser) = entity_resolution_log d.
Proof.
intros Hs Hin Hne.
assert (∀ x, x ∈ rel_ids (absorb_edge set_order surv d loser)
             ↔ x ∈ rel_ids d ∧ x ≠ relationship_id loser) as Hids.
{ intros x. unfold absorb_edge, rel_ids. cbn -[delete_where update_where].
  by rewrite rel_ids_delete, rel_ids_update. }
split; [|done]. intros s' Hs'. apply Hids.
unfold absorb_edge in Hs'. cbn -[delete_where update_where] in Hs'.
apply elem_of_update_where in Hs' as (s & Hin' & ->).
unfold src_of. case_bool_decide as E; cbn; [done|]. split; [by apply Hs|done].
Qed.

Lemma absorb_edges_sources surv losers : ∀ d,
sources_ok d → relationship_id surv ∈ rel_ids d →
relationship_id surv ∉ relationship_id <$> losers →
let d' := fold_left (absorb_edge set_order surv) losers d in
sources_ok d'
∧ (∀ x, x ∈ rel_ids d' ↔ x ∈ rel_ids d ∧ (x ∉ relationship_id <$> losers))
∧ entity_resolution_log d' = entity_resolution_log d.
Proof.
induction losers as [|l ls IH]; intros d Hs Hin Hne; cbn [fold_left].
- split; [done|]. split; [|done]. intros x. cbn. rewrite elem_of_nil. tauto.
- cbn [fmap list_fmap] in Hne. apply not_elem_of_cons in Hne as [Hne1 Hne2].
  destruct (absorb_edge_sources surv d l Hs Hin Hne1) as (A1 & A2 & A3).
  destruct (IH (absorb_edge set_order surv d l) A1) as (B1 & B2 & B3);
    [by apply A2|done|].
  cbv zeta in B1, B2, B3 |- *. split; [done|]. split; [|congruence].
  intros x. rewrite B2, A2. cbn. rewrite not_elem_of_cons. tauto.
Qed.

(** The row a group keeps, when it has two rows or more. *)
Definition survivor_of (group : list relationship) : option relationship :=
if length group <? 2 then None else head (stable_sort by_weight_desc group).

Lemma consolidate_groups_sources groups : ∀ acc,
sources_ok acc.2 →
(∀ kg surv, kg ∈ groups → survivor_of kg.2 = Some surv →
   relationship_id surv ∈ rel_ids acc.2
   ∧ ∀ kg', kg' ∈ groups → (relationship_id surv ∉ relationship_id <$> losers_of kg'.2)) →
let res := fold_left (consolidate_group set_order) groups acc in
sources_ok res.2
∧ (∀ x, x ∈ rel_ids res.2 ↔ x ∈ rel_ids acc.2 ∧ (x ∉ relationship_id <$> all_losers groups))
∧ entity_resolution_log res.2 = entity_resolution_log acc.2.
Proof.
induction groups as [|kg groups IH]; intros [n d] Hs Hg; cbn [fold_left].
- cbn. split; [done|]. split; [|done]. intros x. rewrite elem_of_nil. tauto.
- assert (let d1 := (consolidate_group set_order (n, d) kg).2 in
          sources_ok d1
          ∧ (∀ x, x ∈ rel_ids d1 ↔ x ∈ rel_ids d ∧ (x ∉ relationship_id <$> losers_of kg.2))
          ∧ entity_resolution_log d1 = entity_resolution_log d) as (A1 & A2 & A3).
  { unfold consolidate_group, losers_of.
    destruct (length kg.2 <? 2) eqn:Hlen.
    { cbn. split; [done|]. split; [|done]. intros x. rewrite elem_of_nil. tauto. }
    destruct (stable_sort by_weight_desc kg.2) as [|surv losers] eqn:Es.
    { cbn. split; [done|]. split; [|done]. intros x. rewrite elem_of_nil. tauto. }
    cbn [tail snd].
    assert (survivor_of kg.2 = Some surv) as Hsv
      by (unfold survivor_of; by rewrite Hlen, Es).
    destruct (Hg kg surv ltac:(by left) Hsv) as [G1 G2].
    apply absorb_edges_sources; [done|done|].
    specialize (G2 kg ltac:(by left)). unfold losers_of in G2. by rewrite Hlen, Es in G2. }
  cbv zeta in A1, A2, A3.
  destruct (consolidate_group set_order (n, d) kg) as [n1 d1]. cbn [snd] in A1, A2, A3.
  destruct (IH (n1, d1) A1) as (B1 & B2 & B3).
  { intros kg2 surv Hin Hsv. destruct (Hg kg2 surv ltac:(by right) Hsv) as [G1 G2]. split.
    - apply A2. split; [done|]. apply G2. by left.
    - intros kg' Hin'. apply G2. by right. }
  cbv zeta in B1, B2, B3 |- *. cbn [snd] in *. split; [done|]. split; [|congruence].
  intros x. rewrite B2, A2. unfold all_losers. cbn. rewrite fmap_app, elem_of_app. tauto.
Qed.

Lemma rows_distinct d : NoDup (rel_ids d) → NoDup (relationships d).
Proof. apply NoDup_fmap_1. Qed.

Lemma group_members d entity_id k g :
(k, g) ∈ group_edges (edges_of d entity_id) →
g = with_key group_key k (edges_of d entity_id)
∧ ∀ r, r ∈ g → r ∈ relationships d ∧ group_key r = k.
Proof.
intros Hg. destruct (grouped_spec group_key (edges_of d entity_id)) as (_ & G1 & _).
change (grouped group_key ?l) with (group_edges l) in G1.
destruct (G1 _ _ Hg) as [-> _]. split; [done|].
intros r [Hk [_ Hr]%list_elem_of_filter]%list_elem_of_filter. done.
Qed.

Lemma consolidate_sources d entity_id :
NoDup (rel_ids d) → sources_ok d →
let d' := (_consolidate_duplicate_relationships set_order d entity_id).2 in
sources_ok d' ∧ entity_resolution_log d' = entity_resolution_log d.
Proof.
intros Hnd Hs. unfold _consolidate_duplicate_relationships.
destruct (consolidate_groups_sources (group_edges (edges_of d entity_id)) (0, d) Hs)
  as (A1 & _ & A3); [|done].
intros [k g] surv Hkg Hsv. cbn [snd] in *.
destruct (group_members d entity_id k g Hkg) as [Eg Hg].
pose proof (stable_sort_perm by_weight_desc g) as Hp.
unfold survivor_of in Hsv. destruct (length g <? 2) eqn:Hlen; [done|].
destruct (stable_sort by_weight_desc g) as [|s ls] eqn:Es; [done|].
injection Hsv as ->.
assert (surv ∈ g) as Hsg by (rewrite <- Hp; by left).
split.
- apply list_elem_of_fmap_2. by apply Hg.
- intros [k' g'] Hkg' (x & Ex & Hx)%list_elem_of_fmap. cbn [snd] in Hx.
  destruct (group_members d entity_id k' g' Hkg') as [Eg' Hg'].
  unfold losers_of in Hx. destruct (length g' <? 2); [by apply elem_of_nil in Hx|].
  pose proof (stable_sort_perm by_weight_desc g') as Hp'.
  assert (x ∈ g') as Hxg.
  { rewrite <- Hp'. destruct (stable_sort by_weight_desc g'); [done|]. by right. }
  assert (x = surv) as ->.
  { eapply same_id_same_row; [exact Hnd|by apply Hg'|by apply Hg|done]. }
  assert (k' = k) as -> by (rewrite <- (proj2 (Hg' _ Hxg)); by apply Hg).
  rewrite <- Eg in Eg'. subst g'. rewrite Es in Hx. cbn [tail] in Hx.
  assert (NoDup (surv :: ls)) as Hn.
  { rewrite Hp, Eg. unfold with_key. apply NoDup_filter, NoDup_filter. by apply rows_distinct. }
  apply NoDup_cons in Hn as [Hn _]. done.
Qed.

Lemma consolidate_intact d entity_id :
intact d → intact (_consolidate_duplicate_relationships set_order d entity_id).2.
Proof.
intros (I1 & I2 & I3 & I4).
destruct (consolidate_sources d entity_id I1 I3) as [S1 S2]. cbv zeta in S1, S2.
destruct (consolidate_tables set_order d entity_id) as [T1 _]. cbv zeta in T1.
pose proof (consolidate_groups_reshaped set_order (group_edges (edges_of d entity_id))
              [] (relationships d) (0, d) (reshaped_refl _)) as (g & Hg & Er).
fold (_consolidate_duplicate_relationships set_order d entity_id) in Er.
unfold intact, ids_of. rewrite T1, S2. split; [|split; [|done]].
- unfold rel_ids. rewrite Er, <- list_fmap_compose.
  rewrite (list_fmap_ext (relationship_id ∘ g) relationship_id)
    by (intros ? r ?; apply sk_id, Hg).
  by apply rel_ids_filter.
- intros r. rewrite Er. intros (r0 & -> & [_ Hr0]%list_elem_of_filter)%list_elem_of_fmap.
  destruct (I2 r0 Hr0) as [J1 J2]. pose proof (Hg r0) as E. unfold sk in E.
  injection E as _ -> -> _. done.
Qed.

(** *** [merge_entity_pair] *)

Lemma consolidate_log d entity_id :
entity_resolution_log (_consolidate_duplicate_relationships set_order d entity_id).2
= entity_resolution_log d.
Proof.
unfold _consolidate_duplicate_relationships.
generalize (group_edges (edges_of d entity_id)). intros groups.
generalize 0. revert d. induction groups as [|kg groups IH]; intros d n; [done|].
cbn [fold_left].
assert (entity_resolution_log (consolidate_group set_order (n, d) kg).2
        = entity_resolution_log d) as E1.
{ unfold consolidate_group. destruct (_ <? 2); [done|].
  destruct (stable_sort _ _) as [|s ls]; [done|]. cbn [snd].
  clear. revert d. induction ls as [|l ls IH]; intros d; [done|].
  cbn [fold_left]. by rewrite IH. }
destruct (consolidate_group set_order (n, d) kg) as [n' d'].
by rewrite IH.
Qed.

(** The store after steps 1 to 3 of a merge: the aliases and the
    metadata of the survivor are written, relationships and log rows are
    repointed. *)
Definition prepared (d : db) (sid aid : str) (survivor absorbed : entity_row)
  (merged_meta : meta) : db :=
Db (update_where (has_id sid)
      (fun e => EntityRow (canonical_id e) (row_type e) (row_name e) (row_aliases e)
                          (Some merged_meta) (last_updated e))
      (update_where (has_id sid)
         (fun e => EntityRow (canonical_id e) (row_type e) (row_name e)
                             (Some (merged_aliases survivor absorbed)) (row_metadata e)
                             now_iso)
         (canonical_entities d)))
   (update_where (fun r => bool_decide (target_entity_id r = aid)) (repoint_target sid)
      (update_where (fun r => bool_decide (source_entity_id r = aid)) (repoint_source sid)
         (relationships d)))
   (relationship_sources d)
   (update_where (fun l => bool_decide (resolved_to l = aid))
      (fun l => Log (resolution_id l) sid (source_entity_name l))
      (entity_resolution_log d))
   (entity_merges d).

Lemma merge_trace d sid aid reason key stats d' survivor absorbed :
fetch_entity d sid = Some survivor → fetch_entity d aid = Some absorbed →
merge_entity_pair set_order now_iso d sid aid reason key false = Some (stats, d') →
∃ merged_meta,
  _merge_metadata (default ∅ (row_metadata survivor)) (default ∅ (row_metadata absorbed))
  = Some merged_meta
  ∧ let d1 := prepared d sid aid survivor absorbed merged_meta in
    let c := _consolidate_duplicate_relationships set_order d1 sid in
    let selfids := map relationship_id
                     (filter (fun r => is_self_ref sid r = true) (relationships c.2)) in
    canonical_entities d' = delete_where (has_id aid) (canonical_entities d1)
    ∧ relationships d' = filter (fun r => relationship_id r ∉ selfids) (relationships c.2)
    ∧ relationship_sources d'
      = filter (fun s => of_relationship s ∉ selfids) (relationship_sources c.2)
    ∧ entity_resolution_log d' = entity_resolution_log d1
    ∧ entity_merges d'
      = entity_merges d ++ [MergeRow sid aid (row_name survivor) (row_name absorbed)
                                     reason key stats now_iso]
    ∧ duplicate_rels_consolidated stats = c.1.
Proof.
intros Es Ea. unfold merge_entity_pair. rewrite Es, Ea.
destruct (_merge_metadata _ _) as [merged_meta|]; [|done]. intros H.
exists merged_meta. split; [done|].
set (d1 := prepared d sid aid survivor absorbed merged_meta).
set (c := _consolidate_duplicate_relationships set_order d1 sid).
set (selfids := map relationship_id
                  (filter (fun r => is_self_ref sid r = true) (relationships c.2))).
change (with_log _ _) with d1 in H. fold c in H.
pose proof (consolidate_tables set_order d1 sid) as [C1 C2]. fold c in C1, C2.
pose proof (consolidate_log d1 sid) as C3. fold c in C3.
destruct c as [n_dups d2] eqn:Ec. cbn [fst snd] in *.
fold selfids in H.
destruct (delete_edges_tables selfids d2) as (D1 & D2 & D3 & D4 & D5).
cbv zeta in D1, D2, D3, D4, D5.
injection H as <- <-. cbn -[delete_where update_where].
rewrite D1, D2, D3, D4, D5, C1, C2, C3. done.
Qed.

Lemma prepared_rel d sid aid survivor absorbed merged_meta r1 :
r1 ∈ relationships (prepared d sid aid survivor absorbed merged_meta) →
∃ r, r ∈ relationships d
     ∧ relationship_id r1 = relationship_id r
     ∧ source_entity_id r1
       = (if bool_decide (source_entity_id r = aid) then sid else source_entity_id r)
     ∧ target_entity_id r1
       = (if bool_decide (target_entity_id r = aid) then sid else target_entity_id r).
Proof.
cbn -[update_where]. intros (x & (r & Hr & ->)%elem_of_update_where & ->)%elem_of_update_where.
exists r. split; [done|].
destruct (bool_decide (source_entity_id r = aid)) eqn:E1; cbn;
  destruct (bool_decide (target_entity_id r = aid)) eqn:E2; cbn; done.
Qed.

Lemma prepared_ids d sid aid survivor absorbed merged_meta :
ids_of (prepared d sid aid survivor absorbed merged_meta) = ids_of d
∧ rel_ids (prepared d sid aid survivor absorbed merged_meta) = rel_ids d.
Proof.
unfold ids_of, rel_ids. cbn -[update_where]. by rewrite !ids_update, !rel_ids_update.
Qed.

(** No row refers to [aid]. *)
Definition clear (aid : str) (d : db) : Prop :=
(∀ r, r ∈ relationships d → source_entity_id r ≠ aid ∧ target_entity_id r ≠ aid)
∧ (∀ l, l ∈ entity_resolution_log d → resolved_to l ≠ aid).

Lemma prepared_intact d sid aid survivor absorbed merged_meta :
intact d → sid ∈ ids_of d → sid ≠ aid →
intact (prepared d sid aid survivor absorbed merged_meta)
∧ clear aid (prepared d sid aid survivor absorbed merged_meta).
Proof.
intros (I1 & I2 & I3 & I4) Hs Hne.
destruct (prepared_ids d sid aid survivor absorbed merged_meta) as [E1 E2].
assert (∀ r1, r1 ∈ relationships (prepared d sid aid survivor absorbed merged_meta) →
              (source_entity_id r1 ∈ ids_of d ∧ target_entity_id r1 ∈ ids_of d)
              ∧ source_entity_id r1 ≠ aid ∧ target_entity_id r1 ≠ aid) as Hr.
{ intros r1 (r & Hin & _ & -> & ->)%prepared_rel. destruct (I2 r Hin) as [J1 J2].
  repeat case_bool_decide; done. }
assert (∀ l1, l1 ∈ entity_resolution_log (prepared d sid aid survivor absorbed merged_meta) →
              resolved_to l1 ∈ ids_of d ∧ resolved_to l1 ≠ aid) as Hl.
{ cbn -[update_where]. intros l1 (l & Hin & ->)%elem_of_update_where.
  case_bool_decide; cbn; [done|]. split; [by apply I4|done]. }
split.
- unfold intact, sources_ok. rewrite E1, E2. split; [done|]. split; [|split].
  + intros r1 Hr1. by apply Hr.
  + done.
  + intros l1 Hl1. by apply Hl.
- split.
  + intros r1 Hr1. by apply Hr.
  + intros l1 Hl1. by apply Hl.
Qed.

Lemma consolidate_clear aid d entity_id :
clear aid d → clear aid (_consolidate_duplicate_relationships set_order d entity_id).2.
Proof.
intros [H1 H2]. split.
- pose proof (consolidate_groups_reshaped set_order (group_edges (edges_of d entity_id))
                [] (relationships d) (0, d) (reshaped_refl _)) as (g & Hg & Er).
  fold (_consolidate_duplicate_relationships set_order d entity_id) in Er.
  intros r. rewrite Er. intros (r0 & -> & [_ Hr0]%list_elem_of_filter)%list_elem_of_fmap.
  pose proof (Hg r0) as E. unfold sk in E. injection E as _ -> -> _. by apply H1.
- rewrite consolidate_log. done.
Qed.

Lemma merge_entity_pair_intact d sid aid reason key dry_run stats d' :
intact d → sid ≠ aid →
merge_entity_pair set_order now_iso d sid aid reason key dry_run = Some (stats, d') →
intact d'.
Proof.
intros Hd Hne H.
destruct (fetch_entity d sid) as [survivor|] eqn:Es.
2:{ unfold merge_entity_pair in H. rewrite Es in H. by injection H as _ <-. }
destruct (fetch_entity d aid) as [absorbed|] eqn:Ea.
2:{ unfold merge_entity_pair in H. rewrite Es, Ea in H. by injection H as _ <-. }
destruct dry_run.
{ rewrite merge_entity_pair_dry_run in H. by injection H as _ <-. }
destruct (merge_trace d sid aid reason key stats d' survivor absorbed Es Ea H)
  as (merged_meta & _ & T). cbv zeta in T.
destruct T as (T1 & T2 & T3 & T4 & _).
set (d1 := prepared d sid aid survivor absorbed merged_meta) in *.
assert (sid ∈ ids_of d) as Hs.
{ apply fetch_entity_Some in Es as [Hin <-]. by apply list_elem_of_fmap_2. }
destruct (prepared_intact d sid aid survivor absorbed merged_meta Hd Hs Hne) as [P1 P2].
fold d1 in P1, P2.
pose proof (consolidate_intact d1 sid P1) as (J1 & J2 & J3 & J4).
pose proof (consolidate_clear aid d1 sid P2) as [K1 K2].
destruct (consolidate_tables set_order d1 sid) as [C1 _]. cbv zeta in C1.
set (d2 := (_consolidate_duplicate_relationships set_order d1 sid).2) in *.
unfold intact, sources_ok, rel_ids, ids_of. rewrite T1, T2, T3, T4.
split; [by apply rel_ids_filter|]. split; [|split].
- intros r [_ Hr]%list_elem_of_filter. destruct (J2 r Hr) as [A1 A2], (K1 r Hr) as [B1 B2].
  unfold ids_of in A1, A2. rewrite C1 in A1, A2. by rewrite !ids_delete.
- intros s [Hn Hin]%list_elem_of_filter. specialize (J3 s Hin).
  apply list_elem_of_fmap in J3 as (r & E & Hr). apply list_elem_of_fmap. exists r.
  split; [done|]. apply list_elem_of_filter. split; [|done]. by rewrite <- E.
- intros l Hl. destruct P1 as (_ & _ & _ & P4), P2 as [_ P2].
  rewrite ids_delete. split; [by apply P4|by apply P2].
Qed.

Lemma run_merges_intact dry_run candidates : ∀ acc t d',
(∀ c, c ∈ candidates → cand_survivor c ≠ cand_absorbed c) →
(∀ t0 d0, acc = Some (t0, d0) → intact d0) →
fold_left (merge_round set_order now_iso dry_run) candidates acc = Some (t, d') →
intact d'.
Proof.
induction candidates as [|c cs IH]; intros acc t d' Hc Hacc; cbn [fold_left].
- intros ->. by eapply Hacc.
- apply IH; [intros c' Hc'; apply Hc; by right|].
  intros t1 d1 E. destruct acc as [[t0 d0]|]; [|done].
  specialize (Hacc t0 d0 eq_refl). unfold merge_round in E.
  destruct c as [[[sid aid] reason] key].
  destruct (negb (exists_entity d0 sid) || negb (exists_entity d0 aid)).
  { by injection E as _ <-. }
  destruct (merge_entity_pair set_order now_iso d0 sid aid reason key dry_run)
    as [[stats d2]|] eqn:Em; [|done].
  injection E as _ <-. eapply merge_entity_pair_intact; [exact Hacc| |exact Em].
  apply (Hc (sid, aid, reason, key)). by left.
Qed.

End Ops.

End IntegrityFacts.

(** ** Why a pair is a merge candidate *)

Module CandidateFacts.
Import PyStr PySort Json Cleanup Store Merge GraphFacts ConsolidateFacts EngineFacts BatchFacts.

Lemma dd_append_all {K V} `{EqDecision K} (P : K → V → Prop) k0 v (gs : list (K * list V)) :
(∀ k g m, (k, g) ∈ gs → m ∈ g → P k m) → P k0 v →
∀ k g m, (k, g) ∈ dd_append k0 v gs → m ∈ g → P k m.
Proof.
intros Hgs Hv. induction gs as [|[k' vs] gs IH]; cbn.
- intros k g m [= -> ->]%list_elem_of_singleton [= ->]%list_elem_of_singleton. done.
- destruct (decide (k0 = k')) as [->|Hne].
  + intros k g m [[= -> ->]|Hin]%elem_of_cons Hm.
    * apply elem_of_app in Hm as [Hm|Hm%list_elem_of_singleton]; [|by subst].
      apply (Hgs k' vs); [by left|done].
    * apply (Hgs k g); [by right|done].
  + intros k g m [[= -> ->]|Hin]%elem_of_cons Hm.
    * apply (Hgs k' vs); [by left|done].
    * apply IH with (g := g); [|done|done].
      intros k1 g1 m1 H1. apply Hgs. by right.
Qed.

Lemma dd_get_elem {K V} `{EqDecision K} (k : K) (gs : list (K * list V)) m :
m ∈ dd_get k gs → ∃ g, (k, g) ∈ gs ∧ m ∈ g.
Proof.
unfold dd_get. destruct (find _ gs) as [[k' g]|] eqn:E; [|by intros ?%elem_of_nil].
apply find_some in E as [Hin Hk]. apply bool_decide_eq_true in Hk. cbn in Hk. subst k'.
intros Hm. exists g. split; [by apply list_elem_of_In|done].
Qed.

Lemma unique_by_cid_elem entities : ∀ seen m,
m ∈ unique_by_cid seen entities → m ∈ entities.
Proof.
induction entities as [|[cid name] rest IH]; intros seen m; cbn; [done|].
destruct (mem cid seen).
- intros H. right. by eapply IH.
- intros [->|H]%elem_of_cons; [by left|]. right. by eapply IH.
Qed.

Section Why.
Variable d : db.
Variable persons : registry.

(** An entry [(cid, cname)] filed under the key [cleaned] by pass 1. *)
Definition filed (cleaned : str) (m : str * str) : Prop :=
∃ e, (m.1, e) ∈ persons ∧ m.2 = canonical_name e ∧ cleaned ≠ []
     ∧ (clean_name_for_matching (canonical_name e) = cleaned
        ∨ ∃ alias, alias ∈ aliases e ∧ clean_name_for_matching alias = cleaned).

(** An entry filed under a last name by pass 2. *)
Definition surnamed (last_name : str) (m : str * str) : Prop :=
∃ e, (m.1, e) ∈ persons ∧ m.2 = canonical_name e
     ∧ 2 ≤ length (split (clean_name_for_matching (canonical_name e)))
     ∧ last (split (clean_name_for_matching (canonical_name e))) = Some last_name.

Definition all_in {V} (P : str → V → Prop) (gs : list (str * list V)) : Prop :=
∀ k g m, (k, g) ∈ gs → m ∈ g → P k m.

Lemma index_alias_filed cid e cleaned groups alias :
(cid, e) ∈ persons → alias ∈ aliases e →
all_in filed groups → all_in filed (index_alias cid (canonical_name e) cleaned groups alias).
Proof.
intros Hp Ha Hg. unfold index_alias. destruct (nonempty alias); [|done].
destruct (nonempty (clean_name_for_matching alias) && _) eqn:C; [|done].
apply andb_true_iff in C as [C _]. apply ResolverFacts.nonempty_true in C.
unfold all_in. apply dd_append_all; [exact Hg|].
exists e. split; [done|]. split; [done|]. split; [done|]. right. by exists alias.
Qed.

Lemma index_person_filed groups ce :
ce ∈ persons → all_in filed groups → all_in filed (index_person groups ce).
Proof.
destruct ce as [cid e]. intros Hp Hg. unfold index_person.
set (cleaned := clean_name_for_matching (canonical_name e)).
assert (all_in filed (if nonempty cleaned
                      then dd_append cleaned (cid, canonical_name e) groups
                      else groups)) as Hg1.
{ destruct (nonempty cleaned) eqn:C; [|done]. apply ResolverFacts.nonempty_true in C.
  unfold all_in. apply dd_append_all; [exact Hg|].
  exists e. split; [done|]. split; [done|]. split; [done|]. by left. }
revert Hg1. generalize (if nonempty cleaned
                        then dd_append cleaned (cid, canonical_name e) groups
                        else groups).
assert (∀ a, a ∈ aliases e → a ∈ aliases e) as Hsub by done. revert Hsub.
generalize (aliases e) at 1 3. intros l. induction l as [|a l IH]; intros Hsub gs Hgs; [done|].
cbn [fold_left]. apply IH; [intros a' Ha'; apply Hsub; by right|].
apply index_alias_filed; [done|apply Hsub; by left|done].
Qed.

Lemma fold_all_in {V A} (P : str → V → Prop) (f : list (str * list V) → A → list (str * list V))
  (l : list A) (Q : A → Prop) :
(∀ gs x, Q x → all_in P gs → all_in P (f gs x)) →
(∀ x, x ∈ l → Q x) →
∀ gs, all_in P gs → all_in P (fold_left f l gs).
Proof.
intros Hf. induction l as [|x l IH]; intros Hl gs Hgs; [done|]. cbn [fold_left].
apply IH; [intros y Hy; apply Hl; by right|]. apply Hf; [apply Hl; by left|done].
Qed.

Lemma all_in_nil {V} (P : str → V → Prop) : all_in P [].
Proof. by intros k g m ?%elem_of_nil. Qed.

Lemma clean_to_entities_filed : all_in filed (fold_left index_person persons []).
Proof.
apply (fold_all_in filed index_person persons (fun ce => ce ∈ persons));
  [|done|apply all_in_nil].
intros gs ce Hce. by apply index_person_filed.
Qed.

Lemma index_lastname_surnamed seen table ce :
ce ∈ persons → all_in surnamed table → all_in surnamed (index_lastname seen table ce).
Proof.
destruct ce as [cid e]. intros Hp Ht. unfold index_lastname.
destruct (bool_decide (cid ∈ seen)); [done|].
destruct (2 <=? length _) eqn:L; [|done]. apply Nat.leb_le in L.
unfold all_in. apply dd_append_all; [exact Ht|].
exists e. split; [done|]. split; [done|]. split; [done|].
destruct (last _) eqn:E; [done|]. apply last_None in E. rewrite E in L. cbn in L. lia.
Qed.

Lemma lastname_table_surnamed seen :
all_in surnamed (fold_left (index_lastname seen) persons []).
Proof.
apply (fold_all_in surnamed (index_lastname seen) persons (fun ce => ce ∈ persons));
  [|done|apply all_in_nil].
intros gs ce Hce. by apply index_lastname_surnamed.
Qed.

(** What stands behind a candidate [(survivor, absorbed, reason, key)]. *)
Definition justified (c : candidate) : Prop :=
cand_survivor c ≠ cand_absorbed c
∧ ((∃ survivor_name absorbed_name,
      filed c.2 (cand_survivor c, survivor_name)
      ∧ filed c.2 (cand_absorbed c, absorbed_name)
      ∧ cand_reason c = merge_reasons survivor_name absorbed_name)
   ∨ (∃ e last_name survivor_name,
        (cand_absorbed c, e) ∈ persons
        ∧ split (clean_name_for_matching (canonical_name e)) = [last_name]
        ∧ surnamed last_name (cand_survivor c, survivor_name)
        ∧ c.2 = lastname_key last_name (canonical_name e)
        ∧ is_surname_reason (cand_reason c))).

Definition scan_justified (st : scan) : Prop := Forall justified st.1.

Lemma fold_justified {A} (f : scan → A → scan) (l : list A) (Q : A → Prop) :
(∀ st x, Q x → scan_justified st → scan_justified (f st x)) →
(∀ x, x ∈ l → Q x) →
∀ st, scan_justified st → scan_justified (fold_left f l st).
Proof.
intros Hf. induction l as [|x l IH]; intros Hl st Hst; [done|]. cbn [fold_left].
apply IH; [intros y Hy; apply Hl; by right|]. apply Hf; [apply Hl; by left|done].
Qed.

Lemma absorb_member_justified cleaned survivor_id survivor_name st m :
filed cleaned (survivor_id, survivor_name) → filed cleaned m →
scan_justified st → scan_justified (absorb_member cleaned survivor_id survivor_name st m).
Proof.
intros Hs Hm Hst. destruct st as [candidates seen], m as [absorbed_id absorbed_name].
unfold absorb_member. case_bool_decide as E1; [done|].
destruct (bool_decide (absorbed_id ∈ seen)); [done|]. cbn [orb].
unfold scan_justified. cbn [fst]. apply Forall_app. split; [done|].
apply Forall_singleton. split; [cbn; congruence|]. left.
exists survivor_name, absorbed_name. done.
Qed.

Lemma pass1_group_justified st g :
g ∈ fold_left index_person persons [] →
scan_justified st → scan_justified (pass1_group d st g).
Proof.
destruct g as [cleaned entities]. intros Hg Hst. unfold pass1_group.
destruct (_ <? 2); [done|].
pose proof (stable_sort_perm (fun x y => rank_ltb (rank d x) (rank d y))
              (unique_by_cid [] entities)) as Hp.
assert (∀ m, m ∈ stable_sort (fun x y => rank_ltb (rank d x) (rank d y))
                   (unique_by_cid [] entities) → filed cleaned m) as Hall.
{ intros m Hm. rewrite Hp in Hm. apply unique_by_cid_elem in Hm.
  by apply (clean_to_entities_filed cleaned entities). }
destruct (stable_sort _ _) as [|[survivor_id survivor_name] others]; [done|].
apply (fold_justified _ others (fun m => m ∈ others)); [|done|done].
intros st' m Hm. apply absorb_member_justified.
- apply Hall. by left.
- apply Hall. by right.
Qed.

Lemma pass1_justified : scan_justified (pass1 d persons).
Proof.
unfold pass1.
apply (fold_justified _ _ (fun g => g ∈ fold_left index_person persons [])); [|done|].
- intros st g. apply pass1_group_justified.
- constructor.
Qed.

Lemma pass2_person_justified seen0 st ce :
ce ∈ persons →
scan_justified st →
scan_justified (pass2_person d (fold_left (index_lastname seen0) persons []) st ce).
Proof.
intros Hce Hst. destruct st as [candidates seen], ce as [cid e]. unfold pass2_person.
destruct (bool_decide (cid ∈ seen)); [done|].
destruct (split _) as [|last_name [|? ?]] eqn:Ew; [done| |done].
set (matches := filter _ _).
assert (∀ f, f ∈ matches → f.1 ≠ cid ∧ surnamed last_name f) as Hm.
{ intros [fid fname] [[Hne _] (g & Hg & Hf)%dd_get_elem]%list_elem_of_filter.
  split; [done|]. by apply (lastname_table_surnamed seen0 last_name g). }
assert (∀ s n reason, (s, n) ∈ matches → is_surname_reason reason →
          scan_justified (candidates ++ [(s, cid, reason, lastname_key last_name (canonical_name e))],
                          seen ∪ {[cid]})) as Hadd.
{ intros s n reason Hin Hr. destruct (Hm _ Hin) as [Hne Hsur]. cbn in Hne.
  unfold scan_justified. cbn [fst]. apply Forall_app. split; [done|].
  apply Forall_singleton. split; [done|]. right.
  exists e, last_name, n. done. }
destruct matches as [|[s1 n1] [|m2 rest]] eqn:E; [done| |].
- apply (Hadd s1 n1); [by left|by left].
- destruct (_disambiguate_by_graph _ _ _) as [[s n]|] eqn:G; [|done].
  apply disambiguate_elem in G. apply (Hadd s n); [done|by right].
Qed.

Lemma pass2_justified st : scan_justified st → scan_justified (pass2 d persons st).
Proof.
intros Hst. unfold pass2.
apply (fold_justified _ persons (fun ce => ce ∈ persons)); [|done|done].
intros st' ce Hce. by apply pass2_person_justified.
Qed.

End Why.

Lemma find_merge_candidates_justified d :
Forall (justified (persons_of (load_canonical_registry d))) (find_merge_candidates d).
Proof. unfold find_merge_candidates. apply pass2_justified, pass1_justified. Qed.

Lemma persons_rows d cid e :
(cid, e) ∈ persons_of (load_canonical_registry d) →
∃ row, row ∈ canonical_entities d ∧ canonical_id row = cid
       ∧ row_type row = ("person" : str)
       ∧ canonical_name e = row_name row
       ∧ aliases e = default [] (row_aliases row).
Proof.
unfold persons_of. intros [Ht (row & Hrow & [= -> ->])%GraphMoreFacts.registry_rows]%list_elem_of_filter.
exists row. done.
Qed.

Lemma candidates_distinct d c :
c ∈ find_merge_candidates d → cand_survivor c ≠ cand_absorbed c.
Proof.
intros Hc. pose proof (find_merge_candidates_justified d) as H.
rewrite Forall_forall in H. by destruct (H c Hc).
Qed.

End CandidateFacts.

Import PyStr PySort Json Cleanup Store Merge GraphFacts ConsolidateFacts EngineFacts BatchFacts
       CandidateFacts.

(** X16: [find_merge_candidates] only proposes to merge two different
    entities of type person that are both in the store. *)
Theorem merge_candidates_pair_distinct_persons (d : db) (c : candidate) :
  c ∈ find_merge_candidates d →
  cand_survivor c ≠ cand_absorbed c
  ∧ ∃ survivor absorbed,
      survivor ∈ canonical_entities d ∧ absorbed ∈ canonical_entities d
      ∧ canonical_id survivor = cand_survivor c ∧ canonical_id absorbed = cand_absorbed c
      ∧ row_type survivor = ("person" : str) ∧ row_type absorbed = ("person" : str).
Proof.
  intros Hc. pose proof (find_merge_candidates_justified d) as H.
  rewrite Forall_forall in H. destruct (H c Hc) as [Hne Hwhy]. split; [done|].
  destruct Hwhy as [(sn & an & (es & Hs & _) & (ea & Ha & _) & _)
                   |(ea & last_name & sn & Ha & _ & (es & Hs & _) & _)];
    cbn [fst] in Hs, Ha;
    apply persons_rows in Hs as (survivor & S1 & S2 & S3 & _),
                           Ha as (absorbed & A1 & A2 & A3 & _);
    exists survivor, absorbed; done.
Qed.

Lemma merge_candidates_pair_distinct_persons_witness :
  let c : candidate :=
    ("PER-00002" : str, "PER-00001" : str, "cleaned_name_match" : str, "bill clinton" : str) in
  cand_survivor c ≠ cand_absorbed c
  ∧ ∃ survivor absorbed,
      survivor ∈ canonical_entities clinton_db ∧ absorbed ∈ canonical_entities clinton_db
      ∧ canonical_id survivor = cand_survivor c ∧ canonical_id absorbed = cand_absorbed c
      ∧ row_type survivor = ("person" : str) ∧ row_type absorbed = ("person" : str).
Proof.
  intros c. apply (merge_candidates_pair_distinct_persons clinton_db c).
  vm_compute. left.
Defined.

(** X17: every candidate has its reason in the names.  Either the two
    entities share a non-empty cleaned form, each through its canonical
    name or one of its aliases, and that form is the match key; or the
    reason is a last-name reason, the cleaned canonical name of the
    absorbed entity is a single word, and that word is the last of the at
    least two words of the survivor's cleaned canonical name. *)
Theorem merge_candidates_are_justified (d : db) (c : candidate) :
  c ∈ find_merge_candidates d →
  ∃ survivor absorbed,
    survivor ∈ canonical_entities d ∧ absorbed ∈ canonical_entities d
    ∧ canonical_id survivor = cand_survivor c ∧ canonical_id absorbed = cand_absorbed c
    ∧ ((snd c ≠ []
        ∧ (∃ n, (n = row_name survivor ∨ n ∈ default [] (row_aliases survivor))
                ∧ clean_name_for_matching n = snd c)
        ∧ (∃ n, (n = row_name absorbed ∨ n ∈ default [] (row_aliases absorbed))
                ∧ clean_name_for_matching n = snd c)
        ∧ cand_reason c = merge_reasons (row_name survivor) (row_name absorbed))
       ∨ ((cand_reason c = ("lastname_only_unambiguous" : str)
           ∨ cand_reason c = ("lastname_only_graph_disambiguated" : str))
          ∧ ∃ last_name,
              split (clean_name_for_matching (row_name absorbed)) = [last_name]
              ∧ 2 ≤ length (split (clean_name_for_matching (row_name survivor)))
              ∧ last (split (clean_name_for_matching (row_name survivor))) = Some last_name
              ∧ snd c = lastname_key last_name (row_name absorbed))).
Proof.
  intros Hc. pose proof (find_merge_candidates_justified d) as H.
  rewrite Forall_forall in H. destruct (H c Hc) as [Hne Hwhy].
  destruct Hwhy as [(sn & an & (es & Hs & Esn & Hk & Hws) & (ea & Ha & Ean & _ & Hwa) & Hr)
                   |(ea & last_name & sn & Ha & Hw & (es & Hs & Esn & Hlen & Hlast) & Hkey & Hr)];
    cbn [fst snd] in Hs, Ha, Esn;
    apply persons_rows in Hs as (survivor & S1 & S2 & _ & S4 & S5),
                           Ha as (absorbed & A1 & A2 & _ & A4 & A5);
    exists survivor, absorbed; (split; [done|]); (split; [done|]); (split; [done|]);
    (split; [done|]).
  - cbn [snd] in Ean. left. split; [done|]. split; [|split].
    + destruct Hws as [E|(al & Hal & E)].
      * exists (row_name survivor). split; [by left|]. by rewrite <- S4.
      * exists al. split; [right; by rewrite <- S5|done].
    + destruct Hwa as [E|(al & Hal & E)].
      * exists (row_name absorbed). split; [by left|]. by rewrite <- A4.
      * exists al. split; [right; by rewrite <- A5|done].
    + by rewrite Hr, Esn, Ean, S4, A4.
  - right. split; [done|]. exists last_name. rewrite <- S4, <- A4. done.
Qed.

Lemma merge_candidates_are_justified_witness :
  let c : candidate :=
    ("PER-00002" : str, "PER-00001" : str, "cleaned_name_match" : str, "bill clinton" : str) in
  ∃ survivor absorbed,
    survivor ∈ canonical_entities clinton_db ∧ absorbed ∈ canonical_entities clinton_db
    ∧ canonical_id survivor = cand_survivor c ∧ canonical_id absorbed = cand_absorbed c
    ∧ ((snd c ≠ []
        ∧ (∃ n, (n = row_name survivor ∨ n ∈ default [] (row_aliases survivor))
                ∧ clean_name_for_matching n = snd c)
        ∧ (∃ n, (n = row_name absorbed ∨ n ∈ default [] (row_aliases absorbed))
                ∧ clean_name_for_matching n = snd c)
        ∧ cand_reason c = merge_reasons (row_name survivor) (row_name absorbed))
       ∨ ((cand_reason c = ("lastname_only_unambiguous" : str)
           ∨ cand_reason c = ("lastname_only_graph_disambiguated" : str))
          ∧ ∃ last_name,
              split (clean_name_for_matching (row_name absorbed)) = [last_name]
              ∧ 2 ≤ length (split (clean_name_for_matching (row_name survivor)))
              ∧ last (split (clean_name_for_matching (row_name survivor))) = Some last_name
              ∧ snd c = lastname_key last_name (row_name absorbed))).
Proof.
  intros c. apply (merge_candidates_are_justified clinton_db c).
  vm_compute. left.
Defined.

(** ** What a merge leaves behind *)

Module MergeFacts.
Import PyStr PySort Json Cleanup Store Common Merge ConsolidateFacts EngineFacts
       NoisePhaseFacts BatchFacts IntegrityFacts.

Lemma add_alias_fold (l : list str) : ∀ (surv : list str) (lowers : gset str),
let res := fold_left add_alias l (surv, lowers) in
surv `prefix_of` res.1
∧ (∀ x, x ∈ lowers → x ∈ res.2)
∧ (∀ a, a ∈ l → a ≠ [] → lower a ∈ res.2)
∧ (∀ x, x ∈ res.2 → x ∈ lowers ∨ x ∈ map lower res.1).
Proof.
induction l as [|a l IH]; intros surv lowers; cbn [fold_left].
- cbn. split; [done|]. split; [done|]. split; [by intros ? ?%elem_of_nil|]. by left.
- assert (add_alias (surv, lowers) a
          = if nonempty a && bool_decide (lower a ∉ lowers)
            then (surv ++ [a], lowers ∪ {[lower a]}) else (surv, lowers)) as -> by done.
  destruct (nonempty a && _) eqn:C.
  + apply andb_true_iff in C as [Ca Cl].
    destruct (IH (surv ++ [a]) (lowers ∪ {[lower a]})) as (I1 & I2 & I3 & I4).
    cbv zeta in I1, I2, I3, I4 |- *. split; [|split; [|split]].
    * etrans; [|exact I1]. by apply prefix_app_r.
    * intros x Hx. apply I2, elem_of_union. by left.
    * intros a' [->|Hin]%elem_of_cons Hne; [|by apply I3].
      apply I2, elem_of_union. right. by apply elem_of_singleton.
    * intros x [[Hx|Hx%elem_of_singleton]%elem_of_union|Hx]%I4; [by left| |by right].
      right. subst x. destruct I1 as [k ->]. rewrite !map_app. cbn.
      apply elem_of_app. left. apply elem_of_app. right. by left.
  + destruct (IH surv lowers) as (I1 & I2 & I3 & I4).
    cbv zeta in I1, I2, I3, I4 |- *. split; [done|]. split; [done|]. split; [|done].
    intros a' [->|Hin]%elem_of_cons Hne; [|by apply I3].
    rewrite (proj2 (ResolverFacts.nonempty_true _) Hne) in C. cbn in C.
    apply bool_decide_eq_false in C. apply dec_stable in C. by apply I2.
Qed.

Lemma merged_aliases_spec survivor absorbed :
let merged := merged_aliases survivor absorbed in
default [] (row_aliases survivor) `prefix_of` merged
∧ (lower (row_name absorbed) ∈ map lower merged
   ∨ lower (row_name absorbed) = lower (row_name survivor))
∧ (∀ a, a ∈ default [] (row_aliases absorbed) → a ≠ [] →
     lower a ∈ map lower merged ∨ lower a = lower (row_name survivor)).
Proof.
unfold merged_aliases.
set (surv := default [] (row_aliases survivor)).
set (lowers := (list_to_set (map lower surv) ∪ {[lower (row_name survivor)]} : gset str)).
assert (∀ x, x ∈ lowers ↔ x ∈ map lower surv ∨ x = lower (row_name survivor)) as Hl.
{ intros x. unfold lowers. rewrite elem_of_union, elem_of_list_to_set, elem_of_singleton. tauto. }
case_bool_decide as C.
- destruct (add_alias_fold (default [] (row_aliases absorbed)) (surv ++ [row_name absorbed])
              (lowers ∪ {[lower (row_name absorbed)]})) as (I1 & I2 & I3 & I4).
  cbv zeta in I1, I2, I3, I4 |- *.
  assert (∀ x, x ∈ (fold_left add_alias (default [] (row_aliases absorbed))
                      (surv ++ [row_name absorbed],
                       lowers ∪ {[lower (row_name absorbed)]})).2 →
               x ∈ map lower (fold_left add_alias (default [] (row_aliases absorbed))
                      (surv ++ [row_name absorbed],
                       lowers ∪ {[lower (row_name absorbed)]})).1
               ∨ x = lower (row_name survivor)) as Hcov.
  { intros x [[Hx|Hx%elem_of_singleton]%elem_of_union|Hx]%I4; [| |by left].
    - apply Hl in Hx as [Hx|Hx]; [|by right]. left.
      destruct I1 as [k ->]. rewrite !map_app. apply elem_of_app. left. apply elem_of_app.
      by left.
    - left. subst x. destruct I1 as [k ->]. rewrite !map_app. cbn.
      apply elem_of_app. left. apply elem_of_app. right. by left. }
  split; [etrans; [|exact I1]; by apply prefix_app_r|]. split.
  + apply Hcov, I2, elem_of_union. right. by apply elem_of_singleton.
  + intros a Ha Hne. by apply Hcov, I3.
- destruct (add_alias_fold (default [] (row_aliases absorbed)) surv lowers)
    as (I1 & I2 & I3 & I4).
  cbv zeta in I1, I2, I3, I4 |- *.
  assert (∀ x, x ∈ (fold_left add_alias (default [] (row_aliases absorbed)) (surv, lowers)).2 →
               x ∈ map lower (fold_left add_alias (default [] (row_aliases absorbed))
                                (surv, lowers)).1
               ∨ x = lower (row_name survivor)) as Hcov.
  { intros x [Hx|Hx]%I4; [|by left].
    apply Hl in Hx as [Hx|Hx]; [|by right]. left.
    destruct I1 as [k ->]. rewrite map_app. apply elem_of_app. by left. }
  split; [done|]. split.
  + by apply Hcov, I2.
  + intros a Ha Hne. by apply Hcov, I3.
Qed.

Section Merge.
Variable set_order : list str → list str.
Variable now_iso : str.

Lemma prepared_clear d sid aid survivor absorbed merged_meta :
sid ≠ aid → clear aid (prepared now_iso d sid aid survivor absorbed merged_meta).
Proof.
intros Hne. split.
- intros r1 (r & Hin & _ & -> & ->)%prepared_rel. repeat case_bool_decide; done.
- cbn -[update_where]. intros l1 (l & Hin & ->)%elem_of_update_where.
  case_bool_decide; cbn; done.
Qed.

Lemma prepared_survivor d sid aid survivor absorbed merged_meta row :
row ∈ canonical_entities (prepared now_iso d sid aid survivor absorbed merged_meta) →
∃ row0, row0 ∈ canonical_entities d
        ∧ canonical_id row = canonical_id row0
        ∧ row_name row = row_name row0
        ∧ row_type row = row_type row0
        ∧ (canonical_id row0 = sid →
           row_aliases row = Some (merged_aliases survivor absorbed)
           ∧ row_metadata row = Some merged_meta)
        ∧ (canonical_id row0 ≠ sid → row = row0).
Proof.
cbn -[update_where].
intros (x & (row0 & Hin & ->)%elem_of_update_where & ->)%elem_of_update_where.
exists row0. split; [done|]. unfold has_id. destruct (decide (canonical_id row0 = sid)) as [E|E].
- rewrite (bool_decide_true _ E). cbn. rewrite (bool_decide_true _ E). cbn. done.
- rewrite (bool_decide_false _ E). rewrite (bool_decide_false _ E). done.
Qed.

End Merge.

End MergeFacts.

Import PyStr PySort Json Cleanup Store Common Merge ConsolidateFacts EngineFacts
       NoisePhaseFacts BatchFacts IntegrityFacts MergeFacts.

(** X18: a merge that is carried out removes the absorbed entity and
    every reference to it.  Afterwards the absorbed id is no canonical id,
    all other ids are as before, no relationship and no resolution-log row
    names the absorbed id, no relationship joins the survivor to itself, no
    log row is lost, and the audit table has one more row, which records
    the two ids, the two names, the reason, the key and the returned
    counts. *)
Theorem merge_removes_absorbed_entity (set_order : list str → list str) (now_iso : str)
    (d : db) (sid aid reason key : str) (survivor absorbed : entity_row)
    (stats : merge_stats) (d' : db) :
  fetch_entity d sid = Some survivor →
  fetch_entity d aid = Some absorbed →
  sid ≠ aid →
  merge_entity_pair set_order now_iso d sid aid reason key false = Some (stats, d') →
  (∀ x, x ∈ map canonical_id (canonical_entities d')
        ↔ x ∈ map canonical_id (canonical_entities d) ∧ x ≠ aid)
  ∧ (∀ r, r ∈ relationships d' →
       source_entity_id r ≠ aid ∧ target_entity_id r ≠ aid
       ∧ ¬ (source_entity_id r = sid ∧ target_entity_id r = sid))
  ∧ (∀ l, l ∈ entity_resolution_log d' → resolved_to l ≠ aid)
  ∧ length (entity_resolution_log d') = length (entity_resolution_log d)
  ∧ entity_merges d'
    = entity_merges d ++ [MergeRow sid aid (row_name survivor) (row_name absorbed)
                                   reason key stats now_iso].
Proof.
  intros Es Ea Hne H.
  destruct (merge_trace set_order now_iso d sid aid reason key stats d' survivor absorbed
              Es Ea H) as (merged_meta & _ & T). cbv zeta in T.
  destruct T as (T1 & T2 & T3 & T4 & T5 & _).
  set (d1 := prepared now_iso d sid aid survivor absorbed merged_meta) in *.
  pose proof (prepared_clear now_iso d sid aid survivor absorbed merged_meta Hne) as P.
  fold d1 in P. destruct P as [_ P2].
  pose proof (consolidate_clear set_order aid d1 sid
                (prepared_clear now_iso d sid aid survivor absorbed merged_meta Hne)) as [K1 _].
  split; [|split; [|split; [|split]]].
  - intros x. change (map ?f ?l) with (f <$> l). rewrite T1, ids_delete.
    destruct (prepared_ids now_iso d sid aid survivor absorbed merged_meta) as [E _].
    unfold ids_of in E. fold d1 in E. by rewrite E.
  - intros r. rewrite T2. intros [Hn Hr]%list_elem_of_filter.
    destruct (K1 r Hr) as [A1 A2]. split; [done|]. split; [done|].
    intros [B1 B2]. apply Hn. change (map ?f ?l) with (f <$> l).
    apply list_elem_of_fmap_2. apply list_elem_of_filter. split; [|done].
    unfold is_self_ref. by rewrite !bool_decide_true.
  - intros l. rewrite T4. apply P2.
  - rewrite T4. unfold d1. cbn -[update_where]. unfold update_where. by rewrite length_map.
  - done.
Qed.

Lemma merge_removes_absorbed_entity_witness :
  let d : db :=
    Db [ EntityRow "PER-00001" "person" "Jeffrey Epstein" None None "t0";
         EntityRow "PER-00002" "person" "Epstein, Jeffrey" None None "t0";
         EntityRow "PER-00003" "person" "Larry Visoski" None None "t0" ]
       [ Rel 1 "PER-00001" "PER-00003" "traveled_with" (Some 1%Z) None;
         Rel 2 "PER-00003" "PER-00002" "traveled_with" (Some 1%Z) None;
         Rel 3 "PER-00001" "PER-00002" "same_as" (Some 1%Z) None ]
       [ Src 1 1 "docs"; Src 2 2 "graph" ] [ Log 1 "PER-00002" "Epstein, Jeffrey" ] [] in
  ∃ stats d',
    merge_entity_pair first_seen_order "t1" d "PER-00001" "PER-00002"
                      "cleaned_name_match" "jeffrey epstein" false = Some (stats, d')
    ∧ (∀ r, r ∈ relationships d' →
         source_entity_id r ≠ ("PER-00002" : str) ∧ target_entity_id r ≠ ("PER-00002" : str)
         ∧ ¬ (source_entity_id r = ("PER-00001" : str)
              ∧ target_entity_id r = ("PER-00001" : str))).
Proof.
  intros d.
  destruct (merge_entity_pair first_seen_order "t1" d "PER-00001" "PER-00002"
              "cleaned_name_match" "jeffrey epstein" false) as [[stats d']|] eqn:E;
    [|vm_compute in E; discriminate].
  exists stats, d'. split; [done|].
  refine (proj1 (proj2 (merge_removes_absorbed_entity first_seen_order "t1" d
                          "PER-00001" "PER-00002" "cleaned_name_match" "jeffrey epstein"
                          (EntityRow "PER-00001" "person" "Jeffrey Epstein" None None "t0")
                          (EntityRow "PER-00002" "person" "Epstein, Jeffrey" None None "t0")
                          stats d' _ _ _ E))).
  - vm_compute. reflexivity.
  - vm_compute. reflexivity.
  - vm_compute. discriminate.
Defined.

(** X19: a merge loses no name.  In the row of the survivor the alias
    list is the old one with names appended, the canonical name of the
    absorbed entity and each of its non-empty aliases are covered, letter
    case aside, by the new alias list or by the survivor's canonical name,
    the canonical name and the entity type are unchanged, and the metadata
    are the result of [_merge_metadata]. *)
Theorem merge_keeps_every_name (set_order : list str → list str) (now_iso : str)
    (d : db) (sid aid reason key : str) (survivor absorbed : entity_row)
    (stats : merge_stats) (d' : db) :
  fetch_entity d sid = Some survivor →
  fetch_entity d aid = Some absorbed →
  sid ≠ aid →
  merge_entity_pair set_order now_iso d sid aid reason key false = Some (stats, d') →
  ∃ merged,
    default [] (row_aliases survivor) `prefix_of` merged
    ∧ (lower (row_name absorbed) ∈ map lower merged
       ∨ lower (row_name absorbed) = lower (row_name survivor))
    ∧ (∀ a, a ∈ default [] (row_aliases absorbed) → a ≠ [] →
         lower a ∈ map lower merged ∨ lower a = lower (row_name survivor))
    ∧ (∃ row, row ∈ canonical_entities d' ∧ canonical_id row = sid)
    ∧ ∀ row, row ∈ canonical_entities d' → canonical_id row = sid →
        row_aliases row = Some merged
        ∧ row_metadata row
          = _merge_metadata (default ∅ (row_metadata survivor))
                            (default ∅ (row_metadata absorbed))
        ∧ ∃ row0, row0 ∈ canonical_entities d ∧ canonical_id row0 = sid
                  ∧ row_name row = row_name row0 ∧ row_type row = row_type row0.
Proof.
  intros Es Ea Hne H.
  destruct (merge_trace set_order now_iso d sid aid reason key stats d' survivor absorbed
              Es Ea H) as (merged_meta & Em & T). cbv zeta in T.
  destruct T as (T1 & _).
  destruct (merged_aliases_spec survivor absorbed) as (M1 & M2 & M3). cbv zeta in M1, M2, M3.
  exists (merged_aliases survivor absorbed).
  split; [done|]. split; [done|]. split; [done|]. split.
  - apply fetch_entity_Some in Es as [Hin Hid].
    assert (sid ∈ canonical_id <$> canonical_entities d') as Hs.
    { rewrite T1, ids_delete.
      destruct (prepared_ids now_iso d sid aid survivor absorbed merged_meta) as [E _].
      unfold ids_of in E. rewrite E. split; [|done]. rewrite <- Hid.
      by apply list_elem_of_fmap_2. }
    apply list_elem_of_fmap in Hs as (row & E & Hrow). by exists row.
  - intros row Hrow Hid. rewrite T1 in Hrow. apply list_elem_of_filter in Hrow as [_ Hrow].
    apply prepared_survivor in Hrow as (row0 & Hin & E1 & E2 & E3 & E4 & _).
    rewrite E1 in Hid. destruct (E4 Hid) as [-> ->]. split; [done|]. split; [by rewrite Em|].
    by exists row0.
Qed.

Lemma merge_keeps_every_name_witness :
  let d : db :=
    Db [ EntityRow "PER-00001" "person" "Jeffrey Epstein" (Some (strs ["J. Epstein"])) None "t0";
         EntityRow "PER-00002" "person" "Epstein, Jeffrey" (Some (strs ["JEFFREY EPSTEIN"; "Jeff Epstein"]))
                   None "t0" ]
       [] [] [] [] in
  ∃ stats d',
    merge_entity_pair first_seen_order "t1" d "PER-00001" "PER-00002"
                      "cleaned_name_match" "jeffrey epstein" false = Some (stats, d')
    ∧ ∃ merged,
        default [] (Some (strs ["J. Epstein"])) `prefix_of` merged
        ∧ ∀ row, row ∈ canonical_entities d' → canonical_id row = ("PER-00001" : str) →
            row_aliases row = Some merged.
Proof.
  intros d.
  destruct (merge_entity_pair first_seen_order "t1" d "PER-00001" "PER-00002"
              "cleaned_name_match" "jeffrey epstein" false) as [[stats d']|] eqn:E;
    [|vm_compute in E; discriminate].
  exists stats, d'. split; [done|].
  destruct (merge_keeps_every_name first_seen_order "t1" d
              "PER-00001" "PER-00002" "cleaned_name_match" "jeffrey epstein"
              (EntityRow "PER-00001" "person" "Jeffrey Epstein" (Some (strs ["J. Epstein"]))
                         None "t0")
              (EntityRow "PER-00002" "person" "Epstein, Jeffrey"
                         (Some (strs ["JEFFREY EPSTEIN"; "Jeff Epstein"])) None "t0")
              stats d') as (merged & M1 & _ & _ & _ & M5).
  - vm_compute. reflexivity.
  - vm_compute. reflexivity.
  - vm_compute. discriminate.
  - exact E.
  - exists merged. split; [exact M1|]. intros row Hrow Hid. by apply M5.
Defined.

(** ** Phase 3 and the whole run *)

Module CleanupFacts.
Import PyStr PySort Json Cleanup Store Common Merge ConsolidateFacts EngineFacts
       NoisePhaseFacts BatchFacts IntegrityFacts CandidateFacts.

(** The row that [rename_entity] writes for [row]. *)
Definition renamed (now_iso : str) (row : entity_row) (old_name new_name : str) : entity_row :=
EntityRow (canonical_id row) (row_type row) new_name
  (Some (let aliases := default [] (row_aliases row) in
         if bool_decide (lower old_name
                         ∉ (list_to_set (map lower aliases) ∪ {[lower new_name]} : gset str))
         then aliases ++ [old_name] else aliases))
  (row_metadata row) now_iso.

Lemma fetch_entity_unique d row :
NoDup (ids_of d) → row ∈ canonical_entities d →
fetch_entity d (canonical_id row) = Some row.
Proof.
unfold ids_of, fetch_entity. induction (canonical_entities d) as [|e t IH]; cbn [fmap list_fmap find].
- by intros _ ?%elem_of_nil.
- intros [Hn Hd]%NoDup_cons [->|Hin]%elem_of_cons.
  + unfold has_id. by rewrite bool_decide_true.
  + unfold has_id at 1. rewrite bool_decide_false; [by apply IH|].
    intros E. apply Hn. rewrite E. by apply list_elem_of_fmap_2.
Qed.

Section Phase3.
Variable set_order : list str → list str.
Variable now_iso : str.

Lemma rename_entity_tables d c :
ids_of (rename_entity now_iso d c) = ids_of d
∧ relationships (rename_entity now_iso d c) = relationships d
∧ relationship_sources (rename_entity now_iso d c) = relationship_sources d
∧ entity_resolution_log (rename_entity now_iso d c) = entity_resolution_log d
∧ entity_merges (rename_entity now_iso d c) = entity_merges d.
Proof.
destruct c as [[cid old_name] new_name]. unfold rename_entity, ids_of.
cbn -[update_where]. by rewrite ids_update.
Qed.

Lemma rename_all_tables cs : ∀ d,
ids_of (fold_left (rename_entity now_iso) cs d) = ids_of d
∧ relationships (fold_left (rename_entity now_iso) cs d) = relationships d
∧ relationship_sources (fold_left (rename_entity now_iso) cs d) = relationship_sources d
∧ entity_resolution_log (fold_left (rename_entity now_iso) cs d) = entity_resolution_log d
∧ entity_merges (fold_left (rename_entity now_iso) cs d) = entity_merges d.
Proof.
induction cs as [|c cs IH]; intros d; cbn [fold_left]; [done|].
destruct (IH (rename_entity now_iso d c)) as (-> & -> & -> & -> & ->).
apply rename_entity_tables.
Qed.

Lemma phase_cleanup_tables d dry_run :
ids_of (phase_cleanup now_iso d dry_run) = ids_of d
∧ relationships (phase_cleanup now_iso d dry_run) = relationships d
∧ relationship_sources (phase_cleanup now_iso d dry_run) = relationship_sources d
∧ entity_resolution_log (phase_cleanup now_iso d dry_run) = entity_resolution_log d
∧ entity_merges (phase_cleanup now_iso d dry_run) = entity_merges d.
Proof.
unfold phase_cleanup. destruct dry_run; [done|]. apply rename_all_tables.
Qed.

Lemma phase_cleanup_intact d dry_run : intact d → intact (phase_cleanup now_iso d dry_run).
Proof.
destruct (phase_cleanup_tables d dry_run) as (E1 & E2 & E3 & E4 & _).
unfold intact, sources_ok, rel_ids. by rewrite E1, E2, E3, E4.
Qed.

Lemma main_intact d dry_run d' :
intact d → main set_order now_iso d dry_run = Some d' → intact d'.
Proof.
intros Hd. unfold main, phase_merge, run_merges.
destruct (fold_left _ _ _) as [[t d2]|] eqn:E; [|done].
intros [= <-]. apply phase_cleanup_intact.
eapply (run_merges_intact set_order now_iso); [| |exact E].
- intros c. apply candidates_distinct.
- intros t0 d0 [= <- <-]. by apply phase_noise_intact.
Qed.

(** *** A dry run *)

Lemma phase_noise_dry_run d : phase_noise now_iso d true = d.
Proof.
unfold phase_noise. destruct (find_noise_entities d) as [deletable flaggable].
assert (∀ l d0, fold_left (fun d1 '(cid, name, reason) =>
                             flag_noise_entity now_iso d1 cid name reason true) l d0 = d0) as F.
{ induction l as [|[[cid name] reason] l IH]; intros d0; cbn [fold_left]; [done|].
  by rewrite IH. }
assert (∀ l d0, fold_left (fun d1 '(cid, name, reason) =>
                             (delete_noise_entity now_iso d1 cid name reason true).2) l d0
                = d0) as D.
{ induction l as [|[[cid name] reason] l IH]; intros d0; cbn [fold_left]; [done|].
  by rewrite IH. }
by rewrite F, D.
Qed.

Lemma run_merges_dry_run candidates : ∀ t d,
∃ t', fold_left (merge_round set_order now_iso true) candidates (Some (t, d)) = Some (t', d).
Proof.
induction candidates as [|[[[sid aid] reason] key] cs IH]; intros t d; cbn [fold_left].
- by exists t.
- unfold merge_round at 2.
  destruct (negb (exists_entity d sid) || negb (exists_entity d aid)); [apply IH|].
  rewrite merge_entity_pair_dry_run. apply IH.
Qed.

(** *** The renames *)

Lemma rename_entity_rows d cid old_name new_name row :
NoDup (ids_of d) → row ∈ canonical_entities d →
(canonical_id row = cid →
   renamed now_iso row old_name new_name
   ∈ canonical_entities (rename_entity now_iso d (cid, old_name, new_name)))
∧ (canonical_id row ≠ cid →
   row ∈ canonical_entities (rename_entity now_iso d (cid, old_name, new_name))).
Proof.
intros Hd Hrow. unfold rename_entity. cbn -[update_where]. unfold update_where.
change (map ?f ?l) with (f <$> l). split; intros E.
- subst cid. rewrite (fetch_entity_unique d row Hd Hrow).
  apply list_elem_of_fmap. exists row. split; [|done].
  unfold has_id. by rewrite bool_decide_true.
- apply list_elem_of_fmap. exists row. split; [|done].
  unfold has_id. by rewrite bool_decide_false.
Qed.

Lemma rename_all_rows cs : ∀ d row,
NoDup (ids_of d) → NoDup (map (fun c : str * str * str => c.1.1) cs) →
row ∈ canonical_entities d →
((∀ c, c ∈ cs → c.1.1 ≠ canonical_id row) →
   row ∈ canonical_entities (fold_left (rename_entity now_iso) cs d))
∧ (∀ old_name new_name, (canonical_id row, old_name, new_name) ∈ cs →
   renamed now_iso row old_name new_name
   ∈ canonical_entities (fold_left (rename_entity now_iso) cs d)).
Proof.
induction cs as [|[[cid o] n] cs IH]; intros d row Hd Hcs Hrow; cbn [fold_left].
- split; [done|]. by intros ? ? ?%elem_of_nil.
- cbn [map] in Hcs. apply NoDup_cons in Hcs as [Hn Hcs]. cbn in Hn.
  assert (NoDup (ids_of (rename_entity now_iso d (cid, o, n)))) as Hd1.
  { by rewrite (proj1 (rename_entity_tables d (cid, o, n))). }
  destruct (rename_entity_rows d cid o n row Hd Hrow) as [R1 R2]. split.
  + intros Hno. assert (canonical_id row ≠ cid) as Hne.
    { intros E. by apply (Hno (cid, o, n)); [left|]. }
    apply (IH _ row Hd1 Hcs (R2 Hne)). intros c Hc. apply Hno. by right.
  + intros old_name new_name [[= <- <- <-]|Hin]%elem_of_cons.
    * apply (IH _ (renamed now_iso row old_name new_name) Hd1 Hcs (R1 eq_refl)).
      intros c Hc E. apply Hn. change (map ?f ?l) with (f <$> l).
      apply list_elem_of_fmap. exists c. by split.
    * assert (canonical_id row ≠ cid) as Hne.
      { intros E. apply Hn. change (map ?f ?l) with (f <$> l).
        apply list_elem_of_fmap. exists (canonical_id row, old_name, new_name). by split. }
      by apply (IH _ row Hd1 Hcs (R2 Hne)).
Qed.

Lemma cleanup_steps (l : list (str * entity)) : ∀ acc,
fold_left cleanup_step l acc
= acc ++ omap (fun ce : str * entity =>
                 if negb (str_eqb (new_name_of (canonical_name ce.2)) (canonical_name ce.2))
                 then Some (ce.1, canonical_name ce.2, new_name_of (canonical_name ce.2))
                 else None) l.
Proof.
induction l as [|[cid e] l IH]; intros acc; cbn [fold_left omap]; [by rewrite app_nil_r|].
rewrite IH. unfold cleanup_step. cbn [omap list_omap fst snd].
destruct (negb _); [by rewrite <- app_assoc|done].
Qed.

Lemma find_name_cleanups_spec d cid old_name new_name :
(cid, old_name, new_name) ∈ find_name_cleanups d
↔ ∃ row, row ∈ canonical_entities d ∧ canonical_id row = cid ∧ row_name row = old_name
         ∧ new_name = new_name_of old_name ∧ new_name ≠ old_name.
Proof.
unfold find_name_cleanups. rewrite cleanup_steps. cbn [app].
rewrite list_elem_of_omap. unfold load_canonical_registry.
change (map ?f ?l) with (f <$> l). split.
- intros ([cid' e] & (row & [= -> ->] & Hrow)%list_elem_of_fmap & H). cbn in H.
  unfold str_eqb in H. case_bool_decide as E; [done|]. cbn in H. injection H as <- <- <-.
  by exists row.
- intros (row & Hrow & <- & <- & -> & Hne). eexists. split.
  + apply list_elem_of_fmap. by exists row.
  + cbn. unfold str_eqb. by rewrite bool_decide_false.
Qed.

Lemma find_name_cleanups_ids d :
NoDup (ids_of d) → NoDup (map (fun c : str * str * str => c.1.1) (find_name_cleanups d)).
Proof.
unfold find_name_cleanups, load_canonical_registry, ids_of. rewrite cleanup_steps. cbn [app].
induction (canonical_entities d) as [|row t IH];
  cbn [map omap list_omap fmap list_fmap]; [constructor|].
intros [Hn Hd]%NoDup_cons. cbn [fst snd canonical_name].
destruct (negb _); [|by apply IH]. cbn [map fst]. apply NoDup_cons. split; [|by apply IH].
intros Hin. apply Hn. change (map ?f ?l) with (f <$> l) in Hin.
apply list_elem_of_fmap in Hin as ([[cid o] n] & E & Hin). cbn in E. subst cid.
apply list_elem_of_omap in Hin as ([cid' e] & Hin & H).
apply list_elem_of_fmap in Hin as (row' & [= -> ->] & Hrow'). cbn in H.
destruct (negb _); [|done]. injection H as H _ _. rewrite <- H.
by apply list_elem_of_fmap_2.
Qed.

End Phase3.

End CleanupFacts.

Import PyStr PySort Json Cleanup Store Common Merge ConsolidateFacts EngineFacts
       NoisePhaseFacts BatchFacts IntegrityFacts CandidateFacts CleanupFacts.

(** X20: a dry run of [main] changes no row of the five tables and
    never fails, whatever the store holds. *)
Theorem dry_run_changes_nothing (set_order : list str → list str) (now_iso : str) (d : db) :
  main set_order now_iso d true = Some d.
Proof.
  unfold main, phase_merge, run_merges. rewrite phase_noise_dry_run.
  destruct (run_merges_dry_run set_order now_iso (find_merge_candidates d)
              (Totals 0 0 0 0) d) as [t' ->].
  done.
Qed.

(** X21: the cleanup run keeps the foreign keys of the schema.  When
    relationship ids are distinct and every relationship endpoint, every
    provenance row and every resolution-log row refers to an existing row
    before [main], the same holds of the store it leaves, and the
    orphaned-relationship count of [validate.py] is zero. *)
Theorem main_keeps_foreign_keys (set_order : list str → list str) (now_iso : str)
    (d : db) (dry_run : bool) (d' : db) :
  NoDup (relationship_id <$> relationships d) →
  (∀ r, r ∈ relationships d →
     source_entity_id r ∈ ids_of d ∧ target_entity_id r ∈ ids_of d) →
  (∀ s, s ∈ relationship_sources d →
     of_relationship s ∈ relationship_id <$> relationships d) →
  (∀ l, l ∈ entity_resolution_log d → resolved_to l ∈ ids_of d) →
  main set_order now_iso d dry_run = Some d' →
  NoDup (relationship_id <$> relationships d')
  ∧ (∀ r, r ∈ relationships d' →
       source_entity_id r ∈ ids_of d' ∧ target_entity_id r ∈ ids_of d')
  ∧ (∀ s, s ∈ relationship_sources d' →
       of_relationship s ∈ relationship_id <$> relationships d')
  ∧ (∀ l, l ∈ entity_resolution_log d' → resolved_to l ∈ ids_of d')
  ∧ orphaned d' = 0.
Proof.
  intros H1 H2 H3 H4 H.
  assert (intact d') as Hd'.
  { eapply main_intact; [|exact H]. exact (conj H1 (conj H2 (conj H3 H4))). }
  pose proof (intact_orphaned d' Hd') as Ho.
  destruct Hd' as (I1 & I2 & I3 & I4).
  exact (conj I1 (conj I2 (conj I3 (conj I4 Ho)))).
Qed.

Lemma main_keeps_foreign_keys_witness :
  let d : db :=
    Db [ EntityRow "PER-00001" "person" "Jeffrey Epstein" None None "t0";
         EntityRow "PER-00002" "person" "Epstein, Jeffrey" None None "t0";
         EntityRow "PER-00003" "person" "Larry Visoski" None None "t0";
         EntityRow "PER-00004" "person" "The Court" None None "t0" ]
       [ Rel 1 "PER-00001" "PER-00003" "traveled_with" (Some 1%Z) None;
         Rel 2 "PER-00003" "PER-00002" "traveled_with" (Some 1%Z) None;
         Rel 3 "PER-00001" "PER-00002" "same_as" (Some 1%Z) None;
         Rel 4 "PER-00004" "PER-00002" "mentioned_with" (Some 1%Z) None ]
       [ Src 1 1 "docs"; Src 2 2 "graph"; Src 3 4 "docs" ]
       [ Log 1 "PER-00002" "Epstein, Jeffrey"; Log 2 "PER-00004" "The Court" ] [] in
  ∃ d', main first_seen_order "t1" d false = Some d' ∧ orphaned d' = 0.
Proof.
  intros d.
  destruct (main first_seen_order "t1" d false) as [d'|] eqn:E;
    [|vm_compute in E; discriminate].
  exists d'. split; [done|].
  refine (proj2 (proj2 (proj2 (proj2
            (main_keeps_foreign_keys first_seen_order "t1" d false d' _ _ _ _ E))))).
  - apply NoDup_ListNoDup. vm_compute. repeat (constructor; [cbn; intuition discriminate|]).
    constructor.
  - apply Forall_forall. vm_compute.
    repeat (constructor; [split; solve [repeat first [left | right]]|]). constructor.
  - apply Forall_forall. vm_compute.
    repeat (constructor; [solve [repeat first [left | right]]|]). constructor.
  - apply Forall_forall. vm_compute.
    repeat (constructor; [solve [repeat first [left | right]]|]). constructor.
Defined.

(** X22: the name cleanup of phase 3 renames in place and loses no
    name.  With distinct canonical ids, the run leaves the ids, the
    relationships, the provenance rows, the resolution log and the audit
    table as they were, and every entity keeps its id, type and metadata,
    is named [new_name_of] of its old name, keeps its aliases as a prefix
    of the new alias list, and has its old name covered, letter case aside,
    by the new name or by an alias; a row whose name does not change is
    not written at all. *)
Theorem name_cleanup_keeps_old_name (now_iso : str) (d : db) :
  NoDup (ids_of d) →
  let d' := phase_cleanup now_iso d false in
  ids_of d' = ids_of d
  ∧ relationships d' = relationships d
  ∧ relationship_sources d' = relationship_sources d
  ∧ entity_resolution_log d' = entity_resolution_log d
  ∧ entity_merges d' = entity_merges d
  ∧ ∀ row, row ∈ canonical_entities d →
      ∃ row', row' ∈ canonical_entities d'
        ∧ canonical_id row' = canonical_id row
        ∧ row_type row' = row_type row
        ∧ row_metadata row' = row_metadata row
        ∧ row_name row' = new_name_of (row_name row)
        ∧ default [] (row_aliases row) `prefix_of` default [] (row_aliases row')
        ∧ (lower (row_name row) = lower (row_name row')
           ∨ lower (row_name row) ∈ map lower (default [] (row_aliases row')))
        ∧ (new_name_of (row_name row) = row_name row → row' = row).
Proof.
  intros Hd d'.
  destruct (phase_cleanup_tables now_iso d false) as (E1 & E2 & E3 & E4 & E5).
  split; [done|]. split; [done|]. split; [done|]. split; [done|]. split; [done|].
  intros row Hrow. unfold d', phase_cleanup.
  destruct (rename_all_rows now_iso (find_name_cleanups d) d row Hd
              (find_name_cleanups_ids d Hd) Hrow) as [R1 R2].
  destruct (decide (new_name_of (row_name row) = row_name row)) as [E|E].
  - exists row. split.
    + apply R1. intros [[cid o] n] Hc Hid. cbn in Hid. subst cid.
      apply find_name_cleanups_spec in Hc as (row0 & Hrow0 & Hid0 & <- & -> & Hne).
      assert (Some row0 = Some row) as [= ->]; [|done].
      rewrite <- (fetch_entity_unique d row0 Hd Hrow0), Hid0.
      by apply fetch_entity_unique.
    + rewrite E. repeat split; try done. by left.
  - exists (renamed now_iso row (row_name row) (new_name_of (row_name row))). split.
    + apply R2. apply find_name_cleanups_spec. by exists row.
    + cbn. split; [done|]. split; [done|]. split; [done|]. split; [done|].
      case_bool_decide as C.
      * split; [by apply prefix_app_r|]. split; [|done].
        right. rewrite map_app. apply elem_of_app. right. cbn. by left.
      * split; [done|]. split; [|done].
        apply elem_of_union in C as [C|C%elem_of_singleton].
        -- right. by apply elem_of_list_to_set in C.
        -- by left.
Qed.

Lemma name_cleanup_keeps_old_name_witness :
  let d : db :=
    Db [ EntityRow "PER-00001" "person" "Dr. JEFFREY EPSTEIN" None None "t0";
         EntityRow "PER-00002" "person" "Larry Visoski" (Some (strs ["L. Visoski"])) None "t0" ]
       [ Rel 1 "PER-00001" "PER-00002" "traveled_with" (Some 1%Z) None ] [] [] [] in
  ∃ row', row' ∈ canonical_entities (phase_cleanup "t1" d false)
          ∧ canonical_id row' = ("PER-00001" : str)
          ∧ row_name row' = ("Jeffrey Epstein" : str)
          ∧ ("dr. jeffrey epstein" : str) ∈ map lower (default [] (row_aliases row')).
Proof.
  intros d.
  assert (NoDup (ids_of d)) as Hd.
  { apply NoDup_ListNoDup. vm_compute. repeat (constructor; [cbn; intuition discriminate|]).
    constructor. }
  destruct (name_cleanup_keeps_old_name "t1" d Hd) as (_ & _ & _ & _ & _ & H).
  destruct (H (EntityRow "PER-00001" "person" "Dr. JEFFREY EPSTEIN" None None "t0"))
    as (row' & H1 & H2 & _ & _ & H5 & _ & H7 & _); [vm_compute; left|].
  exists row'. split; [exact H1|]. split; [exact H2|].
  split; [rewrite H5; vm_compute; reflexivity|].
  destruct H7 as [H7|H7]; [rewrite H5 in H7; vm_compute in H7; discriminate H7|exact H7].
Defined.

(** ** The queries of [common.py] *)

Module CommonFacts.
Import PyStr PySort Json Cleanup Store Common Merge ConsolidateFacts EngineFacts
       BatchFacts IntegrityFacts CleanupFacts.

(** *** The order of [sorted] *)

Fixpoint sorted_by {A} (lt : A → A → bool) (l : list A) : Prop :=
match l with
| [] => True
| x :: t => Forall (fun y => lt y x = false) t ∧ sorted_by lt t
end.

Section Sorted.
Context {A : Type}.
Variable lt : A → A → bool.
Hypothesis asym : ∀ x y, lt x y = true → lt y x = false.
Hypothesis ntrans : ∀ x y z, lt y x = false → lt z y = false → lt z x = false.

Lemma insert_sorted_sorted x l : sorted_by lt l → sorted_by lt (insert_sorted lt x l).
Proof.
induction l as [|y l IH]; cbn [insert_sorted sorted_by].
- done.
- intros [Hy Hl]. destruct (lt y x) eqn:E; cbn [sorted_by].
  + split; [|by apply IH]. rewrite insert_sorted_perm. constructor; [by apply asym|done].
  + split; [|done]. constructor; [done|].
    eapply Forall_impl; [exact Hy|]. intros z Hz. cbn in Hz. by eapply ntrans.
Qed.

Lemma stable_sort_sorted l : sorted_by lt (stable_sort lt l).
Proof.
induction l as [|x l IH]; [done|]. unfold stable_sort in *. cbn [fold_right].
by apply insert_sorted_sorted.
Qed.

Lemma sorted_by_take n : ∀ l, sorted_by lt l → sorted_by lt (take n l).
Proof.
induction n as [|n IH]; intros [|x l]; cbn [take sorted_by]; try done.
intros [Hx Hl]. split; [|by apply IH].
eapply Forall_forall. intros y Hy. rewrite Forall_forall in Hx. apply Hx.
by eapply (subseteq_take n l).
Qed.

Lemma sorted_by_lookup l : sorted_by lt l →
∀ i j x y, i < j → l !! i = Some x → l !! j = Some y → lt y x = false.
Proof.
induction l as [|a l IH]; intros Hs i j x y Hij Hi Hj; [done|].
destruct Hs as [Ha Hl]. destruct j as [|j]; [lia|]. cbn in Hj.
destruct i as [|i].
- cbn in Hi. injection Hi as <-. rewrite Forall_forall in Ha. apply Ha.
  by eapply list_elem_of_lookup_2.
- cbn in Hi. eapply (IH Hl i j); [lia|done|done].
Qed.

End Sorted.

Lemma str_ltb_asym a : ∀ b, str_ltb a b = true → str_ltb b a = false.
Proof.
induction a as [|x a IH]; intros [|y b]; cbn [str_ltb]; try done.
destruct (code x <? code y) eqn:E1, (code y <? code x) eqn:E2; try done.
- apply Nat.ltb_lt in E1, E2. lia.
- apply IH.
Qed.

Lemma str_ltb_ntrans a : ∀ b c,
str_ltb b a = false → str_ltb c b = false → str_ltb c a = false.
Proof.
induction a as [|x a IH]; intros [|y b] [|z c]; cbn [str_ltb]; try done.
destruct (code y <? code x) eqn:E1; [done|].
destruct (code x <? code y) eqn:E2.
- intros _. destruct (code z <? code y) eqn:E3; [done|].
  destruct (code y <? code z) eqn:E4.
  + intros _. apply Nat.ltb_lt in E2, E4.
    destruct (code z <? code x) eqn:E5; [apply Nat.ltb_lt in E5; lia|].
    destruct (code x <? code z) eqn:E6; [done|]. apply Nat.ltb_ge in E6. lia.
  + intros _. apply Nat.ltb_lt in E2. apply Nat.ltb_ge in E3, E4.
    destruct (code z <? code x) eqn:E5; [apply Nat.ltb_lt in E5; lia|].
    destruct (code x <? code z) eqn:E6; [done|]. apply Nat.ltb_ge in E6. lia.
- intros Hba. destruct (code z <? code y) eqn:E3; [done|].
  apply Nat.ltb_ge in E1, E2, E3.
  destruct (code y <? code z) eqn:E4.
  + intros _. apply Nat.ltb_lt in E4.
    destruct (code z <? code x) eqn:E5; [apply Nat.ltb_lt in E5; lia|].
    destruct (code x <? code z) eqn:E6; [done|]. apply Nat.ltb_ge in E6. lia.
  + intros Hcb. apply Nat.ltb_ge in E4.
    destruct (code z <? code x) eqn:E5; [apply Nat.ltb_lt in E5; lia|].
    destruct (code x <? code z) eqn:E6; [done|]. by eapply IH.
Qed.

Lemma key_ltb_asym a b : key_ltb a b = true → key_ltb b a = false.
Proof.
unfold key_ltb. destruct (a.1 <? b.1) eqn:E1, (b.1 <? a.1) eqn:E2; try done.
- apply Nat.ltb_lt in E1, E2. lia.
- apply str_ltb_asym.
Qed.

Lemma key_ltb_ntrans a b c :
key_ltb b a = false → key_ltb c b = false → key_ltb c a = false.
Proof.
unfold key_ltb.
destruct (b.1 <? a.1) eqn:E1; [done|]. destruct (a.1 <? b.1) eqn:E2.
- intros _. destruct (c.1 <? b.1) eqn:E3; [done|]. apply Nat.ltb_lt in E2.
  apply Nat.ltb_ge in E3.
  destruct (c.1 <? a.1) eqn:E5; [apply Nat.ltb_lt in E5; lia|].
  destruct (a.1 <? c.1) eqn:E6; [done|]. apply Nat.ltb_ge in E6. lia.
- intros Hba. destruct (c.1 <? b.1) eqn:E3; [done|].
  apply Nat.ltb_ge in E1, E2, E3.
  destruct (b.1 <? c.1) eqn:E4.
  + intros _. apply Nat.ltb_lt in E4.
    destruct (c.1 <? a.1) eqn:E5; [apply Nat.ltb_lt in E5; lia|].
    destruct (a.1 <? c.1) eqn:E6; [done|]. apply Nat.ltb_ge in E6. lia.
  + intros Hcb. apply Nat.ltb_ge in E4.
    destruct (c.1 <? a.1) eqn:E5; [apply Nat.ltb_lt in E5; lia|].
    destruct (a.1 <? c.1) eqn:E6; [done|]. by eapply str_ltb_ntrans.
Qed.

Lemma key_ltb_class a b : key_ltb b a = false → a.1 ≤ b.1.
Proof.
unfold key_ltb. destruct (b.1 <? a.1) eqn:E1; [done|]. apply Nat.ltb_ge in E1. lia.
Qed.

(** *** [load_excluded_ids] *)

Lemma load_excluded_ids_fold (rows : list entity_row) : ∀ (acc : gset str) (cid : str),
cid ∈ fold_left
        (fun (ids : gset str) row =>
           if excluded (default ∅ (row_metadata row)) then ids ∪ {[canonical_id row]}
           else ids) rows acc
↔ cid ∈ acc ∨ ∃ row, row ∈ rows ∧ canonical_id row = cid
                     ∧ excluded (default ∅ (row_metadata row)) = true.
Proof.
induction rows as [|row rows IH]; intros acc cid; cbn [fold_left].
- split; [by left|]. intros [?|(row & ?%elem_of_nil & _)]; done.
- rewrite IH. split.
  + intros [H|(r & Hr & E1 & E2)].
    * destruct (excluded _) eqn:E; [|by left].
      apply elem_of_union in H as [H|H%elem_of_singleton]; [by left|].
      right. exists row. split; [by left|done].
    * right. exists r. split; [by right|done].
  + intros [H|(r & [->|Hr]%elem_of_cons & E1 & E2)].
    * left. destruct (excluded _); [|done]. apply elem_of_union. by left.
    * left. rewrite E2. apply elem_of_union. right. by apply elem_of_singleton.
    * right. by exists r.
Qed.

Lemma load_excluded_ids_spec d (cid : str) :
cid ∈ load_excluded_ids d
↔ ∃ row, row ∈ canonical_entities d ∧ canonical_id row = cid
         ∧ excluded (default ∅ (row_metadata row)) = true.
Proof.
unfold load_excluded_ids. rewrite load_excluded_ids_fold. split; [|by right].
by intros [?%elem_of_empty|?].
Qed.

Lemma excluded_default (m : option meta) :
excluded (default ∅ m) = match m with Some m => excluded m | None => false end.
Proof. by destruct m. Qed.

End CommonFacts.

Import PyStr PySort Json Cleanup Store Common Merge ConsolidateFacts EngineFacts
       BatchFacts IntegrityFacts CleanupFacts CommonFacts.

(** X23: [find_existing_relationship] looks the pair up in both
    directions.  An id it returns belongs to a relationship of the given
    type that joins the two entities one way or the other, it returns
    [None] exactly when no such relationship exists, and swapping the two
    entity ids never changes whether it finds one. *)
Theorem find_existing_relationship_either_direction (d : db) (a b rel_type : str) :
  (∀ rid, find_existing_relationship d a b rel_type = Some rid →
     ∃ r, r ∈ relationships d ∧ relationship_id r = rid ∧ relationship_type r = rel_type
          ∧ ((source_entity_id r = a ∧ target_entity_id r = b)
             ∨ (source_entity_id r = b ∧ target_entity_id r = a)))
  ∧ (find_existing_relationship d a b rel_type = None
     ↔ ∀ r, r ∈ relationships d → relationship_type r = rel_type →
         ¬ ((source_entity_id r = a ∧ target_entity_id r = b)
            ∨ (source_entity_id r = b ∧ target_entity_id r = a)))
  ∧ (find_existing_relationship d a b rel_type = None
     ↔ find_existing_relationship d b a rel_type = None).
Proof.
  assert (∀ x y (r : relationship),
            (((bool_decide (source_entity_id r = x) && bool_decide (target_entity_id r = y))
              || (bool_decide (source_entity_id r = y) && bool_decide (target_entity_id r = x)))
             && bool_decide (relationship_type r = rel_type)) = true
            ↔ relationship_type r = rel_type
              ∧ ((source_entity_id r = x ∧ target_entity_id r = y)
                 ∨ (source_entity_id r = y ∧ target_entity_id r = x))) as P.
  { intros x y r. rewrite andb_true_iff, orb_true_iff, !andb_true_iff, !bool_decide_eq_true.
    tauto. }
  assert (∀ x y, find_existing_relationship d x y rel_type = None
                 ↔ ∀ r, r ∈ relationships d → relationship_type r = rel_type →
                     ¬ ((source_entity_id r = x ∧ target_entity_id r = y)
                        ∨ (source_entity_id r = y ∧ target_entity_id r = x))) as N.
  { intros x y. unfold find_existing_relationship. rewrite fmap_None. split.
    - intros H r Hr Ht Hj. apply list_elem_of_In in Hr.
      pose proof (find_none _ _ H r Hr) as E. cbv beta in E.
      assert (E' := proj2 (P x y r) (conj Ht Hj)). congruence.
    - intros H. destruct (find _ _) as [r|] eqn:E; [|done].
      apply find_some in E as [Hr E]. apply list_elem_of_In in Hr.
      apply P in E as [Ht Hj]. by destruct (H r Hr Ht). }
  split; [|split].
  - intros rid. unfold find_existing_relationship. intros (r & E & ->)%fmap_Some.
    apply find_some in E as [Hr E]. apply list_elem_of_In in Hr.
    apply P in E as [Ht Hj]. by exists r.
  - apply N.
  - rewrite !N. split; intros H r Hr Ht Hj; apply (H r Hr Ht); tauto.
Qed.

(** X24: the two ways of asking whether an entity is excluded from
    analysis agree: with distinct canonical ids, an id is in the set of
    [load_excluded_ids] exactly when [is_excluded_from_analysis] answers
    yes for it; an id that is no canonical id is in neither. *)
Theorem excluded_lookups_agree (d : db) (cid : str) :
  NoDup (ids_of d) →
  (cid ∈ load_excluded_ids d ↔ is_excluded_from_analysis d cid = true)
  ∧ (cid ∉ ids_of d → is_excluded_from_analysis d cid = false).
Proof.
  intros Hd. split.
  - rewrite load_excluded_ids_spec. unfold is_excluded_from_analysis. split.
    + intros (row & Hrow & <- & E). rewrite (fetch_entity_unique d row Hd Hrow).
      by rewrite excluded_default in E.
    + destruct (fetch_entity d cid) as [row|] eqn:F; [|done].
      apply fetch_entity_Some in F as [Hrow Hid]. intros E. exists row.
      by rewrite excluded_default.
  - intros Hn. unfold is_excluded_from_analysis. by rewrite fetch_entity_None.
Qed.

Lemma excluded_lookups_agree_witness :
  let d : db :=
    Db [ EntityRow "PER-00001" "person" "Unknown Person" None
           (Some {[ ("exclude_from_analysis" : str) := JBool true ]}) "t0";
         EntityRow "PER-00002" "person" "Larry Visoski" None None "t0" ] [] [] [] [] in
  ("PER-00001" : str) ∈ load_excluded_ids d
  ↔ is_excluded_from_analysis d "PER-00001" = true.
Proof.
  intros d. apply (excluded_lookups_agree d "PER-00001").
  apply NoDup_ListNoDup. vm_compute. repeat (constructor; [cbn; intuition discriminate|]).
  constructor.
Defined.

(** X25: an entity that [flag_noise_entity] flags is excluded from
    analysis afterwards, by both lookups of [common.py]; the answer for
    every other id, the canonical ids and the relationships are unchanged. *)
Theorem flagged_entity_is_excluded (now_iso : str) (d : db) (cid name reason : str) :
  cid ∈ ids_of d →
  let d' := flag_noise_entity now_iso d cid name reason false in
  is_excluded_from_analysis d' cid = true
  ∧ cid ∈ load_excluded_ids d'
  ∧ (∀ other, other ≠ cid →
       is_excluded_from_analysis d' other = is_excluded_from_analysis d other)
  ∧ ids_of d' = ids_of d
  ∧ relationships d' = relationships d.
Proof.
  intros Hin d'.
  set (meta0 := match fetch_entity d cid with
                | Some row => default ∅ (row_metadata row) | None => ∅ end : meta).
  set (meta1 := <[("exclude_reason" : str) := JStr reason]>
                  (<[("exclude_from_analysis" : str) := JBool true]> meta0)).
  set (f := fun e => EntityRow (canonical_id e) (row_type e) (row_name e)
                               (row_aliases e) (Some meta1) now_iso).
  assert (canonical_entities d' = update_where (has_id cid) f (canonical_entities d)) as Ed by done.
  assert (excluded meta1 = true) as Ex.
  { unfold excluded, meta1. rewrite lookup_insert_ne by done. by rewrite lookup_insert_eq. }
  assert (∀ x, fetch_entity d' x
               = (fun e => if has_id cid e then f e else e) <$> fetch_entity d x) as F.
  { intros x. unfold fetch_entity. rewrite Ed. unfold update_where.
    generalize (canonical_entities d). intros l.
    induction l as [|e t IH]; [done|]. cbn [map find].
    assert (has_id x (if has_id cid e then f e else e) = has_id x e) as ->.
    { by destruct (has_id cid e). }
    destruct (has_id x e); [done|]. apply IH. }
  assert (ids_of d' = ids_of d) as Ei.
  { unfold ids_of. rewrite Ed. by apply ids_update. }
  assert (is_excluded_from_analysis d' cid = true) as E1.
  { unfold is_excluded_from_analysis. rewrite F.
    destruct (fetch_entity d cid) as [row|] eqn:Fr.
    - apply fetch_entity_Some in Fr as [_ Hid]. cbn. unfold has_id.
      rewrite (bool_decide_true _ Hid). done.
    - exfalso. unfold fetch_entity in Fr.
      apply list_elem_of_fmap in Hin as (row & -> & Hrow). apply list_elem_of_In in Hrow.
      pose proof (find_none _ _ Fr row Hrow) as E. unfold has_id in E.
      by rewrite bool_decide_true in E. }
  split; [done|]. split; [|split; [|split; [done|done]]].
  - apply load_excluded_ids_spec. rewrite Ed.
    apply list_elem_of_fmap in Hin as (row & -> & Hrow).
    exists (f row). split; [|done]. unfold update_where. change (map ?g ?l) with (g <$> l).
    apply list_elem_of_fmap. exists row. split; [|done].
    unfold has_id. by rewrite bool_decide_true.
  - intros other Hne. unfold is_excluded_from_analysis. rewrite F.
    destruct (fetch_entity d other) as [row|] eqn:Fr; [|done].
    apply fetch_entity_Some in Fr as [_ Hid]. cbn. unfold has_id.
    rewrite bool_decide_false; [done|]. by rewrite Hid.
Qed.

Lemma flagged_entity_is_excluded_witness :
  let d : db :=
    Db [ EntityRow "PER-00001" "person" "Unknown Person" None None "t0";
         EntityRow "PER-00002" "person" "Larry Visoski" None None "t0" ] [] [] [] [] in
  is_excluded_from_analysis
    (flag_noise_entity "t1" d "PER-00001" "Unknown Person" "unknown_placeholder" false)
    "PER-00001" = true.
Proof.
  intros d.
  refine (proj1 (flagged_entity_is_excluded "t1" d "PER-00001" "Unknown Person"
                   "unknown_placeholder" _)).
  vm_compute. left.
Defined.

(** X26: what [append_relationship_documents] stores.  When the row
    exists and at least one given key is non-empty, every row with that id
    gets the same document list: it has no duplicate and no empty key, at
    most [cap] entries, only keys that were stored before or are given
    now, in the order of [sort_key] (EFTA keys, then DOJ-OGR keys, then
    the rest, each class by upper-cased key); while the list is shorter
    than [cap] no key is dropped; rows with another id and the other
    tables are unchanged. *)
Theorem append_relationship_documents_result (set_order : list str → list str)
    (d : db) (rid : Z) (doc_keys : list str) (cap : nat) (r0 : relationship) :
  (∀ l, NoDup (set_order l) ∧ ∀ x, x ∈ set_order l ↔ x ∈ l) →
  find (rel_is rid) (relationships d) = Some r0 →
  (∃ k, k ∈ doc_keys ∧ k ≠ []) →
  let d' := append_relationship_documents set_order d rid doc_keys cap in
  ∃ merged,
    (∀ r', r' ∈ relationships d' → relationship_id r' = rid →
       source_documents r' = Some merged)
    ∧ NoDup merged
    ∧ length merged ≤ cap
    ∧ (∀ x, x ∈ merged →
         x ≠ [] ∧ (x ∈ default [] (source_documents r0) ∨ x ∈ doc_keys))
    ∧ (∀ i j x y, i < j → merged !! i = Some x → merged !! j = Some y →
         key_ltb (sort_key y) (sort_key x) = false
         ∧ (sort_key x).1 ≤ (sort_key y).1)
    ∧ (length merged < cap →
       ∀ x, x ≠ [] → x ∈ default [] (source_documents r0) ∨ x ∈ doc_keys → x ∈ merged)
    ∧ (∀ r, r ∈ relationships d → relationship_id r ≠ rid → r ∈ relationships d')
    ∧ relationship_id <$> relationships d' = relationship_id <$> relationships d
    ∧ canonical_entities d' = canonical_entities d
    ∧ relationship_sources d' = relationship_sources d
    ∧ entity_resolution_log d' = entity_resolution_log d.
Proof.
  intros Hset Hfind (k & Hk & Hkne). cbv zeta. unfold append_relationship_documents.
  rewrite Hfind.
  assert (k ∈ filter (fun k => nonempty k = true) doc_keys) as Hkin.
  { apply list_elem_of_filter. split; [by apply ResolverFacts.nonempty_true|done]. }
  destruct (filter (fun k => nonempty k = true) doc_keys) as [|k0 ks] eqn:Ek;
    [by apply elem_of_nil in Hkin|].
  cbv iota. rewrite <- Ek. clear Hkin.
  set (existing := filter (fun x => nonempty x = true) (default [] (source_documents r0))
                   ++ filter (fun k => nonempty k = true) doc_keys).
  set (lt := fun x y => key_ltb (sort_key x) (sort_key y)).
  set (sorted := stable_sort lt (set_order existing)).
  assert (∀ x, x ∈ sorted
               ↔ x ≠ [] ∧ (x ∈ default [] (source_documents r0) ∨ x ∈ doc_keys)) as Hin.
  { intros x. unfold sorted. rewrite stable_sort_perm, (proj2 (Hset existing)).
    unfold existing. rewrite elem_of_app, !list_elem_of_filter, !ResolverFacts.nonempty_true.
    tauto. }
  exists (take cap sorted). split; [|split; [|split; [|split; [|split; [|split; [|split]]]]]].
  - intros r'. cbn -[update_where]. intros (r & Hr & ->)%elem_of_update_where.
    unfold rel_is. case_bool_decide as E; [done|]. intros E'. done.
  - eapply sublist_NoDup; [|apply sublist_take]. unfold sorted.
    rewrite stable_sort_perm. apply Hset.
  - rewrite length_take. lia.
  - intros x Hx. apply Hin. by eapply (subseteq_take cap sorted).
  - intros i j x y Hij Hi Hj.
    assert (lt y x = false) as H.
    { eapply (sorted_by_lookup lt (take cap sorted)); [|exact Hij|exact Hi|exact Hj].
      apply sorted_by_take, stable_sort_sorted.
      - intros a b. apply key_ltb_asym.
      - intros a b c. apply key_ltb_ntrans. }
    split; [exact H|]. by apply key_ltb_class.
  - intros Hlen x Hne Hx. rewrite length_take in Hlen.
    rewrite take_ge by lia. apply Hin. done.
  - intros r Hr Hne. cbn -[update_where]. unfold update_where.
    change (map ?g ?l) with (g <$> l). apply list_elem_of_fmap. exists r. split; [|done].
    unfold rel_is. by rewrite bool_decide_false.
  - cbn -[update_where]. split; [|done]. by apply rel_ids_update.
Qed.

Lemma append_relationship_documents_result_witness :
  let d : db :=
    Db [] [ Rel 7 "PER-00001" "PER-00002" "traveled_with" (Some 1%Z)
                (Some (strs ["raw-17"; "DOJ-OGR-00001"])) ] [] [] [] in
  ∃ merged,
    (∀ r', r' ∈ relationships
                  (append_relationship_documents first_seen_order d 7
                     (strs ["EFTA00012"; ""; "raw-17"]) 200) →
           relationship_id r' = 7%Z → source_documents r' = Some merged)
    ∧ NoDup merged ∧ length merged ≤ 200.
Proof.
  intros d.
  destruct (append_relationship_documents_result first_seen_order d 7
              (strs ["EFTA00012"; ""; "raw-17"]) 200
              (Rel 7 "PER-00001" "PER-00002" "traveled_with" (Some 1%Z)
                   (Some (strs ["raw-17"; "DOJ-OGR-00001"]))))
    as (merged & H1 & H2 & H3 & _).
  - intros l. split; [apply NoDup_remove_dups|]. intros x. apply elem_of_remove_dups.
  - vm_compute. reflexivity.
  - exists (("EFTA00012" : string) : str). split; [vm_compute; left|discriminate].
  - exists merged. split; [exact H1|]. split; [exact H2|exact H3].
Defined.

(** ** The match key *)

Module KeyFacts.
Import PyStr Re Names Cleanup PyStrFacts ReFacts CharFacts TitleFacts.

Lemma join_chars ws c : c ∈ join " " ws → c = " "%char ∨ ∃ w, w ∈ ws ∧ c ∈ w.
Proof.
induction ws as [|w ws IH]; [by intros ?%elem_of_nil|].
destruct ws as [|w' ws].
- cbn. intros H. right. exists w. split; [by left|done].
- change (join " " (w :: w' :: ws)) with (w ++ " " ++ join " " (w' :: ws)).
  rewrite !elem_of_app. intros [H|[H|H]].
  + right. exists w. split; [by left|done].
  + left. cbn in H. apply elem_of_cons in H as [->|H%elem_of_nil]; done.
  + destruct (IH H) as [->|(w0 & Hw0 & Hc)]; [by left|].
    right. exists w0. split; [by right|done].
Qed.

Lemma split_chars s w c : w ∈ split s → c ∈ w → c ∈ s ∧ isspace c = false.
Proof.
intros Hw Hc. pose proof (split_words s) as Hs. rewrite Forall_forall in Hs.
destruct (Hs w Hw) as [_ Hsolid]. unfold solid in Hsolid. rewrite Forall_forall in Hsolid.
split; [|by apply Hsolid].
assert (c ∈ ink (join " " (split s))) as H.
{ unfold ink. apply list_elem_of_filter. split; [by apply Hsolid|].
  clear Hs Hsolid. induction (split s) as [|w0 ws IH]; [by apply elem_of_nil in Hw|].
  destruct ws as [|w1 ws].
  - apply elem_of_cons in Hw as [->|Hw%elem_of_nil]; done.
  - change (join " " (w0 :: w1 :: ws)) with (w0 ++ " " ++ join " " (w1 :: ws)).
    rewrite !elem_of_app. apply elem_of_cons in Hw as [->|Hw]; [by left|].
    right. right. by apply IH. }
rewrite ink_join_split in H. unfold ink in H. by apply list_elem_of_filter in H as [_ H].
Qed.

Lemma strip_chars s c : c ∈ strip s → c ∈ s.
Proof.
unfold strip, rstrip. intros H. apply list_elem_of_In, in_rev, list_elem_of_In in H.
pose proof (elem_of_suffix _ _ _ H (lstrip_suffix (rev (lstrip s)))) as H1.
apply list_elem_of_In, in_rev, list_elem_of_In in H1.
exact (elem_of_suffix _ _ _ H1 (lstrip_suffix s)).
Qed.

Lemma sub_go_cls (p : ascii → bool) (s : str) : ∀ fuel must pv,
length s < fuel →
sub_go fuel (Cls p) [] must (Pos pv s) = filter (fun x => p x = false) s.
Proof.
induction s as [|x xs IH]; intros fuel must pv Hf; (destruct fuel as [|fuel]; [cbn in Hf; lia|]).
- done.
- cbn [sub_go run rest]. cbn in Hf. destruct (p x) eqn:E.
  + assert (shorter (Pos (Some x) xs) (Pos pv (x :: xs)) = true) as Hs.
    { unfold shorter. cbn [rest length]. apply Nat.ltb_lt. lia. }
    rewrite Hs. destruct must; rewrite ?Hs; cbn [app];
      rewrite IH by lia; by rewrite filter_cons_False by (by rewrite E).
  + rewrite IH by lia. by rewrite filter_cons_True.
Qed.

Lemma sub_cls (p : ascii → bool) (s : str) :
sub (Cls p) [] s = filter (fun x => p x = false) s.
Proof. unfold sub, start. apply sub_go_cls. lia. Qed.

Lemma drop_middle_initials_sub words w : w ∈ drop_middle_initials words → w ∈ words.
Proof.
unfold drop_middle_initials. change (map ?f ?l) with (f <$> l).
intros ([i w'] & -> & [_ H]%list_elem_of_filter)%list_elem_of_fmap. cbn.
apply list_elem_of_lookup_1 in H as [j H]. rewrite list_lookup_imap in H.
destruct (words !! j) as [w0|] eqn:E; [|done]. cbn in H. injection H as _ <-.
by eapply list_elem_of_lookup_2.
Qed.

End KeyFacts.

Import PyStr Re Names Cleanup PyStrFacts ReFacts CharFacts TitleFacts KeyFacts.

(** X27: the match key of [clean_name_for_matching] is in a fixed
    form whatever the name: words joined by single spaces with no space at
    either end, and every other character is no white space, is left
    unchanged by [lower], and is neither a dot, a comma nor a hyphen. *)
Theorem clean_name_for_matching_form (name : str) :
  let key := clean_name_for_matching name in
  join " " (split key) = key
  ∧ strip key = key
  ∧ ∀ c, c ∈ key →
      c = " "%char
      ∨ (isspace c = false ∧ lower_c c = c
         ∧ c ≠ "."%char ∧ c ≠ ","%char ∧ c ≠ "-"%char).
Proof.
  intros key. split; [apply join_split_idem|]. split; [apply strip_join_split|].
  intros c Hc. unfold key, clean_name_for_matching in Hc.
  apply join_chars in Hc as [->|(w & Hw & Hc)]; [by left|]. right.
  destruct (split_chars _ _ _ Hw Hc) as [Hc1 Hsp]. split; [done|].
  apply join_chars in Hc1 as [->|(w1 & Hw1 & Hc1)]; [done|].
  match type of Hw1 with
  | w1 ∈ (if _ then drop_middle_initials ?ws else ?ws) =>
      assert (w1 ∈ ws) as Hw2
        by (destruct (3 <=? length ws); [by apply drop_middle_initials_sub|done])
  end.
  clear Hw1.
  match type of Hw2 with
  | w1 ∈ match split ?s with _ => _ end =>
      assert (w1 ∈ split s) as Hw3;
      [revert Hw2; generalize (split s); intros ws0 Hw2;
       destruct ws0 as [|a [|b [|b' ws0]]]; try done;
       destruct (str_eqb a b); [by right|done]|]
  end.
  clear Hw2. destruct (split_chars _ _ _ Hw3 Hc1) as [Hc2 _].
  unfold replace_c in Hc2. change (map ?f ?l) with (f <$> l) in Hc2.
  apply list_elem_of_fmap in Hc2 as (c0 & E & Hc0).
  case_bool_decide as Eh; [subst c; done|]. subst c0.
  rewrite sub_cls in Hc0. apply list_elem_of_filter in Hc0 as [Hp Hc0].
  apply orb_false_iff in Hp as [Hp1 Hp2].
  apply bool_decide_eq_false in Hp1, Hp2.
  apply strip_chars in Hc0. unfold lower in Hc0. change (map ?f ?l) with (f <$> l) in Hc0.
  apply list_elem_of_fmap in Hc0 as (c0 & -> & _).
  split; [apply lower_c_idem|]. done.
Qed.
